(** * SimSIMD: a shallow embedding of the kernels of [include/simsimd/simsimd.h]

    The header is a flat catalogue of leaf functions, one per metric, element
    type and instruction set.  Every kernel is one loop over two read-only
    buffers followed by a horizontal reduction.  The embedding keeps that
    shape:

    - [size_t] is a [Z] with the wrap-around of 64-bit arithmetic written out;
    - a pointer is the region that can be read through it, a partial map from
      element index to element ([buffer]); a load outside the region is
      undefined behaviour in C and is reported as [Fault], and so is an
      aligned load from an address that is not aligned;
    - a vector register is the list of its lanes, a scalable predicate
      register is the list of its per-byte bits;
    - a loop is run with fuel; running out of fuel is reported as [Timeout];
    - the arithmetic of [float32_t] and [float16_t] is a record [arith], with
      the IEEE 754 binary formats of [SpecFloat] as its instances. *)

From Stdlib Require Import ZArith List Bool Lia.
From Stdlib Require Import Floats.SpecFloat.
Import ListNotations.
Local Open Scope Z_scope.

(** ** Machine integers *)

Definition wrap64 (x : Z) : Z := x mod 2 ^ 64.
Definition wrap16 (x : Z) : Z := x mod 2 ^ 16.
Definition wrap8 (x : Z) : Z := x mod 2 ^ 8.

(** Number of set bits among the low [w] bits of [x]. *)
Fixpoint popcount (w : nat) (x : Z) : Z :=
  match w with
  | O => 0
  | S w' => Z.b2z (Z.odd x) + popcount w' (Z.div2 x)
  end.

(** ** Results of a call *)

Inductive outcome (A : Type) : Type :=
| Done (v : A)
| Fault
| Timeout.
Arguments Done {A} v.
Arguments Fault {A}.
Arguments Timeout {A}.

Definition outcome_map {A B} (f : A -> B) (o : outcome A) : outcome B :=
  match o with
  | Done v => Done (f v)
  | Fault => Fault
  | Timeout => Timeout
  end.

(** ** Buffers *)

(** [a i] is what [a[i]] reads, [None] when the element lies outside every
    object reachable through the pointer. *)
Definition buffer (A : Type) : Type := Z -> option A.

Definition of_list {A} (l : list A) : buffer A :=
  fun i => if i <? 0 then None else nth_error l (Z.to_nat i).

(** Memory in which every address can be read. *)
Definition flat {A} (x : A) : buffer A := fun _ => Some x.

(** The first [length l] elements read through [a] are those of [l]. *)
Definition holds {A} (a : buffer A) (l : list A) : Prop :=
  forall (k : nat) (x : A), nth_error l k = Some x -> a (Z.of_nat k) = Some x.

(** The elements of index [0 .. n-1] can be read through [a]. *)
Definition covers {A} (a : buffer A) (n : Z) : Prop :=
  forall i, 0 <= i < n -> a i <> None.

(** [n] consecutive elements starting at [a + i]. *)
Fixpoint load {A} (a : buffer A) (i : Z) (n : nat) : option (list A) :=
  match n with
  | O => Some []
  | S n' =>
      match a i, load a (i + 1) n' with
      | Some x, Some xs => Some (x :: xs)
      | _, _ => None
      end
  end.

(** Two loads followed by a computation on what they read. *)
Definition bind2 {A B} (x y : option A) (k : A -> A -> B) : option B :=
  match x, y with
  | Some u, Some v => Some (k u v)
  | _, _ => None
  end.

(** ** Loops *)

Section Loops.
Context {St : Type}.

(** [for (size_t i = 0; i != n; i += step) s = body(i, s);] entered at [i]. *)
Fixpoint for_ne (fuel : nat) (step n : Z) (body : Z -> St -> option St)
         (i : Z) (s : St) : outcome St :=
  if i =? n then Done s
  else
    match fuel with
    | O => Timeout
    | S fuel' =>
        match body i s with
        | None => Fault
        | Some s' => for_ne fuel' step n body (wrap64 (i + step)) s'
        end
    end.

(** [do { s = body(pg, i, s); i += inc; pg = next(i); } while (test(pg));]
    entered at [i] with predicate [pg]. *)
Fixpoint do_while {Pg : Type} (fuel : nat) (inc : Z) (next : Z -> Pg)
         (test : Pg -> bool) (body : Pg -> Z -> St -> option St)
         (i : Z) (pg : Pg) (s : St) : outcome St :=
  match fuel with
  | O => Timeout
  | S fuel' =>
      match body pg i s with
      | None => Fault
      | Some s' =>
          let i' := wrap64 (i + inc) in
          let pg' := next i' in
          if test pg' then do_while fuel' inc next test body i' pg' s'
          else Done s'
      end
  end.
End Loops.

(** ** Scalar arithmetic of the lane types *)

(** The operations the kernels apply to [float32_t] and [float16_t] values.
    [fma x y z] is [x * y + z] with a single rounding. *)
Record arith : Type := {
  num : Type;
  zero : num;
  add : num -> num -> num;
  sub : num -> num -> num;
  mul : num -> num -> num;
  fma : num -> num -> num -> num;
  div : num -> num -> num;
  sqrt : num -> num
}.

(** Fused multiply-add of IEEE 754 in round-to-nearest-even, in the style of
    the other operations of [SpecFloat]: the exact product and the addend
    are aligned on a common exponent and their sum is rounded once. *)
Definition SFfma (prec emax : Z) (x y z : spec_float) : spec_float :=
  match x, y with
  | S754_nan, _ | _, S754_nan => S754_nan
  | S754_infinity _, S754_zero _ | S754_zero _, S754_infinity _ => S754_nan
  | S754_infinity sx, S754_infinity sy
  | S754_infinity sx, S754_finite sy _ _
  | S754_finite sx _ _, S754_infinity sy =>
      match z with
      | S754_nan => S754_nan
      | S754_infinity sz => if Bool.eqb (xorb sx sy) sz then z else S754_nan
      | _ => S754_infinity (xorb sx sy)
      end
  | S754_finite sx _ _, S754_zero sy
  | S754_zero sx, S754_finite sy _ _
  | S754_zero sx, S754_zero sy =>
      match z with
      | S754_nan => S754_nan
      | S754_zero sz => if Bool.eqb (xorb sx sy) sz then z else S754_zero false
      | _ => z
      end
  | S754_finite sx mx ex, S754_finite sy my ey =>
      match z with
      | S754_nan => S754_nan
      | S754_infinity _ => z
      | S754_zero _ => SFmul prec emax x y
      | S754_finite sz mz ez =>
          let sp := xorb sx sy in
          let mp := Pos.mul mx my in
          let ep := Z.add ex ey in
          let e := Z.min ep ez in
          binary_normalize prec emax
            (Z.add (cond_Zopp sp (Zpos (fst (shl_align mp ep e))))
                   (cond_Zopp sz (Zpos (fst (shl_align mz ez e)))))
            e (if Bool.eqb sp sz then sp else false)
      end
  end.

(** The binary format with [prec] bits of mantissa and infinities at
    exponent [emax]. *)
Definition ieee (prec emax : Z) : arith := {|
  num := spec_float;
  zero := S754_zero false;
  add := SFadd prec emax;
  sub := SFsub prec emax;
  mul := SFmul prec emax;
  fma := SFfma prec emax;
  div := SFdiv prec emax;
  sqrt := SFsqrt prec emax
|}.

Definition binary32 : arith := ieee 24 128.
Definition binary16 : arith := ieee 11 16.

(** The value of an integer in a binary format. *)
Definition SFofZ (prec emax : Z) (n : Z) : spec_float :=
  binary_normalize prec emax n 0 false.

Definition is_nan (x : spec_float) : bool :=
  match x with S754_nan => true | _ => false end.

Definition is_inf (x : spec_float) : bool :=
  match x with S754_infinity _ => true | _ => false end.

Definition is_zero (x : spec_float) : bool :=
  match x with S754_zero _ => true | _ => false end.

(** Neither an infinity nor a NaN. *)
Definition is_finite (x : spec_float) : bool :=
  match x with S754_zero _ | S754_finite _ _ _ => true | _ => false end.

(** Exact arithmetic on the integers, for comparison. *)
Definition exactZ : arith := {|
  num := Z;
  zero := 0;
  add := Z.add;
  sub := Z.sub;
  mul := Z.mul;
  fma := fun x y z => x * y + z;
  div := Z.div;
  sqrt := Z.sqrt
|}.

(** ** Lane-wise operations *)

(** Lane-wise binary operation, and its predicated form: an inactive lane
    keeps the lane of the first operand. *)
Fixpoint zip {A} (f : A -> A -> A) (v1 v2 : list A) : list A :=
  match v1, v2 with
  | x :: v1', y :: v2' => f x y :: zip f v1' v2'
  | _, _ => []
  end.

Fixpoint zip_m {A} (f : A -> A -> A) (m : list bool) (v1 v2 : list A) : list A :=
  match m, v1, v2 with
  | p :: m', x :: v1', y :: v2' =>
      (if p then f x y else x) :: zip_m f m' v1' v2'
  | _, _, _ => []
  end.

Fixpoint zip3 {A} (f : A -> A -> A -> A) (v1 v2 v3 : list A) : list A :=
  match v1, v2, v3 with
  | x :: v1', y :: v2', z :: v3' => f x y z :: zip3 f v1' v2' v3'
  | _, _, _ => []
  end.

Fixpoint zip3_m {A} (f : A -> A -> A -> A) (m : list bool) (v1 v2 v3 : list A)
  : list A :=
  match m, v1, v2, v3 with
  | p :: m', x :: v1', y :: v2', z :: v3' =>
      (if p then f x y z else x) :: zip3_m f m' v1' v2' v3'
  | _, _, _, _ => []
  end.

Fixpoint map_m {A} (f : A -> A) (m : list bool) (v : list A) : list A :=
  match m, v with
  | p :: m', x :: v' => (if p then f x else x) :: map_m f m' v'
  | _, _ => []
  end.

(** Predicated contiguous load: an active lane reads its element, an
    inactive lane reads nothing and is set to [z]. *)
Fixpoint load_m {A} (z : A) (m : list bool) (a : buffer A) (i : Z)
  : option (list A) :=
  match m with
  | [] => Some []
  | p :: m' =>
      match (if p then a i else Some z), load_m z m' a (i + 1) with
      | Some x, Some xs => Some (x :: xs)
      | _, _ => None
      end
  end.

(** Sum of the active lanes. *)
Fixpoint sum_m (m : list bool) (v : list Z) : Z :=
  match m, v with
  | p :: m', x :: v' => (if p then x else 0) + sum_m m' v'
  | _, _ => 0
  end.

(** Sums of adjacent pairs of lanes. *)
Fixpoint pairs {A} (f : A -> A -> A) (v : list A) : list A :=
  match v with
  | x :: y :: v' => f x y :: pairs f v'
  | _ => []
  end.

(** Little-endian value of a sequence of bytes. *)
Fixpoint le_combine (l : list Z) : Z :=
  match l with
  | [] => 0
  | h :: t => h + 256 * le_combine t
  end.

(** Pairwise reduction of [2 ^ depth] lanes; lanes that are missing count
    as [+0.0]. *)
Fixpoint reduce_tree (ar : arith) (depth : nat) (v : list (num ar)) : num ar :=
  match depth with
  | O => hd (zero ar) v
  | S k =>
      add ar (reduce_tree ar k (firstn (2 ^ k) v))
             (reduce_tree ar k (skipn (2 ^ k) v))
  end.

(** The scalar tail [ab / (sqrt(a2) * sqrt(b2))] of the cosine kernels,
    evaluated in the arithmetic [ar].  C evaluates it in [double] and rounds
    the quotient to [float32_t], C++ picks the [float] overload of [sqrt];
    zeros, infinities and NaNs are the same either way. *)
Definition cos_tail (ar : arith) (ab a2 b2 : num ar) : num ar :=
  div ar ab (mul ar (sqrt ar a2) (sqrt ar b2)).

(** ** The scalable vector extension *)

(** A predicate register holds one bit per byte of a vector register.  An
    element of [esz] bytes is governed by the lowest of its [esz] bits. *)
Definition svbool_t : Type := list bool.

(** The [_x] forms of the intrinsics leave the value of the inactive lanes
    to the compiler ("don't care").  The compiler implements such a call
    with a merging instruction of the operation, which overwrites one of
    its operand registers and leaves the inactive lanes of that register
    as they are.  For a subtraction it is [FSUB] (the first operand is
    overwritten) or [FSUBR] (the second); for a multiply-accumulate it is
    [FMLA] (the accumulator is overwritten) or [FMAD] (a multiplicand is,
    the first one or, with the multiplicands exchanged, the second).  Every
    [_x] call of a kernel takes the choice made for it as a parameter, and
    what is proved of a kernel is proved for every choice.  (An instruction
    that zeroes the inactive lanes gives what [FSUB] and [FMAD] give in
    these kernels, whose operands come from predicated loads with [+0.0]
    in their inactive lanes.) *)
Inductive sub_form : Type := FSUB | FSUBR.
Inductive mla_form : Type := FMLA | FMAD | FMAD_swapped.

Section SVE.
(** The number of bytes of a vector register, [svcntb()]; the architecture
    allows the multiples of 16 up to 256. *)
Variable vl : nat.

Definition svcntb : Z := Z.of_nat vl.
Definition svcnth : Z := Z.of_nat (vl / 2).
Definition svcntw : Z := Z.of_nat (vl / 4).

Definition svwhilelt_b8 (i d : Z) : svbool_t :=
  map (fun p => i + Z.of_nat p <? d) (seq 0 vl).

Definition svwhilelt_b16 (i d : Z) : svbool_t :=
  map (fun p => Nat.eqb (p mod 2) 0 && (i + Z.of_nat (p / 2) <? d)) (seq 0 vl).

Definition svwhilelt_b32 (i d : Z) : svbool_t :=
  map (fun p => Nat.eqb (p mod 4) 0 && (i + Z.of_nat (p / 4) <? d)) (seq 0 vl).

Definition svptrue_b16 : svbool_t :=
  map (fun p => Nat.eqb (p mod 2) 0) (seq 0 vl).

Definition svptrue_b32 : svbool_t :=
  map (fun p => Nat.eqb (p mod 4) 0) (seq 0 vl).

(** [svptest_any(pg, op)]: some bit of [op] is set where [pg] is. *)
Definition svptest_any (pg op : svbool_t) : bool :=
  existsb (fun '(g, o) => g && o) (combine pg op).

(** The bits of [pg] that govern the lanes of [esz] bytes. *)
Definition lane_mask (esz : nat) (pg : svbool_t) : list bool :=
  map (fun k => nth (esz * k) pg false) (seq 0 (vl / esz)).

(** *** Byte lanes *)

(** [svdupq_n] fills every 128-bit quadword of the register with the same
    sixteen bytes. *)
Definition svdupq_n {A} (quad : list A) : list A := concat (repeat quad (vl / 16)).

Definition svdupq_n_u8 (x0 x1 x2 x3 x4 x5 x6 x7 x8 x9 x10 x11 x12 x13 x14 x15 : Z)
  : list Z :=
  svdupq_n [x0; x1; x2; x3; x4; x5; x6; x7; x8; x9; x10; x11; x12; x13; x14; x15].

Definition svld1_u8 (pg : svbool_t) (a : buffer Z) (i : Z) : option (list Z) :=
  load_m 0 (lane_mask 1 pg) a i.

Definition sveor_u8_m (pg : svbool_t) (v1 v2 : list Z) : list Z :=
  zip_m Z.lxor (lane_mask 1 pg) v1 v2.

(** [CNT] is a merging instruction; the kernel passes the result to
    [svadd_u8_m] under the same predicate, which never looks at its
    inactive lanes. *)
Definition svcnt_u8_x (pg : svbool_t) (v : list Z) : list Z :=
  map_m (popcount 8) (lane_mask 1 pg) v.

Definition svadd_u8_m (pg : svbool_t) (v1 v2 : list Z) : list Z :=
  zip_m (fun x y => wrap8 (x + y)) (lane_mask 1 pg) v1 v2.

(** [UADDV] adds the active byte lanes into a 64-bit scalar. *)
Definition svaddv_u8 (pg : svbool_t) (v : list Z) : Z :=
  wrap64 (sum_m (lane_mask 1 pg) v).

(** *** Floating-point lanes of [esz] bytes *)

Section SVEFloat.
Variable ar : arith.
Variable esz : nat.

Definition svld1 (pg : svbool_t) (a : buffer (num ar)) (i : Z)
  : option (list (num ar)) :=
  load_m (zero ar) (lane_mask esz pg) a i.

(** [svsub_x(pg, x, y)] is [x - y] in the active lanes; an inactive lane
    keeps the lane of the register the instruction overwrites. *)
Definition svsub_x (form : sub_form) (pg : svbool_t) (v1 v2 : list (num ar))
  : list (num ar) :=
  match form with
  | FSUB => zip_m (sub ar) (lane_mask esz pg) v1 v2
  | FSUBR => zip_m (fun y x => sub ar x y) (lane_mask esz pg) v2 v1
  end.

(** [svmla_x(pg, acc, x, y)] is [acc + x * y], fused, in the active lanes;
    an inactive lane keeps the lane of the register the instruction
    overwrites. *)
Definition svmla_x (form : mla_form) (pg : svbool_t) (acc v1 v2 : list (num ar))
  : list (num ar) :=
  match form with
  | FMLA => zip3_m (fun c x y => fma ar x y c) (lane_mask esz pg) acc v1 v2
  | FMAD => zip3_m (fun x y c => fma ar x y c) (lane_mask esz pg) v1 v2 acc
  | FMAD_swapped => zip3_m (fun y x c => fma ar x y c) (lane_mask esz pg) v2 v1 acc
  end.

(** [FADDV]: the inactive lanes are replaced by [+0.0], the vector is
    padded to a power of two and reduced pairwise. *)
Definition svaddv (pg : svbool_t) (v : list (num ar)) : num ar :=
  reduce_tree ar (Nat.log2_up (vl / esz))
    (map_m (fun _ => zero ar) (map negb (lane_mask esz pg)) v).
End SVEFloat.

(** *** The kernels *)

Section SVEKernels.
Variable ar : arith.
Let F : Type := num ar.

(** The 32-bit and the 16-bit instances of the floating-point operations. *)
Definition svdupq_n_f32 (x0 x1 x2 x3 : F) : list F := svdupq_n [x0; x1; x2; x3].
Definition svld1_f32 : svbool_t -> buffer F -> Z -> option (list F) := svld1 ar 4.
Definition svsub_f32_x : sub_form -> svbool_t -> list F -> list F -> list F :=
  svsub_x ar 4.
Definition svmla_f32_x
  : mla_form -> svbool_t -> list F -> list F -> list F -> list F :=
  svmla_x ar 4.
Definition svaddv_f32 : svbool_t -> list F -> F := svaddv ar 4.

Definition svdupq_n_f16 (x0 x1 x2 x3 x4 x5 x6 x7 : F) : list F :=
  svdupq_n [x0; x1; x2; x3; x4; x5; x6; x7].
Definition svld1_f16 : svbool_t -> buffer F -> Z -> option (list F) := svld1 ar 2.
Definition svsub_f16_x : sub_form -> svbool_t -> list F -> list F -> list F :=
  svsub_x ar 2.
Definition svmla_f16_x
  : mla_form -> svbool_t -> list F -> list F -> list F -> list F :=
  svmla_x ar 2.
Definition svaddv_f16 : svbool_t -> list F -> F := svaddv ar 2.

Definition simsimd_dot_f32sve (f_mla : mla_form) (fuel : nat) (a b : buffer F)
           (d : Z) : outcome F :=
  let ab_vec := svdupq_n_f32 (zero ar) (zero ar) (zero ar) (zero ar) in
  let pg_vec := svwhilelt_b32 0 d in
  outcome_map (fun ab_vec => svaddv_f32 svptrue_b32 ab_vec)
    (do_while fuel svcntw (fun i => svwhilelt_b32 i d) (svptest_any svptrue_b32)
       (fun pg_vec i ab_vec =>
          bind2 (svld1_f32 pg_vec a i) (svld1_f32 pg_vec b i)
            (fun a_vec b_vec =>
               svmla_f32_x f_mla pg_vec ab_vec a_vec b_vec))
       0 pg_vec ab_vec).

Definition simsimd_dot_f16sve (f_mla : mla_form) (fuel : nat) (a b : buffer F)
           (d : Z) : outcome F :=
  let ab_vec := svdupq_n_f16 (zero ar) (zero ar) (zero ar) (zero ar)
                             (zero ar) (zero ar) (zero ar) (zero ar) in
  let pg_vec := svwhilelt_b16 0 d in
  outcome_map (fun ab_vec => svaddv_f16 svptrue_b16 ab_vec)
    (do_while fuel svcnth (fun i => svwhilelt_b16 i d) (svptest_any svptrue_b16)
       (fun pg_vec i ab_vec =>
          bind2 (svld1_f16 pg_vec a i) (svld1_f16 pg_vec b i)
            (fun a_vec b_vec =>
               svmla_f16_x f_mla pg_vec ab_vec a_vec b_vec))
       0 pg_vec ab_vec).

Definition simsimd_cos_f32sve (f_ab f_a2 f_b2 : mla_form) (fuel : nat)
           (a b : buffer F) (d : Z) : outcome F :=
  let ab_vec := svdupq_n_f32 (zero ar) (zero ar) (zero ar) (zero ar) in
  let a2_vec := svdupq_n_f32 (zero ar) (zero ar) (zero ar) (zero ar) in
  let b2_vec := svdupq_n_f32 (zero ar) (zero ar) (zero ar) (zero ar) in
  let pg_vec := svwhilelt_b32 0 d in
  outcome_map
    (fun '(ab_vec, a2_vec, b2_vec) =>
       let ab := svaddv_f32 svptrue_b32 ab_vec in
       let a2 := svaddv_f32 svptrue_b32 a2_vec in
       let b2 := svaddv_f32 svptrue_b32 b2_vec in
       cos_tail ar ab a2 b2)
    (do_while fuel svcntw (fun i => svwhilelt_b32 i d) (svptest_any svptrue_b32)
       (fun pg_vec i '(ab_vec, a2_vec, b2_vec) =>
          bind2 (svld1_f32 pg_vec a i) (svld1_f32 pg_vec b i)
            (fun a_vec b_vec =>
               (svmla_f32_x f_ab pg_vec ab_vec a_vec b_vec,
                svmla_f32_x f_a2 pg_vec a2_vec a_vec a_vec,
                svmla_f32_x f_b2 pg_vec b2_vec b_vec b_vec)))
       0 pg_vec (ab_vec, a2_vec, b2_vec)).

Definition simsimd_euclidean_f32sve (f_sub : sub_form) (f_mla : mla_form)
           (fuel : nat) (a b : buffer F) (d : Z) : outcome F :=
  let d2_vec := svdupq_n_f32 (zero ar) (zero ar) (zero ar) (zero ar) in
  let pg_vec := svwhilelt_b32 0 d in
  outcome_map (fun d2_vec => sqrt ar (svaddv_f32 svptrue_b32 d2_vec))
    (do_while fuel svcntw (fun i => svwhilelt_b32 i d) (svptest_any svptrue_b32)
       (fun pg_vec i d2_vec =>
          bind2 (svld1_f32 pg_vec a i) (svld1_f32 pg_vec b i)
            (fun a_vec b_vec =>
               let a_minus_b_vec := svsub_f32_x f_sub pg_vec a_vec b_vec in
               svmla_f32_x f_mla pg_vec d2_vec a_minus_b_vec a_minus_b_vec))
       0 pg_vec d2_vec).

Definition simsimd_euclidean_f16sve (f_sub : sub_form) (f_mla : mla_form)
           (fuel : nat) (a b : buffer F) (d : Z) : outcome F :=
  let d2_vec := svdupq_n_f16 (zero ar) (zero ar) (zero ar) (zero ar)
                             (zero ar) (zero ar) (zero ar) (zero ar) in
  let pg_vec := svwhilelt_b16 0 d in
  outcome_map (fun d2_vec => sqrt ar (svaddv_f16 svptrue_b16 d2_vec))
    (do_while fuel svcnth (fun i => svwhilelt_b16 i d) (svptest_any svptrue_b16)
       (fun pg_vec i d2_vec =>
          bind2 (svld1_f16 pg_vec a i) (svld1_f16 pg_vec b i)
            (fun a_vec b_vec =>
               let a_minus_b_vec := svsub_f16_x f_sub pg_vec a_vec b_vec in
               svmla_f16_x f_mla pg_vec d2_vec a_minus_b_vec a_minus_b_vec))
       0 pg_vec d2_vec).
End SVEKernels.

(** The first predicate is built over byte lanes and counts [d] in bytes;
    the counter advances by [svcntb() * __CHAR_BIT__]; the later predicates
    and the final reduction use the 32-bit pattern, which governs every
    fourth byte lane. *)
Definition simsimd_hamming_u1x8sve (fuel : nat) (a b : buffer Z) (d : Z)
  : outcome Z :=
  let d_vec := svdupq_n_u8 0 0 0 0 0 0 0 0 0 0 0 0 0 0 0 0 in
  let pg_vec := svwhilelt_b8 0 d in
  outcome_map (fun d_vec => svaddv_u8 svptrue_b32 d_vec)
    (do_while fuel (svcntb * 8) (fun i => svwhilelt_b32 i d)
       (svptest_any svptrue_b32)
       (fun pg_vec i d_vec =>
          bind2 (svld1_u8 pg_vec a i) (svld1_u8 pg_vec b i)
            (fun a_vec b_vec =>
               let a_xor_b_vec := sveor_u8_m pg_vec a_vec b_vec in
               svadd_u8_m pg_vec d_vec (svcnt_u8_x pg_vec a_xor_b_vec)))
       0 pg_vec d_vec).
End SVE.

(** ** The fixed-width 128-bit extension (NEON) *)

Definition vdupq_n_u8 (x : Z) : list Z := repeat x 16.
Definition vld1q_u8 (a : buffer Z) (i : Z) : option (list Z) := load a i 16.
Definition veorq_u8 (v1 v2 : list Z) : list Z := zip Z.lxor v1 v2.
Definition vcntq_u8 (v : list Z) : list Z := map (popcount 8) v.
Definition vaddq_u8 (v1 v2 : list Z) : list Z :=
  zip (fun x y => wrap8 (x + y)) v1 v2.

(** [vaddvq_u8] returns a [uint8_t]. *)
Definition vaddvq_u8 (v : list Z) : Z := wrap8 (fold_right Z.add 0 v).

Section NEON.
Variable ar : arith.
Let F : Type := num ar.

Definition vdupq_n_f32 (x : F) : list F := repeat x 4.
Definition vld1q_f32 (a : buffer F) (i : Z) : option (list F) := load a i 4.

(** [vmlaq_f32(acc, x, y)] is [acc + x * y], the product rounded before
    the sum. *)
Definition vmlaq_f32 (acc v1 v2 : list F) : list F :=
  zip3 (fun c x y => add ar c (mul ar x y)) acc v1 v2.

(** [vaddvq_f32] adds pairwise: [(v0 + v1) + (v2 + v3)]. *)
Definition vaddvq_f32 (v : list F) : F := reduce_tree ar 2 v.

Definition simsimd_dot_f32x4neon (fuel : nat) (a b : buffer F) (d : Z)
  : outcome F :=
  let ab_vec := vdupq_n_f32 (zero ar) in
  outcome_map vaddvq_f32
    (for_ne fuel 4 d
       (fun i ab_vec =>
          bind2 (vld1q_f32 a i) (vld1q_f32 b i)
            (fun a_vec b_vec =>
               vmlaq_f32 ab_vec a_vec b_vec))
       0 ab_vec).

Definition simsimd_cos_f32x4neon (fuel : nat) (a b : buffer F) (d : Z)
  : outcome F :=
  let ab_vec := vdupq_n_f32 (zero ar) in
  let a2_vec := vdupq_n_f32 (zero ar) in
  let b2_vec := vdupq_n_f32 (zero ar) in
  outcome_map
    (fun '(ab_vec, a2_vec, b2_vec) =>
       let ab := vaddvq_f32 ab_vec in
       let a2 := vaddvq_f32 a2_vec in
       let b2 := vaddvq_f32 b2_vec in
       cos_tail ar ab a2 b2)
    (for_ne fuel 4 d
       (fun i '(ab_vec, a2_vec, b2_vec) =>
          bind2 (vld1q_f32 a i) (vld1q_f32 b i)
            (fun a_vec b_vec =>
               (vmlaq_f32 ab_vec a_vec b_vec,
                vmlaq_f32 a2_vec a_vec a_vec,
                vmlaq_f32 b2_vec b_vec b_vec)))
       0 (ab_vec, a2_vec, b2_vec)).
End NEON.

(** A [uint8_t] buffer holds values between 0 and 255.  The counter [i]
    indexes bytes and is compared with [d]. *)
Definition simsimd_hamming_u1x128sve (fuel : nat) (a b : buffer Z) (d : Z)
  : outcome Z :=
  let d_vec := vdupq_n_u8 0 in
  outcome_map vaddvq_u8
    (for_ne fuel 16 d
       (fun i d_vec =>
          bind2 (vld1q_u8 a i) (vld1q_u8 b i)
            (fun a_vec b_vec =>
               let a_xor_b_vec := veorq_u8 a_vec b_vec in
               vaddq_u8 d_vec (vcntq_u8 a_xor_b_vec)))
       0 d_vec).

(** ** The 256-bit extension (AVX2) *)

Section AVX2.
Variable ar : arith.
Let F : Type := num ar.

Definition _mm_set1_ps (x : F) : list F := repeat x 4.
Definition _mm_loadu_ps (a : buffer F) (i : Z) : option (list F) := load a i 4.

(** [_mm_fmadd_ps(x, y, acc)] is [x * y + acc], fused. *)
Definition _mm_fmadd_ps (v1 v2 acc : list F) : list F := zip3 (fma ar) v1 v2 acc.

(** [_mm_hadd_ps(x, y)] is [x0+x1, x2+x3, y0+y1, y2+y3]. *)
Definition _mm_hadd_ps (v1 v2 : list F) : list F :=
  pairs (add ar) v1 ++ pairs (add ar) v2.

(** [_mm_cvtsi128_si32(_mm_castps_si128(v))] read back as a float through
    the union [simsimd_f32i32_t]: the lowest lane, bit for bit. *)
Definition low_lane (v : list F) : F := hd (zero ar) v.

Definition simsimd_dot_f32x4avx2 (fuel : nat) (a b : buffer F) (d : Z)
  : outcome F :=
  let ab_vec := _mm_set1_ps (zero ar) in
  outcome_map
    (fun ab_vec =>
       let ab_vec := _mm_hadd_ps ab_vec ab_vec in
       let ab_vec := _mm_hadd_ps ab_vec ab_vec in
       low_lane ab_vec)
    (for_ne fuel 4 d
       (fun i ab_vec =>
          bind2 (_mm_loadu_ps a i) (_mm_loadu_ps b i)
            (fun a_vec b_vec =>
               _mm_fmadd_ps a_vec b_vec ab_vec))
       0 ab_vec).

Definition simsimd_cos_f32x4avx2 (fuel : nat) (a b : buffer F) (d : Z)
  : outcome F :=
  let ab_vec := _mm_set1_ps (zero ar) in
  let a2_vec := _mm_set1_ps (zero ar) in
  let b2_vec := _mm_set1_ps (zero ar) in
  outcome_map
    (fun '(ab_vec, a2_vec, b2_vec) =>
       let ab_vec := _mm_hadd_ps ab_vec ab_vec in
       let ab_vec := _mm_hadd_ps ab_vec ab_vec in
       let a2_vec := _mm_hadd_ps a2_vec a2_vec in
       let a2_vec := _mm_hadd_ps a2_vec a2_vec in
       let b2_vec := _mm_hadd_ps b2_vec b2_vec in
       let b2_vec := _mm_hadd_ps b2_vec b2_vec in
       cos_tail ar (low_lane ab_vec) (low_lane a2_vec) (low_lane b2_vec))
    (for_ne fuel 4 d
       (fun i '(ab_vec, a2_vec, b2_vec) =>
          bind2 (_mm_loadu_ps a i) (_mm_loadu_ps b i)
            (fun a_vec b_vec =>
               (_mm_fmadd_ps a_vec b_vec ab_vec,
                _mm_fmadd_ps a_vec a_vec a2_vec,
                _mm_fmadd_ps b_vec b_vec b2_vec)))
       0 (ab_vec, a2_vec, b2_vec)).
End AVX2.

(** An [int8_t] buffer holds values between -128 and 127.  A 256-bit
    register of sixteen 16-bit lanes holds each lane as its bit pattern in
    [0, 2^16). *)
Definition _mm256_set1_epi16 (x : Z) : list Z := repeat (wrap16 x) 16.

(** [_mm_loadu_si128] reads 16 bytes. *)
Definition _mm_loadu_si128 (a : buffer Z) (i : Z) : option (list Z) :=
  load a i 16.

(** Sign extension of sixteen [int8_t] to 16 bits. *)
Definition _mm256_cvtepi8_epi16 (v : list Z) : list Z := map wrap16 v.

Definition _mm256_mullo_epi16 (v1 v2 : list Z) : list Z :=
  zip (fun x y => wrap16 (x * y)) v1 v2.

Definition _mm256_add_epi16 (v1 v2 : list Z) : list Z :=
  zip (fun x y => wrap16 (x + y)) v1 v2.

(** [_mm256_hadd_epi16] adds adjacent pairs within each 128-bit half: the
    low half of the result comes from the low halves of the operands, the
    high half from their high halves. *)
Definition _mm256_hadd_epi16 (v1 v2 : list Z) : list Z :=
  let f := fun x y => wrap16 (x + y) in
  pairs f (firstn 8 v1) ++ pairs f (firstn 8 v2)
  ++ pairs f (skipn 8 v1) ++ pairs f (skipn 8 v2).

(** The low 32 bits of the register as an [int32_t]. *)
Definition _mm256_cvtsi256_si32 (v : list Z) : Z :=
  let w := nth 0 v 0 + 2 ^ 16 * nth 1 v 0 in
  if w <? 2 ^ 31 then w else w - 2 ^ 32.

(** The counter advances by 4 while each load reads 16 bytes. *)
Definition simsimd_dot_i8x16avx2 (fuel : nat) (a b : buffer Z) (d : Z)
  : outcome Z :=
  let ab_vec := _mm256_set1_epi16 0 in
  outcome_map
    (fun ab_vec =>
       let ab_vec := _mm256_hadd_epi16 ab_vec ab_vec in
       let ab_vec := _mm256_hadd_epi16 ab_vec ab_vec in
       let ab_vec := _mm256_hadd_epi16 ab_vec ab_vec in
       Z.land (_mm256_cvtsi256_si32 ab_vec) 255)
    (for_ne fuel 4 d
       (fun i ab_vec =>
          bind2 (_mm_loadu_si128 a i) (_mm_loadu_si128 b i)
            (fun a_vec b_vec =>
               _mm256_add_epi16 ab_vec
                      (_mm256_mullo_epi16 (_mm256_cvtepi8_epi16 a_vec)
                                          (_mm256_cvtepi8_epi16 b_vec))))
       0 ab_vec).

(** ** The 512-bit population-count extension *)

(** [_mm_load_si128] is the aligned load: on an address that is not a
    multiple of 16 it raises a general-protection exception.  The pointers
    of this kernel therefore carry their address besides the bytes that can
    be read through them. *)
Record pointer : Type := Pointer { address : Z; target : buffer Z }.

(** [_mm_load_si128] through the pointer [a64 + i]: the two 64-bit words
    of index [i] and [i + 1], read from the bytes at offset [8 * i]. *)
Definition _mm_load_si128 (a : pointer) (i : Z) : option (list Z) :=
  if (address a + 8 * i) mod 16 =? 0 then
    match load (target a) (8 * i) 16 with
    | Some bytes => Some [le_combine (firstn 8 bytes); le_combine (skipn 8 bytes)]
    | None => None
    end
  else None.

(** Two 64-bit lanes, the low one first; [_mm_set_epi64x] takes the high
    one first. *)
Definition _mm_set_epi64x (e1 e0 : Z) : list Z := [wrap64 e0; wrap64 e1].
Definition _mm_xor_si128 (v1 v2 : list Z) : list Z := zip Z.lxor v1 v2.
Definition _mm_popcnt_epi64 (v : list Z) : list Z := map (popcount 64) v.
Definition _mm_add_epi64 (v1 v2 : list Z) : list Z :=
  zip (fun x y => wrap64 (x + y)) v1 v2.

(** The low lane, through [_mm_movepi64_pi64] and [_mm_cvtm64_si64], and the
    lane of index [k]. *)
Definition _mm_movepi64_pi64 (v : list Z) : Z := nth 0 v 0.
Definition _mm_cvtm64_si64 (x : Z) : Z := x.
Definition _mm_extract_epi64 (v : list Z) (k : nat) : Z := nth k v 0.

Definition simsimd_hamming_u1x128avx512 (fuel : nat) (a b : pointer) (d : Z)
  : outcome Z :=
  let words := d / 128 in
  let d_vec := _mm_set_epi64x 0 0 in
  outcome_map
    (fun d_vec =>
       wrap64 (_mm_cvtm64_si64 (_mm_movepi64_pi64 d_vec)
               + _mm_extract_epi64 d_vec 1))
    (for_ne fuel 2 words
       (fun i d_vec =>
          bind2 (_mm_load_si128 a i) (_mm_load_si128 b i)
            (fun a_vec b_vec =>
               _mm_add_epi64 d_vec
                      (_mm_popcnt_epi64 (_mm_xor_si128 a_vec b_vec))))
       0 d_vec).

(** ** Scalar references, after the contracts of the specification *)

(** [sum of a[i] * b[i]], accumulated from left to right. *)
Definition dot_ref (ar : arith) (a b : list (num ar)) : num ar :=
  fold_left (fun acc '(x, y) => add ar acc (mul ar x y)) (combine a b) (zero ar).

(** Bit [k] of a packed bit array, lowest bit of each byte first. *)
Definition bit_of (l : list Z) (k : nat) : bool :=
  Z.testbit (nth (k / 8) l 0) (Z.of_nat (k mod 8)).

(** Number of positions among the first [d] bits at which [a] and [b]
    differ: [popcount(a XOR b)]. *)
Definition hamming_ref (a b : list Z) (d : nat) : Z :=
  fold_right (fun k acc => Z.b2z (xorb (bit_of a k) (bit_of b k)) + acc) 0
    (seq 0 d).

(** The vector lengths the architecture allows, in bytes. *)
Definition sve_lengths : list nat := map (fun q => (16 * q)%nat) (seq 1 16).

(** ** Notions used in the statements *)

(** The lanes [k] with [i + k < d], the first [n] of them. *)
Fixpoint while_mask (n : nat) (i d : Z) : list bool :=
  match n with
  | O => []
  | S n' => (i <? d) :: while_mask n' (i + 1) d
  end.

(** Sum of the lanes from left to right. *)
Definition vsum (ar : arith) (v : list (num ar)) : num ar :=
  fold_right (add ar) (zero ar) v.

(** The products [a[i] * b[i]]. *)
Definition products (ar : arith) (a b : list (num ar)) : list (num ar) :=
  map (fun '(x, y) => mul ar x y) (combine a b).

(** Arithmetic without rounding: addition is associative and commutative
    with neutral element [zero], and [fma] is the product followed by the
    sum. *)
Record exact (ar : arith) : Prop := {
  add_comm : forall x y, add ar x y = add ar y x;
  add_assoc : forall x y z, add ar x (add ar y z) = add ar (add ar x y) z;
  add_zero_l : forall x, add ar (zero ar) x = x;
  fma_exact : forall x y z, fma ar x y z = add ar (mul ar x y) z
}.

(** Commutative multiplication, alone and under [fma]. *)
Record commutative (ar : arith) : Prop := {
  mul_comm : forall x y, mul ar x y = mul ar y x;
  fma_comm : forall x y z, fma ar x y z = fma ar y x z
}.

(** The address of the pointer is a multiple of 16. *)
Definition aligned (p : pointer) : Prop := address p mod 16 = 0.

(** Every element read below [d] satisfies [P]. *)
Definition all_in {A} (a : buffer A) (d : Z) (P : A -> Prop) : Prop :=
  forall j x, 0 <= j < d -> a j = Some x -> P x.

(** Number of differing bits of two sequences of bytes, byte by byte. *)
Definition bytes_diff (a b : list Z) : Z :=
  fold_right Z.add 0 (map (popcount 8) (zip Z.lxor a b)).

(** A NaN or an infinity. *)
Definition is_special (x : spec_float) : bool := is_nan x || is_inf x.

(** A zero or a NaN. *)
Definition zero_or_nan (x : spec_float) : bool := is_zero x || is_nan x.

(** Relation between two outcomes. *)
Definition outcome_rel {A B} (R : A -> B -> Prop) (x : outcome A) (y : outcome B)
  : Prop :=
  match x, y with
  | Done u, Done v => R u v
  | Fault, Fault => True
  | Timeout, Timeout => True
  | _, _ => False
  end.

Definition option_rel {A B} (R : A -> B -> Prop) (x : option A) (y : option B)
  : Prop :=
  match x, y with
  | Some u, Some v => R u v
  | None, None => True
  | _, _ => False
  end.


(** ** Notions used in the further properties *)

(** The inactive lanes of [v] replaced by [z]. *)
Definition wipe {A} (z : A) (m : list bool) (v : list A) : list A :=
  map_m (fun _ => z) (map negb m) v.

(** What a multiply-accumulate whose multiplicands are [+0.0] in their
    inactive lanes leaves in the inactive lanes of its result: [FMLA] the
    accumulator, [FMAD] the [+0.0] of a multiplicand. *)
Definition settle (ar : arith) (form : mla_form) (m : list bool)
           (acc : list (num ar)) : list (num ar) :=
  match form with
  | FMLA => acc
  | FMAD | FMAD_swapped => wipe (zero ar) m acc
  end.

(** The two ways in which a kernel takes a product into an accumulator:
    fused, with one rounding, and unfused, with the product rounded before
    the sum. *)
Definition fused (ar : arith) (c x y : num ar) : num ar := fma ar x y c.

(** Lane [k] of an accumulator of [L] lanes after [n] groups of [L]
    elements: from [+0.0], [mac] takes in the elements of index [k],
    [k + L], ..., [k + (n - 1) * L] one after the other; an index past the
    end of either vector takes in nothing. *)
Fixpoint lane_acc (ar : arith) (mac : num ar -> num ar -> num ar -> num ar)
         (a b : list (num ar)) (L k n : nat) : num ar :=
  match n with
  | O => zero ar
  | S n' =>
      let acc := lane_acc ar mac a b L k n' in
      match nth_error a (n' * L + k), nth_error b (n' * L + k) with
      | Some x, Some y => mac acc x y
      | _, _ => acc
      end
  end.

(** The sum of the products [a[i] * b[i]] in the order in which a kernel of
    [L] lanes forms it: every lane takes in its elements, then the lanes
    are added pairwise. *)
Definition lanes_sum (ar : arith) (mac : num ar -> num ar -> num ar -> num ar)
           (a b : list (num ar)) (L : nat) : num ar :=
  reduce_tree ar (Nat.log2_up L)
    (map (fun k => lane_acc ar mac a b L k (length a)) (seq 0 L)).

(** The buffer of the values [f a[i] b[i]], readable where both are. *)
Definition pointwise {A} (f : A -> A -> A) (a b : buffer A) : buffer A :=
  fun i => bind2 (a i) (b i) f.

(** Two buffers read alike at every index below [d]. *)
Definition agree_below {A} (a a' : buffer A) (d : Z) : Prop :=
  forall i, 0 <= i < d -> a i = a' i.

(** Nothing can be read through [a] at index [len] or beyond. *)
Definition ends_at {A} (a : buffer A) (len : Z) : Prop :=
  forall j, len <= j -> a j = None.

(** Sum of the products [a[i + j] * b[i + j]] over [j < w]. *)
Definition window_dot (a b : list Z) (i w : nat) : Z :=
  fold_right Z.add 0 (zip Z.mul (firstn w (skipn i a)) (firstn w (skipn i b))).

(** The windows of eight elements that start at the counter values
    [0, 4, ..., 4 * (n - 1)], added up. *)
Definition windows_dot (a b : list Z) (n : nat) : Z :=
  fold_right Z.add 0 (map (fun k => window_dot a b (4 * k) 8) (seq 0 n)).

(** A NaN, or a zero, an infinity or a finite number whose sign bit is
    clear. *)
Definition not_negative (x : spec_float) : bool :=
  match x with
  | S754_nan => true
  | S754_zero s | S754_infinity s | S754_finite s _ _ => negb s
  end.

(** Number of differing bits of the bytes of index [0, 4, 8, ...] below
    [n]. *)
Definition every_fourth_diff (a b : list Z) (n : nat) : Z :=
  fold_right Z.add 0
    (map (fun k => if Nat.eqb (k mod 4) 0
                   then popcount 8 (Z.lxor (nth k a 0) (nth k b 0)) else 0)
       (seq 0 n)).
(** ** Facts about the loops *)

Lemma wrap64_small x : 0 <= x < 2 ^ 64 -> wrap64 x = x.
Proof. intros H. unfold wrap64. apply Z.mod_small. exact H. Qed.

Section LoopFacts.
Context {St : Type}.
Variables (step n : Z) (body : Z -> St -> option St).
Hypothesis Hstep : 0 < step.

(** Hoare rule of the counted loop: [remaining] iterations are left. *)
Lemma for_ne_rule (P : Z -> St -> Prop) :
  n < 2 ^ 64 ->
  (forall i s, 0 <= i < n -> (step | i) -> P i s ->
               exists s', body i s = Some s' /\ P (i + step) s') ->
  forall (remaining : nat) (fuel : nat) i s,
    0 <= i -> (step | i) -> i + step * Z.of_nat remaining = n ->
    (remaining <= fuel)%nat -> P i s ->
    exists s', for_ne fuel step n body i s = Done s' /\ P n s'.
Proof.
  intros Hn Hbody remaining.
  induction remaining as [|r IH]; intros fuel i s Hi Hdiv Hrem Hfuel HP.
  - assert (i = n) by lia. subst i.
    destruct fuel; simpl; rewrite Z.eqb_refl; eauto.
  - destruct fuel as [|fuel]; [lia|].
    simpl. destruct (Z.eqb_spec i n) as [E|E]; [lia|].
    destruct (Hbody i s) as (s' & Hs' & HP'); [lia|assumption|assumption|].
    rewrite Hs'. rewrite wrap64_small by lia.
    apply IH; try lia; try assumption.
    apply Z.divide_add_r; [assumption|apply Z.divide_refl].
Qed.

Lemma grid_next i : (step | 2 ^ 64) -> (step | i) -> (step | wrap64 (i + step)).
Proof.
  intros H64 Hi. unfold wrap64. rewrite Z.mod_eq by lia.
  apply Z.divide_sub_r.
  - apply Z.divide_add_r; [assumption|apply Z.divide_refl].
  - apply Z.divide_mul_l. assumption.
Qed.

(** The exit test [i != n] is never met when [n] is off the grid of the
    counter.  [step] divides [2^64], so wrap-around keeps the counter on
    the grid. *)
Lemma for_ne_off_grid :
  (step | 2 ^ 64) -> ~ (step | n) ->
  forall fuel i s v, (step | i) -> for_ne fuel step n body i s <> Done v.
Proof.
  intros H64 Hn fuel.
  induction fuel as [|fuel IH]; intros i s v Hi; simpl.
  - destruct (Z.eqb_spec i n); [subst; contradiction|discriminate].
  - destruct (Z.eqb_spec i n); [subst; contradiction|].
    destruct (body i s) as [s'|]; [|discriminate].
    apply IH. apply grid_next; assumption.
Qed.

(** With every load succeeding the loop then runs for as long as it is
    given fuel. *)
Lemma for_ne_diverges :
  (step | 2 ^ 64) -> ~ (step | n) ->
  (forall i s, body i s <> None) ->
  forall fuel i s, (step | i) -> for_ne fuel step n body i s = Timeout.
Proof.
  intros H64 Hn Hb fuel.
  induction fuel as [|fuel IH]; intros i s Hi; simpl.
  - destruct (Z.eqb_spec i n); [subst; contradiction|reflexivity].
  - destruct (Z.eqb_spec i n); [subst; contradiction|].
    destruct (body i s) as [s'|] eqn:E; [|exfalso; eapply Hb; eassumption].
    apply IH. apply grid_next; assumption.
Qed.
End LoopFacts.

Section DoWhileFacts.
Context {St Pg : Type}.
Variables (inc d : Z) (next : Z -> Pg) (test : Pg -> bool).
Variable body : Pg -> Z -> St -> option St.
Variable P : Z -> St -> Prop.
Hypothesis Hinc : 0 < inc.
Hypothesis Hd : 0 <= d.
Hypothesis Hfit : d + inc < 2 ^ 64.
Hypothesis Htest : forall i, 0 <= i -> test (next i) = (i <? d).

(** Hoare rule of the predicated loop, entered after the first iteration. *)
Lemma do_while_from :
  (forall i s, 0 < i < d -> P i s ->
               exists s', body (next i) i s = Some s' /\ P (i + inc) s') ->
  forall fuel i s,
    0 < i < d -> P i s -> d - i <= inc * Z.of_nat fuel ->
    exists s' n, do_while fuel inc next test body i (next i) s = Done s'
                 /\ P n s' /\ d <= n.
Proof.
  intros Hbody fuel.
  induction fuel as [|fuel IH]; intros i s Hi HP Hfuel; [lia|].
  simpl. destruct (Hbody i s Hi HP) as (s' & Hs' & HP').
  rewrite Hs', wrap64_small by lia.
  rewrite Htest by lia.
  destruct (Z.ltb_spec (i + inc) d) as [Hlt|Hge].
  - apply IH; [lia|assumption|lia].
  - exists s', (i + inc). auto.
Qed.

(** Hoare rule of the predicated loop: the body runs once with the entry
    predicate [pg0], then with [next i] for as long as [i < d]. *)
Lemma do_while_rule (pg0 : Pg) :
  (forall s, P 0 s -> exists s', body pg0 0 s = Some s' /\ P inc s') ->
  (forall i s, 0 < i < d -> P i s ->
               exists s', body (next i) i s = Some s' /\ P (i + inc) s') ->
  forall fuel s,
    P 0 s -> d / inc < Z.of_nat fuel ->
    exists s' n, do_while fuel inc next test body 0 pg0 s = Done s'
                 /\ P n s' /\ d <= n.
Proof.
  intros Hfirst Hbody fuel s HP Hfuel.
  destruct fuel as [|fuel]; [pose proof (Z.div_pos d inc); lia|].
  simpl. destruct (Hfirst s HP) as (s' & Hs' & HP').
  rewrite Hs', wrap64_small by lia.
  rewrite Htest by lia.
  destruct (Z.ltb_spec inc d) as [Hlt|Hge].
  - apply do_while_from; [assumption|lia|assumption|].
    assert (d < inc * (d / inc + 1)).
    { pose proof (Z.mul_succ_div_gt d inc Hinc). lia. }
    nia.
  - exists s', inc. auto.
Qed.
End DoWhileFacts.

(** Two loops whose bodies act alike on related states end alike. *)
Lemma for_ne_sim {S1 S2} (R : S1 -> S2 -> Prop) step n body1 body2 :
  (forall i s1 s2, R s1 s2 -> option_rel R (body1 i s1) (body2 i s2)) ->
  forall fuel i s1 s2, R s1 s2 ->
    outcome_rel R (for_ne fuel step n body1 i s1) (for_ne fuel step n body2 i s2).
Proof.
  intros Hb fuel.
  induction fuel as [|fuel IH]; intros i s1 s2 HR; simpl.
  - destruct (i =? n); simpl; auto.
  - destruct (i =? n); simpl; auto.
    specialize (Hb i s1 s2 HR).
    destruct (body1 i s1), (body2 i s2); simpl in Hb; try contradiction; simpl; auto.
Qed.

Lemma do_while_sim {S1 S2 Pg} (R : S1 -> S2 -> Prop) inc (next : Z -> Pg) test
      body1 body2 :
  (forall pg i s1 s2, R s1 s2 -> option_rel R (body1 pg i s1) (body2 pg i s2)) ->
  forall fuel i pg s1 s2, R s1 s2 ->
    outcome_rel R (do_while fuel inc next test body1 i pg s1)
                  (do_while fuel inc next test body2 i pg s2).
Proof.
  intros Hb fuel.
  induction fuel as [|fuel IH]; intros i pg s1 s2 HR; simpl; auto.
  specialize (Hb pg i s1 s2 HR).
  destruct (body1 pg i s1), (body2 pg i s2); simpl in Hb; try contradiction; simpl; auto.
  destruct (test _); simpl; auto.
Qed.



Lemma outcome_map_inv {A B} (f : A -> B) (o : outcome A) v :
  outcome_map f o = Done v -> exists s, o = Done s /\ v = f s.
Proof. destruct o; simpl; intros E; inversion E. eauto. Qed.

Lemma outcome_rel_eq {A} (x y : outcome A) : outcome_rel eq x y -> x = y.
Proof. destruct x, y; simpl; intros H; congruence || contradiction. Qed.

Lemma outcome_rel_map {A B C D} (R : A -> B -> Prop) (Q : C -> D -> Prop)
      (f : A -> C) (g : B -> D) x y :
  (forall u v, R u v -> Q (f u) (g v)) ->
  outcome_rel R x y -> outcome_rel Q (outcome_map f x) (outcome_map g y).
Proof. intros H. destruct x, y; simpl; auto. Qed.

Lemma bind2_swap {A B} (x y : option A) (k k' : A -> A -> B) (R : B -> B -> Prop) :
  (forall u v, R (k u v) (k' v u)) ->
  option_rel R (bind2 x y k) (bind2 y x k').
Proof. intros H. destruct x, y; simpl; auto. Qed.

(** ** Facts about buffers and loads *)

Lemma holds_of_list {A} (l : list A) : holds (of_list l) l.
Proof.
  intros k x H. unfold of_list.
  destruct (Z.ltb_spec (Z.of_nat k) 0); [lia|].
  rewrite Nat2Z.id. exact H.
Qed.

Lemma covers_of_list {A} (l : list A) n :
  n <= Z.of_nat (length l) -> covers (of_list l) n.
Proof.
  intros Hn i Hi. unfold of_list.
  destruct (Z.ltb_spec i 0); [lia|].
  apply nth_error_Some. lia.
Qed.

Lemma holds_covers {A} (a : buffer A) l : holds a l -> covers a (Z.of_nat (length l)).
Proof.
  intros H i Hi.
  destruct (nth_error l (Z.to_nat i)) as [x|] eqn:E.
  - apply H in E. rewrite Z2Nat.id in E by lia. congruence.
  - apply nth_error_None in E. lia.
Qed.

Lemma covers_flat {A} (x : A) n : covers (flat x) n.
Proof. intros i _. discriminate. Qed.

Lemma covers_le {A} (a : buffer A) n m : covers a n -> m <= n -> covers a m.
Proof. intros H Hm i Hi. apply H. lia. Qed.

Lemma all_in_of_list {A} (l : list A) d (P : A -> Prop) :
  Forall P l -> all_in (of_list l) d P.
Proof.
  intros HF j x Hj. unfold of_list.
  destruct (Z.ltb_spec j 0); [lia|].
  intros E. rewrite Forall_forall in HF. apply HF.
  eapply nth_error_In. eassumption.
Qed.

Lemma load_total {A} (a : buffer A) n : forall i,
  (forall k, 0 <= k < Z.of_nat n -> a (i + k) <> None) ->
  exists v, load a i n = Some v /\ length v = n.
Proof.
  induction n as [|n IH]; intros i H; simpl.
  - exists []. auto.
  - destruct (a i) as [x|] eqn:E.
    + destruct (IH (i + 1)) as (v & Hv & Hl).
      { intros k Hk. replace (i + 1 + k) with (i + (k + 1)) by lia. apply H. lia. }
      rewrite Hv. exists (x :: v). simpl. auto.
    + exfalso. apply (H 0); [lia|]. rewrite Z.add_0_r. exact E.
Qed.

Lemma load_length {A} (a : buffer A) n : forall i v,
  load a i n = Some v -> length v = n.
Proof.
  induction n as [|n IH]; intros i v; simpl.
  - intros H. inversion H. reflexivity.
  - destruct (a i); [|discriminate].
    destruct (load a (i + 1) n) eqn:E; [|discriminate].
    intros H. inversion H. simpl. f_equal. eapply IH. eassumption.
Qed.

Lemma load_Forall {A} (a : buffer A) (P : A -> Prop) n : forall i v,
  (forall k x, 0 <= k < Z.of_nat n -> a (i + k) = Some x -> P x) ->
  load a i n = Some v -> Forall P v.
Proof.
  induction n as [|n IH]; intros i v H; simpl.
  - intros E. inversion E. constructor.
  - destruct (a i) as [x|] eqn:Ex; [|discriminate].
    destruct (load a (i + 1) n) as [xs|] eqn:E; [|discriminate].
    intros E'. inversion E'. subst. constructor.
    + apply (H 0); [lia|]. rewrite Z.add_0_r. exact Ex.
    + eapply IH; [|eassumption].
      intros k y Hk. replace (i + 1 + k) with (i + (k + 1)) by lia. apply H. lia.
Qed.

Lemma load_m_total {A} (z : A) (a : buffer A) m : forall i,
  (forall k, 0 <= k < Z.of_nat (length m) -> a (i + k) <> None) ->
  exists v, load_m z m a i = Some v /\ length v = length m.
Proof.
  induction m as [|p m IH]; intros i H; simpl.
  - exists []. auto.
  - destruct (IH (i + 1)) as (v & Hv & Hl).
    { intros k Hk. replace (i + 1 + k) with (i + (k + 1)) by lia.
      apply H. simpl length. lia. }
    rewrite Hv. destruct p.
    + destruct (a i) as [x|] eqn:E.
      * exists (x :: v). simpl. auto.
      * exfalso. apply (H 0); [simpl length; lia|]. rewrite Z.add_0_r. exact E.
    + exists (z :: v). simpl. auto.
Qed.

Lemma load_m_length {A} (z : A) (a : buffer A) m : forall i v,
  load_m z m a i = Some v -> length v = length m.
Proof.
  induction m as [|p m IH]; intros i v; simpl.
  - intros H. inversion H. reflexivity.
  - destruct (if p then a i else Some z); [|discriminate].
    destruct (load_m z m a (i + 1)) eqn:E; [|discriminate].
    intros H. inversion H. simpl. f_equal. eapply IH. eassumption.
Qed.

(** Loads governed by [while_mask] touch the elements below [d] only. *)
Lemma load_while_total {A} (z : A) (a : buffer A) d n : forall i,
  0 <= i -> covers a d ->
  exists v, load_m z (while_mask n i d) a i = Some v /\ length v = n.
Proof.
  induction n as [|n IH]; intros i Hi Hc; simpl.
  - exists []. auto.
  - destruct (IH (i + 1)) as (v & Hv & Hl); [lia|assumption|].
    rewrite Hv. destruct (Z.ltb_spec i d).
    + destruct (a i) as [x|] eqn:E.
      * exists (x :: v). simpl. auto.
      * exfalso. apply (Hc i); [lia|exact E].
    + exists (z :: v). simpl. auto.
Qed.

Lemma load_while_Forall {A} (z : A) (a : buffer A) (P : A -> Prop) d n :
  P z -> all_in a d P ->
  forall i v, 0 <= i -> load_m z (while_mask n i d) a i = Some v -> Forall P v.
Proof.
  intros Hz Ha. induction n as [|n IH]; intros i v Hi; simpl.
  - intros E. inversion E. constructor.
  - destruct (load_m z (while_mask n (i + 1) d) a (i + 1)) as [xs|] eqn:E.
    + destruct (Z.ltb_spec i d).
      * destruct (a i) as [x|] eqn:Ex; [|discriminate].
        intros E'. inversion E'. subst. constructor.
        -- eapply Ha; [|eassumption]. lia.
        -- eapply IH; [|eassumption]. lia.
      * intros E'. inversion E'. subst. constructor; [assumption|].
        eapply IH; [|eassumption]. lia.
    + destruct (if i <? d then a i else Some z); discriminate.
Qed.

(** ** Facts about predicates *)

Lemma while_mask_map n : forall i d,
  while_mask n i d = map (fun k => i + Z.of_nat k <? d) (seq 0 n).
Proof.
  induction n as [|n IH]; intros i d; simpl; [reflexivity|].
  rewrite Z.add_0_r. f_equal.
  rewrite IH, <- seq_shift, map_map.
  apply map_ext. intros k. f_equal. lia.
Qed.

Lemma length_while_mask n i d : length (while_mask n i d) = n.
Proof. rewrite while_mask_map, length_map, length_seq. reflexivity. Qed.

Lemma nth_map_seq {A} (f : nat -> A) n k x :
  (k < n)%nat -> nth k (map f (seq 0 n)) x = f k.
Proof.
  intros H. rewrite (nth_indep _ x (f 0%nat)) by (rewrite length_map, length_seq; exact H).
  rewrite (map_nth f (seq 0 n) 0%nat k), seq_nth by exact H. reflexivity.
Qed.

Lemma length_lane_mask vl esz pg : length (lane_mask vl esz pg) = (vl / esz)%nat.
Proof. unfold lane_mask. rewrite length_map, length_seq. reflexivity. Qed.

Lemma lane_index vl esz k : (0 < esz)%nat -> (k < vl / esz)%nat -> (esz * k < vl)%nat.
Proof.
  intros He Hk.
  pose proof (Nat.Div0.mul_div_le vl esz).
  assert (esz * S k <= esz * (vl / esz))%nat by (apply Nat.mul_le_mono_l; lia).
  lia.
Qed.

Lemma lane_mask_whilelt_b32 vl i d :
  lane_mask vl 4 (svwhilelt_b32 vl i d) = while_mask (vl / 4) i d.
Proof.
  unfold lane_mask, svwhilelt_b32. rewrite while_mask_map.
  apply map_ext_in. intros k Hk. apply in_seq in Hk.
  rewrite nth_map_seq by (apply lane_index; lia).
  rewrite (Nat.mul_comm 4 k), Nat.Div0.mod_mul, Nat.div_mul by lia.
  reflexivity.
Qed.

Lemma lane_mask_whilelt_b16 vl i d :
  lane_mask vl 2 (svwhilelt_b16 vl i d) = while_mask (vl / 2) i d.
Proof.
  unfold lane_mask, svwhilelt_b16. rewrite while_mask_map.
  apply map_ext_in. intros k Hk. apply in_seq in Hk.
  rewrite nth_map_seq by (apply lane_index; lia).
  rewrite (Nat.mul_comm 2 k), Nat.Div0.mod_mul, Nat.div_mul by lia.
  reflexivity.
Qed.

Lemma lane_mask_whilelt_b8 vl i d :
  lane_mask vl 1 (svwhilelt_b8 vl i d) = while_mask vl i d.
Proof.
  unfold lane_mask, svwhilelt_b8. rewrite while_mask_map, Nat.div_1_r.
  apply map_ext_in. intros k Hk. apply in_seq in Hk.
  rewrite nth_map_seq by lia. f_equal. f_equal. lia.
Qed.

Lemma lane_mask_ptrue_b32 vl : lane_mask vl 4 (svptrue_b32 vl) = repeat true (vl / 4).
Proof.
  unfold lane_mask, svptrue_b32.
  transitivity (map (fun _ : nat => true) (seq 0 (vl / 4))).
  - apply map_ext_in. intros k Hk. apply in_seq in Hk.
    rewrite nth_map_seq by (apply lane_index; lia).
    rewrite (Nat.mul_comm 4 k), Nat.Div0.mod_mul. reflexivity.
  - rewrite map_const, length_seq. reflexivity.
Qed.

Lemma lane_mask_ptrue_b16 vl : lane_mask vl 2 (svptrue_b16 vl) = repeat true (vl / 2).
Proof.
  unfold lane_mask, svptrue_b16.
  transitivity (map (fun _ : nat => true) (seq 0 (vl / 2))).
  - apply map_ext_in. intros k Hk. apply in_seq in Hk.
    rewrite nth_map_seq by (apply lane_index; lia).
    rewrite (Nat.mul_comm 2 k), Nat.Div0.mod_mul. reflexivity.
  - rewrite map_const, length_seq. reflexivity.
Qed.

Lemma existsb_whilelt (g : nat -> bool) (q : nat -> nat) vl i d :
  (0 < vl)%nat -> g 0%nat = true -> q 0%nat = 0%nat ->
  existsb (fun '(x, y) => x && y)
    (combine (map g (seq 0 vl))
             (map (fun p => g p && (i + Z.of_nat (q p) <? d)) (seq 0 vl)))
  = (i <? d).
Proof.
  intros Hvl Hg Hq.
  destruct (Z.ltb_spec i d) as [Hlt|Hge].
  - apply existsb_exists. exists (true, true). split; [|reflexivity].
    destruct vl as [|vl]; [lia|]. simpl. left.
    rewrite Hg, Hq. simpl. rewrite Z.add_0_r.
    destruct (Z.ltb_spec i d); [reflexivity|lia].
  - apply Bool.not_true_is_false. intros H.
    apply existsb_exists in H. destruct H as ((x & y) & Hin & Hxy).
    revert Hin. generalize (seq 0 vl). intros l. induction l as [|p l IH]; simpl.
    + auto.
    + intros [E|Hin]; [|auto]. inversion E. subst.
      apply andb_prop in Hxy. destruct Hxy as [_ Hxy].
      apply andb_prop in Hxy. destruct Hxy as [_ Hxy].
      apply Z.ltb_lt in Hxy. lia.
Qed.

Lemma ptest_whilelt_b32 vl i d :
  (0 < vl)%nat -> svptest_any (svptrue_b32 vl) (svwhilelt_b32 vl i d) = (i <? d).
Proof.
  intros H. unfold svptest_any, svptrue_b32, svwhilelt_b32.
  apply (existsb_whilelt (fun p => Nat.eqb (p mod 4) 0) (fun p => (p / 4)%nat));
    auto.
Qed.

Lemma ptest_whilelt_b16 vl i d :
  (0 < vl)%nat -> svptest_any (svptrue_b16 vl) (svwhilelt_b16 vl i d) = (i <? d).
Proof.
  intros H. unfold svptest_any, svptrue_b16, svwhilelt_b16.
  apply (existsb_whilelt (fun p => Nat.eqb (p mod 2) 0) (fun p => (p / 2)%nat));
    auto.
Qed.

(** ** Facts about the vector lengths *)

Lemma sve_lengths_quads vl :
  In vl sve_lengths ->
  (4 <= vl)%nat /\ (4 * (vl / 16) = vl / 4)%nat /\ (8 * (vl / 16) = vl / 2)%nat
  /\ (16 * (vl / 16) = vl)%nat /\ (vl <= 256)%nat.
Proof.
  unfold sve_lengths. simpl map. intros H.
  repeat (destruct H as [H|H];
          [subst vl; repeat split; try reflexivity; vm_compute; lia|]).
  destruct H.
Qed.

Lemma Forall_dupq {A} (P : A -> Prop) vl quad :
  Forall P quad -> Forall P (svdupq_n vl quad).
Proof.
  intros H. unfold svdupq_n. induction (vl / 16)%nat as [|n IH]; simpl.
  - constructor.
  - apply Forall_app. split; assumption.
Qed.

Lemma length_dupq {A} vl (quad : list A) :
  length (svdupq_n vl quad) = (length quad * (vl / 16))%nat.
Proof.
  unfold svdupq_n. induction (vl / 16)%nat as [|n IH]; simpl.
  - lia.
  - rewrite length_app, IH. lia.
Qed.

(** ** Every kernel returns on the lengths its loop is written for *)

Lemma for_ne_run {St} (P : Z -> St -> Prop) step n body fuel s :
  0 < step -> 0 <= n < 2 ^ 64 -> (step | n) ->
  (forall i s, 0 <= i < n -> (step | i) -> P i s ->
               exists s', body i s = Some s' /\ P (i + step) s') ->
  P 0 s -> n / step <= Z.of_nat fuel ->
  exists s', for_ne fuel step n body 0 s = Done s' /\ P n s'.
Proof.
  intros Hstep Hn Hdiv Hbody HP Hfuel.
  assert (0 <= n / step) by (apply Z.div_pos; lia).
  apply (for_ne_rule step n body Hstep P) with (remaining := Z.to_nat (n / step));
    try assumption; try lia.
  - apply Z.divide_0_r.
  - destruct Hdiv as [q ->]. rewrite Z.div_mul by lia.
    assert (0 <= q) by nia. rewrite Z2Nat.id by lia. lia.
Qed.

(** A load of [w] elements at a counter on the grid of [step] stays below
    [n + (w - step)]. *)
Lemma grid_room step n i : 0 < step -> (step | n) -> (step | i) -> i < n -> i + step <= n.
Proof.
  intros Hs [q ->] [r ->] H. assert (r < q) by nia. nia.
Qed.

Lemma loads_total {A} (a b : buffer A) n i w :
  covers a n -> covers b n -> 0 <= i -> i + Z.of_nat w <= n ->
  exists u v, load a i w = Some u /\ load b i w = Some v
              /\ length u = w /\ length v = w.
Proof.
  intros Ha Hb Hi Hw.
  destruct (load_total a w i) as (u & Hu & Lu); [intros k Hk; apply Ha; lia|].
  destruct (load_total b w i) as (v & Hv & Lv); [intros k Hk; apply Hb; lia|].
  exists u, v. auto.
Qed.

Ltac returns_by_rule :=
  match goal with
  | |- exists v, outcome_map ?f (for_ne ?fuel ?step ?n ?body ?i ?s) = Done v =>
      let s' := fresh "s" in
      let H := fresh "H" in
      assert (H : exists s', for_ne fuel step n body i s = Done s' /\ True);
      [ apply (for_ne_run (fun _ _ => True)); auto; try lia
      | destruct H as (s' & H & _); rewrite H; simpl; eauto ]
  end.

Lemma dot_f32x4neon_returns ar a b d fuel :
  0 <= d < 2 ^ 64 -> (4 | d) -> covers a d -> covers b d ->
  d / 4 <= Z.of_nat fuel ->
  exists v, simsimd_dot_f32x4neon ar fuel a b d = Done v.
Proof.
  intros Hd Hdiv Ha Hb Hfuel. unfold simsimd_dot_f32x4neon. returns_by_rule.
  intros i s Hi Hg _. pose proof (grid_room 4 d i ltac:(lia) Hdiv Hg ltac:(lia)).
  destruct (loads_total a b d i 4 Ha Hb) as (u & v & Hu & Hv & _); try lia.
  unfold vld1q_f32. rewrite Hu, Hv. eexists. split; [reflexivity|exact I].
Qed.

Lemma cos_f32x4neon_returns ar a b d fuel :
  0 <= d < 2 ^ 64 -> (4 | d) -> covers a d -> covers b d ->
  d / 4 <= Z.of_nat fuel ->
  exists v, simsimd_cos_f32x4neon ar fuel a b d = Done v.
Proof.
  intros Hd Hdiv Ha Hb Hfuel. unfold simsimd_cos_f32x4neon. returns_by_rule.
  intros i [[ab a2] b2] Hi Hg _.
  pose proof (grid_room 4 d i ltac:(lia) Hdiv Hg ltac:(lia)).
  destruct (loads_total a b d i 4 Ha Hb) as (u & v & Hu & Hv & _); try lia.
  unfold vld1q_f32. rewrite Hu, Hv. eexists. split; [reflexivity|exact I].
Qed.

Lemma hamming_u1x128sve_returns a b d fuel :
  0 <= d < 2 ^ 64 -> (16 | d) -> covers a d -> covers b d ->
  d / 16 <= Z.of_nat fuel ->
  exists v, simsimd_hamming_u1x128sve fuel a b d = Done v.
Proof.
  intros Hd Hdiv Ha Hb Hfuel. unfold simsimd_hamming_u1x128sve. returns_by_rule.
  intros i s Hi Hg _. pose proof (grid_room 16 d i ltac:(lia) Hdiv Hg ltac:(lia)).
  destruct (loads_total a b d i 16 Ha Hb) as (u & v & Hu & Hv & _); try lia.
  unfold vld1q_u8. rewrite Hu, Hv. eexists. split; [reflexivity|exact I].
Qed.

Lemma dot_f32x4avx2_returns ar a b d fuel :
  0 <= d < 2 ^ 64 -> (4 | d) -> covers a d -> covers b d ->
  d / 4 <= Z.of_nat fuel ->
  exists v, simsimd_dot_f32x4avx2 ar fuel a b d = Done v.
Proof.
  intros Hd Hdiv Ha Hb Hfuel. unfold simsimd_dot_f32x4avx2. returns_by_rule.
  intros i s Hi Hg _. pose proof (grid_room 4 d i ltac:(lia) Hdiv Hg ltac:(lia)).
  destruct (loads_total a b d i 4 Ha Hb) as (u & v & Hu & Hv & _); try lia.
  unfold _mm_loadu_ps. rewrite Hu, Hv. eexists. split; [reflexivity|exact I].
Qed.

Lemma cos_f32x4avx2_returns ar a b d fuel :
  0 <= d < 2 ^ 64 -> (4 | d) -> covers a d -> covers b d ->
  d / 4 <= Z.of_nat fuel ->
  exists v, simsimd_cos_f32x4avx2 ar fuel a b d = Done v.
Proof.
  intros Hd Hdiv Ha Hb Hfuel. unfold simsimd_cos_f32x4avx2. returns_by_rule.
  intros i [[ab a2] b2] Hi Hg _.
  pose proof (grid_room 4 d i ltac:(lia) Hdiv Hg ltac:(lia)).
  destruct (loads_total a b d i 4 Ha Hb) as (u & v & Hu & Hv & _); try lia.
  unfold _mm_loadu_ps. rewrite Hu, Hv. eexists. split; [reflexivity|exact I].
Qed.

(** The last load of the 8-bit kernel starts at [d - 4] and reads 16 bytes. *)
Lemma dot_i8x16avx2_returns a b d fuel :
  0 <= d < 2 ^ 64 -> (4 | d) -> covers a (d + 12) -> covers b (d + 12) ->
  d / 4 <= Z.of_nat fuel ->
  exists v, simsimd_dot_i8x16avx2 fuel a b d = Done v.
Proof.
  intros Hd Hdiv Ha Hb Hfuel. unfold simsimd_dot_i8x16avx2. returns_by_rule.
  intros i s Hi Hg _. pose proof (grid_room 4 d i ltac:(lia) Hdiv Hg ltac:(lia)).
  destruct (loads_total a b (d + 12) i 16 Ha Hb) as (u & v & Hu & Hv & _); try lia.
  unfold _mm_loadu_si128. rewrite Hu, Hv. eexists. split; [reflexivity|exact I].
Qed.

(** At an even word index an aligned pointer is at an aligned address. *)
Lemma load_si128_aligned p i :
  aligned p -> (2 | i) ->
  _mm_load_si128 p i
  = match load (target p) (8 * i) 16 with
    | Some bytes => Some [le_combine (firstn 8 bytes); le_combine (skipn 8 bytes)]
    | None => None
    end.
Proof.
  intros Hp [q ->]. unfold _mm_load_si128, aligned in *.
  replace (address p + 8 * (q * 2)) with (address p + q * 16) by lia.
  rewrite Z.mod_add, Hp by lia. reflexivity.
Qed.

(** At an even word index a pointer that is not aligned cannot be loaded
    from. *)
Lemma load_si128_unaligned p i :
  ~ aligned p -> (2 | i) -> _mm_load_si128 p i = None.
Proof.
  intros Hp [q ->]. unfold _mm_load_si128, aligned in *.
  replace (address p + 8 * (q * 2)) with (address p + q * 16) by lia.
  rewrite Z.mod_add by lia.
  destruct (Z.eqb_spec (address p mod 16) 0); [contradiction|reflexivity].
Qed.

(** The 512-bit kernel walks [d / 128] 64-bit words two at a time. *)
Lemma hamming_u1x128avx512_returns a b d fuel :
  0 <= d < 2 ^ 64 -> (2 | d / 128) -> aligned a -> aligned b ->
  covers (target a) (8 * (d / 128)) -> covers (target b) (8 * (d / 128)) ->
  d / 128 / 2 <= Z.of_nat fuel ->
  exists v, simsimd_hamming_u1x128avx512 fuel a b d = Done v.
Proof.
  intros Hd Hdiv Aa Ab Ha Hb Hfuel. unfold simsimd_hamming_u1x128avx512.
  assert (0 <= d / 128 < 2 ^ 64).
  { split; [apply Z.div_pos; lia|]. apply Z.div_lt_upper_bound; lia. }
  returns_by_rule.
  intros i s Hi Hg _.
  pose proof (grid_room 2 (d / 128) i ltac:(lia) Hdiv Hg ltac:(lia)).
  destruct (loads_total (target a) (target b) (8 * (d / 128)) (8 * i) 16 Ha Hb)
    as (u & v & Hu & Hv & _); try lia.
  rewrite !load_si128_aligned by assumption.
  rewrite Hu, Hv. eexists. split; [reflexivity|exact I].
Qed.

Lemma svcntw_pos vl : (4 <= vl)%nat -> 0 < svcntw vl.
Proof.
  intros H. unfold svcntw.
  assert (0 < vl / 4)%nat by (apply Nat.div_str_pos; lia). lia.
Qed.

Lemma svcnth_pos vl : (2 <= vl)%nat -> 0 < svcnth vl.
Proof.
  intros H. unfold svcnth.
  assert (0 < vl / 2)%nat by (apply Nat.div_str_pos; lia). lia.
Qed.

Lemma svld1_b32_total ar vl (a b : buffer (num ar)) d i :
  covers a d -> covers b d -> 0 <= i ->
  exists u v, svld1_f32 vl ar (svwhilelt_b32 vl i d) a i = Some u
              /\ svld1_f32 vl ar (svwhilelt_b32 vl i d) b i = Some v.
Proof.
  intros Ha Hb Hi. unfold svld1_f32, svld1. rewrite lane_mask_whilelt_b32.
  destruct (load_while_total (zero ar) a d (vl / 4) i Hi Ha) as (u & Hu & _).
  destruct (load_while_total (zero ar) b d (vl / 4) i Hi Hb) as (v & Hv & _).
  eauto.
Qed.

Lemma svld1_b16_total ar vl (a b : buffer (num ar)) d i :
  covers a d -> covers b d -> 0 <= i ->
  exists u v, svld1_f16 vl ar (svwhilelt_b16 vl i d) a i = Some u
              /\ svld1_f16 vl ar (svwhilelt_b16 vl i d) b i = Some v.
Proof.
  intros Ha Hb Hi. unfold svld1_f16, svld1. rewrite lane_mask_whilelt_b16.
  destruct (load_while_total (zero ar) a d (vl / 2) i Hi Ha) as (u & Hu & _).
  destruct (load_while_total (zero ar) b d (vl / 2) i Hi Hb) as (v & Hv & _).
  eauto.
Qed.

Ltac sve_returns_by_rule d :=
  match goal with
  | |- exists v, outcome_map ?f (do_while ?fuel ?inc ?next ?test ?body ?i ?pg ?s)
                 = Done v =>
      let H := fresh "H" in
      assert (H : exists s' n, do_while fuel inc next test body i pg s = Done s'
                               /\ True /\ d <= n);
      [ apply (do_while_rule inc d next test body (fun _ _ => True));
        auto; try lia
      | destruct H as (? & ? & H & _); rewrite H; eexists; reflexivity ]
  end.

Ltac sve_body_b32 vl a b d i Ha Hb :=
  let u := fresh "u" in
  let v := fresh "v" in
  let Hu := fresh "Hu" in
  let Hv := fresh "Hv" in
  destruct (svld1_b32_total _ vl a b d i Ha Hb) as (u & v & Hu & Hv);
  [lia|rewrite Hu, Hv; eexists; split; [reflexivity|exact I]].

Ltac sve_body_b16 vl a b d i Ha Hb :=
  let u := fresh "u" in
  let v := fresh "v" in
  let Hu := fresh "Hu" in
  let Hv := fresh "Hv" in
  destruct (svld1_b16_total _ vl a b d i Ha Hb) as (u & v & Hu & Hv);
  [lia|rewrite Hu, Hv; eexists; split; [reflexivity|exact I]].

Lemma dot_f32sve_returns vl ar f_mla a b d fuel :
  (4 <= vl)%nat -> 0 <= d -> d + svcntw vl < 2 ^ 64 ->
  covers a d -> covers b d -> d / svcntw vl < Z.of_nat fuel ->
  exists v, simsimd_dot_f32sve vl ar f_mla fuel a b d = Done v.
Proof.
  intros Hvl Hd Hfit Ha Hb Hfuel. pose proof (svcntw_pos vl Hvl).
  unfold simsimd_dot_f32sve. sve_returns_by_rule d.
  - intros i _. apply ptest_whilelt_b32. lia.
  - intros s _. sve_body_b32 vl a b d 0 Ha Hb.
  - intros i s Hi _. sve_body_b32 vl a b d i Ha Hb.
Qed.

Lemma dot_f16sve_returns vl ar f_mla a b d fuel :
  (2 <= vl)%nat -> 0 <= d -> d + svcnth vl < 2 ^ 64 ->
  covers a d -> covers b d -> d / svcnth vl < Z.of_nat fuel ->
  exists v, simsimd_dot_f16sve vl ar f_mla fuel a b d = Done v.
Proof.
  intros Hvl Hd Hfit Ha Hb Hfuel. pose proof (svcnth_pos vl Hvl).
  unfold simsimd_dot_f16sve. sve_returns_by_rule d.
  - intros i _. apply ptest_whilelt_b16. lia.
  - intros s _. sve_body_b16 vl a b d 0 Ha Hb.
  - intros i s Hi _. sve_body_b16 vl a b d i Ha Hb.
Qed.

Lemma cos_f32sve_returns vl ar f_ab f_a2 f_b2 a b d fuel :
  (4 <= vl)%nat -> 0 <= d -> d + svcntw vl < 2 ^ 64 ->
  covers a d -> covers b d -> d / svcntw vl < Z.of_nat fuel ->
  exists v, simsimd_cos_f32sve vl ar f_ab f_a2 f_b2 fuel a b d = Done v.
Proof.
  intros Hvl Hd Hfit Ha Hb Hfuel. pose proof (svcntw_pos vl Hvl).
  unfold simsimd_cos_f32sve. sve_returns_by_rule d.
  - intros i _. apply ptest_whilelt_b32. lia.
  - intros [[ab a2] b2] _. sve_body_b32 vl a b d 0 Ha Hb.
  - intros i [[ab a2] b2] Hi _. sve_body_b32 vl a b d i Ha Hb.
Qed.

Lemma euclidean_f32sve_returns vl ar f_sub f_mla a b d fuel :
  (4 <= vl)%nat -> 0 <= d -> d + svcntw vl < 2 ^ 64 ->
  covers a d -> covers b d -> d / svcntw vl < Z.of_nat fuel ->
  exists v, simsimd_euclidean_f32sve vl ar f_sub f_mla fuel a b d = Done v.
Proof.
  intros Hvl Hd Hfit Ha Hb Hfuel. pose proof (svcntw_pos vl Hvl).
  unfold simsimd_euclidean_f32sve. sve_returns_by_rule d.
  - intros i _. apply ptest_whilelt_b32. lia.
  - intros s _. sve_body_b32 vl a b d 0 Ha Hb.
  - intros i s Hi _. sve_body_b32 vl a b d i Ha Hb.
Qed.

Lemma euclidean_f16sve_returns vl ar f_sub f_mla a b d fuel :
  (2 <= vl)%nat -> 0 <= d -> d + svcnth vl < 2 ^ 64 ->
  covers a d -> covers b d -> d / svcnth vl < Z.of_nat fuel ->
  exists v, simsimd_euclidean_f16sve vl ar f_sub f_mla fuel a b d = Done v.
Proof.
  intros Hvl Hd Hfit Ha Hb Hfuel. pose proof (svcnth_pos vl Hvl).
  unfold simsimd_euclidean_f16sve. sve_returns_by_rule d.
  - intros i _. apply ptest_whilelt_b16. lia.
  - intros s _. sve_body_b16 vl a b d 0 Ha Hb.
  - intros i s Hi _. sve_body_b16 vl a b d i Ha Hb.
Qed.

(** The byte-granular Hamming kernel: whatever the predicate, the lanes it
    reads at a counter [i < d] lie below [d + svcntb()]. *)
Lemma svld1_u8_total vl (a b : buffer Z) n pg i :
  covers a n -> covers b n -> 0 <= i -> i + Z.of_nat vl <= n ->
  exists u v, svld1_u8 vl pg a i = Some u /\ svld1_u8 vl pg b i = Some v.
Proof.
  intros Ha Hb Hi Hn. unfold svld1_u8.
  destruct (load_m_total 0 a (lane_mask vl 1 pg) i) as (u & Hu & _).
  { rewrite length_lane_mask, Nat.div_1_r. intros k Hk. apply Ha. lia. }
  destruct (load_m_total 0 b (lane_mask vl 1 pg) i) as (v & Hv & _).
  { rewrite length_lane_mask, Nat.div_1_r. intros k Hk. apply Hb. lia. }
  eauto.
Qed.

Lemma hamming_u1x8sve_returns vl a b d fuel :
  (0 < vl)%nat -> 0 <= d -> d + svcntb vl * 8 < 2 ^ 64 ->
  covers a (d + svcntb vl) -> covers b (d + svcntb vl) ->
  d / (svcntb vl * 8) < Z.of_nat fuel ->
  exists v, simsimd_hamming_u1x8sve vl fuel a b d = Done v.
Proof.
  intros Hvl Hd Hfit Ha Hb Hfuel. unfold svcntb in *.
  unfold simsimd_hamming_u1x8sve, svcntb. sve_returns_by_rule d.
  - intros i _. apply ptest_whilelt_b32. lia.
  - intros s _.
    destruct (svld1_u8_total vl a b _ (svwhilelt_b8 vl 0 d) 0 Ha Hb)
      as (u & v & Hu & Hv); try lia.
    rewrite Hu, Hv. eexists. split; [reflexivity|exact I].
  - intros i s Hi _.
    destruct (svld1_u8_total vl a b _ (svwhilelt_b32 vl i d) i Ha Hb)
      as (u & v & Hu & Hv); try lia.
    rewrite Hu, Hv. eexists. split; [reflexivity|exact I].
Qed.

(** ** The inactive lanes of the [_x] forms *)

(** A predicated load leaves [z] in its inactive lanes. *)
Lemma load_m_wipe {A} (z : A) (a : buffer A) m : forall i u,
  load_m z m a i = Some u -> wipe z m u = u.
Proof.
  unfold wipe. induction m as [|p m IH]; intros i u; simpl.
  - intros E. inversion E. reflexivity.
  - destruct (if p then a i else Some z) as [x|] eqn:Ex; [|discriminate].
    destruct (load_m z m a (i + 1)) as [xs|] eqn:E; [|discriminate].
    intros E'. inversion E'. subst. simpl. rewrite (IH _ _ E).
    destruct p; simpl; [reflexivity|]. inversion Ex. reflexivity.
Qed.

Lemma wipe_Forall {A} (P : A -> Prop) z m v :
  P z -> Forall P v -> Forall P (wipe z m v).
Proof.
  intros Hz. unfold wipe. revert v.
  induction (map negb m) as [|p m' IH]; intros [|x v] H; simpl; try constructor.
  - inversion H; subst. destruct p; auto.
  - inversion H; subst. auto.
Qed.

Lemma length_wipe {A} (z : A) : forall m v,
  length v = length m -> length (wipe z m v) = length m.
Proof.
  unfold wipe. induction m as [|p m IH]; intros [|x v]; simpl; try discriminate;
    auto.
Qed.

Lemma wipe_wipe {A} (z : A) : forall m v, wipe z m (wipe z m v) = wipe z m v.
Proof.
  unfold wipe. induction m as [|p m IH]; intros [|x v]; simpl; try reflexivity.
  rewrite IH. destruct p; reflexivity.
Qed.

(** Where every lane is active nothing is replaced. *)
Lemma wipe_all {A} (z : A) : forall n v,
  length v = n -> wipe z (repeat true n) v = v.
Proof.
  unfold wipe. induction n as [|n IH]; intros [|x v]; simpl; try discriminate;
    auto.
  intros E. rewrite IH by lia. reflexivity.
Qed.

(** Where no lane is active every lane is replaced. *)
Lemma wipe_none {A} (z : A) : forall n v,
  length v = n -> wipe z (repeat false n) v = repeat z n.
Proof.
  unfold wipe. induction n as [|n IH]; intros [|x v]; simpl; try discriminate;
    auto.
  intros E. rewrite IH by lia. reflexivity.
Qed.

Lemma wipe_cons {A} (z : A) p m x v :
  wipe z (p :: m) (x :: v) = x :: v -> (p = false -> x = z) /\ wipe z m v = v.
Proof.
  unfold wipe. simpl. intros E. inversion E as [[E1 E2]]. rewrite E2. split; auto.
  intros ->. simpl in E1. rewrite !E1. reflexivity.
Qed.

(** A merging operation that overwrites an operand whose inactive lanes are
    [z] acts like the operation that overwrites the accumulator, after the
    inactive lanes of the accumulator have been set to [z]. *)
Lemma zip3_m_tied_first {A} (f : A -> A -> A -> A) z : forall m acc u v,
  wipe z m u = u ->
  zip3_m (fun x y c => f c x y) m u v acc = zip3_m f m (wipe z m acc) u v.
Proof.
  induction m as [|p m IH]; intros [|c acc] [|x u] [|y v] H; try reflexivity.
  apply wipe_cons in H. destruct H as (Hx & Hu).
  unfold wipe in *. simpl. rewrite (IH acc u v Hu).
  destruct p; simpl; [reflexivity|]. rewrite Hx; reflexivity.
Qed.

Lemma zip3_m_tied_second {A} (f : A -> A -> A -> A) z : forall m acc u v,
  wipe z m v = v ->
  zip3_m (fun y x c => f c x y) m v u acc = zip3_m f m (wipe z m acc) u v.
Proof.
  induction m as [|p m IH]; intros [|c acc] [|x u] [|y v] H; try reflexivity.
  apply wipe_cons in H. destruct H as (Hy & Hv).
  unfold wipe in *. simpl. rewrite (IH acc u v Hv).
  destruct p; simpl; [reflexivity|]. rewrite Hy; reflexivity.
Qed.

Lemma zip_m_tied {A} (f : A -> A -> A) z : forall m u v,
  wipe z m u = u -> wipe z m v = v ->
  zip_m (fun y x => f x y) m v u = zip_m f m u v.
Proof.
  induction m as [|p m IH]; intros [|x u] [|y v] Hu Hv; try reflexivity.
  apply wipe_cons in Hu, Hv. destruct Hu as (Hx & Hu), Hv as (Hy & Hv).
  simpl. rewrite (IH u v Hu Hv).
  destruct p; [reflexivity|]. rewrite Hx, Hy; reflexivity.
Qed.

Lemma zip_m_wipe {A} (f : A -> A -> A) z : forall m u v,
  wipe z m u = u -> wipe z m (zip_m f m u v) = zip_m f m u v.
Proof.
  induction m as [|p m IH]; intros [|x u] [|y v] Hu; try reflexivity.
  apply wipe_cons in Hu. destruct Hu as (Hx & Hu).
  unfold wipe in *. simpl. rewrite (IH u v Hu).
  destruct p; simpl; [reflexivity|]. rewrite Hx; reflexivity.
Qed.

Section Forms.
Variables (vl : nat) (ar : arith) (esz : nat).

Lemma svld1_wipe pg a i u :
  svld1 vl ar esz pg a i = Some u -> wipe (zero ar) (lane_mask vl esz pg) u = u.
Proof. apply load_m_wipe. Qed.

(** Whatever its form, a multiply-accumulate of loaded lanes is the [FMLA]
    of the settled accumulator. *)
Lemma svmla_x_settle form pg acc u v :
  wipe (zero ar) (lane_mask vl esz pg) u = u ->
  wipe (zero ar) (lane_mask vl esz pg) v = v ->
  svmla_x vl ar esz form pg acc u v
  = svmla_x vl ar esz FMLA pg (settle ar form (lane_mask vl esz pg) acc) u v.
Proof.
  intros Hu Hv. destruct form; unfold svmla_x, settle.
  - reflexivity.
  - apply (zip3_m_tied_first (fun c x y => fma ar x y c)). exact Hu.
  - apply (zip3_m_tied_second (fun c x y => fma ar x y c)). exact Hv.
Qed.

(** Whatever its form, a subtraction of loaded lanes is the [FSUB], and
    its inactive lanes are [+0.0]. *)
Lemma svsub_x_settle form pg u v :
  wipe (zero ar) (lane_mask vl esz pg) u = u ->
  wipe (zero ar) (lane_mask vl esz pg) v = v ->
  svsub_x vl ar esz form pg u v = svsub_x vl ar esz FSUB pg u v.
Proof.
  intros Hu Hv. destruct form; unfold svsub_x; [reflexivity|].
  apply (zip_m_tied (sub ar) (zero ar)); assumption.
Qed.

Lemma svsub_x_wipe pg u v :
  wipe (zero ar) (lane_mask vl esz pg) u = u ->
  wipe (zero ar) (lane_mask vl esz pg) (svsub_x vl ar esz FSUB pg u v)
  = svsub_x vl ar esz FSUB pg u v.
Proof. apply zip_m_wipe. Qed.

(** The step of the Euclidean kernels, whatever the forms. *)
Lemma euclidean_step_settle f_sub f_mla pg acc u v :
  wipe (zero ar) (lane_mask vl esz pg) u = u ->
  wipe (zero ar) (lane_mask vl esz pg) v = v ->
  svmla_x vl ar esz f_mla pg acc (svsub_x vl ar esz f_sub pg u v)
                                 (svsub_x vl ar esz f_sub pg u v)
  = svmla_x vl ar esz FMLA pg (settle ar f_mla (lane_mask vl esz pg) acc)
      (svsub_x vl ar esz FSUB pg u v) (svsub_x vl ar esz FSUB pg u v).
Proof.
  intros Hu Hv. rewrite (svsub_x_settle f_sub pg u v Hu Hv).
  apply svmla_x_settle; apply svsub_x_wipe; exact Hu.
Qed.

Lemma settle_Forall (P : num ar -> Prop) form m acc :
  P (zero ar) -> Forall P acc -> Forall P (settle ar form m acc).
Proof.
  intros Hz H. destruct form; simpl; try assumption; apply wipe_Forall; assumption.
Qed.

Lemma length_settle form m acc :
  length acc = length m -> length (settle ar form m acc) = length m.
Proof.
  intros H. destruct form; simpl; try assumption; apply length_wipe; assumption.
Qed.
End Forms.

(** Two computations that agree on what the loads return. *)
Lemma bind2_ext {A B} (x y : option A) (k k' : A -> A -> B) :
  (forall u v, x = Some u -> y = Some v -> k u v = k' u v) ->
  bind2 x y k = bind2 x y k'.
Proof. intros H. destruct x, y; simpl; try reflexivity. f_equal. auto. Qed.

Lemma bind2_swap_at {A B} (x y : option A) (k k' : A -> A -> B)
      (R : B -> B -> Prop) :
  (forall u v, x = Some u -> y = Some v -> R (k u v) (k' v u)) ->
  option_rel R (bind2 x y k) (bind2 y x k').
Proof. intros H. destruct x, y; simpl; auto. Qed.

(** ** The loops end on the lengths they are written for *)

(** Whatever the body does, readable buffers or not, the counted loop
    leaves after [(n - i) / step] iterations at the latest when [n] is on
    the grid of the counter. *)
Lemma for_ne_ends {St} step n (body : Z -> St -> option St) :
  0 < step -> n < 2 ^ 64 ->
  forall fuel i s,
    0 <= i <= n -> (step | n - i) -> (n - i) / step <= Z.of_nat fuel ->
    for_ne fuel step n body i s <> Timeout.
Proof.
  intros Hstep Hn. induction fuel as [|fuel IH]; intros i s Hi [q Hq] Hfuel;
    rewrite Hq, Z.div_mul in Hfuel by lia; simpl.
  - assert (q = 0) by nia. destruct (Z.eqb_spec i n); [discriminate|nia].
  - destruct (Z.eqb_spec i n) as [|Hne]; [discriminate|].
    destruct (body i s) as [s'|]; [|discriminate].
    assert (0 < q) by nia.
    rewrite wrap64_small by nia. apply IH.
    + nia.
    + exists (q - 1). lia.
    + replace (n - (i + step)) with ((q - 1) * step) by lia.
      rewrite Z.div_mul by lia. lia.
Qed.

(** The predicated loop leaves once the counter has passed [d]. *)
Lemma do_while_ends {St Pg} inc d (next : Z -> Pg) (test : Pg -> bool)
      (body : Pg -> Z -> St -> option St) :
  0 < inc -> d + inc < 2 ^ 64 ->
  (forall i, 0 <= i -> test (next i) = (i <? d)) ->
  forall fuel i pg s,
    0 <= i <= d -> (d - i) / inc < Z.of_nat fuel ->
    do_while fuel inc next test body i pg s <> Timeout.
Proof.
  intros Hinc Hfit Htest. induction fuel as [|fuel IH]; intros i pg s Hi Hfuel.
  - pose proof (Z.div_pos (d - i) inc). lia.
  - simpl. destruct (body pg i s) as [s'|]; [|discriminate].
    rewrite wrap64_small by lia. rewrite Htest by lia.
    destruct (Z.ltb_spec (i + inc) d) as [Hlt|Hge]; [|discriminate].
    apply IH; [lia|].
    replace (d - i) with ((d - (i + inc)) + 1 * inc) in Hfuel by lia.
    rewrite Z.div_add in Hfuel by lia. lia.
Qed.

Lemma outcome_map_ends {A B} (f : A -> B) (o : outcome A) :
  o <> Timeout -> outcome_map f o <> Timeout.
Proof. destruct o; simpl; congruence. Qed.

Section ScalableEnds.
Variable vl : nat.
Variable d : Z.
Hypothesis Hvl : (4 <= vl)%nat.
Hypothesis Hd : 0 <= d.

Lemma dot_f32sve_ends ar f_mla fuel a b :
  d + svcntw vl < 2 ^ 64 -> d / svcntw vl < Z.of_nat fuel ->
  simsimd_dot_f32sve vl ar f_mla fuel a b d <> Timeout.
Proof.
  intros Hfit Hfuel. pose proof (svcntw_pos vl Hvl).
  apply outcome_map_ends, (do_while_ends (svcntw vl) d); try lia.
  - intros i _. apply ptest_whilelt_b32. lia.
  - rewrite Z.sub_0_r. exact Hfuel.
Qed.

Lemma dot_f16sve_ends ar f_mla fuel a b :
  d + svcnth vl < 2 ^ 64 -> d / svcnth vl < Z.of_nat fuel ->
  simsimd_dot_f16sve vl ar f_mla fuel a b d <> Timeout.
Proof.
  intros Hfit Hfuel. pose proof (svcnth_pos vl ltac:(lia)).
  apply outcome_map_ends, (do_while_ends (svcnth vl) d); try lia.
  - intros i _. apply ptest_whilelt_b16. lia.
  - rewrite Z.sub_0_r. exact Hfuel.
Qed.

Lemma cos_f32sve_ends ar f_ab f_a2 f_b2 fuel a b :
  d + svcntw vl < 2 ^ 64 -> d / svcntw vl < Z.of_nat fuel ->
  simsimd_cos_f32sve vl ar f_ab f_a2 f_b2 fuel a b d <> Timeout.
Proof.
  intros Hfit Hfuel. pose proof (svcntw_pos vl Hvl).
  apply outcome_map_ends, (do_while_ends (svcntw vl) d); try lia.
  - intros i _. apply ptest_whilelt_b32. lia.
  - rewrite Z.sub_0_r. exact Hfuel.
Qed.

Lemma euclidean_f32sve_ends ar f_sub f_mla fuel a b :
  d + svcntw vl < 2 ^ 64 -> d / svcntw vl < Z.of_nat fuel ->
  simsimd_euclidean_f32sve vl ar f_sub f_mla fuel a b d <> Timeout.
Proof.
  intros Hfit Hfuel. pose proof (svcntw_pos vl Hvl).
  apply outcome_map_ends, (do_while_ends (svcntw vl) d); try lia.
  - intros i _. apply ptest_whilelt_b32. lia.
  - rewrite Z.sub_0_r. exact Hfuel.
Qed.

Lemma euclidean_f16sve_ends ar f_sub f_mla fuel a b :
  d + svcnth vl < 2 ^ 64 -> d / svcnth vl < Z.of_nat fuel ->
  simsimd_euclidean_f16sve vl ar f_sub f_mla fuel a b d <> Timeout.
Proof.
  intros Hfit Hfuel. pose proof (svcnth_pos vl ltac:(lia)).
  apply outcome_map_ends, (do_while_ends (svcnth vl) d); try lia.
  - intros i _. apply ptest_whilelt_b16. lia.
  - rewrite Z.sub_0_r. exact Hfuel.
Qed.

Lemma hamming_u1x8sve_ends fuel a b :
  d + svcntb vl * 8 < 2 ^ 64 -> d / (svcntb vl * 8) < Z.of_nat fuel ->
  simsimd_hamming_u1x8sve vl fuel a b d <> Timeout.
Proof.
  intros Hfit Hfuel. assert (0 < svcntb vl) by (unfold svcntb; lia).
  apply outcome_map_ends, (do_while_ends (svcntb vl * 8) d); try lia.
  - intros i _. apply ptest_whilelt_b32. lia.
  - rewrite Z.sub_0_r. exact Hfuel.
Qed.
End ScalableEnds.

Section FixedWidthEnds.
Variable d : Z.
Hypothesis Hd : 0 <= d < 2 ^ 64.

Lemma dot_f32x4neon_ends ar fuel a b :
  (4 | d) -> d / 4 <= Z.of_nat fuel ->
  simsimd_dot_f32x4neon ar fuel a b d <> Timeout.
Proof.
  intros Hdiv Hfuel. apply outcome_map_ends, for_ne_ends; rewrite ?Z.sub_0_r;
    try lia; assumption.
Qed.

Lemma cos_f32x4neon_ends ar fuel a b :
  (4 | d) -> d / 4 <= Z.of_nat fuel ->
  simsimd_cos_f32x4neon ar fuel a b d <> Timeout.
Proof.
  intros Hdiv Hfuel. apply outcome_map_ends, for_ne_ends; rewrite ?Z.sub_0_r;
    try lia; assumption.
Qed.

Lemma dot_f32x4avx2_ends ar fuel a b :
  (4 | d) -> d / 4 <= Z.of_nat fuel ->
  simsimd_dot_f32x4avx2 ar fuel a b d <> Timeout.
Proof.
  intros Hdiv Hfuel. apply outcome_map_ends, for_ne_ends; rewrite ?Z.sub_0_r;
    try lia; assumption.
Qed.

Lemma cos_f32x4avx2_ends ar fuel a b :
  (4 | d) -> d / 4 <= Z.of_nat fuel ->
  simsimd_cos_f32x4avx2 ar fuel a b d <> Timeout.
Proof.
  intros Hdiv Hfuel. apply outcome_map_ends, for_ne_ends; rewrite ?Z.sub_0_r;
    try lia; assumption.
Qed.

Lemma dot_i8x16avx2_ends fuel a b :
  (4 | d) -> d / 4 <= Z.of_nat fuel ->
  simsimd_dot_i8x16avx2 fuel a b d <> Timeout.
Proof.
  intros Hdiv Hfuel. apply outcome_map_ends, for_ne_ends; rewrite ?Z.sub_0_r;
    try lia; assumption.
Qed.

Lemma hamming_u1x128sve_ends fuel a b :
  (16 | d) -> d / 16 <= Z.of_nat fuel ->
  simsimd_hamming_u1x128sve fuel a b d <> Timeout.
Proof.
  intros Hdiv Hfuel. apply outcome_map_ends, for_ne_ends; rewrite ?Z.sub_0_r;
    try lia; assumption.
Qed.
End FixedWidthEnds.

(** ** Exchanging the two operands *)

Lemma zip_comm {A} (f : A -> A -> A) :
  (forall x y, f x y = f y x) -> forall v1 v2, zip f v1 v2 = zip f v2 v1.
Proof.
  intros H. induction v1 as [|x v1 IH]; intros [|y v2]; simpl; try reflexivity.
  rewrite H, IH. reflexivity.
Qed.

Lemma zip3_swap_front {A} (f : A -> A -> A -> A) :
  (forall x y c, f x y c = f y x c) ->
  forall v1 v2 acc, zip3 f v1 v2 acc = zip3 f v2 v1 acc.
Proof.
  intros H. induction v1 as [|x v1 IH]; intros [|y v2] [|c acc]; simpl;
    try reflexivity.
  rewrite H, IH. reflexivity.
Qed.

Lemma zip3_swap_back {A} (f : A -> A -> A -> A) :
  (forall c x y, f c x y = f c y x) ->
  forall acc v1 v2, zip3 f acc v1 v2 = zip3 f acc v2 v1.
Proof.
  intros H. induction acc as [|c acc IH]; intros [|x v1] [|y v2]; simpl;
    try reflexivity.
  rewrite H, IH. reflexivity.
Qed.

Lemma zip3_m_swap_back {A} (f : A -> A -> A -> A) :
  (forall c x y, f c x y = f c y x) ->
  forall m acc v1 v2, zip3_m f m acc v1 v2 = zip3_m f m acc v2 v1.
Proof.
  intros H. induction m as [|p m IH]; intros [|c acc] [|x v1] [|y v2]; simpl;
    try reflexivity.
  rewrite H, IH. reflexivity.
Qed.

(** One step of the byte-granular Hamming kernel. *)
Lemma hamming_sve_step_swap m : forall acc v1 v2,
  zip_m (fun x y => wrap8 (x + y)) m acc (map_m (popcount 8) m (zip_m Z.lxor m v1 v2))
  = zip_m (fun x y => wrap8 (x + y)) m acc (map_m (popcount 8) m (zip_m Z.lxor m v2 v1)).
Proof.
  induction m as [|p m IH]; intros [|c acc] [|x v1] [|y v2]; simpl;
    try reflexivity.
  rewrite IH. destruct p; [rewrite Z.lxor_comm|]; reflexivity.
Qed.

Lemma SFmul_comm prec emax x y : SFmul prec emax x y = SFmul prec emax y x.
Proof.
  destruct x as [sx|sx| |sx mx ex], y as [sy|sy| |sy my ey]; simpl;
    try reflexivity; try (rewrite xorb_comm; reflexivity).
  rewrite xorb_comm, Pos.mul_comm, Z.add_comm. reflexivity.
Qed.

Lemma SFfma_comm prec emax x y z : SFfma prec emax x y z = SFfma prec emax y x z.
Proof.
  destruct x as [sx|sx| |sx mx ex], y as [sy|sy| |sy my ey]; simpl;
    try reflexivity;
    try (rewrite (xorb_comm sx sy); reflexivity).
  destruct z as [sz|sz| |sz mz ez]; try reflexivity.
  - rewrite (xorb_comm sx sy), (Pos.mul_comm mx my), (Z.add_comm ex ey).
    reflexivity.
  - rewrite (xorb_comm sx sy), (Pos.mul_comm mx my), (Z.add_comm ex ey).
    reflexivity.
Qed.

Lemma ieee_commutative prec emax : commutative (ieee prec emax).
Proof.
  split; simpl; intros.
  - apply SFmul_comm.
  - apply SFfma_comm.
Qed.

Section Symmetry.
Variable ar : arith.
Hypothesis Hc : commutative ar.

Lemma dot_f32sve_sym vl f_mla fuel a b d :
  simsimd_dot_f32sve vl ar f_mla fuel a b d = simsimd_dot_f32sve vl ar f_mla fuel b a d.
Proof.
  unfold simsimd_dot_f32sve. f_equal. apply outcome_rel_eq.
  apply do_while_sim; [|reflexivity].
  intros pg i s1 s2 <-. apply bind2_swap_at. intros u v Hu Hv.
  apply svld1_wipe in Hu, Hv. unfold svmla_f32_x.
  rewrite (svmla_x_settle vl ar 4 f_mla pg s1 u v Hu Hv).
  rewrite (svmla_x_settle vl ar 4 f_mla pg s1 v u Hv Hu).
  unfold svmla_x. apply zip3_m_swap_back. intros. apply (fma_comm ar Hc).
Qed.

Lemma dot_f16sve_sym vl f_mla fuel a b d :
  simsimd_dot_f16sve vl ar f_mla fuel a b d = simsimd_dot_f16sve vl ar f_mla fuel b a d.
Proof.
  unfold simsimd_dot_f16sve. f_equal. apply outcome_rel_eq.
  apply do_while_sim; [|reflexivity].
  intros pg i s1 s2 <-. apply bind2_swap_at. intros u v Hu Hv.
  apply svld1_wipe in Hu, Hv. unfold svmla_f16_x.
  rewrite (svmla_x_settle vl ar 2 f_mla pg s1 u v Hu Hv).
  rewrite (svmla_x_settle vl ar 2 f_mla pg s1 v u Hv Hu).
  unfold svmla_x. apply zip3_m_swap_back. intros. apply (fma_comm ar Hc).
Qed.

Lemma dot_f32x4neon_sym fuel a b d :
  simsimd_dot_f32x4neon ar fuel a b d = simsimd_dot_f32x4neon ar fuel b a d.
Proof.
  unfold simsimd_dot_f32x4neon. f_equal. apply outcome_rel_eq.
  apply for_ne_sim; [|reflexivity].
  intros i s1 s2 <-. apply bind2_swap. intros u v.
  unfold vmlaq_f32. apply zip3_swap_back. intros.
  rewrite (mul_comm ar Hc). reflexivity.
Qed.

Lemma dot_f32x4avx2_sym fuel a b d :
  simsimd_dot_f32x4avx2 ar fuel a b d = simsimd_dot_f32x4avx2 ar fuel b a d.
Proof.
  unfold simsimd_dot_f32x4avx2. f_equal. apply outcome_rel_eq.
  apply for_ne_sim; [|reflexivity].
  intros i s1 s2 <-. apply bind2_swap. intros u v.
  unfold _mm_fmadd_ps. apply zip3_swap_front. intros. apply (fma_comm ar Hc).
Qed.
End Symmetry.

Lemma dot_i8x16avx2_sym fuel a b d :
  simsimd_dot_i8x16avx2 fuel a b d = simsimd_dot_i8x16avx2 fuel b a d.
Proof.
  unfold simsimd_dot_i8x16avx2. f_equal. apply outcome_rel_eq.
  apply for_ne_sim; [|reflexivity].
  intros i s1 s2 <-. apply bind2_swap. intros u v.
  f_equal. unfold _mm256_mullo_epi16. apply zip_comm.
  intros. rewrite Z.mul_comm. reflexivity.
Qed.

Lemma hamming_u1x8sve_sym vl fuel a b d :
  simsimd_hamming_u1x8sve vl fuel a b d = simsimd_hamming_u1x8sve vl fuel b a d.
Proof.
  unfold simsimd_hamming_u1x8sve. f_equal. apply outcome_rel_eq.
  apply do_while_sim; [|reflexivity].
  intros pg i s1 s2 <-. apply bind2_swap. intros u v.
  unfold svadd_u8_m, svcnt_u8_x, sveor_u8_m. apply hamming_sve_step_swap.
Qed.

Lemma hamming_u1x128sve_sym fuel a b d :
  simsimd_hamming_u1x128sve fuel a b d = simsimd_hamming_u1x128sve fuel b a d.
Proof.
  unfold simsimd_hamming_u1x128sve. f_equal. apply outcome_rel_eq.
  apply for_ne_sim; [|reflexivity].
  intros i s1 s2 <-. apply bind2_swap. intros u v.
  unfold veorq_u8. rewrite (zip_comm Z.lxor Z.lxor_comm). reflexivity.
Qed.

Lemma hamming_u1x128avx512_sym fuel (a b : pointer) d :
  simsimd_hamming_u1x128avx512 fuel a b d = simsimd_hamming_u1x128avx512 fuel b a d.
Proof.
  unfold simsimd_hamming_u1x128avx512. f_equal. apply outcome_rel_eq.
  apply for_ne_sim; [|reflexivity].
  intros i s1 s2 <-. apply bind2_swap. intros u v.
  unfold _mm_xor_si128. rewrite (zip_comm Z.lxor Z.lxor_comm). reflexivity.
Qed.

(** ** Sums in arithmetic without rounding *)

Lemma firstn_add {A} (l : list A) : forall n m,
  firstn (n + m) l = firstn n l ++ firstn m (skipn n l).
Proof.
  induction l as [|x l IH]; intros [|n] m; simpl; try reflexivity.
  - rewrite firstn_nil. reflexivity.
  - rewrite IH. reflexivity.
Qed.

Lemma skipn_nth_error {A} (l : list A) : forall i x,
  nth_error l i = Some x -> skipn i l = x :: skipn (S i) l.
Proof.
  induction l as [|y l IH]; intros [|i] x; simpl; try discriminate.
  - intros E. inversion E. reflexivity.
  - intros E. apply IH in E. exact E.
Qed.

Lemma nth_error_zip {A} (f : A -> A -> A) : forall l1 l2 i x y,
  nth_error l1 i = Some x -> nth_error l2 i = Some y ->
  nth_error (zip f l1 l2) i = Some (f x y).
Proof.
  induction l1 as [|u l1 IH]; intros [|v l2] [|i] x y; simpl; try discriminate.
  - intros E1 E2. inversion E1. inversion E2. reflexivity.
  - apply IH.
Qed.

Lemma length_zip {A} (f : A -> A -> A) : forall l1 l2,
  length l1 = length l2 -> length (zip f l1 l2) = length l1.
Proof.
  induction l1 as [|u l1 IH]; intros [|v l2]; simpl; try discriminate; auto.
Qed.

Lemma map_m_none {A} (f : A -> A) n : forall v,
  length v = n -> map_m f (map negb (repeat true n)) v = v.
Proof.
  induction n as [|n IH]; intros [|x v]; simpl; try discriminate; auto.
  intros E. rewrite IH by lia. reflexivity.
Qed.

Lemma products_zip ar : forall a b, products ar a b = zip (mul ar) a b.
Proof.
  unfold products. induction a as [|x a IH]; intros [|y b]; simpl; try reflexivity.
  rewrite IH. reflexivity.
Qed.

Section Exact.
Variable ar : arith.
Hypothesis He : exact ar.

Lemma add_zero_r x : add ar x (zero ar) = x.
Proof. rewrite (add_comm ar He). apply (add_zero_l ar He). Qed.

Lemma add_shuffle p c s t :
  add ar (add ar p c) (add ar s t) = add ar (add ar c s) (add ar p t).
Proof.
  rewrite (add_comm ar He p c).
  rewrite <- (add_assoc ar He c p (add ar s t)).
  rewrite (add_assoc ar He p s t), (add_comm ar He p s).
  rewrite <- (add_assoc ar He s p t).
  rewrite (add_assoc ar He c s (add ar p t)). reflexivity.
Qed.

Lemma vsum_app l1 l2 : vsum ar (l1 ++ l2) = add ar (vsum ar l1) (vsum ar l2).
Proof.
  induction l1 as [|x l1 IH]; simpl.
  - rewrite (add_zero_l ar He). reflexivity.
  - unfold vsum in *. simpl. rewrite IH. apply (add_assoc ar He).
Qed.

Lemma vsum_zeros v : Forall (fun x => x = zero ar) v -> vsum ar v = zero ar.
Proof.
  induction 1 as [|x v Hx Hv IH]; [reflexivity|].
  unfold vsum in *. cbn [fold_right]. rewrite IH, Hx.
  apply (add_zero_l ar He).
Qed.

Lemma reduce_tree_vsum depth : forall v,
  (length v <= 2 ^ depth)%nat -> reduce_tree ar depth v = vsum ar v.
Proof.
  induction depth as [|k IH]; intros v Hv; simpl in *.
  - destruct v as [|x [|y v]]; simpl in *; try lia.
    + reflexivity.
    + unfold vsum. simpl. rewrite add_zero_r. reflexivity.
  - rewrite !IH.
    + rewrite <- vsum_app, firstn_skipn. reflexivity.
    + rewrite length_skipn. lia.
    + rewrite length_firstn. lia.
Qed.

Lemma dot_ref_products : forall a b acc,
  fold_left (fun s '(x, y) => add ar s (mul ar x y)) (combine a b) acc
  = add ar acc (vsum ar (products ar a b)).
Proof.
  unfold products.
  induction a as [|x a IH]; intros [|y b] acc; simpl;
    try (rewrite add_zero_r; reflexivity).
  rewrite IH. unfold vsum. simpl. rewrite (add_assoc ar He). reflexivity.
Qed.

Lemma dot_ref_vsum a b : dot_ref ar a b = vsum ar (products ar a b).
Proof.
  unfold dot_ref. rewrite dot_ref_products. apply (add_zero_l ar He).
Qed.

End Exact.

(** ** Predicates carried lane by lane *)

Lemma Forall_trivial {A} (l : list A) : Forall (fun _ => True) l.
Proof. induction l; constructor; auto. Qed.

Lemma zip3_Forall {A} (f : A -> A -> A -> A) (P1 P2 P3 Q : A -> Prop) :
  (forall x y z, P1 x -> P2 y -> P3 z -> Q (f x y z)) ->
  forall v1 v2 v3, Forall P1 v1 -> Forall P2 v2 -> Forall P3 v3 ->
                   Forall Q (zip3 f v1 v2 v3).
Proof.
  intros Hf. induction v1 as [|x v1 IH]; intros [|y v2] [|z v3] H1 H2 H3; simpl;
    try constructor.
  - inversion H1; inversion H2; inversion H3; subst. auto.
  - inversion H1; inversion H2; inversion H3; subst. auto.
Qed.

Lemma zip3_m_Forall {A} (f : A -> A -> A -> A) (P Q R : A -> Prop) :
  (forall c x y, P c -> Q x -> R y -> P (f c x y)) ->
  forall m acc v1 v2, Forall P acc -> Forall Q v1 -> Forall R v2 ->
                      Forall P (zip3_m f m acc v1 v2).
Proof.
  intros Hf. induction m as [|p m IH]; intros [|c acc] [|x v1] [|y v2] H1 H2 H3;
    simpl; try constructor.
  - inversion H1; inversion H2; inversion H3; subst. destruct p; auto.
  - inversion H1; inversion H2; inversion H3; subst. auto.
Qed.


Lemma map_m_Forall {A} (f : A -> A) (P : A -> Prop) :
  (forall x, P x -> P (f x)) ->
  forall m v, Forall P v -> Forall P (map_m f m v).
Proof.
  intros Hf. induction m as [|p m IH]; intros [|x v] H; simpl; try constructor.
  - inversion H; subst. destruct p; auto.
  - inversion H; subst. auto.
Qed.

Lemma pairs_Forall {A} (f : A -> A -> A) (P : A -> Prop) :
  (forall x y, P x -> P y -> P (f x y)) ->
  forall v, Forall P v -> Forall P (pairs f v).
Proof.
  intros Hf. fix IH 1. intros [|x [|y v]] H; simpl; try constructor.
  - inversion H as [|? ? Hx H']; inversion H'; subst. auto.
  - inversion H as [|? ? Hx H']; inversion H'; subst. apply IH. assumption.
Qed.

Lemma Forall_repeat {A} (P : A -> Prop) x n : P x -> Forall P (repeat x n).
Proof. intros H. induction n; simpl; constructor; auto. Qed.

Lemma Forall_first {A} (P : A -> Prop) : forall n l, Forall P l -> Forall P (firstn n l).
Proof.
  induction n as [|n IH]; intros [|x l] H; simpl; try constructor.
  - inversion H; assumption.
  - apply IH. inversion H; assumption.
Qed.

Lemma Forall_skip {A} (P : A -> Prop) : forall n l, Forall P l -> Forall P (skipn n l).
Proof.
  induction n as [|n IH]; intros [|x l] H; simpl; try assumption.
  apply IH. inversion H; assumption.
Qed.

Section Closed.
Variable ar : arith.
Variable P : num ar -> Prop.
Hypothesis Pzero : P (zero ar).
Hypothesis Padd : forall x y, P x -> P y -> P (add ar x y).

Lemma reduce_tree_closed depth : forall v, Forall P v -> P (reduce_tree ar depth v).
Proof.
  induction depth as [|k IH]; intros v Hv; simpl.
  - destruct Hv; simpl; assumption.
  - apply Padd; apply IH.
    + apply Forall_first. assumption.
    + apply Forall_skip. assumption.
Qed.

Lemma svaddv_closed vl esz pg v : Forall P v -> P (svaddv vl ar esz pg v).
Proof.
  intros Hv. unfold svaddv. apply reduce_tree_closed.
  apply map_m_Forall; auto.
Qed.

Lemma vaddvq_f32_closed v : Forall P v -> P (vaddvq_f32 ar v).
Proof. apply reduce_tree_closed. Qed.

Lemma hadd_low_closed v :
  Forall P v ->
  P (low_lane ar (_mm_hadd_ps ar (_mm_hadd_ps ar v v) (_mm_hadd_ps ar v v))).
Proof.
  intros Hv.
  assert (H1 : Forall P (_mm_hadd_ps ar v v)).
  { unfold _mm_hadd_ps. apply Forall_app. split; apply pairs_Forall; auto. }
  assert (H2 : Forall P (_mm_hadd_ps ar (_mm_hadd_ps ar v v) (_mm_hadd_ps ar v v))).
  { unfold _mm_hadd_ps at 1. apply Forall_app. split; apply pairs_Forall; auto. }
  unfold low_lane. destruct H2; simpl; assumption.
Qed.
End Closed.

(** ** Zeros and NaNs in the IEEE formats *)

Section IEEE.
Variables prec emax : Z.
Let ar : arith := ieee prec emax.
Let pzero : spec_float := S754_zero false.


Lemma fma_zeros : fma ar pzero pzero pzero = pzero.
Proof. reflexivity. Qed.

Lemma add_zeros : add ar pzero pzero = pzero.
Proof. reflexivity. Qed.

Lemma sqrt_zero : sqrt ar pzero = pzero.
Proof. reflexivity. Qed.

Lemma fma_zero_l x y c :
  is_zero x = true -> zero_or_nan c = true -> zero_or_nan (fma ar x y c) = true.
Proof.
  destruct x as [sx|sx| |sx mx ex]; simpl; try discriminate; intros _.
  destruct y as [sy|sy| |sy my ey], c as [sc|sc| |sc mc ec]; simpl;
    try discriminate; try reflexivity;
    intros _; destruct (Bool.eqb _ _); reflexivity.
Qed.

Lemma fma_zero_square x : is_zero x = true -> fma ar x x pzero = pzero.
Proof.
  destruct x as [sx|sx| |sx mx ex]; simpl; try discriminate; intros _.
  destruct sx; reflexivity.
Qed.

Lemma mul_zero_l x y : is_zero x = true -> zero_or_nan (mul ar x y) = true.
Proof.
  destruct x as [sx|sx| |sx mx ex]; simpl; try discriminate; intros _.
  destruct y; reflexivity.
Qed.

Lemma mul_zero_r x y : is_zero y = true -> zero_or_nan (mul ar x y) = true.
Proof.
  destruct y as [sy|sy| |sy my ey]; simpl; try discriminate; intros _.
  destruct x; reflexivity.
Qed.

Lemma mul_zero_square x : is_zero x = true -> mul ar x x = pzero.
Proof.
  destruct x as [sx|sx| |sx mx ex]; simpl; try discriminate; intros _.
  destruct sx; reflexivity.
Qed.

Lemma add_zero_or_nan x y :
  zero_or_nan x = true -> zero_or_nan y = true -> zero_or_nan (add ar x y) = true.
Proof.
  destruct x as [sx|sx| |sx mx ex], y as [sy|sy| |sy my ey]; simpl;
    try discriminate; try reflexivity.
  intros _ _. destruct sx, sy; reflexivity.
Qed.

(** The quotient of a zero or NaN by a zero or NaN is a NaN. *)
Lemma div_zero_or_nan x y :
  zero_or_nan x = true -> zero_or_nan y = true -> div ar x y = S754_nan.
Proof.
  destruct x as [sx|sx| |sx mx ex], y as [sy|sy| |sy my ey]; simpl;
    try discriminate; reflexivity.
Qed.

Lemma fma_zero_r x y c :
  is_zero y = true -> zero_or_nan c = true -> zero_or_nan (fma ar x y c) = true.
Proof.
  intros Hy Hc. simpl. rewrite SFfma_comm. apply fma_zero_l; assumption.
Qed.

Lemma fma_zero_zero x y :
  is_zero x = true -> is_zero y = true -> fma ar x y pzero = pzero.
Proof.
  destruct x as [sx|sx| |sx mx ex]; simpl; try discriminate; intros _.
  destruct y as [sy|sy| |sy my ey]; simpl; try discriminate; intros _.
  destruct sx, sy; reflexivity.
Qed.

Lemma mla_zero_zero x y :
  is_zero x = true -> is_zero y = true -> add ar pzero (mul ar x y) = pzero.
Proof.
  destruct x as [sx|sx| |sx mx ex]; simpl; try discriminate; intros _.
  destruct y as [sy|sy| |sy my ey]; simpl; try discriminate; intros _.
  destruct sx, sy; reflexivity.
Qed.

(** The tail of the cosine kernels when one squared norm is [+0.0]. *)
Lemma cos_tail_zero_norm ab b2 :
  zero_or_nan ab = true -> cos_tail ar ab pzero b2 = S754_nan.
Proof.
  intros H. unfold cos_tail. apply div_zero_or_nan; [exact H|].
  apply mul_zero_l. reflexivity.
Qed.
Lemma cos_tail_zero_norm_r ab a2 :
  zero_or_nan ab = true -> cos_tail ar ab a2 pzero = S754_nan.
Proof.
  intros H. unfold cos_tail. apply div_zero_or_nan; [exact H|].
  apply mul_zero_r. reflexivity.
Qed.
End IEEE.

(** ** Lane predicates under every form *)

Section FormsLanes.
Variables (vl : nat) (ar : arith) (esz : nat).

Lemma svmla_x_Forall (P Q R : num ar -> Prop) form pg acc u v :
  P (zero ar) ->
  (forall c x y, P c -> Q x -> R y -> P (fma ar x y c)) ->
  wipe (zero ar) (lane_mask vl esz pg) u = u ->
  wipe (zero ar) (lane_mask vl esz pg) v = v ->
  Forall P acc -> Forall Q u -> Forall R v ->
  Forall P (svmla_x vl ar esz form pg acc u v).
Proof.
  intros Hz Hf Hu Hv Hacc HQ HR. rewrite (svmla_x_settle vl ar esz form pg acc u v Hu Hv).
  unfold svmla_x. apply (zip3_m_Forall _ P Q R); try assumption.
  destruct form; simpl; try assumption; apply wipe_Forall; assumption.
Qed.
End FormsLanes.

(** What a predicated load returns satisfies what the elements do. *)
Lemma svld1_b32_Forall ar vl (P : num ar -> Prop) (a : buffer (num ar)) d i u :
  P (zero ar) -> all_in a d P -> 0 <= i ->
  svld1_f32 vl ar (svwhilelt_b32 vl i d) a i = Some u -> Forall P u.
Proof.
  intros Hz Ha Hi. unfold svld1_f32, svld1. rewrite lane_mask_whilelt_b32.
  apply load_while_Forall; assumption.
Qed.

Lemma svld1_b16_Forall ar vl (P : num ar -> Prop) (a : buffer (num ar)) d i u :
  P (zero ar) -> all_in a d P -> 0 <= i ->
  svld1_f16 vl ar (svwhilelt_b16 vl i d) a i = Some u -> Forall P u.
Proof.
  intros Hz Ha Hi. unfold svld1_f16, svld1. rewrite lane_mask_whilelt_b16.
  apply load_while_Forall; assumption.
Qed.

(** One step of a scalable dot product carries a lane predicate. *)
Section DotStep.
Variables (ar : arith) (vl : nat).
Variables P Qa Qb : num ar -> Prop.
Hypothesis P0 : P (zero ar).
Hypothesis Qa0 : Qa (zero ar).
Hypothesis Qb0 : Qb (zero ar).
Hypothesis Hf : forall c x y, P c -> Qa x -> Qb y -> P (fma ar x y c).
Variables (a b : buffer (num ar)) (d : Z).
Hypothesis Ha : covers a d.
Hypothesis Hb : covers b d.
Hypothesis HQa : all_in a d Qa.
Hypothesis HQb : all_in b d Qb.

Lemma dot_b32_step_Forall form i s :
  0 <= i -> Forall P s ->
  exists s',
    bind2 (svld1_f32 vl ar (svwhilelt_b32 vl i d) a i)
          (svld1_f32 vl ar (svwhilelt_b32 vl i d) b i)
          (fun u v => svmla_f32_x vl ar form (svwhilelt_b32 vl i d) s u v)
    = Some s' /\ Forall P s'.
Proof.
  intros Hi Hs.
  destruct (svld1_b32_total ar vl a b d i Ha Hb Hi) as (u & v & Hu & Hv).
  pose proof (svld1_b32_Forall ar vl Qa a d i u Qa0 HQa Hi Hu).
  pose proof (svld1_b32_Forall ar vl Qb b d i v Qb0 HQb Hi Hv).
  rewrite Hu, Hv. eexists. split; [reflexivity|].
  apply svld1_wipe in Hu, Hv.
  apply (svmla_x_Forall vl ar 4 P Qa Qb); assumption.
Qed.

Lemma dot_b16_step_Forall form i s :
  0 <= i -> Forall P s ->
  exists s',
    bind2 (svld1_f16 vl ar (svwhilelt_b16 vl i d) a i)
          (svld1_f16 vl ar (svwhilelt_b16 vl i d) b i)
          (fun u v => svmla_f16_x vl ar form (svwhilelt_b16 vl i d) s u v)
    = Some s' /\ Forall P s'.
Proof.
  intros Hi Hs.
  destruct (svld1_b16_total ar vl a b d i Ha Hb Hi) as (u & v & Hu & Hv).
  pose proof (svld1_b16_Forall ar vl Qa a d i u Qa0 HQa Hi Hu).
  pose proof (svld1_b16_Forall ar vl Qb b d i v Qb0 HQb Hi Hv).
  rewrite Hu, Hv. eexists. split; [reflexivity|].
  apply svld1_wipe in Hu, Hv.
  apply (svmla_x_Forall vl ar 2 P Qa Qb); assumption.
Qed.
End DotStep.

(** ** Lane predicates through the cosine kernels *)

(** If the elements of [a] satisfy [Qa], those of [b] satisfy [Qb], and the
    lane updates carry [P1], [P2] and [P3], then the three sums that enter
    the final division satisfy [P1], [P2] and [P3]. *)
Section CosineLanes.
Variable ar : arith.
Variables Qa Qb P1 P2 P3 : num ar -> Prop.
Hypothesis Qa0 : Qa (zero ar).
Hypothesis Qb0 : Qb (zero ar).
Hypothesis P10 : P1 (zero ar).
Hypothesis P20 : P2 (zero ar).
Hypothesis P30 : P3 (zero ar).
Hypothesis P1add : forall x y, P1 x -> P1 y -> P1 (add ar x y).
Hypothesis P2add : forall x y, P2 x -> P2 y -> P2 (add ar x y).
Hypothesis P3add : forall x y, P3 x -> P3 y -> P3 (add ar x y).
Variables (a b : buffer (num ar)) (d : Z).
Hypothesis Ha : covers a d.
Hypothesis Hb : covers b d.
Hypothesis HQa : all_in a d Qa.
Hypothesis HQb : all_in b d Qb.

Let inv (s : list (num ar) * list (num ar) * list (num ar)) : Prop :=
  let '(ab, a2, b2) := s in Forall P1 ab /\ Forall P2 a2 /\ Forall P3 b2.

Lemma load4_lanes i :
  0 <= i -> i + 4 <= d ->
  exists u v, load a i 4 = Some u /\ load b i 4 = Some v
              /\ Forall Qa u /\ Forall Qb v.
Proof.
  intros Hi Hd.
  destruct (loads_total a b d i 4 Ha Hb) as (u & v & Hu & Hv & _); try lia.
  exists u, v. repeat split; try assumption.
  - eapply load_Forall; [|exact Hu]. intros k x Hk. apply HQa. lia.
  - eapply load_Forall; [|exact Hv]. intros k x Hk. apply HQb. lia.
Qed.

Section Fused.
Hypothesis U1 : forall x y c, Qa x -> Qb y -> P1 c -> P1 (fma ar x y c).
Hypothesis U2 : forall x y c, Qa x -> Qa y -> P2 c -> P2 (fma ar x y c).
Hypothesis U3 : forall x y c, Qb x -> Qb y -> P3 c -> P3 (fma ar x y c).

Lemma cos_f32sve_lanes vl f_ab f_a2 f_b2 fuel :
  (4 <= vl)%nat -> 0 <= d -> d + svcntw vl < 2 ^ 64 ->
  d / svcntw vl < Z.of_nat fuel ->
  exists ab a2 b2,
    simsimd_cos_f32sve vl ar f_ab f_a2 f_b2 fuel a b d = Done (cos_tail ar ab a2 b2)
    /\ P1 ab /\ P2 a2 /\ P3 b2.
Proof.
  intros Hvl Hd Hfit Hfuel. pose proof (svcntw_pos vl Hvl) as Hpos.
  assert (Hstep : forall i s, 0 <= i -> inv s ->
            exists s',
              (let '(ab_vec, a2_vec, b2_vec) := s in
               bind2 (svld1_f32 vl ar (svwhilelt_b32 vl i d) a i)
                     (svld1_f32 vl ar (svwhilelt_b32 vl i d) b i)
                     (fun a_vec b_vec =>
                        (svmla_f32_x vl ar f_ab (svwhilelt_b32 vl i d)
                           ab_vec a_vec b_vec,
                         svmla_f32_x vl ar f_a2 (svwhilelt_b32 vl i d)
                           a2_vec a_vec a_vec,
                         svmla_f32_x vl ar f_b2 (svwhilelt_b32 vl i d)
                           b2_vec b_vec b_vec)))
              = Some s' /\ inv s').
  { intros i [[ab a2] b2] Hi (H1 & H2 & H3).
    destruct (svld1_b32_total ar vl a b d i Ha Hb Hi) as (u & v & Hu & Hv).
    pose proof (svld1_b32_Forall ar vl Qa a d i u Qa0 HQa Hi Hu).
    pose proof (svld1_b32_Forall ar vl Qb b d i v Qb0 HQb Hi Hv).
    rewrite Hu, Hv. eexists. split; [reflexivity|].
    apply svld1_wipe in Hu, Hv. unfold svmla_f32_x.
    repeat split.
    - apply (svmla_x_Forall vl ar 4 P1 Qa Qb); auto.
    - apply (svmla_x_Forall vl ar 4 P2 Qa Qa); auto.
    - apply (svmla_x_Forall vl ar 4 P3 Qb Qb); auto. }
  unfold simsimd_cos_f32sve.
  match goal with
  | |- exists _ _ _, outcome_map ?f (do_while ?fl ?inc ?next ?test ?body ?i ?pg ?s0)
                     = _ /\ _ =>
      destruct (do_while_rule inc d next test body (fun _ => inv) Hpos Hd Hfit)
        with (pg0 := pg) (fuel := fl) (s := s0) as (s' & n & Hs' & HP & Hn)
  end.
  - intros i _. apply ptest_whilelt_b32. lia.
  - intros s HP. apply (Hstep 0 s); [lia|exact HP].
  - intros i s Hi HP. apply (Hstep i s); [lia|exact HP].
  - unfold inv, svdupq_n_f32.
    repeat split; apply Forall_dupq; repeat constructor; assumption.
  - exact Hfuel.
  - rewrite Hs'. destruct s' as [[ab a2] b2]. destruct HP as (H1 & H2 & H3).
    simpl outcome_map. do 3 eexists. split; [reflexivity|].
    unfold svaddv_f32. repeat split; apply svaddv_closed; assumption.
Qed.

Lemma cos_f32x4avx2_lanes fuel :
  0 <= d < 2 ^ 64 -> (4 | d) -> d / 4 <= Z.of_nat fuel ->
  exists ab a2 b2,
    simsimd_cos_f32x4avx2 ar fuel a b d = Done (cos_tail ar ab a2 b2)
    /\ P1 ab /\ P2 a2 /\ P3 b2.
Proof.
  intros Hd Hdiv Hfuel. unfold simsimd_cos_f32x4avx2.
  match goal with
  | |- exists _ _ _, outcome_map ?f (for_ne ?fl ?step ?n ?body ?i ?s0) = _ /\ _ =>
      destruct (for_ne_run (fun _ => inv) step n body fl s0)
        as (s' & Hs' & HP); try lia; try assumption
  end.
  - intros i [[ab a2] b2] Hi Hg (H1 & H2 & H3).
    pose proof (grid_room 4 d i ltac:(lia) Hdiv Hg ltac:(lia)).
    destruct (load4_lanes i) as (u & v & Hu & Hv & HFu & HFv); try lia.
    unfold _mm_loadu_ps. rewrite Hu, Hv. eexists. split; [reflexivity|].
    unfold _mm_fmadd_ps. repeat split.
    + apply (zip3_Forall _ Qa Qb P1); auto.
    + apply (zip3_Forall _ Qa Qa P2); auto.
    + apply (zip3_Forall _ Qb Qb P3); auto.
  - unfold inv, _mm_set1_ps. repeat split; apply Forall_repeat; assumption.
  - rewrite Hs'. destruct s' as [[ab a2] b2]. destruct HP as (H1 & H2 & H3).
    simpl outcome_map. do 3 eexists. split; [reflexivity|].
    repeat split; apply hadd_low_closed; assumption.
Qed.
End Fused.

Section Unfused.
Hypothesis U1 : forall x y c, Qa x -> Qb y -> P1 c -> P1 (add ar c (mul ar x y)).
Hypothesis U2 : forall x y c, Qa x -> Qa y -> P2 c -> P2 (add ar c (mul ar x y)).
Hypothesis U3 : forall x y c, Qb x -> Qb y -> P3 c -> P3 (add ar c (mul ar x y)).

Lemma cos_f32x4neon_lanes fuel :
  0 <= d < 2 ^ 64 -> (4 | d) -> d / 4 <= Z.of_nat fuel ->
  exists ab a2 b2,
    simsimd_cos_f32x4neon ar fuel a b d = Done (cos_tail ar ab a2 b2)
    /\ P1 ab /\ P2 a2 /\ P3 b2.
Proof.
  intros Hd Hdiv Hfuel. unfold simsimd_cos_f32x4neon.
  match goal with
  | |- exists _ _ _, outcome_map ?f (for_ne ?fl ?step ?n ?body ?i ?s0) = _ /\ _ =>
      destruct (for_ne_run (fun _ => inv) step n body fl s0)
        as (s' & Hs' & HP); try lia; try assumption
  end.
  - intros i [[ab a2] b2] Hi Hg (H1 & H2 & H3).
    pose proof (grid_room 4 d i ltac:(lia) Hdiv Hg ltac:(lia)).
    destruct (load4_lanes i) as (u & v & Hu & Hv & HFu & HFv); try lia.
    unfold vld1q_f32. rewrite Hu, Hv. eexists. split; [reflexivity|].
    unfold vmlaq_f32. repeat split.
    + apply (zip3_Forall _ P1 Qa Qb); auto.
    + apply (zip3_Forall _ P2 Qa Qa); auto.
    + apply (zip3_Forall _ P3 Qb Qb); auto.
  - unfold inv, vdupq_n_f32. repeat split; apply Forall_repeat; assumption.
  - rewrite Hs'. destruct s' as [[ab a2] b2]. destruct HP as (H1 & H2 & H3).
    simpl outcome_map. do 3 eexists. split; [reflexivity|].
    repeat split; apply vaddvq_f32_closed; assumption.
Qed.
End Unfused.
End CosineLanes.

(** ** A vector against itself *)

Section EuclideanSelf.
Variables prec emax : Z.
Let ar : arith := ieee prec emax.
Let pzeroP (x : spec_float) : Prop := x = S754_zero false.
Let finiteP (x : spec_float) : Prop := is_finite x = true.


Variables (a : buffer spec_float) (d : Z).
Hypothesis Ha : covers a d.
Hypothesis Hfin : all_in a d finiteP.


End EuclideanSelf.




Lemma sum_m_zero_lanes m : forall v,
  Forall (fun x => x = 0) v -> sum_m m v = 0.
Proof.
  induction m as [|p m IH]; intros [|x v] H; simpl; try reflexivity.
  inversion H; subst. rewrite IH by assumption. destruct p; reflexivity.
Qed.






(** ** More fuel does not change a result *)

Lemma for_ne_more_fuel {St} step n (body : Z -> St -> option St) k :
  forall fuel i s r,
    for_ne fuel step n body i s = r -> r <> Timeout ->
    for_ne (fuel + k) step n body i s = r.
Proof.
  induction fuel as [|fuel IH]; intros i s r E Hr.
  - simpl in E. destruct k; simpl; destruct (i =? n); congruence.
  - simpl in *. destruct (i =? n); [exact E|].
    destruct (body i s); [|exact E]. apply IH; assumption.
Qed.

Lemma do_while_more_fuel {St Pg} inc (next : Z -> Pg) test
      (body : Pg -> Z -> St -> option St) k :
  forall fuel i pg s r,
    do_while fuel inc next test body i pg s = r -> r <> Timeout ->
    do_while (fuel + k) inc next test body i pg s = r.
Proof.
  induction fuel as [|fuel IH]; intros i pg s r E Hr.
  - simpl in E. congruence.
  - simpl in *. destruct (body pg i s); [|exact E].
    destruct (test _); [|exact E]. apply IH; assumption.
Qed.

Lemma outcome_map_timeout {A B} (f : A -> B) (o : outcome A) :
  outcome_map f o <> Timeout -> o <> Timeout.
Proof. destruct o; simpl; congruence. Qed.

Lemma for_ne_map_more_fuel {St B} (f : St -> B) step n body k fuel i s r :
  outcome_map f (for_ne fuel step n body i s) = r -> r <> Timeout ->
  outcome_map f (for_ne (fuel + k) step n body i s) = r.
Proof.
  intros E Hr. rewrite (for_ne_more_fuel step n body k fuel i s _ eq_refl).
  - exact E.
  - apply (outcome_map_timeout f). congruence.
Qed.

Lemma do_while_map_more_fuel {St Pg B} (f : St -> B) inc (next : Z -> Pg) test
      body k fuel i pg s r :
  outcome_map f (do_while fuel inc next test body i pg s) = r -> r <> Timeout ->
  outcome_map f (do_while (fuel + k) inc next test body i pg s) = r.
Proof.
  intros E Hr.
  rewrite (do_while_more_fuel inc next test body k fuel i pg s _ eq_refl).
  - exact E.
  - apply (outcome_map_timeout f). congruence.
Qed.

(** ** Lengths off the grid of a fixed-width loop *)

Lemma divide_4_pow64 : (4 | 2 ^ 64).
Proof. exists (2 ^ 62). reflexivity. Qed.

Lemma divide_2_pow64 : (2 | 2 ^ 64).
Proof. exists (2 ^ 63). reflexivity. Qed.

Lemma divide_16_pow64 : (16 | 2 ^ 64).
Proof. exists (2 ^ 60). reflexivity. Qed.

Lemma outcome_map_done {A B} (f : A -> B) (o : outcome A) v :
  outcome_map f o = Done v -> exists s, o = Done s.
Proof. destruct o; simpl; intros E; try discriminate. eauto. Qed.

Lemma dot_f32x4neon_off_grid ar fuel a b d v :
  ~ (4 | d) -> simsimd_dot_f32x4neon ar fuel a b d <> Done v.
Proof.
  intros Hd E. unfold simsimd_dot_f32x4neon in E.
  apply outcome_map_done in E. destruct E as (s & E). revert E.
  apply for_ne_off_grid; [apply divide_4_pow64|exact Hd|apply Z.divide_0_r].
Qed.

Lemma dot_f32x4avx2_off_grid ar fuel a b d v :
  ~ (4 | d) -> simsimd_dot_f32x4avx2 ar fuel a b d <> Done v.
Proof.
  intros Hd E. unfold simsimd_dot_f32x4avx2 in E.
  apply outcome_map_done in E. destruct E as (s & E). revert E.
  apply for_ne_off_grid; [apply divide_4_pow64|exact Hd|apply Z.divide_0_r].
Qed.

Lemma hamming_u1x128avx512_off_grid fuel a b d v :
  ~ (2 | d / 128) -> simsimd_hamming_u1x128avx512 fuel a b d <> Done v.
Proof.
  intros Hd E. unfold simsimd_hamming_u1x128avx512 in E.
  apply outcome_map_done in E. destruct E as (s & E). revert E.
  apply for_ne_off_grid; [apply divide_2_pow64|exact Hd|apply Z.divide_0_r].
Qed.

Lemma hamming_u1x128sve_off_grid fuel a b d v :
  ~ (16 | d) -> simsimd_hamming_u1x128sve fuel a b d <> Done v.
Proof.
  intros Hd E. unfold simsimd_hamming_u1x128sve in E.
  apply outcome_map_done in E. destruct E as (s & E). revert E.
  apply for_ne_off_grid; [apply divide_16_pow64|exact Hd|apply Z.divide_0_r].
Qed.

Lemma load_flat {A} (x : A) n : forall i, load (flat x) i n <> None.
Proof.
  induction n as [|n IH]; intros i; simpl; [discriminate|].
  specialize (IH (i + 1)). destruct (load (flat x) (i + 1) n); congruence.
Qed.

(** With every address readable the loop of the 128-bit dot product keeps
    running on a length that is not a multiple of 4. *)
Lemma dot_f32x4neon_diverges ar fuel x y d :
  ~ (4 | d) -> simsimd_dot_f32x4neon ar fuel (flat x) (flat y) d = Timeout.
Proof.
  intros Hd. unfold simsimd_dot_f32x4neon.
  rewrite for_ne_diverges; try reflexivity.
  - apply divide_4_pow64.
  - exact Hd.
  - intros i s. unfold vld1q_f32.
    pose proof (load_flat x 4 i). pose proof (load_flat y 4 i).
    destruct (load (flat x) i 4), (load (flat y) i 4); simpl; congruence.
  - apply Z.divide_0_r.
Qed.

Lemma dot_f32x4avx2_diverges ar fuel x y d :
  ~ (4 | d) -> simsimd_dot_f32x4avx2 ar fuel (flat x) (flat y) d = Timeout.
Proof.
  intros Hd. unfold simsimd_dot_f32x4avx2.
  rewrite for_ne_diverges; try reflexivity.
  - apply divide_4_pow64.
  - exact Hd.
  - intros i s. unfold _mm_loadu_ps.
    pose proof (load_flat x 4 i). pose proof (load_flat y 4 i).
    destruct (load (flat x) i 4), (load (flat y) i 4); simpl; congruence.
  - apply Z.divide_0_r.
Qed.

(** ** What the 128-bit and the 512-bit Hamming kernels count *)

(** Number of differing bits, byte by byte. *)
Lemma popcount_succ w x :
  popcount (S w) x = Z.b2z (Z.testbit x 0) + popcount w (Z.shiftr x 1).
Proof.
  cbn [popcount]. rewrite Z.bit0_odd, Z.div2_spec. reflexivity.
Qed.

Lemma popcount_testbits w : forall x,
  popcount w x
  = fold_right (fun k acc => Z.b2z (Z.testbit x (Z.of_nat k)) + acc) 0 (seq 0 w).
Proof.
  induction w as [|w IH]; intros x; [reflexivity|].
  rewrite popcount_succ, IH. cbn [seq fold_right]. f_equal.
  rewrite <- seq_shift. generalize (seq 0 w). intros l.
  induction l as [|k l IHl]; cbn [map fold_right]; [reflexivity|].
  rewrite IHl. f_equal. f_equal.
  rewrite Z.shiftr_spec by lia. f_equal. lia.
Qed.

Lemma hamming_ref_app a b n m :
  hamming_ref a b (n + m)
  = hamming_ref a b n
    + fold_right (fun k acc => Z.b2z (xorb (bit_of a k) (bit_of b k)) + acc) 0
        (seq n m).
Proof.
  unfold hamming_ref. rewrite seq_app. simpl.
  generalize (seq 0 n). intros l. induction l as [|k l IH]; simpl; lia.
Qed.

Lemma bit_of_byte l j r :
  (r < 8)%nat -> bit_of l (8 * j + r) = Z.testbit (nth j l 0) (Z.of_nat r).
Proof.
  intros Hr. unfold bit_of.
  replace ((8 * j + r) / 8)%nat with j.
  - replace ((8 * j + r) mod 8)%nat with r; [reflexivity|].
    rewrite Nat.add_comm, Nat.mul_comm, Nat.Div0.mod_add, Nat.mod_small; lia.
  - rewrite Nat.add_comm, Nat.mul_comm, Nat.div_add, Nat.div_small; lia.
Qed.

Lemma hamming_byte a b j :
  fold_right (fun k acc => Z.b2z (xorb (bit_of a k) (bit_of b k)) + acc) 0
    (seq (8 * j) 8)
  = popcount 8 (Z.lxor (nth j a 0) (nth j b 0)).
Proof.
  rewrite popcount_testbits.
  replace (8 * j)%nat with (8 * j + 0)%nat by lia.
  cbn [seq fold_right].
  rewrite !Z.lxor_spec.
  repeat match goal with
         | |- context [bit_of ?l (S ?n)] =>
             match n with
             | context [(8 * j + ?r)%nat] =>
                 let e := constr:(S n) in
                 let r' := eval cbv in (S r) in
                 replace e with (8 * j + r')%nat by lia
             end
         end.
  rewrite !bit_of_byte by lia. reflexivity.
Qed.

Lemma sum_app (l1 l2 : list Z) :
  fold_right Z.add 0 (l1 ++ l2) = fold_right Z.add 0 l1 + fold_right Z.add 0 l2.
Proof. induction l1 as [|x l1 IH]; simpl; lia. Qed.

Lemma zip_app {A} (f : A -> A -> A) : forall l1 l2 r1 r2,
  length l1 = length r1 ->
  zip f (l1 ++ l2) (r1 ++ r2) = zip f l1 r1 ++ zip f l2 r2.
Proof.
  induction l1 as [|x l1 IH]; intros l2 [|y r1] r2 H; simpl in *;
    try discriminate; try reflexivity.
  rewrite IH by lia. reflexivity.
Qed.

Lemma bytes_diff_app l1 l2 r1 r2 :
  length l1 = length r1 ->
  bytes_diff (l1 ++ l2) (r1 ++ r2) = bytes_diff l1 r1 + bytes_diff l2 r2.
Proof.
  intros H. unfold bytes_diff. rewrite zip_app, map_app, sum_app by exact H.
  reflexivity.
Qed.

Lemma firstn_snoc {A} (x0 : A) : forall n l,
  (n < length l)%nat -> firstn (S n) l = firstn n l ++ [nth n l x0].
Proof.
  induction n as [|n IH]; intros [|x l] H; simpl in *; try lia; try reflexivity.
  rewrite <- IH by lia. reflexivity.
Qed.

(** The differing bits of [n] whole bytes. *)
Lemma hamming_ref_bytes a b : forall n,
  (n <= length a)%nat -> (n <= length b)%nat ->
  hamming_ref a b (8 * n) = bytes_diff (firstn n a) (firstn n b).
Proof.
  induction n as [|n IH]; intros Ha Hb; [reflexivity|].
  replace (8 * S n)%nat with (8 * n + 8)%nat by lia.
  rewrite hamming_ref_app, hamming_byte, IH by lia.
  rewrite (firstn_snoc 0 n a), (firstn_snoc 0 n b) by lia.
  rewrite bytes_diff_app by (rewrite !length_firstn; lia).
  unfold bytes_diff at 3. simpl. lia.
Qed.

Lemma load_holds {A} (a : buffer A) l : holds a l ->
  forall n i, (i + n <= length l)%nat ->
              load a (Z.of_nat i) n = Some (firstn n (skipn i l)).
Proof.
  intros Ha. induction n as [|n IH]; intros i Hi; [reflexivity|].
  cbn [load]. replace (Z.of_nat i + 1) with (Z.of_nat (S i)) by lia.
  rewrite IH by lia.
  destruct (nth_error l i) as [x|] eqn:E; [|apply nth_error_None in E; lia].
  rewrite (Ha i x E), (skipn_nth_error l i x E). reflexivity.
Qed.

Lemma load_holds_at {A} (a : buffer A) l n i :
  holds a l -> 0 <= i -> (Z.to_nat i + n <= length l)%nat ->
  load a i n = Some (firstn n (skipn (Z.to_nat i) l)).
Proof.
  intros Ha Hi Hn. rewrite <- (load_holds a l Ha n (Z.to_nat i) Hn).
  rewrite Z2Nat.id by lia. reflexivity.
Qed.

Lemma sum_zip_wrap8 : forall acc v,
  length acc = length v ->
  fold_right Z.add 0 (zip (fun x y => wrap8 (x + y)) acc v) mod 2 ^ 8
  = (fold_right Z.add 0 acc + fold_right Z.add 0 v) mod 2 ^ 8.
Proof.
  induction acc as [|c acc IH]; intros [|x v] H; simpl in *; try discriminate;
    [reflexivity|].
  unfold wrap8 at 1.
  rewrite Z.add_mod, IH, Z.mod_mod, <- Z.add_mod by lia.
  f_equal. lia.
Qed.

(** The 128-bit kernel counts the differing bits of [d] bytes, modulo 256. *)
Lemma hamming_u1x128sve_counts p q la lb d fuel :
  holds p la -> holds q lb ->
  Z.of_nat (length la) = d -> Z.of_nat (length lb) = d ->
  d < 2 ^ 64 -> (16 | d) -> d / 16 <= Z.of_nat fuel ->
  simsimd_hamming_u1x128sve fuel p q d
  = Done (hamming_ref la lb (8 * length la) mod 2 ^ 8).
Proof.
  intros Hp Hq Hla Hlb Hd Hdiv Hfuel. unfold simsimd_hamming_u1x128sve.
  set (I := fun (i : Z) (acc : list Z) =>
              length acc = 16%nat
              /\ fold_right Z.add 0 acc mod 2 ^ 8
                 = bytes_diff (firstn (Z.to_nat i) la) (firstn (Z.to_nat i) lb)
                   mod 2 ^ 8).
  match goal with
  | |- outcome_map ?f (for_ne ?fl ?step ?n ?body ?i ?s0) = _ =>
      destruct (for_ne_run I step n body fl s0)
        as (s' & Hs' & HI); try lia; try assumption
  end.
  - intros i s Hi Hg (Hlen & Hsum).
    pose proof (grid_room 16 d i ltac:(lia) Hdiv Hg ltac:(lia)).
    unfold vld1q_u8.
    rewrite (load_holds_at p la 16 i Hp), (load_holds_at q lb 16 i Hq) by lia.
    eexists. split; [reflexivity|]. unfold I, vaddq_u8, vcntq_u8, veorq_u8.
    assert (Hl : length (map (popcount 8)
                           (zip Z.lxor (firstn 16 (skipn (Z.to_nat i) la))
                                       (firstn 16 (skipn (Z.to_nat i) lb))))
                 = 16%nat).
    { rewrite length_map, length_zip; rewrite !length_firstn, !length_skipn; lia. }
    split.
    + rewrite length_zip; lia.
    + rewrite sum_zip_wrap8 by lia.
      rewrite Z.add_mod, Hsum, <- Z.add_mod by lia.
      replace (Z.to_nat (i + 16)) with (Z.to_nat i + 16)%nat by lia.
      rewrite !firstn_add, bytes_diff_app by (rewrite !length_firstn; lia).
      reflexivity.
  - split; reflexivity.
  - rewrite Hs'. simpl outcome_map. unfold vaddvq_u8, wrap8. f_equal.
    destruct HI as (_ & Hsum). rewrite Hsum.
    rewrite hamming_ref_bytes by lia.
    rewrite <- Hla at 1 2. rewrite Nat2Z.id.
    rewrite firstn_all, firstn_all2 by lia. reflexivity.
Qed.

Lemma popcount_add n : forall m x,
  popcount (n + m) x = popcount n x + popcount m (Z.shiftr x (Z.of_nat n)).
Proof.
  induction n as [|n IH]; intros m x.
  - rewrite Z.shiftr_0_r. reflexivity.
  - change (S n + m)%nat with (S (n + m)).
    rewrite !popcount_succ, IH, Z.shiftr_shiftr by lia.
    replace (1 + Z.of_nat n) with (Z.of_nat (S n)) by lia. lia.
Qed.

Lemma popcount_low w x y :
  (forall k, 0 <= k < Z.of_nat w -> Z.testbit x k = Z.testbit y k) ->
  popcount w x = popcount w y.
Proof.
  intros H. rewrite !popcount_testbits.
  assert (Hin : forall k, In k (seq 0 w) -> (k < w)%nat)
    by (intros k Hk; apply in_seq in Hk; lia).
  revert Hin. generalize (seq 0 w). intros l.
  induction l as [|k l IH]; intros Hin; [reflexivity|].
  cbn [fold_right]. rewrite IH by (intros j Hj; apply Hin; right; exact Hj).
  rewrite H; [reflexivity|].
  specialize (Hin k (or_introl eq_refl)). lia.
Qed.

Lemma popcount_bounds w : forall x, 0 <= popcount w x <= Z.of_nat w.
Proof.
  induction w as [|w IH]; intros x; [simpl; lia|].
  cbn [popcount]. specialize (IH (Z.div2 x)).
  destruct (Z.odd x); simpl Z.b2z; lia.
Qed.

Lemma bytes_diff_bounds : forall a b,
  0 <= bytes_diff a b <= 8 * Z.of_nat (length a).
Proof.
  unfold bytes_diff.
  induction a as [|x a IH]; intros [|y b]; simpl length; try (simpl; lia).
  cbn [zip map fold_right]. specialize (IH b).
  pose proof (popcount_bounds 8 (Z.lxor x y)). lia.
Qed.

Lemma low_byte h t k :
  0 <= h < 256 -> 0 <= k < 8 -> Z.testbit (h + 256 * t) k = Z.testbit h k.
Proof.
  intros Hh Hk.
  rewrite <- (Z.mod_pow2_bits_low (h + 256 * t) 8 k) by lia.
  f_equal. change (2 ^ 8) with 256.
  replace (h + 256 * t) with (h + t * 256) by lia.
  rewrite Z.mod_add by lia. apply Z.mod_small. exact Hh.
Qed.

Lemma high_bytes h t : 0 <= h < 256 -> Z.shiftr (h + 256 * t) 8 = t.
Proof.
  intros Hh. rewrite Z.shiftr_div_pow2 by lia. change (2 ^ 8) with 256.
  replace (h + 256 * t) with (h + t * 256) by lia.
  rewrite Z.div_add by lia. rewrite (Z.div_small h 256) by lia. lia.
Qed.

(** The population count of the exclusive or of two little-endian words is
    the number of differing bits of their bytes. *)
Lemma popcount_le_combine : forall u v,
  length u = length v ->
  Forall (fun x => 0 <= x < 256) u -> Forall (fun x => 0 <= x < 256) v ->
  popcount (8 * length u) (Z.lxor (le_combine u) (le_combine v)) = bytes_diff u v.
Proof.
  induction u as [|h u IH]; intros [|h' v] Hlen Hu Hv; simpl length in *;
    try discriminate; [reflexivity|].
  inversion Hu as [|? ? Hh Hu']; inversion Hv as [|? ? Hh' Hv']; subst.
  replace (8 * S (length u))%nat with (8 + 8 * length u)%nat by lia.
  rewrite popcount_add. cbn [le_combine].
  rewrite Z.shiftr_lxor. change (Z.of_nat 8) with 8.
  rewrite !high_bytes, IH by (assumption || lia).
  unfold bytes_diff at 2. cbn [zip map fold_right]. f_equal.
  apply popcount_low. intros k Hk. rewrite !Z.lxor_spec, !low_byte by lia.
  reflexivity.
Qed.

Lemma sum_zip_wrap64 : forall acc v,
  length acc = length v ->
  fold_right Z.add 0 (zip (fun x y => wrap64 (x + y)) acc v) mod 2 ^ 64
  = (fold_right Z.add 0 acc + fold_right Z.add 0 v) mod 2 ^ 64.
Proof.
  induction acc as [|c acc IH]; intros [|x v] H; simpl in *; try discriminate;
    [reflexivity|].
  unfold wrap64 at 1.
  rewrite Z.add_mod, IH, Z.mod_mod, <- Z.add_mod by lia.
  f_equal. lia.
Qed.

(** The 512-bit kernel counts the differing bits of the first [d / 128]
    64-bit words, half of the [d] bits. *)
Lemma hamming_u1x128avx512_counts p q la lb d fuel :
  aligned p -> aligned q -> holds (target p) la -> holds (target q) lb ->
  Forall (fun x => 0 <= x < 256) la -> Forall (fun x => 0 <= x < 256) lb ->
  0 <= d < 2 ^ 64 -> (2 | d / 128) ->
  8 * (d / 128) <= Z.of_nat (length la) -> 8 * (d / 128) <= Z.of_nat (length lb) ->
  d / 128 / 2 <= Z.of_nat fuel ->
  simsimd_hamming_u1x128avx512 fuel p q d
  = Done (hamming_ref la lb (64 * Z.to_nat (d / 128))).
Proof.
  intros Ap Aq Hp Hq Bla Blb Hd Hdiv Hla Hlb Hfuel.
  unfold simsimd_hamming_u1x128avx512.
  assert (Hw : 0 <= d / 128 < 2 ^ 64).
  { split; [apply Z.div_pos; lia|]. apply Z.div_lt_upper_bound; lia. }
  set (I := fun (i : Z) (acc : list Z) =>
              length acc = 2%nat
              /\ fold_right Z.add 0 acc mod 2 ^ 64
                 = bytes_diff (firstn (8 * Z.to_nat i) la)
                              (firstn (8 * Z.to_nat i) lb) mod 2 ^ 64).
  match goal with
  | |- outcome_map ?f (for_ne ?fl ?step ?n ?body ?i ?s0) = _ =>
      destruct (for_ne_run I step n body fl s0)
        as (s' & Hs' & HI); try lia; try assumption
  end.
  - intros i s Hi Hg (Hlen & Hsum).
    pose proof (grid_room 2 (d / 128) i ltac:(lia) Hdiv Hg ltac:(lia)).
    rewrite !load_si128_aligned by assumption.
    rewrite (load_holds_at (target p) la 16 (8 * i) Hp),
      (load_holds_at (target q) lb 16 (8 * i) Hq) by lia.
    eexists. split; [reflexivity|].
    unfold I, _mm_add_epi64, _mm_popcnt_epi64, _mm_xor_si128.
    replace (Z.to_nat (8 * i)) with (8 * Z.to_nat i)%nat by lia.
    set (A := firstn 16 (skipn (8 * Z.to_nat i) la)).
    set (B := firstn 16 (skipn (8 * Z.to_nat i) lb)).
    assert (HA : length A = 16%nat)
      by (unfold A; rewrite length_firstn, length_skipn; lia).
    assert (HB : length B = 16%nat)
      by (unfold B; rewrite length_firstn, length_skipn; lia).
    assert (FA : Forall (fun x => 0 <= x < 256) A)
      by (unfold A; apply Forall_first, Forall_skip; assumption).
    assert (FB : Forall (fun x => 0 <= x < 256) B)
      by (unfold B; apply Forall_first, Forall_skip; assumption).
    cbn [zip map]. split.
    + destruct s as [|x [|y [|z s]]]; simpl in Hlen; try discriminate. reflexivity.
    + rewrite sum_zip_wrap64 by (rewrite Hlen; reflexivity).
      rewrite Z.add_mod, Hsum, <- Z.add_mod by lia.
      replace (8 * Z.to_nat (i + 2))%nat with (8 * Z.to_nat i + 16)%nat by lia.
      rewrite !firstn_add, bytes_diff_app by (rewrite !length_firstn; lia).
      fold A. fold B. f_equal. f_equal. cbn [fold_right].
      rewrite <- (firstn_skipn 8 A) at 3. rewrite <- (firstn_skipn 8 B) at 3.
      rewrite bytes_diff_app by (rewrite !length_firstn; lia).
      rewrite <- !popcount_le_combine;
        try (apply Forall_first; assumption);
        try (apply Forall_skip; assumption);
        try (rewrite ?length_firstn, ?length_skipn; lia).
      rewrite length_firstn, length_skipn, HA.
      change (8 * Nat.min 8 16)%nat with 64%nat.
      change (8 * (16 - 8))%nat with 64%nat. lia.
  - split; reflexivity.
  - rewrite Hs'. simpl outcome_map. f_equal.
    destruct HI as (Hlen & Hsum).
    unfold _mm_cvtm64_si64, _mm_movepi64_pi64, _mm_extract_epi64, wrap64.
    destruct s' as [|x [|y [|z s']]]; simpl in Hlen; try discriminate.
    cbn [nth]. cbn [fold_right] in Hsum. rewrite Z.add_0_r in Hsum.
    rewrite Hsum.
    replace (64 * Z.to_nat (d / 128))%nat with (8 * (8 * Z.to_nat (d / 128)))%nat
      by lia.
    rewrite hamming_ref_bytes by lia.
    apply Z.mod_small.
    pose proof (bytes_diff_bounds (firstn (8 * Z.to_nat (d / 128)) la)
                                  (firstn (8 * Z.to_nat (d / 128)) lb)) as Hb.
    rewrite length_firstn in Hb.
    pose proof (Z.mul_div_le d 128 ltac:(lia)). lia.
Qed.

(** ** The float scenarios of the specification, in binary32 *)

Example scenario_dot_product :
  (forall f_mla,
     Forall (fun vl =>
               simsimd_dot_f32sve vl binary32 f_mla 2
                 (of_list (map (SFofZ 24 128) [1; 2; 3; 4]))
                 (of_list (map (SFofZ 24 128) [5; 6; 7; 8])) 4
               = Done (SFofZ 24 128 70)) sve_lengths)
  /\ simsimd_dot_f32x4neon binary32 1
       (of_list (map (SFofZ 24 128) [1; 2; 3; 4]))
       (of_list (map (SFofZ 24 128) [5; 6; 7; 8])) 4
     = Done (SFofZ 24 128 70)
  /\ simsimd_dot_f32x4avx2 binary32 1
       (of_list (map (SFofZ 24 128) [1; 2; 3; 4]))
       (of_list (map (SFofZ 24 128) [5; 6; 7; 8])) 4
     = Done (SFofZ 24 128 70).
Proof.
  split; [|split; vm_compute; reflexivity].
  intros []; unfold sve_lengths; simpl map; repeat constructor; vm_compute;
    reflexivity.
Qed.

Example scenario_cosine_orthogonal :
  (forall f_ab f_a2 f_b2,
     simsimd_cos_f32sve 16 binary32 f_ab f_a2 f_b2 2
       (of_list (map (SFofZ 24 128) [1; 0; 0; 0]))
       (of_list (map (SFofZ 24 128) [0; 1; 0; 0])) 4
     = Done (S754_zero false))
  /\ simsimd_cos_f32x4neon binary32 1
       (of_list (map (SFofZ 24 128) [1; 0; 0; 0]))
       (of_list (map (SFofZ 24 128) [0; 1; 0; 0])) 4
     = Done (S754_zero false)
  /\ simsimd_cos_f32x4avx2 binary32 1
       (of_list (map (SFofZ 24 128) [1; 0; 0; 0]))
       (of_list (map (SFofZ 24 128) [0; 1; 0; 0])) 4
     = Done (S754_zero false).
Proof.
  split; [intros [] [] []; vm_compute; reflexivity|].
  split; vm_compute; reflexivity.
Qed.

Example scenario_cosine_parallel :
  (forall f_ab f_a2 f_b2,
     simsimd_cos_f32sve 16 binary32 f_ab f_a2 f_b2 2
       (of_list (map (SFofZ 24 128) [3; 4; 0; 0]))
       (of_list (map (SFofZ 24 128) [3; 4; 0; 0])) 4
     = Done (SFofZ 24 128 1))
  /\ simsimd_cos_f32x4neon binary32 1
       (of_list (map (SFofZ 24 128) [3; 4; 0; 0]))
       (of_list (map (SFofZ 24 128) [3; 4; 0; 0])) 4
     = Done (SFofZ 24 128 1)
  /\ simsimd_cos_f32x4avx2 binary32 1
       (of_list (map (SFofZ 24 128) [3; 4; 0; 0]))
       (of_list (map (SFofZ 24 128) [3; 4; 0; 0])) 4
     = Done (SFofZ 24 128 1).
Proof.
  split; [intros [] [] []; vm_compute; reflexivity|].
  split; vm_compute; reflexivity.
Qed.

Example scenario_euclidean :
  forall f_sub f_mla,
    simsimd_euclidean_f32sve 16 binary32 f_sub f_mla 2
      (of_list (map (SFofZ 24 128) [0; 0; 0; 0]))
      (of_list (map (SFofZ 24 128) [1; 1; 1; 1])) 4
    = Done (SFofZ 24 128 2).
Proof. intros [] []; vm_compute; reflexivity. Qed.

(** The fused product-sum rounds once: with [x = 1 + 2^-23] the exact
    [x * x - (1 + 2^-22)] is [2^-46], which the separate product loses. *)
Example fma_is_fused :
  SFfma 24 128 (S754_finite false 8388609 (-23)) (S754_finite false 8388609 (-23))
               (S754_finite true 8388610 (-23))
  = S754_finite false 8388608 (-69)
  /\ SFadd 24 128
       (SFmul 24 128 (S754_finite false 8388609 (-23))
                     (S754_finite false 8388609 (-23)))
       (S754_finite true 8388610 (-23))
     = S754_zero false.
Proof. split; vm_compute; reflexivity. Qed.

(** ** The cosine of a zero vector *)

Section CosineOfZero.
Variables prec emax : Z.
Let ar : arith := ieee prec emax.
Let zeroP (x : spec_float) : Prop := is_zero x = true.
Let znanP (x : spec_float) : Prop := zero_or_nan x = true.
Let pzeroP (x : spec_float) : Prop := x = S754_zero false.
Let anyP (x : spec_float) : Prop := True.
Variables (a b : buffer spec_float) (d : Z).
Hypothesis Ha : covers a d.
Hypothesis Hb : covers b d.

Lemma all_in_any (c : buffer spec_float) : all_in c d anyP.
Proof. intros j x _ _. exact I. Qed.

Lemma pzero_add x y : pzeroP x -> pzeroP y -> pzeroP (add ar x y).
Proof. intros -> ->. reflexivity. Qed.

Lemma znan_add x y : znanP x -> znanP y -> znanP (add ar x y).
Proof. apply add_zero_or_nan. Qed.

Lemma znan_mla_l x y c : zeroP x -> znanP c -> znanP (add ar c (mul ar x y)).
Proof. intros Hx Hc. apply add_zero_or_nan; [exact Hc|]. apply mul_zero_l, Hx. Qed.

Lemma znan_mla_r x y c : zeroP y -> znanP c -> znanP (add ar c (mul ar x y)).
Proof. intros Hy Hc. apply add_zero_or_nan; [exact Hc|]. apply mul_zero_r, Hy. Qed.

Lemma pzero_fma x y c : zeroP x -> zeroP y -> pzeroP c -> pzeroP (fma ar x y c).
Proof. intros Hx Hy ->. apply fma_zero_zero; assumption. Qed.

Lemma pzero_mla x y c : zeroP x -> zeroP y -> pzeroP c -> pzeroP (add ar c (mul ar x y)).
Proof. intros Hx Hy ->. apply mla_zero_zero; assumption. Qed.

(** With [a] the zero vector. *)
Lemma cos_f32sve_zero_l vl f_ab f_a2 f_b2 fuel :
  all_in a d zeroP ->
  (4 <= vl)%nat -> 0 <= d -> d + svcntw vl < 2 ^ 64 ->
  d / svcntw vl < Z.of_nat fuel ->
  simsimd_cos_f32sve vl ar f_ab f_a2 f_b2 fuel a b d = Done S754_nan.
Proof.
  intros Hz Hvl Hd Hfit Hfuel.
  destruct (cos_f32sve_lanes ar zeroP anyP znanP pzeroP anyP) with
    (a := a) (b := b) (d := d) (vl := vl) (fuel := fuel)
    (f_ab := f_ab) (f_a2 := f_a2) (f_b2 := f_b2)
    as (ab & a2 & b2 & E & H1 & H2 & _);
    try assumption; try reflexivity; try exact I;
    try (intros; exact I);
    try apply all_in_any; try apply znan_add; try apply pzero_add.
  - intros x y c Hx _ Hc. apply fma_zero_l; assumption.
  - intros x y c Hx Hy Hc. apply pzero_fma; assumption.
  - rewrite E, H2. f_equal. apply cos_tail_zero_norm. exact H1.
Qed.

Lemma cos_f32sve_zero_r vl f_ab f_a2 f_b2 fuel :
  all_in b d zeroP ->
  (4 <= vl)%nat -> 0 <= d -> d + svcntw vl < 2 ^ 64 ->
  d / svcntw vl < Z.of_nat fuel ->
  simsimd_cos_f32sve vl ar f_ab f_a2 f_b2 fuel a b d = Done S754_nan.
Proof.
  intros Hz Hvl Hd Hfit Hfuel.
  destruct (cos_f32sve_lanes ar anyP zeroP znanP anyP pzeroP) with
    (a := a) (b := b) (d := d) (vl := vl) (fuel := fuel)
    (f_ab := f_ab) (f_a2 := f_a2) (f_b2 := f_b2)
    as (ab & a2 & b2 & E & H1 & _ & H3);
    try assumption; try reflexivity; try exact I;
    try (intros; exact I);
    try apply all_in_any; try apply znan_add; try apply pzero_add.
  - intros x y c _ Hy Hc. apply fma_zero_r; assumption.
  - intros x y c Hx Hy Hc. apply pzero_fma; assumption.
  - rewrite E, H3. f_equal. apply cos_tail_zero_norm_r. exact H1.
Qed.

Lemma cos_f32x4avx2_zero_l fuel :
  all_in a d zeroP ->
  0 <= d < 2 ^ 64 -> (4 | d) -> d / 4 <= Z.of_nat fuel ->
  simsimd_cos_f32x4avx2 ar fuel a b d = Done S754_nan.
Proof.
  intros Hz Hd Hdiv Hfuel.
  destruct (cos_f32x4avx2_lanes ar zeroP anyP znanP pzeroP anyP) with
    (a := a) (b := b) (d := d) (fuel := fuel)
    as (ab & a2 & b2 & E & H1 & H2 & _);
    try assumption; try reflexivity; try exact I;
    try (intros; exact I);
    try apply all_in_any; try apply znan_add; try apply pzero_add.
  - intros x y c Hx _ Hc. apply fma_zero_l; assumption.
  - intros x y c Hx Hy Hc. apply pzero_fma; assumption.
  - rewrite E, H2. f_equal. apply cos_tail_zero_norm. exact H1.
Qed.

Lemma cos_f32x4avx2_zero_r fuel :
  all_in b d zeroP ->
  0 <= d < 2 ^ 64 -> (4 | d) -> d / 4 <= Z.of_nat fuel ->
  simsimd_cos_f32x4avx2 ar fuel a b d = Done S754_nan.
Proof.
  intros Hz Hd Hdiv Hfuel.
  destruct (cos_f32x4avx2_lanes ar anyP zeroP znanP anyP pzeroP) with
    (a := a) (b := b) (d := d) (fuel := fuel)
    as (ab & a2 & b2 & E & H1 & _ & H3);
    try assumption; try reflexivity; try exact I;
    try (intros; exact I);
    try apply all_in_any; try apply znan_add; try apply pzero_add.
  - intros x y c _ Hy Hc. apply fma_zero_r; assumption.
  - intros x y c Hx Hy Hc. apply pzero_fma; assumption.
  - rewrite E, H3. f_equal. apply cos_tail_zero_norm_r. exact H1.
Qed.

Lemma cos_f32x4neon_zero_l fuel :
  all_in a d zeroP ->
  0 <= d < 2 ^ 64 -> (4 | d) -> d / 4 <= Z.of_nat fuel ->
  simsimd_cos_f32x4neon ar fuel a b d = Done S754_nan.
Proof.
  intros Hz Hd Hdiv Hfuel.
  destruct (cos_f32x4neon_lanes ar zeroP anyP znanP pzeroP anyP) with
    (a := a) (b := b) (d := d) (fuel := fuel)
    as (ab & a2 & b2 & E & H1 & H2 & _);
    try assumption; try reflexivity; try exact I;
    try (intros; exact I);
    try apply all_in_any; try apply znan_add; try apply pzero_add.
  - intros x y c Hx _ Hc. apply znan_mla_l; assumption.
  - intros x y c Hx Hy Hc. apply pzero_mla; assumption.
  - rewrite E, H2. f_equal. apply cos_tail_zero_norm. exact H1.
Qed.

Lemma cos_f32x4neon_zero_r fuel :
  all_in b d zeroP ->
  0 <= d < 2 ^ 64 -> (4 | d) -> d / 4 <= Z.of_nat fuel ->
  simsimd_cos_f32x4neon ar fuel a b d = Done S754_nan.
Proof.
  intros Hz Hd Hdiv Hfuel.
  destruct (cos_f32x4neon_lanes ar anyP zeroP znanP anyP pzeroP) with
    (a := a) (b := b) (d := d) (fuel := fuel)
    as (ab & a2 & b2 & E & H1 & _ & H3);
    try assumption; try reflexivity; try exact I;
    try (intros; exact I);
    try apply all_in_any; try apply znan_add; try apply pzero_add.
  - intros x y c _ Hy Hc. apply znan_mla_r; assumption.
  - intros x y c Hx Hy Hc. apply pzero_mla; assumption.
  - rewrite E, H3. f_equal. apply cos_tail_zero_norm_r. exact H1.
Qed.
End CosineOfZero.

(** ** Bounds and evaluation helpers *)

Lemma lanes_le_pow2 n : (0 < n)%nat -> (n <= 2 ^ Nat.log2_up n)%nat.
Proof. intros H. apply (Nat.log2_log2_up_spec n H). Qed.

Lemma exactZ_exact : exact exactZ.
Proof. split; simpl; intros; lia. Qed.

Lemma div_le_self d k : 0 <= d -> 0 < k -> d / k <= d.
Proof. intros Hd Hk. apply Z.div_le_upper_bound; nia. Qed.

Lemma svcntw_le vl : svcntw vl <= svcntb vl.
Proof.
  unfold svcntw, svcntb. pose proof (Nat.Div0.mul_div_le vl 4). lia.
Qed.

Lemma svcnth_le vl : svcnth vl <= svcntb vl.
Proof.
  unfold svcnth, svcntb. pose proof (Nat.Div0.mul_div_le vl 2). lia.
Qed.

Lemma svcntb_pos vl : (4 <= vl)%nat -> 0 < svcntb vl.
Proof. unfold svcntb. lia. Qed.

(** What the bounds on [d] and on the fuel give for each loop. *)
Lemma length_bounds vl d fuel :
  0 <= d -> d < Z.of_nat fuel -> d + 8 * svcntb vl < 2 ^ 64 -> (4 <= vl)%nat ->
  (d + svcntw vl < 2 ^ 64 /\ d / svcntw vl < Z.of_nat fuel)
  /\ (d + svcnth vl < 2 ^ 64 /\ d / svcnth vl < Z.of_nat fuel)
  /\ (d + svcntb vl * 8 < 2 ^ 64 /\ d / (svcntb vl * 8) < Z.of_nat fuel)
  /\ d < 2 ^ 64
  /\ d / 4 <= Z.of_nat fuel
  /\ d / 16 <= Z.of_nat fuel
  /\ d / 128 / 2 <= Z.of_nat fuel.
Proof.
  intros Hd Hfuel Hfit Hvl.
  pose proof (svcntw_pos vl Hvl) as Hw.
  pose proof (svcnth_pos vl ltac:(lia)) as Hh.
  pose proof (svcntb_pos vl Hvl) as Hbp.
  pose proof (svcntw_le vl). pose proof (svcnth_le vl).
  pose proof (div_le_self d (svcntw vl) Hd Hw).
  pose proof (div_le_self d (svcnth vl) Hd Hh).
  pose proof (div_le_self d (svcntb vl * 8) Hd ltac:(lia)).
  pose proof (div_le_self d 4 Hd ltac:(lia)).
  pose proof (div_le_self d 16 Hd ltac:(lia)).
  pose proof (div_le_self d 128 Hd ltac:(lia)).
  assert (0 <= d / 128) by (apply Z.div_pos; lia).
  pose proof (div_le_self (d / 128) 2 ltac:(lia) ltac:(lia)).
  repeat split; lia.
Qed.

Ltac more_fuel :=
  intros fuel;
  match goal with
  | |- ?k (S (S (S fuel))) _ _ _ = _ => change (S (S (S fuel))) with (3 + fuel)%nat
  | |- ?k (S (S fuel)) _ _ _ = _ => change (S (S fuel)) with (2 + fuel)%nat
  | |- ?k (S fuel) _ _ _ = _ => change (S fuel) with (1 + fuel)%nat
  | |- ?k _ (S (S fuel)) _ _ _ = _ => change (S (S fuel)) with (2 + fuel)%nat
  | |- ?k _ (S fuel) _ _ _ = _ => change (S fuel) with (1 + fuel)%nat
  end;
  match goal with
  | |- ?k _ _ _ _ = _ => unfold k
  | |- ?k _ _ _ _ _ = _ => unfold k
  end;
  first [ apply for_ne_map_more_fuel | apply do_while_map_more_fuel ];
  [vm_compute; reflexivity|discriminate].

Lemma hamming_u1x128sve_range fuel a b d v :
  simsimd_hamming_u1x128sve fuel a b d = Done v -> 0 <= v <= 255.
Proof.
  unfold simsimd_hamming_u1x128sve.
  destruct (for_ne _ _ _ _ _ _) as [s| |]; simpl; intros E; inversion E.
  unfold vaddvq_u8, wrap8.
  pose proof (Z.mod_pos_bound (fold_right Z.add 0 s) (2 ^ 8) ltac:(lia)). lia.
Qed.

(** Through any two aligned pointers, 256 bits that differ in their upper
    half only are reported as equal by the 512-bit kernel. *)
Lemma hamming_u1x128avx512_upper_half k l fuel :
  simsimd_hamming_u1x128avx512 (S fuel)
    (Pointer (16 * k) (of_list (repeat 0 16 ++ repeat 255 16)))
    (Pointer (16 * l) (of_list (repeat 0 32))) 256
  = Done 0.
Proof.
  rewrite (hamming_u1x128avx512_counts _ _
             (repeat 0 16 ++ repeat 255 16) (repeat 0 32)).
  - vm_compute. reflexivity.
  - unfold aligned. cbn [address]. rewrite Z.mul_comm. apply Z_mod_mult.
  - unfold aligned. cbn [address]. rewrite Z.mul_comm. apply Z_mod_mult.
  - apply holds_of_list.
  - apply holds_of_list.
  - apply Forall_app. split; apply Forall_repeat; lia.
  - apply Forall_repeat. lia.
  - lia.
  - exists 1. reflexivity.
  - vm_compute. discriminate.
  - vm_compute. discriminate.
  - change (256 / 128 / 2) with 1. lia.
Qed.

(** ** Loops run side by side *)

Lemma outcome_map_map {A B C} (f : B -> C) (g : A -> B) (o : outcome A) :
  outcome_map f (outcome_map g o) = outcome_map (fun x => f (g x)) o.
Proof. destruct o; reflexivity. Qed.

(** A loop over three accumulators whose body advances each of them as a
    loop of its own would, ends where the three loops end. *)
Lemma for_ne_triple {S1 S2 S3} step n
      (body : Z -> S1 * S2 * S3 -> option (S1 * S2 * S3))
      (b1 : Z -> S1 -> option S1) (b2 : Z -> S2 -> option S2)
      (b3 : Z -> S3 -> option S3) :
  (forall i s1 s2 s3 t1,
      b1 i s1 = Some t1 ->
      exists t2 t3, b2 i s2 = Some t2 /\ b3 i s3 = Some t3
                    /\ body i (s1, s2, s3) = Some (t1, t2, t3)) ->
  forall fuel i s1 s2 s3 r1,
    for_ne fuel step n b1 i s1 = Done r1 ->
    exists r2 r3,
      for_ne fuel step n b2 i s2 = Done r2
      /\ for_ne fuel step n b3 i s3 = Done r3
      /\ for_ne fuel step n body i (s1, s2, s3) = Done (r1, r2, r3).
Proof.
  intros Hb fuel.
  induction fuel as [|fuel IH]; intros i s1 s2 s3 r1; simpl.
  - destruct (i =? n); [|discriminate]. intros E. inversion E. eauto.
  - destruct (i =? n); [intros E; inversion E; eauto|].
    destruct (b1 i s1) as [t1|] eqn:E1; [|discriminate].
    destruct (Hb i s1 s2 s3 t1 E1) as (t2 & t3 & E2 & E3 & E).
    rewrite E2, E3, E. apply IH.
Qed.

Lemma do_while_triple {S1 S2 S3 Pg} inc (next : Z -> Pg) test
      (body : Pg -> Z -> S1 * S2 * S3 -> option (S1 * S2 * S3))
      (b1 : Pg -> Z -> S1 -> option S1) (b2 : Pg -> Z -> S2 -> option S2)
      (b3 : Pg -> Z -> S3 -> option S3) :
  (forall pg i s1 s2 s3 t1,
      b1 pg i s1 = Some t1 ->
      exists t2 t3, b2 pg i s2 = Some t2 /\ b3 pg i s3 = Some t3
                    /\ body pg i (s1, s2, s3) = Some (t1, t2, t3)) ->
  forall fuel i pg s1 s2 s3 r1,
    do_while fuel inc next test b1 i pg s1 = Done r1 ->
    exists r2 r3,
      do_while fuel inc next test b2 i pg s2 = Done r2
      /\ do_while fuel inc next test b3 i pg s3 = Done r3
      /\ do_while fuel inc next test body i pg (s1, s2, s3) = Done (r1, r2, r3).
Proof.
  intros Hb fuel.
  induction fuel as [|fuel IH]; intros i pg s1 s2 s3 r1; simpl; [discriminate|].
  destruct (b1 pg i s1) as [t1|] eqn:E1; [|discriminate].
  destruct (Hb pg i s1 s2 s3 t1 E1) as (t2 & t3 & E2 & E3 & E).
  rewrite E2, E3, E.
  destruct (test _); [apply IH|].
  intros E0. inversion E0. eauto.
Qed.

Lemma bind2_some {A B} (x y : option A) (k : A -> A -> B) r :
  bind2 x y k = Some r -> exists u v, x = Some u /\ y = Some v /\ r = k u v.
Proof.
  destruct x as [u|], y as [v|]; simpl; intros E; try discriminate.
  inversion E. eauto.
Qed.

(** ** The cosine kernels and the dot-product kernels *)

Lemma cos_f32x4neon_compose ar fuel a b d ab :
  simsimd_dot_f32x4neon ar fuel a b d = Done ab ->
  exists a2 b2,
    simsimd_dot_f32x4neon ar fuel a a d = Done a2
    /\ simsimd_dot_f32x4neon ar fuel b b d = Done b2
    /\ simsimd_cos_f32x4neon ar fuel a b d = Done (cos_tail ar ab a2 b2).
Proof.
  unfold simsimd_dot_f32x4neon, simsimd_cos_f32x4neon. intros E.
  apply outcome_map_inv in E. destruct E as (s1 & E & ->).
  match goal with
  | |- context [for_ne _ _ _ ?body 0 (?i1, ?i2, ?i3)] =>
      destruct (for_ne_triple 4 d body
                  (fun i s => bind2 (vld1q_f32 ar a i) (vld1q_f32 ar b i)
                                (fun u v => vmlaq_f32 ar s u v))
                  (fun i s => bind2 (vld1q_f32 ar a i) (vld1q_f32 ar a i)
                                (fun u v => vmlaq_f32 ar s u v))
                  (fun i s => bind2 (vld1q_f32 ar b i) (vld1q_f32 ar b i)
                                (fun u v => vmlaq_f32 ar s u v)))
        with (fuel := fuel) (i := 0) (s1 := i1) (s2 := i2) (s3 := i3) (r1 := s1)
        as (r2 & r3 & E2 & E3 & E0)
  end.
  - intros i s1' s2 s3 t1 H. apply bind2_some in H.
    destruct H as (u & v & -> & -> & ->). simpl. eauto.
  - exact E.
  - rewrite E2, E3, E0. simpl. eauto.
Qed.

Lemma cos_f32x4avx2_compose ar fuel a b d ab :
  simsimd_dot_f32x4avx2 ar fuel a b d = Done ab ->
  exists a2 b2,
    simsimd_dot_f32x4avx2 ar fuel a a d = Done a2
    /\ simsimd_dot_f32x4avx2 ar fuel b b d = Done b2
    /\ simsimd_cos_f32x4avx2 ar fuel a b d = Done (cos_tail ar ab a2 b2).
Proof.
  unfold simsimd_dot_f32x4avx2, simsimd_cos_f32x4avx2. intros E.
  apply outcome_map_inv in E. destruct E as (s1 & E & ->).
  match goal with
  | |- context [for_ne _ _ _ ?body 0 (?i1, ?i2, ?i3)] =>
      destruct (for_ne_triple 4 d body
                  (fun i s => bind2 (_mm_loadu_ps ar a i) (_mm_loadu_ps ar b i)
                                (fun u v => _mm_fmadd_ps ar u v s))
                  (fun i s => bind2 (_mm_loadu_ps ar a i) (_mm_loadu_ps ar a i)
                                (fun u v => _mm_fmadd_ps ar u v s))
                  (fun i s => bind2 (_mm_loadu_ps ar b i) (_mm_loadu_ps ar b i)
                                (fun u v => _mm_fmadd_ps ar u v s)))
        with (fuel := fuel) (i := 0) (s1 := i1) (s2 := i2) (s3 := i3) (r1 := s1)
        as (r2 & r3 & E2 & E3 & E0)
  end.
  - intros i s1' s2 s3 t1 H. apply bind2_some in H.
    destruct H as (u & v & -> & -> & ->). simpl. eauto.
  - exact E.
  - rewrite E2, E3, E0. simpl. eauto.
Qed.

Lemma cos_f32sve_compose vl ar f_ab f_a2 f_b2 fuel a b d ab :
  simsimd_dot_f32sve vl ar f_ab fuel a b d = Done ab ->
  exists a2 b2,
    simsimd_dot_f32sve vl ar f_a2 fuel a a d = Done a2
    /\ simsimd_dot_f32sve vl ar f_b2 fuel b b d = Done b2
    /\ simsimd_cos_f32sve vl ar f_ab f_a2 f_b2 fuel a b d
       = Done (cos_tail ar ab a2 b2).
Proof.
  unfold simsimd_dot_f32sve, simsimd_cos_f32sve. intros E.
  apply outcome_map_inv in E. destruct E as (s1 & E & ->).
  match goal with
  | |- context [do_while _ ?inc ?next ?test ?body 0 ?pg0 (?i1, ?i2, ?i3)] =>
      destruct (do_while_triple inc next test body
                  (fun pg i s => bind2 (svld1_f32 vl ar pg a i) (svld1_f32 vl ar pg b i)
                                   (fun u v => svmla_f32_x vl ar f_ab pg s u v))
                  (fun pg i s => bind2 (svld1_f32 vl ar pg a i) (svld1_f32 vl ar pg a i)
                                   (fun u v => svmla_f32_x vl ar f_a2 pg s u v))
                  (fun pg i s => bind2 (svld1_f32 vl ar pg b i) (svld1_f32 vl ar pg b i)
                                   (fun u v => svmla_f32_x vl ar f_b2 pg s u v)))
        with (fuel := fuel) (i := 0) (pg := pg0) (s1 := i1) (s2 := i2) (s3 := i3)
             (r1 := s1)
        as (r2 & r3 & E2 & E3 & E0)
  end.
  - intros pg i s1' s2 s3 t1 H. apply bind2_some in H.
    destruct H as (u & v & -> & -> & ->). simpl. eauto.
  - exact E.
  - rewrite E2, E3, E0. simpl. eauto.
Qed.

(** ** The Euclidean kernels and the dot-product kernels *)

Lemma load_m_pointwise {A} (f : A -> A -> A) (z : A) (a b : buffer A) m : forall i,
  load_m z m (pointwise f a b) i
  = bind2 (load_m z m a i) (load_m z m b i) (zip_m f m).
Proof.
  induction m as [|p m IH]; intros i; [reflexivity|].
  cbn [load_m]. rewrite IH. unfold pointwise at 1.
  destruct p.
  - destruct (a i) as [x|], (b i) as [y|]; simpl;
      destruct (load_m z m a (i + 1)), (load_m z m b (i + 1)); reflexivity.
  - destruct (load_m z m a (i + 1)), (load_m z m b (i + 1)); reflexivity.
Qed.

Lemma euclidean_f32sve_compose vl ar f_sub f_mla fuel a b d :
  simsimd_euclidean_f32sve vl ar f_sub f_mla fuel a b d
  = outcome_map (sqrt ar)
      (simsimd_dot_f32sve vl ar f_mla fuel
         (pointwise (sub ar) a b) (pointwise (sub ar) a b) d).
Proof.
  unfold simsimd_euclidean_f32sve, simsimd_dot_f32sve.
  rewrite outcome_map_map. f_equal. apply outcome_rel_eq.
  apply do_while_sim; [|reflexivity].
  intros pg i s1 s2 <-. unfold svld1_f32, svld1.
  rewrite load_m_pointwise.
  destruct (load_m _ _ a i) as [u|] eqn:Hu; [|simpl; auto].
  destruct (load_m _ _ b i) as [v|] eqn:Hv; simpl; auto.
  apply load_m_wipe in Hu, Hv. unfold svsub_f32_x.
  rewrite (svsub_x_settle vl ar 4 f_sub pg u v Hu Hv). reflexivity.
Qed.

Lemma euclidean_f16sve_compose vl ar f_sub f_mla fuel a b d :
  simsimd_euclidean_f16sve vl ar f_sub f_mla fuel a b d
  = outcome_map (sqrt ar)
      (simsimd_dot_f16sve vl ar f_mla fuel
         (pointwise (sub ar) a b) (pointwise (sub ar) a b) d).
Proof.
  unfold simsimd_euclidean_f16sve, simsimd_dot_f16sve.
  rewrite outcome_map_map. f_equal. apply outcome_rel_eq.
  apply do_while_sim; [|reflexivity].
  intros pg i s1 s2 <-. unfold svld1_f16, svld1.
  rewrite load_m_pointwise.
  destruct (load_m _ _ a i) as [u|] eqn:Hu; [|simpl; auto].
  destruct (load_m _ _ b i) as [v|] eqn:Hv; simpl; auto.
  apply load_m_wipe in Hu, Hv. unfold svsub_f16_x.
  rewrite (svsub_x_settle vl ar 2 f_sub pg u v Hu Hv). reflexivity.
Qed.

(** ** Lists of lanes *)

Lemma length_zip3 {A} (f : A -> A -> A -> A) : forall l1 l2 l3,
  length l1 = length l2 -> length l2 = length l3 ->
  length (zip3 f l1 l2 l3) = length l1.
Proof.
  induction l1 as [|x l1 IH]; intros [|y l2] [|z l3]; simpl; try discriminate; auto.
Qed.

Lemma zip_firstn_skipn {A} (f : A -> A -> A) n : forall i l1 l2,
  zip f (firstn n (skipn i l1)) (firstn n (skipn i l2))
  = firstn n (skipn i (zip f l1 l2)).
Proof.
  assert (H0 : forall l1 l2, zip f (firstn n l1) (firstn n l2) = firstn n (zip f l1 l2)).
  { induction n as [|n IH]; intros [|x l1] [|y l2]; simpl; try reflexivity;
      try (rewrite IH; reflexivity); destruct (firstn n l1); reflexivity. }
  induction i as [|i IH]; intros l1 l2.
  - apply H0.
  - destruct l1 as [|x l1], l2 as [|y l2]; simpl; rewrite ?firstn_nil;
      try reflexivity; try apply IH; destruct (firstn n (skipn i l1)); reflexivity.
Qed.

Lemma holds_pointwise {A} (f : A -> A -> A) (a b : buffer A) la lb :
  holds a la -> holds b lb -> holds (pointwise f a b) (zip f la lb).
Proof.
  intros Ha Hb k x. revert k. unfold pointwise.
  assert (H : forall l1 l2 k,
             nth_error (zip f l1 l2) k = Some x ->
             exists u v, nth_error l1 k = Some u /\ nth_error l2 k = Some v
                         /\ x = f u v).
  { induction l1 as [|u l1 IH]; intros [|v l2] [|k]; simpl; try discriminate.
    - intros E. inversion E. eauto.
    - apply IH. }
  intros k E. destruct (H la lb k E) as (u & v & Eu & Ev & ->).
  rewrite (Ha k u Eu), (Hb k v Ev). reflexivity.
Qed.

(** ** The sums in lane order *)

Lemma while_mask_true n : forall i d,
  i + Z.of_nat n <= d -> while_mask n i d = repeat true n.
Proof.
  induction n as [|n IH]; intros i d H; [reflexivity|].
  cbn [while_mask repeat]. rewrite IH by lia.
  destruct (Z.ltb_spec i d); [reflexivity|lia].
Qed.

Lemma wipe_zeros {A} (z : A) : forall n m,
  length m = n -> wipe z m (repeat z n) = repeat z n.
Proof.
  unfold wipe. induction n as [|n IH]; intros [|p m] H; simpl in *; try lia;
    try reflexivity.
  rewrite IH by lia. destruct p; reflexivity.
Qed.


Section LaneSums.
Variable ar : arith.
Variable mac : num ar -> num ar -> num ar -> num ar.
Variables (la lb : list (num ar)) (L : nat).
Hypothesis Hlen : length la = length lb.

Let lanes (n : nat) : list (num ar) :=
  map (fun k => lane_acc ar mac la lb L k n) (seq 0 L).

Lemma length_lanes n : length (lanes n) = L.
Proof. unfold lanes. rewrite length_map, length_seq. reflexivity. Qed.

Lemma lanes_zero : lanes 0 = repeat (zero ar) L.
Proof.
  assert (H : forall w k0,
             map (fun k => lane_acc ar mac la lb L k 0) (seq k0 w)
             = repeat (zero ar) w).
  { induction w as [|w IH]; intros k0; [reflexivity|].
    cbn [seq map repeat]. rewrite IH. reflexivity. }
  apply H.
Qed.

(** Past the end of the vectors a lane takes in nothing more. *)
Lemma lane_acc_past k n :
  (length la <= n * L)%nat ->
  lane_acc ar mac la lb L k (S n) = lane_acc ar mac la lb L k n.
Proof.
  intros H. cbn [lane_acc].
  destruct (nth_error la (n * L + k)) as [x|] eqn:E; [|reflexivity].
  assert (nth_error la (n * L + k) <> None) by congruence.
  apply nth_error_Some in H0. lia.
Qed.

Lemma lane_acc_stable k n : forall m,
  (length la <= n * L)%nat -> (n <= m)%nat ->
  lane_acc ar mac la lb L k m = lane_acc ar mac la lb L k n.
Proof.
  induction m as [|m IH]; intros H Hm.
  - replace n with 0%nat by lia. reflexivity.
  - destruct (Nat.eq_dec n (S m)) as [->|Hne]; [reflexivity|].
    rewrite lane_acc_past by nia. apply IH; [exact H|lia].
Qed.

Lemma lanes_stable n m :
  (length la <= n * L)%nat -> (length la <= m * L)%nat -> lanes n = lanes m.
Proof.
  intros Hn Hm. unfold lanes. apply map_ext. intros k.
  destruct (Nat.le_ge_cases n m).
  - symmetry. apply lane_acc_stable; assumption.
  - apply lane_acc_stable; assumption.
Qed.

Variables (a b : buffer (num ar)).
Hypothesis Ha : holds a la.
Hypothesis Hb : holds b lb.

(** One predicated group: the active lanes take in their elements. *)
Lemma lanes_step_m n d : d = Z.of_nat (length la) -> forall w k0,
  exists u v,
    load_m (zero ar) (while_mask w (Z.of_nat (n * L + k0)) d) a
           (Z.of_nat (n * L + k0)) = Some u
    /\ load_m (zero ar) (while_mask w (Z.of_nat (n * L + k0)) d) b
              (Z.of_nat (n * L + k0)) = Some v
    /\ zip3_m mac (while_mask w (Z.of_nat (n * L + k0)) d)
         (map (fun k => lane_acc ar mac la lb L k n) (seq k0 w)) u v
       = map (fun k => lane_acc ar mac la lb L k (S n)) (seq k0 w).
Proof.
  intros Hd. induction w as [|w IH]; intros k0.
  - exists [], []. repeat split; reflexivity.
  - destruct (IH (S k0)) as (u & v & Hu & Hv & Hz).
    replace (Z.of_nat (n * L + S k0)) with (Z.of_nat (n * L + k0) + 1)
      in Hu, Hv, Hz by lia.
    cbn [while_mask load_m seq map]. rewrite Hu, Hv.
    destruct (Z.ltb_spec (Z.of_nat (n * L + k0)) d) as [Hlt|Hge].
    + destruct (nth_error la (n * L + k0)) as [x|] eqn:Ex;
        [|apply nth_error_None in Ex; lia].
      destruct (nth_error lb (n * L + k0)) as [y|] eqn:Ey;
        [|apply nth_error_None in Ey; lia].
      rewrite (Ha _ x Ex), (Hb _ y Ey).
      exists (x :: u), (y :: v). repeat split; try reflexivity.
      cbn [zip3_m lane_acc]. rewrite Hz, Ex, Ey. reflexivity.
    + exists (zero ar :: u), (zero ar :: v). repeat split; try reflexivity.
      cbn [zip3_m lane_acc]. rewrite Hz.
      assert (Ex : nth_error la (n * L + k0) = None)
        by (apply nth_error_None; lia).
      rewrite Ex. reflexivity.
Qed.



(** The predicated loop of a scalable dot product. *)
Lemma do_while_lanes vl esz form (whilelt : Z -> Z -> svbool_t) (ptrue : svbool_t)
      fuel d :
  mac = fused ar -> L = (vl / esz)%nat ->
  (forall i, lane_mask vl esz (whilelt i d) = while_mask L i d) ->
  (forall i, 0 <= i -> svptest_any ptrue (whilelt i d) = (i <? d)) ->
  (0 < L)%nat -> d = Z.of_nat (length la) ->
  d + Z.of_nat L < 2 ^ 64 -> d / Z.of_nat L < Z.of_nat fuel ->
  form = FMLA \/ d <= Z.of_nat L \/ (Z.of_nat L | d) ->
  do_while fuel (Z.of_nat L) (fun i => whilelt i d) (svptest_any ptrue)
    (fun pg i s =>
       bind2 (svld1 vl ar esz pg a i) (svld1 vl ar esz pg b i)
         (fun u v => svmla_x vl ar esz form pg s u v))
    0 (whilelt 0 d) (repeat (zero ar) L)
  = Done (lanes (length la)).
Proof.
  intros Hmac HLn Hmask Htest HL Hd Hfit Hfuel Hform.
  assert (Hpos : 0 < Z.of_nat L) by lia.
  assert (Hd0 : 0 <= d) by lia.
  set (P := fun (i : Z) (s : list (num ar)) =>
              exists q : nat, i = Z.of_nat (q * L) /\ s = lanes q).
  assert (Hstep : forall i s, P i s ->
            form = FMLA \/ i = 0 \/ i + Z.of_nat L <= d ->
            exists s', bind2 (svld1 vl ar esz (whilelt i d) a i)
                             (svld1 vl ar esz (whilelt i d) b i)
                             (fun u v => svmla_x vl ar esz form (whilelt i d) s u v)
                       = Some s' /\ P (i + Z.of_nat L) s').
  { intros i s (q & -> & ->) Hcase.
    destruct (lanes_step_m q d Hd L 0) as (u & v & Hu & Hv & Hz).
    rewrite Nat.add_0_r in Hu, Hv, Hz.
    assert (Hu' : svld1 vl ar esz (whilelt (Z.of_nat (q * L)) d) a
                    (Z.of_nat (q * L)) = Some u)
      by (unfold svld1; rewrite Hmask; exact Hu).
    assert (Hv' : svld1 vl ar esz (whilelt (Z.of_nat (q * L)) d) b
                    (Z.of_nat (q * L)) = Some v)
      by (unfold svld1; rewrite Hmask; exact Hv).
    rewrite Hu', Hv'. eexists. split; [reflexivity|].
    exists (S q). split; [lia|].
    apply svld1_wipe in Hu', Hv'.
    rewrite (svmla_x_settle vl ar esz form _ _ u v Hu' Hv').
    unfold svmla_x. rewrite Hmask.
    replace (settle ar form (while_mask L (Z.of_nat (q * L)) d) (lanes q))
      with (lanes q).
    - unfold lanes. rewrite <- Hz, Hmac. reflexivity.
    - destruct form; try reflexivity; simpl settle;
        (destruct Hcase as [Hc|[Hc|Hc]]; [discriminate| |]).
      + assert (q = 0%nat) by nia. subst q. rewrite lanes_zero.
        symmetry. apply wipe_zeros. apply length_while_mask.
      + rewrite while_mask_true by lia. symmetry. apply wipe_all.
        apply length_lanes.
      + assert (q = 0%nat) by nia. subst q. rewrite lanes_zero.
        symmetry. apply wipe_zeros. apply length_while_mask.
      + rewrite while_mask_true by lia. symmetry. apply wipe_all.
        apply length_lanes. }
  destruct (do_while_rule (Z.of_nat L) d (fun i => whilelt i d) (svptest_any ptrue)
              (fun pg i s =>
                 bind2 (svld1 vl ar esz pg a i) (svld1 vl ar esz pg b i)
                   (fun u v => svmla_x vl ar esz form pg s u v))
              P Hpos Hd0 Hfit) with
    (pg0 := whilelt 0 d) (fuel := fuel) (s := repeat (zero ar) L)
    as (s' & m & Hs' & (q & Hq & ->) & Hm).
  - intros i Hi. apply Htest. exact Hi.
  - intros s HP. apply (Hstep 0 s HP). right. left. reflexivity.
  - intros i s Hi HP. apply (Hstep i s HP).
    destruct Hform as [Hf|[Hf|Hf]]; [left; exact Hf| |].
    + destruct HP as (q & -> & _). exfalso.
      assert (q * L = 0 \/ L <= q * L)%nat by (destruct q; simpl; lia). lia.
    + right. right. destruct HP as (q & Hq & _).
      apply grid_room; try lia; try assumption.
      exists (Z.of_nat q). lia.
  - exists 0%nat. split; [reflexivity|]. symmetry. apply lanes_zero.
  - exact Hfuel.
  - rewrite Hs'. f_equal. apply lanes_stable; nia.
Qed.
End LaneSums.

Lemma dupq_repeat {A} vl (z : A) k :
  svdupq_n vl (repeat z k) = repeat z (k * (vl / 16)).
Proof.
  unfold svdupq_n. induction (vl / 16)%nat as [|n IH]; simpl.
  - rewrite Nat.mul_0_r. reflexivity.
  - rewrite IH, <- repeat_app. f_equal. lia.
Qed.

Lemma svaddv_all vl ar esz pg v :
  lane_mask vl esz pg = repeat true (vl / esz) -> length v = (vl / esz)%nat ->
  svaddv vl ar esz pg v = reduce_tree ar (Nat.log2_up (vl / esz)) v.
Proof.
  intros Hm Hlen. unfold svaddv. rewrite Hm, (map_m_none _ _ _ Hlen). reflexivity.
Qed.

(** *** The four float dot products *)

Lemma dot_f32sve_lanes ar vl f_mla a b la lb d fuel :
  In vl sve_lengths -> holds a la -> holds b lb ->
  Z.of_nat (length la) = d -> Z.of_nat (length lb) = d ->
  d + svcntw vl < 2 ^ 64 -> d / svcntw vl < Z.of_nat fuel ->
  f_mla = FMLA \/ d <= svcntw vl \/ (svcntw vl | d) ->
  simsimd_dot_f32sve vl ar f_mla fuel a b d
  = Done (lanes_sum ar (fused ar) la lb (vl / 4)).
Proof.
  intros Hin Ha Hb Hla Hlb Hfit Hfuel Hform.
  destruct (sve_lengths_quads vl Hin) as (Hvl & Hq4 & _).
  pose proof (svcntw_pos vl Hvl) as Hpos. unfold svcntw in *.
  assert (Hlen : length la = length lb) by lia.
  pose proof (do_while_lanes ar (fused ar) la lb (vl / 4) Hlen a b Ha Hb
                vl 4 f_mla (svwhilelt_b32 vl) (svptrue_b32 vl) fuel d
                eq_refl eq_refl) as E.
  unfold simsimd_dot_f32sve, svld1_f32, svmla_f32_x, svdupq_n_f32, svcntw.
  cbv zeta.
  change [zero ar; zero ar; zero ar; zero ar] with (repeat (zero ar) 4).
  rewrite dupq_repeat, Hq4.
  match goal with |- outcome_map _ ?x = _ =>
    replace x with (Done (map (fun k => lane_acc ar (fused ar) la lb (vl / 4) k
                                           (length la)) (seq 0 (vl / 4))))
  end.
  - simpl outcome_map. f_equal. unfold svaddv_f32. rewrite svaddv_all.
    + reflexivity.
    + apply lane_mask_ptrue_b32.
    + rewrite length_map, length_seq. reflexivity.
  - symmetry. apply E; try lia; try assumption.
    + intros i. apply lane_mask_whilelt_b32.
    + intros i Hi. apply ptest_whilelt_b32. lia.
Qed.

Lemma dot_f16sve_lanes ar vl f_mla a b la lb d fuel :
  In vl sve_lengths -> holds a la -> holds b lb ->
  Z.of_nat (length la) = d -> Z.of_nat (length lb) = d ->
  d + svcnth vl < 2 ^ 64 -> d / svcnth vl < Z.of_nat fuel ->
  f_mla = FMLA \/ d <= svcnth vl \/ (svcnth vl | d) ->
  simsimd_dot_f16sve vl ar f_mla fuel a b d
  = Done (lanes_sum ar (fused ar) la lb (vl / 2)).
Proof.
  intros Hin Ha Hb Hla Hlb Hfit Hfuel Hform.
  destruct (sve_lengths_quads vl Hin) as (Hvl & _ & Hq2 & _).
  pose proof (svcnth_pos vl ltac:(lia)) as Hpos. unfold svcnth in *.
  assert (Hlen : length la = length lb) by lia.
  pose proof (do_while_lanes ar (fused ar) la lb (vl / 2) Hlen a b Ha Hb
                vl 2 f_mla (svwhilelt_b16 vl) (svptrue_b16 vl) fuel d
                eq_refl eq_refl) as E.
  unfold simsimd_dot_f16sve, svld1_f16, svmla_f16_x, svdupq_n_f16, svcnth.
  cbv zeta.
  change [zero ar; zero ar; zero ar; zero ar; zero ar; zero ar; zero ar; zero ar]
    with (repeat (zero ar) 8).
  rewrite dupq_repeat, Hq2.
  match goal with |- outcome_map _ ?x = _ =>
    replace x with (Done (map (fun k => lane_acc ar (fused ar) la lb (vl / 2) k
                                           (length la)) (seq 0 (vl / 2))))
  end.
  - simpl outcome_map. f_equal. unfold svaddv_f16. rewrite svaddv_all.
    + reflexivity.
    + apply lane_mask_ptrue_b16.
    + rewrite length_map, length_seq. reflexivity.
  - symmetry. apply E; try lia; try assumption.
    + intros i. apply lane_mask_whilelt_b16.
    + intros i Hi. apply ptest_whilelt_b16. lia.
Qed.



(** *** Without rounding the lane order does not matter *)

Section ExactLanes.
Variable ar : arith.
Hypothesis He : exact ar.
Variable mac : num ar -> num ar -> num ar -> num ar.
Hypothesis Hmac : forall c x y, mac c x y = add ar c (mul ar x y).
Variables (la lb : list (num ar)) (L : nat).
Hypothesis Hlen : length la = length lb.

Lemma length_products : length (products ar la lb) = length la.
Proof. rewrite products_zip. apply length_zip. exact Hlen. Qed.

Lemma lanes_group n : forall w k0,
  vsum ar (map (fun k => lane_acc ar mac la lb L k (S n)) (seq k0 w))
  = add ar (vsum ar (map (fun k => lane_acc ar mac la lb L k n) (seq k0 w)))
           (vsum ar (firstn w (skipn (n * L + k0) (products ar la lb)))).
Proof.
  induction w as [|w IH]; intros k0.
  - simpl. rewrite (add_zero_l ar He). reflexivity.
  - cbn [seq map]. unfold vsum in *. cbn [fold_right]. rewrite IH.
    replace (n * L + S k0)%nat with (S (n * L + k0)) by lia.
    cbn [lane_acc].
    destruct (nth_error la (n * L + k0)) as [x|] eqn:Ex.
    + destruct (nth_error lb (n * L + k0)) as [y|] eqn:Ey.
      * rewrite (skipn_nth_error (products ar la lb) (n * L + k0) (mul ar x y)).
        -- cbn [firstn fold_right]. rewrite Hmac.
           rewrite (add_comm ar He _ (mul ar x y)).
           apply add_shuffle. exact He.
        -- rewrite products_zip. apply nth_error_zip; assumption.
      * apply nth_error_None in Ey.
        assert (nth_error la (n * L + k0) <> None) by congruence.
        apply nth_error_Some in H. lia.
    + apply nth_error_None in Ex.
      rewrite !skipn_all2 by (rewrite length_products; lia).
      rewrite !firstn_nil. cbn [fold_right].
      rewrite !(add_zero_r ar He). reflexivity.
Qed.

Lemma lanes_vsum n :
  vsum ar (map (fun k => lane_acc ar mac la lb L k n) (seq 0 L))
  = vsum ar (firstn (n * L) (products ar la lb)).
Proof.
  induction n as [|n IH].
  - simpl firstn. apply (vsum_zeros ar He).
    apply Forall_forall. intros x Hx. apply in_map_iff in Hx.
    destruct Hx as (k & <- & _). reflexivity.
  - rewrite lanes_group, IH, Nat.add_0_r.
    replace (S n * L)%nat with (n * L + L)%nat by lia.
    rewrite firstn_add, (vsum_app ar He). reflexivity.
Qed.

Lemma lanes_sum_exact :
  (0 < L)%nat -> lanes_sum ar mac la lb L = dot_ref ar la lb.
Proof.
  intros HL. unfold lanes_sum. rewrite (reduce_tree_vsum ar He).
  - rewrite lanes_vsum, firstn_all2, (dot_ref_vsum ar He); [reflexivity|].
    rewrite length_products. nia.
  - rewrite length_map, length_seq. apply lanes_le_pow2. exact HL.
Qed.
End ExactLanes.

(** ** What a kernel reads *)

Lemma wrap64_nonneg x : 0 <= wrap64 x.
Proof. unfold wrap64. apply Z.mod_pos_bound. lia. Qed.

(** Two predicated loops whose bodies agree at every counter the loop
    reaches. *)
Lemma do_while_ext {St Pg} inc (next : Z -> Pg) test
      (body1 body2 : Pg -> Z -> St -> option St) :
  (forall i s, 0 <= i -> body1 (next i) i s = body2 (next i) i s) ->
  forall fuel i s, 0 <= i ->
    do_while fuel inc next test body1 i (next i) s
    = do_while fuel inc next test body2 i (next i) s.
Proof.
  intros Hb fuel. induction fuel as [|fuel IH]; intros i s Hi; [reflexivity|].
  simpl. rewrite Hb by exact Hi.
  destruct (body2 (next i) i s) as [s'|]; [|reflexivity].
  destruct (test _); [|reflexivity].
  apply IH. apply wrap64_nonneg.
Qed.

(** Two counted loops whose bodies agree on the grid below [n]. *)
Lemma for_ne_ext {St} step n (body1 body2 : Z -> St -> option St) :
  0 < step -> n < 2 ^ 64 -> (step | n) ->
  (forall i s, 0 <= i < n -> (step | i) -> body1 i s = body2 i s) ->
  forall fuel i s, 0 <= i <= n -> (step | i) ->
    for_ne fuel step n body1 i s = for_ne fuel step n body2 i s.
Proof.
  intros Hstep Hn Hdiv Hb fuel.
  induction fuel as [|fuel IH]; intros i s Hi Hg; [reflexivity|].
  simpl. destruct (Z.eqb_spec i n) as [E|E]; [reflexivity|].
  rewrite Hb by (assumption || lia).
  destruct (body2 i s) as [s'|]; [|reflexivity].
  pose proof (grid_room step n i Hstep Hdiv Hg ltac:(lia)).
  rewrite wrap64_small by lia.
  apply IH; [lia|].
  apply Z.divide_add_r; [assumption|apply Z.divide_refl].
Qed.

Lemma load_m_while_agree {A} (z : A) (a a' : buffer A) d n : forall i,
  0 <= i -> agree_below a a' d ->
  load_m z (while_mask n i d) a i = load_m z (while_mask n i d) a' i.
Proof.
  induction n as [|n IH]; intros i Hi H; [reflexivity|].
  cbn [while_mask load_m]. rewrite (IH (i + 1)) by (lia || assumption).
  destruct (Z.ltb_spec i d) as [Hlt|Hge]; [|reflexivity].
  rewrite (H i) by lia. reflexivity.
Qed.

Lemma load_agree {A} (a a' : buffer A) d n : forall i,
  0 <= i -> i + Z.of_nat n <= d -> agree_below a a' d ->
  load a i n = load a' i n.
Proof.
  induction n as [|n IH]; intros i Hi Hn H; [reflexivity|].
  cbn [load]. rewrite (IH (i + 1)) by (lia || assumption).
  rewrite (H i) by lia. reflexivity.
Qed.

Section FrameSVE.
Variables (vl : nat) (ar : arith).
Variables (a a' b b' : buffer (num ar)) (d : Z).
Hypothesis Ha : agree_below a a' d.
Hypothesis Hb : agree_below b b' d.

Lemma svld1_f32_agree i :
  0 <= i ->
  svld1_f32 vl ar (svwhilelt_b32 vl i d) a i = svld1_f32 vl ar (svwhilelt_b32 vl i d) a' i
  /\ svld1_f32 vl ar (svwhilelt_b32 vl i d) b i
     = svld1_f32 vl ar (svwhilelt_b32 vl i d) b' i.
Proof.
  intros Hi. unfold svld1_f32, svld1. rewrite lane_mask_whilelt_b32.
  split; apply load_m_while_agree; assumption.
Qed.

Lemma svld1_f16_agree i :
  0 <= i ->
  svld1_f16 vl ar (svwhilelt_b16 vl i d) a i = svld1_f16 vl ar (svwhilelt_b16 vl i d) a' i
  /\ svld1_f16 vl ar (svwhilelt_b16 vl i d) b i
     = svld1_f16 vl ar (svwhilelt_b16 vl i d) b' i.
Proof.
  intros Hi. unfold svld1_f16, svld1. rewrite lane_mask_whilelt_b16.
  split; apply load_m_while_agree; assumption.
Qed.

Ltac frame_b32 :=
  f_equal;
  apply (do_while_ext (svcntw vl) (fun i => svwhilelt_b32 vl i d));
  [|lia];
  let i := fresh "i" in
  let s := fresh "s" in
  let Hi := fresh "Hi" in
  intros i s Hi; destruct (svld1_f32_agree i Hi) as [-> ->]; reflexivity.

Ltac frame_b16 :=
  f_equal;
  apply (do_while_ext (svcnth vl) (fun i => svwhilelt_b16 vl i d));
  [|lia];
  let i := fresh "i" in
  let s := fresh "s" in
  let Hi := fresh "Hi" in
  intros i s Hi; destruct (svld1_f16_agree i Hi) as [-> ->]; reflexivity.

Lemma dot_f32sve_frame f_mla fuel :
  simsimd_dot_f32sve vl ar f_mla fuel a b d = simsimd_dot_f32sve vl ar f_mla fuel a' b' d.
Proof. unfold simsimd_dot_f32sve. frame_b32. Qed.

Lemma dot_f16sve_frame f_mla fuel :
  simsimd_dot_f16sve vl ar f_mla fuel a b d = simsimd_dot_f16sve vl ar f_mla fuel a' b' d.
Proof. unfold simsimd_dot_f16sve. frame_b16. Qed.

Lemma cos_f32sve_frame f_ab f_a2 f_b2 fuel :
  simsimd_cos_f32sve vl ar f_ab f_a2 f_b2 fuel a b d = simsimd_cos_f32sve vl ar f_ab f_a2 f_b2 fuel a' b' d.
Proof. unfold simsimd_cos_f32sve. frame_b32. Qed.

Lemma euclidean_f32sve_frame f_sub f_mla fuel :
  simsimd_euclidean_f32sve vl ar f_sub f_mla fuel a b d
  = simsimd_euclidean_f32sve vl ar f_sub f_mla fuel a' b' d.
Proof. unfold simsimd_euclidean_f32sve. frame_b32. Qed.

Lemma euclidean_f16sve_frame f_sub f_mla fuel :
  simsimd_euclidean_f16sve vl ar f_sub f_mla fuel a b d
  = simsimd_euclidean_f16sve vl ar f_sub f_mla fuel a' b' d.
Proof. unfold simsimd_euclidean_f16sve. frame_b16. Qed.
End FrameSVE.

Lemma loads_agree {A} (a a' b b' : buffer A) n w j :
  agree_below a a' n -> agree_below b b' n ->
  0 <= j -> j + Z.of_nat w <= n ->
  load a j w = load a' j w /\ load b j w = load b' j w.
Proof.
  intros Ha Hb H0 H1. split; apply (load_agree _ _ n); assumption.
Qed.

Ltac frame_fixed step d n w off Ha Hb Hdiv :=
  f_equal;
  apply (for_ne_ext step d); try assumption; try lia;
  [ let i := fresh "i" in
    let s := fresh "s" in
    let Hi := fresh "Hi" in
    let Hg := fresh "Hg" in
    let E1 := fresh "E" in
    let E2 := fresh "E" in
    intros i s Hi Hg;
    pose proof (grid_room step d i ltac:(lia) Hdiv Hg ltac:(lia));
    destruct (loads_agree _ _ _ _ n w (off i) Ha Hb) as [E1 E2];
    [lia|cbn [Z.of_nat Pos.of_succ_nat Pos.succ]; lia|rewrite E1, E2; reflexivity]
  | apply Z.divide_0_r ].

Lemma dot_f32x4neon_frame ar fuel (a a' b b' : buffer (num ar)) d :
  0 <= d < 2 ^ 64 -> (4 | d) -> agree_below a a' d -> agree_below b b' d ->
  simsimd_dot_f32x4neon ar fuel a b d = simsimd_dot_f32x4neon ar fuel a' b' d.
Proof.
  intros Hd Hdiv Ha Hb. unfold simsimd_dot_f32x4neon, vld1q_f32.
  frame_fixed 4 d d 4%nat (fun i : Z => i) Ha Hb Hdiv.
Qed.

Lemma cos_f32x4neon_frame ar fuel (a a' b b' : buffer (num ar)) d :
  0 <= d < 2 ^ 64 -> (4 | d) -> agree_below a a' d -> agree_below b b' d ->
  simsimd_cos_f32x4neon ar fuel a b d = simsimd_cos_f32x4neon ar fuel a' b' d.
Proof.
  intros Hd Hdiv Ha Hb. unfold simsimd_cos_f32x4neon, vld1q_f32.
  frame_fixed 4 d d 4%nat (fun i : Z => i) Ha Hb Hdiv.
Qed.

Lemma dot_f32x4avx2_frame ar fuel (a a' b b' : buffer (num ar)) d :
  0 <= d < 2 ^ 64 -> (4 | d) -> agree_below a a' d -> agree_below b b' d ->
  simsimd_dot_f32x4avx2 ar fuel a b d = simsimd_dot_f32x4avx2 ar fuel a' b' d.
Proof.
  intros Hd Hdiv Ha Hb. unfold simsimd_dot_f32x4avx2, _mm_loadu_ps.
  frame_fixed 4 d d 4%nat (fun i : Z => i) Ha Hb Hdiv.
Qed.

Lemma cos_f32x4avx2_frame ar fuel (a a' b b' : buffer (num ar)) d :
  0 <= d < 2 ^ 64 -> (4 | d) -> agree_below a a' d -> agree_below b b' d ->
  simsimd_cos_f32x4avx2 ar fuel a b d = simsimd_cos_f32x4avx2 ar fuel a' b' d.
Proof.
  intros Hd Hdiv Ha Hb. unfold simsimd_cos_f32x4avx2, _mm_loadu_ps.
  frame_fixed 4 d d 4%nat (fun i : Z => i) Ha Hb Hdiv.
Qed.

Lemma hamming_u1x128sve_frame fuel (a a' b b' : buffer Z) d :
  0 <= d < 2 ^ 64 -> (16 | d) -> agree_below a a' d -> agree_below b b' d ->
  simsimd_hamming_u1x128sve fuel a b d = simsimd_hamming_u1x128sve fuel a' b' d.
Proof.
  intros Hd Hdiv Ha Hb. unfold simsimd_hamming_u1x128sve, vld1q_u8.
  frame_fixed 16 d d 16%nat (fun i : Z => i) Ha Hb Hdiv.
Qed.

(** The 8-bit kernel reads twelve elements past [d]. *)
Lemma dot_i8x16avx2_frame fuel (a a' b b' : buffer Z) d :
  0 <= d < 2 ^ 64 -> (4 | d) ->
  agree_below a a' (d + 12) -> agree_below b b' (d + 12) ->
  simsimd_dot_i8x16avx2 fuel a b d = simsimd_dot_i8x16avx2 fuel a' b' d.
Proof.
  intros Hd Hdiv Ha Hb. unfold simsimd_dot_i8x16avx2, _mm_loadu_si128.
  frame_fixed 4 d (d + 12) 16%nat (fun i : Z => i) Ha Hb Hdiv.
Qed.

(** An aligned load depends on the address modulo 16 and on the sixteen
    bytes. *)
Lemma load_si128_agree p p' n i :
  address p mod 16 = address p' mod 16 ->
  agree_below (target p) (target p') n -> 0 <= i -> 8 * i + 16 <= n ->
  _mm_load_si128 p i = _mm_load_si128 p' i.
Proof.
  intros Ha Hp Hi Hn. unfold _mm_load_si128.
  rewrite (Z.add_mod (address p)), (Z.add_mod (address p')), Ha by lia.
  rewrite (load_agree (target p) (target p') n 16 (8 * i)) by (assumption || lia).
  reflexivity.
Qed.

(** The 512-bit kernel reads the first [d / 128] 64-bit words. *)
Lemma hamming_u1x128avx512_frame fuel (a a' b b' : pointer) d :
  0 <= d < 2 ^ 64 -> (2 | d / 128) ->
  address a mod 16 = address a' mod 16 -> address b mod 16 = address b' mod 16 ->
  agree_below (target a) (target a') (8 * (d / 128)) ->
  agree_below (target b) (target b') (8 * (d / 128)) ->
  simsimd_hamming_u1x128avx512 fuel a b d
  = simsimd_hamming_u1x128avx512 fuel a' b' d.
Proof.
  intros Hd Hdiv Aa Ab Ha Hb. unfold simsimd_hamming_u1x128avx512.
  assert (0 <= d / 128 < 2 ^ 64).
  { split; [apply Z.div_pos; lia|]. apply Z.div_lt_upper_bound; lia. }
  f_equal. apply (for_ne_ext 2 (d / 128)); try assumption; try lia.
  - intros i s Hi Hg.
    pose proof (grid_room 2 (d / 128) i ltac:(lia) Hdiv Hg ltac:(lia)).
    rewrite (load_si128_agree a a' (8 * (d / 128)) i),
      (load_si128_agree b b' (8 * (d / 128)) i) by (assumption || lia).
    reflexivity.
  - apply Z.divide_0_r.
Qed.

(** ** Empty input *)

Lemma while_mask_false n : forall i d, d <= i -> while_mask n i d = repeat false n.
Proof.
  induction n as [|n IH]; intros i d H; [reflexivity|].
  cbn [while_mask repeat]. rewrite IH by lia.
  destruct (Z.ltb_spec i d); [lia|reflexivity].
Qed.

Lemma load_m_false {A} (z : A) (a : buffer A) n : forall i,
  load_m z (repeat false n) a i = Some (repeat z n).
Proof.
  induction n as [|n IH]; intros i; [reflexivity|].
  cbn [repeat load_m]. rewrite IH. reflexivity.
Qed.

Lemma zip3_m_false {A} (f : A -> A -> A -> A) n : forall acc u v,
  length acc = n -> length u = n -> length v = n ->
  zip3_m f (repeat false n) acc u v = acc.
Proof.
  induction n as [|n IH]; intros [|c acc] [|x u] [|y v]; simpl; try discriminate;
    try reflexivity.
  intros H1 H2 H3. rewrite IH by lia. reflexivity.
Qed.

Lemma zip_m_false {A} (f : A -> A -> A) n : forall u v,
  length u = n -> length v = n -> zip_m f (repeat false n) u v = u.
Proof.
  induction n as [|n IH]; intros [|x u] [|y v]; simpl; try discriminate;
    try reflexivity.
  intros H1 H2. rewrite IH by lia. reflexivity.
Qed.

Lemma map_m_false {A} (f : A -> A) n : forall u,
  length u = n -> map_m f (repeat false n) u = u.
Proof.
  induction n as [|n IH]; intros [|x u]; simpl; try discriminate; try reflexivity.
  intros H1. rewrite IH by lia. reflexivity.
Qed.

(** A predicated loop leaves after its first iteration when the predicate
    computed at the end of the iteration is empty. *)
Lemma do_while_once {St Pg} fuel inc (next : Z -> Pg) test
      (body : Pg -> Z -> St -> option St) pg0 s s' :
  body pg0 0 s = Some s' -> test (next (wrap64 (0 + inc))) = false ->
  do_while (S fuel) inc next test body 0 pg0 s = Done s'.
Proof. intros Hb Ht. simpl. rewrite Hb. simpl in Ht. rewrite Ht. reflexivity. Qed.

Lemma ltb_wrap64_0 x : (wrap64 x <? 0) = false.
Proof. pose proof (wrap64_nonneg x). apply Z.ltb_ge. lia. Qed.

Section EmptySVE.
Variables (vl : nat) (ar : arith) (esz : nat).
Variables (a b : buffer (num ar)) (pg : svbool_t).
Hypothesis Hpg : lane_mask vl esz pg = repeat false (vl / esz).

Lemma svld1_inactive i : svld1 vl ar esz pg a i = Some (repeat (zero ar) (vl / esz)).
Proof. unfold svld1. rewrite Hpg. apply load_m_false. Qed.

Lemma svmla_x_inactive form acc u v :
  length acc = (vl / esz)%nat -> length u = (vl / esz)%nat ->
  length v = (vl / esz)%nat ->
  svmla_x vl ar esz form pg acc u v
  = match form with FMLA => acc | FMAD => u | FMAD_swapped => v end.
Proof.
  intros. unfold svmla_x. rewrite Hpg.
  destruct form; apply zip3_m_false; assumption.
Qed.

Lemma svsub_x_inactive form u v :
  length u = (vl / esz)%nat -> length v = (vl / esz)%nat ->
  svsub_x vl ar esz form pg u v = match form with FSUB => u | FSUBR => v end.
Proof.
  intros. unfold svsub_x. rewrite Hpg.
  destruct form; apply zip_m_false; assumption.
Qed.
End EmptySVE.

Section EmptyIEEE.
Variables prec emax : Z.
Let ar : arith := ieee prec emax.
Let pzero : spec_float := S754_zero false.

Lemma svaddv_zeros vl esz pg v :
  Forall (fun x => x = pzero) v -> svaddv vl ar esz pg v = pzero.
Proof.
  apply (svaddv_closed ar (fun x => x = pzero)); [reflexivity|].
  intros x y -> ->. reflexivity.
Qed.

Variables (vl : nat) (a b : buffer spec_float).
Hypothesis Hin : In vl sve_lengths.

Lemma zeros_f32 :
  length (svdupq_n_f32 vl ar pzero pzero pzero pzero) = (vl / 4)%nat
  /\ Forall (fun x => x = pzero) (svdupq_n_f32 vl ar pzero pzero pzero pzero).
Proof.
  destruct (sve_lengths_quads vl Hin) as (_ & Hq4 & _). unfold svdupq_n_f32. split.
  - rewrite length_dupq. simpl length. lia.
  - apply Forall_dupq. repeat constructor.
Qed.

Lemma zeros_f16 :
  length (svdupq_n_f16 vl ar pzero pzero pzero pzero pzero pzero pzero pzero)
  = (vl / 2)%nat
  /\ Forall (fun x => x = pzero)
       (svdupq_n_f16 vl ar pzero pzero pzero pzero pzero pzero pzero pzero).
Proof.
  destruct (sve_lengths_quads vl Hin) as (_ & _ & Hq2 & _). unfold svdupq_n_f16. split.
  - rewrite length_dupq. simpl length. lia.
  - apply Forall_dupq. repeat constructor.
Qed.

Lemma mask_b32_empty : lane_mask vl 4 (svwhilelt_b32 vl 0 0) = repeat false (vl / 4).
Proof. rewrite lane_mask_whilelt_b32. apply while_mask_false. lia. Qed.

Lemma mask_b16_empty : lane_mask vl 2 (svwhilelt_b16 vl 0 0) = repeat false (vl / 2).
Proof. rewrite lane_mask_whilelt_b16. apply while_mask_false. lia. Qed.

Lemma test_b32_empty inc :
  svptest_any (svptrue_b32 vl) (svwhilelt_b32 vl (wrap64 (0 + inc)) 0) = false.
Proof.
  destruct (sve_lengths_quads vl Hin) as (Hvl & _).
  rewrite ptest_whilelt_b32 by lia. apply ltb_wrap64_0.
Qed.

Lemma test_b16_empty inc :
  svptest_any (svptrue_b16 vl) (svwhilelt_b16 vl (wrap64 (0 + inc)) 0) = false.
Proof.
  destruct (sve_lengths_quads vl Hin) as (Hvl & _).
  rewrite ptest_whilelt_b16 by lia. apply ltb_wrap64_0.
Qed.

Lemma zeros_repeat n : Forall (fun x => x = pzero) (repeat pzero n).
Proof. apply Forall_repeat. reflexivity. Qed.

Lemma dot_f32sve_empty f_mla fuel :
  simsimd_dot_f32sve vl ar f_mla (S fuel) a b 0 = Done pzero.
Proof.
  destruct zeros_f32 as (L & Z0). pose proof (zeros_repeat (vl / 4)) as R.
  unfold simsimd_dot_f32sve. erewrite do_while_once; cycle 1.
  - unfold svld1_f32, svmla_f32_x.
    rewrite !(svld1_inactive vl ar 4 _ _ mask_b32_empty). cbn [bind2].
    rewrite (svmla_x_inactive vl ar 4 _ mask_b32_empty);
      rewrite ?repeat_length; [reflexivity|exact L|reflexivity|reflexivity].
  - apply test_b32_empty.
  - simpl outcome_map. unfold svaddv_f32.
    rewrite svaddv_zeros; [reflexivity|]. destruct f_mla; assumption.
Qed.

Lemma dot_f16sve_empty f_mla fuel :
  simsimd_dot_f16sve vl ar f_mla (S fuel) a b 0 = Done pzero.
Proof.
  destruct zeros_f16 as (L & Z0). pose proof (zeros_repeat (vl / 2)) as R.
  unfold simsimd_dot_f16sve. erewrite do_while_once; cycle 1.
  - unfold svld1_f16, svmla_f16_x.
    rewrite !(svld1_inactive vl ar 2 _ _ mask_b16_empty). cbn [bind2].
    rewrite (svmla_x_inactive vl ar 2 _ mask_b16_empty);
      rewrite ?repeat_length; [reflexivity|exact L|reflexivity|reflexivity].
  - apply test_b16_empty.
  - simpl outcome_map. unfold svaddv_f16.
    rewrite svaddv_zeros; [reflexivity|]. destruct f_mla; assumption.
Qed.

Lemma euclidean_f32sve_empty f_sub f_mla fuel :
  simsimd_euclidean_f32sve vl ar f_sub f_mla (S fuel) a b 0 = Done pzero.
Proof.
  destruct zeros_f32 as (L & Z0). pose proof (zeros_repeat (vl / 4)) as R.
  unfold simsimd_euclidean_f32sve. erewrite do_while_once; cycle 1.
  - unfold svld1_f32, svmla_f32_x, svsub_f32_x.
    rewrite !(svld1_inactive vl ar 4 _ _ mask_b32_empty). cbn [bind2].
    rewrite (svsub_x_inactive vl ar 4 _ mask_b32_empty)
      by (rewrite repeat_length; reflexivity).
    rewrite (svmla_x_inactive vl ar 4 _ mask_b32_empty);
      [reflexivity|exact L|destruct f_sub; apply repeat_length..].
  - apply test_b32_empty.
  - simpl outcome_map. unfold svaddv_f32.
    rewrite svaddv_zeros; [reflexivity|]. destruct f_sub, f_mla; assumption.
Qed.

Lemma euclidean_f16sve_empty f_sub f_mla fuel :
  simsimd_euclidean_f16sve vl ar f_sub f_mla (S fuel) a b 0 = Done pzero.
Proof.
  destruct zeros_f16 as (L & Z0). pose proof (zeros_repeat (vl / 2)) as R.
  unfold simsimd_euclidean_f16sve. erewrite do_while_once; cycle 1.
  - unfold svld1_f16, svmla_f16_x, svsub_f16_x.
    rewrite !(svld1_inactive vl ar 2 _ _ mask_b16_empty). cbn [bind2].
    rewrite (svsub_x_inactive vl ar 2 _ mask_b16_empty)
      by (rewrite repeat_length; reflexivity).
    rewrite (svmla_x_inactive vl ar 2 _ mask_b16_empty);
      [reflexivity|exact L|destruct f_sub; apply repeat_length..].
  - apply test_b16_empty.
  - simpl outcome_map. unfold svaddv_f16.
    rewrite svaddv_zeros; [reflexivity|]. destruct f_sub, f_mla; assumption.
Qed.

(** With no element the three sums of the cosine kernel are [+0.0] and its
    quotient is [0 / 0]. *)
Lemma cos_f32sve_empty f_ab f_a2 f_b2 fuel :
  simsimd_cos_f32sve vl ar f_ab f_a2 f_b2 (S fuel) a b 0 = Done S754_nan.
Proof.
  destruct zeros_f32 as (L & Z0). pose proof (zeros_repeat (vl / 4)) as R.
  unfold simsimd_cos_f32sve. erewrite do_while_once; cycle 1.
  - unfold svld1_f32, svmla_f32_x.
    rewrite !(svld1_inactive vl ar 4 _ _ mask_b32_empty). cbn [bind2].
    rewrite !(svmla_x_inactive vl ar 4 _ mask_b32_empty);
      rewrite ?repeat_length; try reflexivity; exact L.
  - apply test_b32_empty.
  - cbn [outcome_map]. cbv beta iota zeta. unfold svaddv_f32.
    rewrite !svaddv_zeros by (destruct f_ab, f_a2, f_b2; assumption).
    reflexivity.
Qed.

Lemma fixed_width_float_empty fuel :
  simsimd_dot_f32x4neon ar fuel a b 0 = Done pzero
  /\ simsimd_cos_f32x4neon ar fuel a b 0 = Done S754_nan
  /\ simsimd_dot_f32x4avx2 ar fuel a b 0 = Done pzero
  /\ simsimd_cos_f32x4avx2 ar fuel a b 0 = Done S754_nan.
Proof. destruct fuel; repeat split; reflexivity. Qed.
End EmptyIEEE.

Lemma hamming_u1x8sve_empty vl (p q : buffer Z) fuel :
  In vl sve_lengths -> simsimd_hamming_u1x8sve vl (S fuel) p q 0 = Done 0.
Proof.
  intros Hin. destruct (sve_lengths_quads vl Hin) as (Hvl & _ & _ & Hq & _).
  assert (Z0 : Forall (fun x => x = 0)
                 (svdupq_n_u8 vl 0 0 0 0 0 0 0 0 0 0 0 0 0 0 0 0)).
  { apply Forall_dupq. repeat constructor. }
  assert (L : length (svdupq_n_u8 vl 0 0 0 0 0 0 0 0 0 0 0 0 0 0 0 0) = vl).
  { unfold svdupq_n_u8. rewrite length_dupq. simpl length. lia. }
  assert (M : lane_mask vl 1 (svwhilelt_b8 vl 0 0) = repeat false vl).
  { rewrite lane_mask_whilelt_b8. apply while_mask_false. lia. }
  unfold simsimd_hamming_u1x8sve. erewrite do_while_once.
  - simpl outcome_map. unfold svaddv_u8.
    rewrite sum_m_zero_lanes by exact Z0. reflexivity.
  - unfold svld1_u8, svadd_u8_m, svcnt_u8_x, sveor_u8_m. rewrite M.
    rewrite !load_m_false. cbn [bind2].
    rewrite (zip_m_false Z.lxor), map_m_false, zip_m_false;
      rewrite ?repeat_length; try reflexivity; exact L.
  - rewrite ptest_whilelt_b32 by lia. apply ltb_wrap64_0.
Qed.

Lemma fixed_width_integer_empty (p q : buffer Z) (r s : pointer) fuel :
  simsimd_hamming_u1x128sve fuel p q 0 = Done 0
  /\ simsimd_dot_i8x16avx2 fuel p q 0 = Done 0
  /\ simsimd_hamming_u1x128avx512 fuel r s 0 = Done 0.
Proof. destruct fuel; repeat split; reflexivity. Qed.

(** ** Lengths off the grid, for every fixed-width kernel *)

Lemma cos_f32x4neon_off_grid ar fuel a b d v :
  ~ (4 | d) -> simsimd_cos_f32x4neon ar fuel a b d <> Done v.
Proof.
  intros Hd E. unfold simsimd_cos_f32x4neon in E.
  apply outcome_map_done in E. destruct E as (s & E). revert E.
  apply for_ne_off_grid; [apply divide_4_pow64|exact Hd|apply Z.divide_0_r].
Qed.

Lemma cos_f32x4avx2_off_grid ar fuel a b d v :
  ~ (4 | d) -> simsimd_cos_f32x4avx2 ar fuel a b d <> Done v.
Proof.
  intros Hd E. unfold simsimd_cos_f32x4avx2 in E.
  apply outcome_map_done in E. destruct E as (s & E). revert E.
  apply for_ne_off_grid; [apply divide_4_pow64|exact Hd|apply Z.divide_0_r].
Qed.

Lemma dot_i8x16avx2_off_grid fuel a b d v :
  ~ (4 | d) -> simsimd_dot_i8x16avx2 fuel a b d <> Done v.
Proof.
  intros Hd E. unfold simsimd_dot_i8x16avx2 in E.
  apply outcome_map_done in E. destruct E as (s & E). revert E.
  apply for_ne_off_grid; [apply divide_4_pow64|exact Hd|apply Z.divide_0_r].
Qed.

(** ** Buffers that end before the loop does *)

Lemma load_some {A} (a : buffer A) n : forall i v,
  load a i n = Some v -> forall k, 0 <= k < Z.of_nat n -> a (i + k) <> None.
Proof.
  induction n as [|n IH]; intros i v E k Hk; [lia|].
  cbn [load] in E.
  destruct (a i) as [x|] eqn:Ex; [|discriminate].
  destruct (load a (i + 1) n) as [xs|] eqn:Exs; [|discriminate].
  destruct (Z.eq_dec k 0) as [->|Hk0].
  - rewrite Z.add_0_r, Ex. discriminate.
  - replace (i + k) with (i + 1 + (k - 1)) by lia.
    apply (IH (i + 1) xs Exs). lia.
Qed.

Lemma load_past_end {A} (a : buffer A) len i n :
  ends_at a len -> (0 < n)%nat -> len < i + Z.of_nat n ->
  load a i n = None.
Proof.
  intros Hend Hn H.
  destruct (load a i n) as [v|] eqn:E; [|reflexivity].
  exfalso. apply (load_some a n i v E (Z.of_nat n - 1)); [lia|].
  apply Hend. lia.
Qed.

(** A counted loop whose body fails once the counter is within [step] of
    [bound], and which cannot leave before, ends in a failed load. *)
Lemma for_ne_faults {St} step n (body : Z -> St -> option St) bound :
  0 < step -> bound < 2 ^ 64 ->
  (forall i, 0 <= i <= bound -> (step | i) -> i <> n) ->
  (forall i s, 0 <= i -> bound < i + step -> body i s = None) ->
  forall fuel i s,
    0 <= i <= bound -> (step | i) -> bound - i < step * Z.of_nat fuel ->
    for_ne fuel step n body i s = Fault.
Proof.
  intros Hstep Hbound Hexit Hfail fuel.
  induction fuel as [|fuel IH]; intros i s Hi Hg Hfuel; [lia|].
  simpl. destruct (Z.eqb_spec i n) as [E|E]; [exfalso; apply (Hexit i Hi Hg E)|].
  destruct (body i s) as [s'|] eqn:Eb; [|reflexivity].
  destruct (Z_lt_le_dec bound (i + step)) as [Hlt|Hle].
  - rewrite Hfail in Eb by lia. discriminate.
  - rewrite wrap64_small by lia. apply IH; [lia| |lia].
    apply Z.divide_add_r; [assumption|apply Z.divide_refl].
Qed.

Lemma loads_past_end {A B} (a b : buffer A) len i n (k : list A -> list A -> B) :
  ends_at a len \/ ends_at b len -> (0 < n)%nat -> len < i + Z.of_nat n ->
  bind2 (load a i n) (load b i n) k = None.
Proof.
  intros [H|H] Hn Hi; rewrite (load_past_end _ len i n H Hn Hi).
  - reflexivity.
  - destruct (load a i n); reflexivity.
Qed.

Ltac short_fixed step d bound len w :=
  rewrite (for_ne_faults step d _ bound); try reflexivity; try lia;
  [ let i := fresh "i" in
    let Hi := fresh "Hi" in
    let Hg := fresh "Hg" in
    let E := fresh "E" in
    intros i Hi Hg E; subst i;
    match goal with
    | H : _ \/ ~ (step | d) |- _ => destruct H as [H|H]; [lia|contradiction]
    end
  | let i := fresh "i" in
    let s := fresh "s" in
    let Hi := fresh "Hi" in
    let Hb := fresh "Hb" in
    intros i s Hi Hb;
    try (destruct s as [[? ?] ?]);
    apply (loads_past_end _ _ len); [assumption|lia|cbn [Z.of_nat Pos.of_succ_nat Pos.succ]; lia]
  | apply Z.divide_0_r ].

Lemma dot_f32x4neon_short ar fuel (a b : buffer (num ar)) d len :
  0 <= len < 2 ^ 64 -> ends_at a len \/ ends_at b len ->
  len < d \/ ~ (4 | d) -> len < 4 * Z.of_nat fuel ->
  simsimd_dot_f32x4neon ar fuel a b d = Fault.
Proof.
  intros Hlen Hend Hd Hfuel. unfold simsimd_dot_f32x4neon, vld1q_f32.
  short_fixed 4 d len len 4%nat.
Qed.

Lemma cos_f32x4neon_short ar fuel (a b : buffer (num ar)) d len :
  0 <= len < 2 ^ 64 -> ends_at a len \/ ends_at b len ->
  len < d \/ ~ (4 | d) -> len < 4 * Z.of_nat fuel ->
  simsimd_cos_f32x4neon ar fuel a b d = Fault.
Proof.
  intros Hlen Hend Hd Hfuel. unfold simsimd_cos_f32x4neon, vld1q_f32.
  short_fixed 4 d len len 4%nat.
Qed.

Lemma dot_f32x4avx2_short ar fuel (a b : buffer (num ar)) d len :
  0 <= len < 2 ^ 64 -> ends_at a len \/ ends_at b len ->
  len < d \/ ~ (4 | d) -> len < 4 * Z.of_nat fuel ->
  simsimd_dot_f32x4avx2 ar fuel a b d = Fault.
Proof.
  intros Hlen Hend Hd Hfuel. unfold simsimd_dot_f32x4avx2, _mm_loadu_ps.
  short_fixed 4 d len len 4%nat.
Qed.

Lemma cos_f32x4avx2_short ar fuel (a b : buffer (num ar)) d len :
  0 <= len < 2 ^ 64 -> ends_at a len \/ ends_at b len ->
  len < d \/ ~ (4 | d) -> len < 4 * Z.of_nat fuel ->
  simsimd_cos_f32x4avx2 ar fuel a b d = Fault.
Proof.
  intros Hlen Hend Hd Hfuel. unfold simsimd_cos_f32x4avx2, _mm_loadu_ps.
  short_fixed 4 d len len 4%nat.
Qed.

Lemma hamming_u1x128sve_short fuel (a b : buffer Z) d len :
  0 <= len < 2 ^ 64 -> ends_at a len \/ ends_at b len ->
  len < d \/ ~ (16 | d) -> len < 16 * Z.of_nat fuel ->
  simsimd_hamming_u1x128sve fuel a b d = Fault.
Proof.
  intros Hlen Hend Hd Hfuel. unfold simsimd_hamming_u1x128sve, vld1q_u8.
  short_fixed 16 d len len 16%nat.
Qed.

(** The 8-bit kernel needs twelve elements more than [d]. *)
Lemma dot_i8x16avx2_short fuel (a b : buffer Z) d len :
  0 <= len < 2 ^ 64 -> ends_at a len \/ ends_at b len ->
  (0 < d /\ len < d + 12) \/ ~ (4 | d) -> len < 4 * Z.of_nat fuel ->
  simsimd_dot_i8x16avx2 fuel a b d = Fault.
Proof.
  intros Hlen Hend Hd Hfuel. unfold simsimd_dot_i8x16avx2, _mm_loadu_si128.
  rewrite (for_ne_faults 4 d _ (Z.max 0 (len - 12))); try reflexivity; try lia.
  - intros i Hi Hg E. subst i. destruct Hd as [Hd|Hd]; [lia|contradiction].
  - intros i s Hi Hb. apply (loads_past_end _ _ len); [assumption|lia|].
    cbn [Z.of_nat Pos.of_succ_nat Pos.succ]. lia.
  - apply Z.divide_0_r.
Qed.

(** The 512-bit kernel needs the bytes of the first [d / 128] words. *)
Lemma hamming_u1x128avx512_short fuel (a b : pointer) d len :
  0 <= len < 2 ^ 64 -> ends_at (target a) len \/ ends_at (target b) len ->
  len < 8 * (d / 128) \/ ~ (2 | d / 128) -> len < 16 * Z.of_nat fuel ->
  simsimd_hamming_u1x128avx512 fuel a b d = Fault.
Proof.
  intros Hlen Hend Hd Hfuel. unfold simsimd_hamming_u1x128avx512.
  assert (H8 : 0 <= len / 8) by (apply Z.div_pos; lia).
  pose proof (Z.mul_div_le len 8 ltac:(lia)) as Hlo.
  pose proof (Z.mul_succ_div_gt len 8 ltac:(lia)) as Hhi.
  rewrite (for_ne_faults 2 (d / 128) _ (len / 8)); try reflexivity; try lia.
  - intros i Hi Hg E. subst i. destruct Hd as [Hd|Hd]; [lia|contradiction].
  - intros i s Hi Hb.
    assert (E : _mm_load_si128 a i = None \/ _mm_load_si128 b i = None).
    { destruct Hend as [H|H]; [left|right]; unfold _mm_load_si128;
        destruct (_ =? 0); try reflexivity;
        rewrite (load_past_end _ len (8 * i) 16 H); try reflexivity; try lia;
        cbn [Z.of_nat Pos.of_succ_nat Pos.succ]; lia. }
    destruct E as [E|E]; rewrite E; [reflexivity|].
    destruct (_mm_load_si128 a i); reflexivity.
  - apply Z.divide_0_r.
Qed.

(** A predicated loop whose body fails at the counter [i0] below [d] ends
    in a failed load. *)
Lemma do_while_faults {St Pg} inc d (next : Z -> Pg) test
      (body : Pg -> Z -> St -> option St) i0 :
  0 < inc -> d + inc < 2 ^ 64 ->
  (forall i, 0 <= i -> test (next i) = (i <? d)) ->
  0 <= i0 < d -> (inc | i0) ->
  (forall s, body (next i0) i0 s = None) ->
  forall fuel i s,
    0 <= i <= i0 -> (inc | i) -> i0 - i < inc * Z.of_nat fuel ->
    do_while fuel inc next test body i (next i) s = Fault.
Proof.
  intros Hinc Hfit Htest Hi0 Hg0 Hfail fuel.
  induction fuel as [|fuel IH]; intros i s Hi Hg Hfuel; [lia|].
  simpl. destruct (body (next i) i s) as [s'|] eqn:Eb; [|reflexivity].
  assert (i <> i0) by (intros ->; rewrite Hfail in Eb; discriminate).
  pose proof (grid_room inc i0 i Hinc Hg0 Hg ltac:(lia)).
  rewrite wrap64_small by lia. rewrite Htest by lia.
  destruct (Z.ltb_spec (i + inc) d); [|lia].
  apply IH; [lia| |lia].
  apply Z.divide_add_r; [assumption|apply Z.divide_refl].
Qed.

Lemma load_m_while_none {A} (z : A) (a : buffer A) d j n : forall i,
  a j = None -> i <= j < i + Z.of_nat n -> j < d ->
  load_m z (while_mask n i d) a i = None.
Proof.
  induction n as [|n IH]; intros i Hj Hi Hd; [lia|].
  cbn [while_mask load_m].
  destruct (Z.eq_dec i j) as [->|Hne].
  - destruct (Z.ltb_spec j d); [|lia]. rewrite Hj. reflexivity.
  - rewrite (IH (i + 1)) by (assumption || lia).
    destruct (if i <? d then a i else Some z); reflexivity.
Qed.

Lemma loads_m_while_none {A B} (z : A) (a b : buffer A) d j n i
      (k : list A -> list A -> B) :
  a j = None \/ b j = None -> i <= j < i + Z.of_nat n -> j < d ->
  bind2 (load_m z (while_mask n i d) a i) (load_m z (while_mask n i d) b i) k = None.
Proof.
  intros [H|H] Hi Hd; rewrite (load_m_while_none z _ d j n i H Hi Hd).
  - reflexivity.
  - destruct (load_m z (while_mask n i d) a i); reflexivity.
Qed.

Lemma lane_of_index inc j :
  0 < inc -> 0 <= j ->
  0 <= inc * (j / inc) <= j /\ j < inc * (j / inc) + inc /\ (inc | inc * (j / inc)).
Proof.
  intros Hinc Hj.
  pose proof (Z.mul_div_le j inc Hinc).
  pose proof (Z.mul_succ_div_gt j inc Hinc).
  assert (0 <= j / inc) by (apply Z.div_pos; lia).
  repeat split; try nia. exists (j / inc). lia.
Qed.

Section ShortSVE.
Variables (vl : nat) (ar : arith).
Variables (a b : buffer (num ar)) (d j : Z) (fuel : nat).
Hypothesis Hin : In vl sve_lengths.
Hypothesis Hj : 0 <= j < d.
Hypothesis Hnone : a j = None \/ b j = None.

Ltac short_sve cnt whilelt ptest mask_eq ld :=
  let inc := constr:(cnt vl) in
  let Hvl := fresh "Hvl" in
  destruct (sve_lengths_quads vl Hin) as (Hvl & _);
  let Hpos := fresh "Hpos" in
  assert (Hpos : 0 < inc) by (first [apply svcntw_pos | apply svcnth_pos]; lia);
  let H0 := fresh "H" in
  let H1 := fresh "H" in
  let H2 := fresh "H" in
  destruct (lane_of_index inc j Hpos ltac:(lia)) as (H0 & H1 & H2);
  let Hq := fresh "Hq" in
  assert (Hq : j / inc <= d / inc) by (apply Z.div_le_mono; lia);
  rewrite (do_while_faults inc d (fun i => whilelt vl i d) _ _ (inc * (j / inc)));
  try reflexivity; try assumption; try lia; try nia;
  [ let i := fresh "i" in intros i ?; apply ptest; lia
  | let s := fresh "s" in
    intros s; try (destruct s as [[? ?] ?]);
    unfold ld, svld1; rewrite mask_eq;
    apply (loads_m_while_none _ _ _ _ j); [assumption|unfold cnt in *; lia|lia]
  | apply Z.divide_0_r ].

Lemma dot_f32sve_short f_mla :
  d + svcntw vl < 2 ^ 64 -> d / svcntw vl < Z.of_nat fuel ->
  simsimd_dot_f32sve vl ar f_mla fuel a b d = Fault.
Proof.
  intros Hfit Hfuel. unfold simsimd_dot_f32sve.
  short_sve svcntw svwhilelt_b32 ptest_whilelt_b32 lane_mask_whilelt_b32
            svld1_f32.
Qed.

Lemma cos_f32sve_short f_ab f_a2 f_b2 :
  d + svcntw vl < 2 ^ 64 -> d / svcntw vl < Z.of_nat fuel ->
  simsimd_cos_f32sve vl ar f_ab f_a2 f_b2 fuel a b d = Fault.
Proof.
  intros Hfit Hfuel. unfold simsimd_cos_f32sve.
  short_sve svcntw svwhilelt_b32 ptest_whilelt_b32 lane_mask_whilelt_b32
            svld1_f32.
Qed.

Lemma euclidean_f32sve_short f_sub f_mla :
  d + svcntw vl < 2 ^ 64 -> d / svcntw vl < Z.of_nat fuel ->
  simsimd_euclidean_f32sve vl ar f_sub f_mla fuel a b d = Fault.
Proof.
  intros Hfit Hfuel. unfold simsimd_euclidean_f32sve.
  short_sve svcntw svwhilelt_b32 ptest_whilelt_b32 lane_mask_whilelt_b32
            svld1_f32.
Qed.

Lemma dot_f16sve_short f_mla :
  d + svcnth vl < 2 ^ 64 -> d / svcnth vl < Z.of_nat fuel ->
  simsimd_dot_f16sve vl ar f_mla fuel a b d = Fault.
Proof.
  intros Hfit Hfuel. unfold simsimd_dot_f16sve.
  short_sve svcnth svwhilelt_b16 ptest_whilelt_b16 lane_mask_whilelt_b16
            svld1_f16.
Qed.

Lemma euclidean_f16sve_short f_sub f_mla :
  d + svcnth vl < 2 ^ 64 -> d / svcnth vl < Z.of_nat fuel ->
  simsimd_euclidean_f16sve vl ar f_sub f_mla fuel a b d = Fault.
Proof.
  intros Hfit Hfuel. unfold simsimd_euclidean_f16sve.
  short_sve svcnth svwhilelt_b16 ptest_whilelt_b16 lane_mask_whilelt_b16
            svld1_f16.
Qed.
End ShortSVE.

(** ** The number of differing bits as a distance *)

Lemma hamming_ref_bounds a b n : 0 <= hamming_ref a b n <= Z.of_nat n.
Proof.
  unfold hamming_ref.
  assert (H : forall l,
             0 <= fold_right
                    (fun k acc => Z.b2z (xorb (bit_of a k) (bit_of b k)) + acc) 0 l
             <= Z.of_nat (length l)).
  { induction l as [|k l IH]; cbn [fold_right length]; [lia|].
    destruct (xorb (bit_of a k) (bit_of b k)); simpl Z.b2z; lia. }
  specialize (H (seq 0 n)). rewrite length_seq in H. exact H.
Qed.

Lemma hamming_ref_triangle a b c n :
  hamming_ref a c n <= hamming_ref a b n + hamming_ref b c n.
Proof.
  unfold hamming_ref. generalize (seq 0 n). intros l.
  induction l as [|k l IH]; cbn [fold_right]; [lia|].
  destruct (bit_of a k), (bit_of b k), (bit_of c k); cbn [xorb Z.b2z]; lia.
Qed.

Lemma hamming_ref_zero a b n :
  hamming_ref a b n = 0 <-> forall k, (k < n)%nat -> bit_of a k = bit_of b k.
Proof.
  unfold hamming_ref.
  assert (H : forall l,
             fold_right (fun k acc => Z.b2z (xorb (bit_of a k) (bit_of b k)) + acc) 0 l
             = 0 <-> forall k, In k l -> bit_of a k = bit_of b k).
  { induction l as [|k l IH]; cbn [fold_right].
    - split; [intros _ k []|reflexivity].
    - assert (0 <= fold_right
                (fun k acc => Z.b2z (xorb (bit_of a k) (bit_of b k)) + acc) 0 l).
      { clear. induction l as [|j l IH]; cbn [fold_right]; [lia|].
        destruct (xorb (bit_of a j) (bit_of b j)); simpl Z.b2z; lia. }
      split.
      + intros E j [<-|Hj].
        * destruct (bit_of a k), (bit_of b k); cbn [xorb Z.b2z] in E; try reflexivity; lia.
        * apply IH; [|exact Hj].
          destruct (xorb (bit_of a k) (bit_of b k)); simpl Z.b2z in E; lia.
      + intros Hall. rewrite (Hall k (or_introl eq_refl)), xorb_nilpotent.
        simpl Z.b2z. apply proj2 in IH. rewrite IH; [reflexivity|].
        intros j Hj. apply Hall. right. exact Hj. }
  rewrite H. split; intros Hall k Hk; apply Hall.
  - apply in_seq. lia.
  - apply in_seq in Hk. lia.
Qed.

(** ** What the 8-bit dot product adds up *)

Lemma mod16_mod8 x : (x mod 2 ^ 16) mod 2 ^ 8 = x mod 2 ^ 8.
Proof.
  apply Z.mod_mod_divide. exists (2 ^ 8). reflexivity.
Qed.

Lemma sum_zip_wrap16 : forall acc v,
  length acc = length v ->
  fold_right Z.add 0 (zip (fun x y => wrap16 (x + y)) acc v) mod 2 ^ 16
  = (fold_right Z.add 0 acc + fold_right Z.add 0 v) mod 2 ^ 16.
Proof.
  induction acc as [|c acc IH]; intros [|x v] H; simpl in *; try discriminate;
    [reflexivity|].
  unfold wrap16 at 1.
  rewrite Z.add_mod, IH, Z.mod_mod, <- Z.add_mod by lia.
  f_equal. lia.
Qed.

(** Sign extension followed by the low half of the product. *)
Lemma sum_mullo_cvtepi8 : forall u v,
  fold_right Z.add 0
    (_mm256_mullo_epi16 (_mm256_cvtepi8_epi16 u) (_mm256_cvtepi8_epi16 v)) mod 2 ^ 16
  = fold_right Z.add 0 (zip Z.mul u v) mod 2 ^ 16.
Proof.
  unfold _mm256_mullo_epi16, _mm256_cvtepi8_epi16.
  induction u as [|x u IH]; intros [|y v]; simpl; try reflexivity.
  rewrite Z.add_mod, IH by lia. unfold wrap16.
  rewrite Z.mod_mod, <- Z.mul_mod, <- Z.add_mod by lia. reflexivity.
Qed.

Lemma zip_firstn {A} (f : A -> A -> A) n l1 l2 :
  firstn n (zip f l1 l2) = zip f (firstn n l1) (firstn n l2).
Proof. symmetry. apply (zip_firstn_skipn f n 0 l1 l2). Qed.

Lemma map_firstn {A B} (f : A -> B) n : forall l, firstn n (map f l) = map f (firstn n l).
Proof.
  induction n as [|n IH]; intros [|x l]; simpl; try reflexivity.
  rewrite IH. reflexivity.
Qed.

Lemma windows_dot_succ a b n :
  windows_dot a b (S n) = windows_dot a b n + window_dot a b (4 * n) 8.
Proof.
  unfold windows_dot. rewrite seq_S, map_app, sum_app. simpl. lia.
Qed.

Lemma wrap16_add_mod8 x y x' y' :
  x mod 2 ^ 8 = x' mod 2 ^ 8 -> y mod 2 ^ 8 = y' mod 2 ^ 8 ->
  wrap16 (x + y) mod 2 ^ 8 = (x' + y') mod 2 ^ 8.
Proof.
  intros Hx Hy. unfold wrap16. rewrite mod16_mod8.
  rewrite Z.add_mod, Hx, Hy, <- Z.add_mod by lia. reflexivity.
Qed.

(** The low 32 bits of the register, reduced to their low byte. *)
Lemma cvtsi256_low_byte v :
  Z.land (_mm256_cvtsi256_si32 v) 255 = nth 0 v 0 mod 2 ^ 8.
Proof.
  unfold _mm256_cvtsi256_si32.
  change 255 with (Z.ones 8). rewrite Z.land_ones by lia.
  set (w := nth 0 v 0 + 2 ^ 16 * nth 1 v 0).
  assert (Hw : w mod 2 ^ 8 = nth 0 v 0 mod 2 ^ 8).
  { unfold w. replace (2 ^ 16 * nth 1 v 0) with (2 ^ 8 * nth 1 v 0 * 2 ^ 8) by lia.
    apply Z.mod_add. lia. }
  destruct (w <? 2 ^ 31); [exact Hw|].
  rewrite <- Hw. replace (w - 2 ^ 32) with (w + (- 2 ^ 24) * 2 ^ 8) by lia.
  apply Z.mod_add. lia.
Qed.

(** The three horizontal additions leave in the lowest lane the sum of the
    eight low lanes, and the kernel returns its low byte. *)
Lemma hadd_low_byte acc :
  length acc = 16%nat ->
  Z.land
    (_mm256_cvtsi256_si32
       (_mm256_hadd_epi16
          (_mm256_hadd_epi16 (_mm256_hadd_epi16 acc acc) (_mm256_hadd_epi16 acc acc))
          (_mm256_hadd_epi16 (_mm256_hadd_epi16 acc acc) (_mm256_hadd_epi16 acc acc))))
    255
  = fold_right Z.add 0 (firstn 8 acc) mod 2 ^ 8.
Proof.
  intros H. rewrite cvtsi256_low_byte.
  do 16 (destruct acc as [|? acc]; [discriminate|]).
  destruct acc; [|discriminate]. clear H.
  unfold _mm256_hadd_epi16.
  cbn [firstn skipn pairs app nth fold_right].
  match goal with
  | |- _ = (?x0 + (?x1 + (?x2 + (?x3 + (?x4 + (?x5 + (?x6 + (?x7 + 0)))))))) mod _ =>
      transitivity (((x0 + x1) + (x2 + x3) + ((x4 + x5) + (x6 + x7))) mod 2 ^ 8);
      [repeat apply wrap16_add_mod8; reflexivity|f_equal; lia]
  end.
Qed.

Lemma dot_i8x16avx2_windows p q la lb d fuel :
  holds p la -> holds q lb ->
  0 <= d < 2 ^ 64 -> (4 | d) ->
  d + 12 <= Z.of_nat (length la) -> d + 12 <= Z.of_nat (length lb) ->
  d / 4 <= Z.of_nat fuel ->
  simsimd_dot_i8x16avx2 fuel p q d
  = Done (windows_dot la lb (Z.to_nat (d / 4)) mod 2 ^ 8).
Proof.
  intros Hp Hq Hd Hdiv Hla Hlb Hfuel. unfold simsimd_dot_i8x16avx2.
  set (I := fun (i : Z) (acc : list Z) =>
              length acc = 16%nat
              /\ fold_right Z.add 0 (firstn 8 acc) mod 2 ^ 16
                 = windows_dot la lb (Z.to_nat (i / 4)) mod 2 ^ 16).
  match goal with
  | |- outcome_map ?f (for_ne ?fl ?step ?n ?body ?i ?s0) = _ =>
      destruct (for_ne_run I step n body fl s0)
        as (s' & Hs' & HI); try lia; try assumption
  end.
  - intros i s Hi Hg (Hlen & Hsum).
    pose proof (grid_room 4 d i ltac:(lia) Hdiv Hg ltac:(lia)).
    unfold _mm_loadu_si128.
    rewrite (load_holds_at p la 16 i Hp), (load_holds_at q lb 16 i Hq) by lia.
    eexists. split; [reflexivity|]. unfold I.
    set (u := firstn 16 (skipn (Z.to_nat i) la)).
    set (v := firstn 16 (skipn (Z.to_nat i) lb)).
    assert (Lu : length u = 16%nat)
      by (unfold u; rewrite length_firstn, length_skipn; lia).
    assert (Lv : length v = 16%nat)
      by (unfold v; rewrite length_firstn, length_skipn; lia).
    assert (Lm : length (_mm256_mullo_epi16 (_mm256_cvtepi8_epi16 u)
                                            (_mm256_cvtepi8_epi16 v)) = 16%nat).
    { unfold _mm256_mullo_epi16, _mm256_cvtepi8_epi16.
      rewrite length_zip; rewrite !length_map; lia. }
    split.
    + unfold _mm256_add_epi16. rewrite length_zip; lia.
    + unfold _mm256_add_epi16. rewrite zip_firstn.
      rewrite sum_zip_wrap16 by (rewrite !length_firstn; lia).
      rewrite Z.add_mod, Hsum by lia.
      unfold _mm256_mullo_epi16 at 1. rewrite zip_firstn.
      unfold _mm256_cvtepi8_epi16 at 1 2. rewrite !map_firstn.
      fold (_mm256_cvtepi8_epi16 (firstn 8 u)).
      fold (_mm256_cvtepi8_epi16 (firstn 8 v)).
      fold (_mm256_mullo_epi16 (_mm256_cvtepi8_epi16 (firstn 8 u))
                               (_mm256_cvtepi8_epi16 (firstn 8 v))).
      rewrite sum_mullo_cvtepi8, <- Z.add_mod by lia.
      destruct Hg as [k Hk]. subst i.
      replace (k * 4 + 4) with ((k + 1) * 4) by lia.
      rewrite !Z.div_mul by lia.
      replace (Z.to_nat (k + 1)) with (S (Z.to_nat k)) by lia.
      rewrite windows_dot_succ. f_equal. f_equal. unfold window_dot.
      unfold u, v. rewrite !firstn_firstn. simpl Nat.min.
      replace (4 * Z.to_nat k)%nat with (Z.to_nat (k * 4)) by lia. reflexivity.
  - split; reflexivity.
  - rewrite Hs'. simpl outcome_map. f_equal. destruct HI as (Hlen & Hsum).
    rewrite hadd_low_byte by exact Hlen.
    rewrite <- (mod16_mod8 (fold_right _ _ _)), Hsum, mod16_mod8. reflexivity.
Qed.

(** ** Exchanging the operands of the cosine kernels *)

Section CosineSymmetry.
Variable ar : arith.
Hypothesis Hc : commutative ar.

Let swapped (s t : list (num ar) * list (num ar) * list (num ar)) : Prop :=
  let '(ab, a2, b2) := s in
  let '(ab', a2', b2') := t in
  ab = ab' /\ a2 = b2' /\ b2 = a2'.

Lemma cos_tail_swap ab a2 b2 : cos_tail ar ab a2 b2 = cos_tail ar ab b2 a2.
Proof. unfold cos_tail. rewrite (mul_comm ar Hc). reflexivity. Qed.

(** Exchanging the operands of the scalable kernel exchanges the parts of
    its two norm accumulations, and with them their forms. *)
Lemma cos_f32sve_sym vl f_ab f_a2 f_b2 fuel a b d :
  simsimd_cos_f32sve vl ar f_ab f_a2 f_b2 fuel a b d
  = simsimd_cos_f32sve vl ar f_ab f_b2 f_a2 fuel b a d.
Proof.
  unfold simsimd_cos_f32sve. apply outcome_rel_eq.
  apply (outcome_rel_map swapped).
  - intros [[ab a2] b2] [[ab' a2'] b2'] (-> & -> & ->). apply cos_tail_swap.
  - apply do_while_sim; [|repeat split].
    intros pg i [[ab a2] b2] [[ab' a2'] b2'] (-> & -> & ->).
    destruct (svld1_f32 vl ar pg a i) as [u|] eqn:Hu;
      destruct (svld1_f32 vl ar pg b i) as [v|] eqn:Hv; simpl; auto.
    repeat split. apply svld1_wipe in Hu, Hv. unfold svmla_f32_x.
    rewrite (svmla_x_settle vl ar 4 f_ab pg ab' u v Hu Hv).
    rewrite (svmla_x_settle vl ar 4 f_ab pg ab' v u Hv Hu).
    unfold svmla_x. apply zip3_m_swap_back.
    intros. apply (fma_comm ar Hc).
Qed.

Lemma cos_f32x4neon_sym fuel a b d :
  simsimd_cos_f32x4neon ar fuel a b d = simsimd_cos_f32x4neon ar fuel b a d.
Proof.
  unfold simsimd_cos_f32x4neon. apply outcome_rel_eq.
  apply (outcome_rel_map swapped).
  - intros [[ab a2] b2] [[ab' a2'] b2'] (-> & -> & ->). apply cos_tail_swap.
  - apply for_ne_sim; [|repeat split].
    intros i [[ab a2] b2] [[ab' a2'] b2'] (-> & -> & ->).
    destruct (vld1q_f32 ar a i), (vld1q_f32 ar b i); simpl; auto.
    repeat split. unfold vmlaq_f32. apply zip3_swap_back.
    intros. rewrite (mul_comm ar Hc). reflexivity.
Qed.

Lemma cos_f32x4avx2_sym fuel a b d :
  simsimd_cos_f32x4avx2 ar fuel a b d = simsimd_cos_f32x4avx2 ar fuel b a d.
Proof.
  unfold simsimd_cos_f32x4avx2. apply outcome_rel_eq.
  apply (outcome_rel_map swapped).
  - intros [[ab a2] b2] [[ab' a2'] b2'] (-> & -> & ->).
    cbv beta iota zeta. apply cos_tail_swap.
  - apply for_ne_sim; [|repeat split].
    intros i [[ab a2] b2] [[ab' a2'] b2'] (-> & -> & ->).
    destruct (_mm_loadu_ps ar a i), (_mm_loadu_ps ar b i); simpl; auto.
    repeat split. unfold _mm_fmadd_ps. apply zip3_swap_front.
    intros. apply (fma_comm ar Hc).
Qed.
End CosineSymmetry.

(** ** Exchanging the operands of the Euclidean kernels *)

Section EuclideanSymmetry.
Variables prec emax : Z.
Let ar : arith := ieee prec emax.

Lemma binary_round_aux_abs s s' m e l :
  SFabs (binary_round_aux prec emax s m e l)
  = SFabs (binary_round_aux prec emax s' m e l).
Proof.
  unfold binary_round_aux.
  destruct (shr_fexp prec emax m e l) as [mrs e1].
  destruct (shr_fexp prec emax _ e1 loc_Exact) as [mrs2 e2].
  destruct (shr_m mrs2); try reflexivity.
  destruct (e2 <=? emax - prec); reflexivity.
Qed.

Lemma binary_normalize_abs m e z :
  SFabs (binary_normalize prec emax m e z)
  = SFabs (binary_normalize prec emax (- m) e z).
Proof.
  destruct m as [|m|m]; simpl; try reflexivity; unfold binary_round;
    destruct (shl_align _ _ _); apply binary_round_aux_abs.
Qed.

(** [a - b] and [b - a] differ in their sign only. *)
Lemma SFsub_abs x y :
  SFabs (SFsub prec emax x y) = SFabs (SFsub prec emax y x).
Proof.
  destruct x as [sx|sx| |sx mx ex], y as [sy|sy| |sy my ey]; try reflexivity;
    try (destruct sx, sy; reflexivity).
  unfold SFsub. rewrite (Z.min_comm ey ex).
  rewrite binary_normalize_abs. f_equal. f_equal. lia.
Qed.

(** A square under [fma] does not see the sign of its operand. *)
Lemma SFfma_square_abs x x' c :
  SFabs x = SFabs x' -> SFfma prec emax x x c = SFfma prec emax x' x' c.
Proof.
  destruct x as [sx|sx| |sx mx ex], x' as [sx'|sx'| |sx' mx' ex']; simpl;
    intros E; try discriminate; try reflexivity.
  - rewrite !xorb_nilpotent. reflexivity.
  - rewrite !xorb_nilpotent. reflexivity.
  - inversion E. subst. rewrite !xorb_nilpotent. reflexivity.
Qed.

Lemma euclidean_step_swap m : forall acc u v,
  zip3_m (fun c x y => fma ar x y c) m acc (zip_m (sub ar) m u v) (zip_m (sub ar) m u v)
  = zip3_m (fun c x y => fma ar x y c) m acc (zip_m (sub ar) m v u)
      (zip_m (sub ar) m v u).
Proof.
  induction m as [|p m IH]; intros [|c acc] [|x u] [|y v]; simpl;
    try reflexivity.
  rewrite IH. destruct p; [|reflexivity].
  f_equal. apply SFfma_square_abs, SFsub_abs.
Qed.

Lemma euclidean_f32sve_sym vl f_sub f_mla fuel a b d :
  simsimd_euclidean_f32sve vl ar f_sub f_mla fuel a b d
  = simsimd_euclidean_f32sve vl ar f_sub f_mla fuel b a d.
Proof.
  unfold simsimd_euclidean_f32sve. f_equal. apply outcome_rel_eq.
  apply do_while_sim; [|reflexivity].
  intros pg i s1 s2 <-. apply bind2_swap_at. intros u v Hu Hv.
  apply svld1_wipe in Hu, Hv. cbv zeta. unfold svmla_f32_x, svsub_f32_x.
  rewrite (euclidean_step_settle vl ar 4 f_sub f_mla pg s1 u v Hu Hv).
  rewrite (euclidean_step_settle vl ar 4 f_sub f_mla pg s1 v u Hv Hu).
  unfold svmla_x, svsub_x. apply euclidean_step_swap.
Qed.

Lemma euclidean_f16sve_sym vl f_sub f_mla fuel a b d :
  simsimd_euclidean_f16sve vl ar f_sub f_mla fuel a b d
  = simsimd_euclidean_f16sve vl ar f_sub f_mla fuel b a d.
Proof.
  unfold simsimd_euclidean_f16sve. f_equal. apply outcome_rel_eq.
  apply do_while_sim; [|reflexivity].
  intros pg i s1 s2 <-. apply bind2_swap_at. intros u v Hu Hv.
  apply svld1_wipe in Hu, Hv. cbv zeta. unfold svmla_f16_x, svsub_f16_x.
  rewrite (euclidean_step_settle vl ar 2 f_sub f_mla pg s1 u v Hu Hv).
  rewrite (euclidean_step_settle vl ar 2 f_sub f_mla pg s1 v u Hv Hu).
  unfold svmla_x, svsub_x. apply euclidean_step_swap.
Qed.
End EuclideanSymmetry.

(** ** Sums of squares are not negative *)

(** The loop keeps what its body keeps. *)
Lemma do_while_inv {St Pg} (P : St -> Prop) inc (next : Z -> Pg) test
      (body : Pg -> Z -> St -> option St) :
  (forall pg i s s', P s -> body pg i s = Some s' -> P s') ->
  forall fuel i pg s r,
    P s -> do_while fuel inc next test body i pg s = Done r -> P r.
Proof.
  intros Hb fuel. induction fuel as [|fuel IH]; intros i pg s r HP; simpl;
    [discriminate|].
  destruct (body pg i s) as [s'|] eqn:E; [|discriminate].
  pose proof (Hb pg i s s' HP E) as HP'.
  destruct (test _).
  - apply IH. exact HP'.
  - intros E'. inversion E'. subst. exact HP'.
Qed.

Lemma for_ne_inv {St} (P : St -> Prop) step n (body : Z -> St -> option St) :
  (forall i s s', P s -> body i s = Some s' -> P s') ->
  forall fuel i s r, P s -> for_ne fuel step n body i s = Done r -> P r.
Proof.
  intros Hb fuel. induction fuel as [|fuel IH]; intros i s r HP; simpl.
  - destruct (i =? n); [|discriminate]. intros E. inversion E. subst. exact HP.
  - destruct (i =? n); [intros E; inversion E; subst; exact HP|].
    destruct (body i s) as [s'|] eqn:E; [|discriminate].
    apply IH. apply (Hb i s s' HP E).
Qed.

Lemma zip3_m_square_Forall {A} (f : A -> A -> A -> A) (P : A -> Prop) :
  (forall c x, P c -> P (f c x x)) ->
  forall m acc v, Forall P acc -> Forall P (zip3_m f m acc v v).
Proof.
  intros Hf. induction m as [|p m IH]; intros [|c acc] [|x v] H; simpl;
    try constructor.
  - inversion H; subst. destruct p; auto.
  - inversion H; subst. auto.
Qed.

Lemma zip3_square_back_Forall {A} (f : A -> A -> A -> A) (P : A -> Prop) :
  (forall c x, P c -> P (f c x x)) ->
  forall acc v, Forall P acc -> Forall P (zip3 f acc v v).
Proof.
  intros Hf. induction acc as [|c acc IH]; intros [|x v] H; simpl;
    try constructor.
  - inversion H; subst. auto.
  - inversion H; subst. auto.
Qed.

Lemma zip3_square_front_Forall {A} (f : A -> A -> A -> A) (P : A -> Prop) :
  (forall c x, P c -> P (f x x c)) ->
  forall v acc, Forall P acc -> Forall P (zip3 f v v acc).
Proof.
  intros Hf. induction v as [|x v IH]; intros [|c acc] H; simpl;
    try constructor.
  - inversion H; subst. auto.
  - inversion H; subst. auto.
Qed.

Section NotNegative.
Variables prec emax : Z.
Let ar : arith := ieee prec emax.
Let nn (x : spec_float) : Prop := not_negative x = true.

Lemma binary_round_aux_nn m e l : nn (binary_round_aux prec emax false m e l).
Proof.
  unfold nn, binary_round_aux.
  destruct (shr_fexp prec emax m e l) as [mrs e1].
  destruct (shr_fexp prec emax _ e1 loc_Exact) as [mrs2 e2].
  destruct (shr_m mrs2); try reflexivity.
  destruct (e2 <=? emax - prec); reflexivity.
Qed.

Lemma binary_normalize_nn m e : 0 <= m -> nn (binary_normalize prec emax m e false).
Proof.
  intros H. destruct m as [|m|m]; [reflexivity| |lia].
  unfold binary_normalize, binary_round. destruct (shl_align _ _ _).
  apply binary_round_aux_nn.
Qed.

Lemma nn_add x y : nn x -> nn y -> nn (add ar x y).
Proof.
  unfold nn.
  destruct x as [sx|sx| |sx mx ex], y as [sy|sy| |sy my ey]; simpl;
    intros Hx Hy; try reflexivity; try assumption;
    try (destruct sx; try discriminate; destruct sy; try discriminate; reflexivity).
  destruct sx; [discriminate|]. destruct sy; [discriminate|].
  apply binary_normalize_nn. simpl. lia.
Qed.

Lemma nn_mul_square x : nn (mul ar x x).
Proof.
  unfold nn. destruct x as [sx|sx| |sx mx ex]; simpl; try reflexivity;
    rewrite xorb_nilpotent; try reflexivity.
  apply binary_round_aux_nn.
Qed.

Lemma nn_fma_square x c : nn c -> nn (fma ar x x c).
Proof.
  unfold nn. intros Hc.
  destruct x as [sx|sx| |sx mx ex]; simpl; try reflexivity;
    rewrite ?xorb_nilpotent.
  - destruct c as [sc|sc| |sc mc ec]; simpl in *; try reflexivity; try assumption.
    destruct sc; [discriminate|reflexivity].
  - destruct c as [sc|sc| |sc mc ec]; simpl in *; try reflexivity; try assumption.
    destruct sc; [discriminate|reflexivity].
  - destruct c as [sc|sc| |sc mc ec]; simpl in Hc |- *; try reflexivity;
      try assumption.
    + apply binary_round_aux_nn.
    + destruct sc; [discriminate|].
      apply binary_normalize_nn. simpl. lia.
Qed.

Lemma nn_sqrt x : nn x -> nn (sqrt ar x).
Proof.
  unfold nn. destruct x as [sx|sx| |sx mx ex]; simpl; intros H.
  - exact H.
  - destruct sx; [discriminate|reflexivity].
  - reflexivity.
  - destruct sx; [discriminate|].
    destruct (SFsqrt_core_binary prec emax (Z.pos mx) ex) as [[mz ez] lz].
    apply binary_round_aux_nn.
Qed.
End NotNegative.

Section NotNegativeKernels.
Variables prec emax : Z.
Let ar : arith := ieee prec emax.
Let nn (x : spec_float) : Prop := not_negative x = true.

Lemma nn_dupq vl quad : Forall nn quad -> Forall nn (svdupq_n vl quad).
Proof. apply Forall_dupq. Qed.

Lemma euclidean_f32sve_nn vl f_sub f_mla fuel a b d v :
  simsimd_euclidean_f32sve vl ar f_sub f_mla fuel a b d = Done v -> nn v.
Proof.
  unfold simsimd_euclidean_f32sve. intros E.
  apply outcome_map_inv in E. destruct E as (s & E & ->).
  apply nn_sqrt. unfold svaddv_f32.
  apply (svaddv_closed ar nn); [reflexivity|apply nn_add|].
  revert E. apply do_while_inv.
  - intros pg i s0 s' HP H. apply bind2_some in H.
    destruct H as (u & w & Hu & Hw & ->).
    apply svld1_wipe in Hu, Hw. cbv zeta. unfold svmla_f32_x, svsub_f32_x.
    rewrite (euclidean_step_settle vl ar 4 f_sub f_mla pg s0 u w Hu Hw).
    unfold svmla_x. apply zip3_m_square_Forall.
    + intros c x Hc. apply nn_fma_square. exact Hc.
    + apply (settle_Forall ar nn); [reflexivity|exact HP].
  - apply nn_dupq. repeat constructor.
Qed.

Lemma euclidean_f16sve_nn vl f_sub f_mla fuel a b d v :
  simsimd_euclidean_f16sve vl ar f_sub f_mla fuel a b d = Done v -> nn v.
Proof.
  unfold simsimd_euclidean_f16sve. intros E.
  apply outcome_map_inv in E. destruct E as (s & E & ->).
  apply nn_sqrt. unfold svaddv_f16.
  apply (svaddv_closed ar nn); [reflexivity|apply nn_add|].
  revert E. apply do_while_inv.
  - intros pg i s0 s' HP H. apply bind2_some in H.
    destruct H as (u & w & Hu & Hw & ->).
    apply svld1_wipe in Hu, Hw. cbv zeta. unfold svmla_f16_x, svsub_f16_x.
    rewrite (euclidean_step_settle vl ar 2 f_sub f_mla pg s0 u w Hu Hw).
    unfold svmla_x. apply zip3_m_square_Forall.
    + intros c x Hc. apply nn_fma_square. exact Hc.
    + apply (settle_Forall ar nn); [reflexivity|exact HP].
  - apply nn_dupq. repeat constructor.
Qed.

(** The dot product of a vector with itself. *)
Lemma dot_f32sve_self_nn vl f_mla fuel a d v :
  simsimd_dot_f32sve vl ar f_mla fuel a a d = Done v -> nn v.
Proof.
  unfold simsimd_dot_f32sve. intros E.
  apply outcome_map_inv in E. destruct E as (s & E & ->).
  unfold svaddv_f32.
  apply (svaddv_closed ar nn); [reflexivity|apply nn_add|].
  revert E. apply do_while_inv.
  - intros pg i s0 s' HP H. apply bind2_some in H.
    destruct H as (u & w & Hu & Hw & ->).
    rewrite Hu in Hw. inversion Hw. subst w.
    apply svld1_wipe in Hu. unfold svmla_f32_x.
    rewrite (svmla_x_settle vl ar 4 f_mla pg s0 u u Hu Hu).
    unfold svmla_x. apply zip3_m_square_Forall.
    + intros c x Hc. apply nn_fma_square. exact Hc.
    + apply (settle_Forall ar nn); [reflexivity|exact HP].
  - apply nn_dupq. repeat constructor.
Qed.

Lemma dot_f16sve_self_nn vl f_mla fuel a d v :
  simsimd_dot_f16sve vl ar f_mla fuel a a d = Done v -> nn v.
Proof.
  unfold simsimd_dot_f16sve. intros E.
  apply outcome_map_inv in E. destruct E as (s & E & ->).
  unfold svaddv_f16.
  apply (svaddv_closed ar nn); [reflexivity|apply nn_add|].
  revert E. apply do_while_inv.
  - intros pg i s0 s' HP H. apply bind2_some in H.
    destruct H as (u & w & Hu & Hw & ->).
    rewrite Hu in Hw. inversion Hw. subst w.
    apply svld1_wipe in Hu. unfold svmla_f16_x.
    rewrite (svmla_x_settle vl ar 2 f_mla pg s0 u u Hu Hu).
    unfold svmla_x. apply zip3_m_square_Forall.
    + intros c x Hc. apply nn_fma_square. exact Hc.
    + apply (settle_Forall ar nn); [reflexivity|exact HP].
  - apply nn_dupq. repeat constructor.
Qed.

Lemma dot_f32x4neon_self_nn fuel a d v :
  simsimd_dot_f32x4neon ar fuel a a d = Done v -> nn v.
Proof.
  unfold simsimd_dot_f32x4neon. intros E.
  apply outcome_map_inv in E. destruct E as (s & E & ->).
  apply (vaddvq_f32_closed ar nn); [reflexivity|apply nn_add|].
  revert E. apply for_ne_inv.
  - intros i s0 s' HP H. apply bind2_some in H.
    destruct H as (u & w & Hu & Hw & ->).
    rewrite Hu in Hw. inversion Hw. subst w.
    unfold vmlaq_f32. apply zip3_square_back_Forall; [|exact HP].
    intros c x Hc. apply nn_add; [exact Hc|apply nn_mul_square].
  - repeat constructor.
Qed.

Lemma dot_f32x4avx2_self_nn fuel a d v :
  simsimd_dot_f32x4avx2 ar fuel a a d = Done v -> nn v.
Proof.
  unfold simsimd_dot_f32x4avx2. intros E.
  apply outcome_map_inv in E. destruct E as (s & E & ->).
  apply (hadd_low_closed ar nn); [reflexivity|apply nn_add|].
  revert E. apply for_ne_inv.
  - intros i s0 s' HP H. apply bind2_some in H.
    destruct H as (u & w & Hu & Hw & ->).
    rewrite Hu in Hw. inversion Hw. subst w.
    unfold _mm_fmadd_ps. apply zip3_square_front_Forall; [|exact HP].
    intros c x Hc. apply nn_fma_square. exact Hc.
  - repeat constructor.
Qed.
End NotNegativeKernels.

(** ** The byte-granular Hamming kernel on short inputs *)

Lemma wrap8_popcount x : wrap8 (0 + popcount 8 x) = popcount 8 x.
Proof.
  unfold wrap8. pose proof (popcount_bounds 8 x).
  rewrite Z.add_0_l. apply Z.mod_small. simpl Z.of_nat in *. lia.
Qed.

Lemma nth_error_nth_default {A} (l : list A) k x z :
  nth_error l k = Some x -> nth k l z = x.
Proof.
  revert k. induction l as [|y l IH]; intros [|k]; simpl; try discriminate.
  - intros E. inversion E. reflexivity.
  - apply IH.
Qed.

(** One iteration under the predicate of the byte lanes below [d]. *)
Lemma hamming_sve_first_step p q la lb d :
  holds p la -> holds q lb ->
  forall n (i : nat),
    (forall k, (i <= k < i + n)%nat -> Z.of_nat k < d ->
               (k < length la)%nat /\ (k < length lb)%nat) ->
    exists u v,
      load_m 0 (while_mask n (Z.of_nat i) d) p (Z.of_nat i) = Some u
      /\ load_m 0 (while_mask n (Z.of_nat i) d) q (Z.of_nat i) = Some v
      /\ zip_m (fun x y => wrap8 (x + y)) (while_mask n (Z.of_nat i) d) (repeat 0 n)
           (map_m (popcount 8) (while_mask n (Z.of_nat i) d)
              (zip_m Z.lxor (while_mask n (Z.of_nat i) d) u v))
         = map (fun k => if Z.of_nat k <? d
                         then popcount 8 (Z.lxor (nth k la 0) (nth k lb 0)) else 0)
             (seq i n).
Proof.
  intros Hp Hq. induction n as [|n IH]; intros i Hlen.
  - exists [], []. repeat split.
  - destruct (IH (S i)) as (u & v & Hu & Hv & E).
    { intros k Hk. apply Hlen. lia. }
    cbn [while_mask load_m seq map repeat].
    replace (Z.of_nat i + 1) with (Z.of_nat (S i)) by lia.
    rewrite Hu, Hv.
    destruct (Z.ltb_spec (Z.of_nat i) d) as [Hlt|Hge].
    + destruct (Hlen i ltac:(lia) Hlt) as (La & Lb).
      destruct (nth_error la i) as [x|] eqn:Ex;
        [|apply nth_error_None in Ex; lia].
      destruct (nth_error lb i) as [y|] eqn:Ey;
        [|apply nth_error_None in Ey; lia].
      rewrite (Hp i x Ex), (Hq i y Ey).
      exists (x :: u), (y :: v). repeat split.
      cbn [zip_m map_m]. rewrite E, wrap8_popcount.
      rewrite (nth_error_nth_default la i x 0 Ex), (nth_error_nth_default lb i y 0 Ey).
      reflexivity.
    + exists (0 :: u), (0 :: v). repeat split.
      cbn [zip_m map_m]. rewrite E. reflexivity.
Qed.

Lemma sum_m_map (g : nat -> bool) (h : nat -> Z) : forall l,
  sum_m (map g l) (map h l)
  = fold_right Z.add 0 (map (fun k => if g k then h k else 0) l).
Proof.
  induction l as [|k l IH]; simpl; [reflexivity|]. rewrite IH. reflexivity.
Qed.

Lemma lane_mask_bytes vl (g : nat -> bool) :
  lane_mask vl 1 (map g (seq 0 vl)) = map g (seq 0 vl).
Proof.
  unfold lane_mask. rewrite Nat.div_1_r. apply map_ext_in.
  intros k Hk. apply in_seq in Hk. rewrite Nat.mul_1_l.
  apply nth_map_seq. lia.
Qed.

Lemma sum_zero_map (f : nat -> Z) : forall l,
  (forall k, In k l -> f k = 0) -> fold_right Z.add 0 (map f l) = 0.
Proof.
  induction l as [|k l IH]; intros H; simpl; [reflexivity|].
  rewrite (H k (or_introl eq_refl)), IH; [reflexivity|].
  intros j Hj. apply H. right. exact Hj.
Qed.

Lemma every_fourth_diff_bounds a b n :
  0 <= every_fourth_diff a b n <= 8 * Z.of_nat n.
Proof.
  unfold every_fourth_diff.
  set (f := fun k => if Nat.eqb (k mod 4) 0
                     then popcount 8 (Z.lxor (nth k a 0) (nth k b 0)) else 0).
  assert (H : forall l, 0 <= fold_right Z.add 0 (map f l) <= 8 * Z.of_nat (length l)).
  { induction l as [|k l IH]; cbn [map fold_right length]; [lia|].
    assert (0 <= f k <= 8).
    { unfold f. pose proof (popcount_bounds 8 (Z.lxor (nth k a 0) (nth k b 0))).
      destruct (Nat.eqb (k mod 4) 0); lia. }
    lia. }
  specialize (H (seq 0 n)). rewrite length_seq in H. exact H.
Qed.

Lemma zeros_u8 vl :
  In vl sve_lengths -> svdupq_n_u8 vl 0 0 0 0 0 0 0 0 0 0 0 0 0 0 0 0 = repeat 0 vl.
Proof.
  intros Hin. destruct (sve_lengths_quads vl Hin) as (_ & _ & _ & Hq & _).
  assert (L : length (svdupq_n_u8 vl 0 0 0 0 0 0 0 0 0 0 0 0 0 0 0 0) = vl).
  { unfold svdupq_n_u8. rewrite length_dupq. simpl length. lia. }
  rewrite <- L at 2. apply Forall_eq_repeat.
  apply Forall_dupq. repeat constructor.
Qed.

(** With [d <= 8 * svcntb()] the loop runs once: the kernel reads the first
    [min(d, svcntb())] bytes and adds the counts of every fourth of them. *)
Lemma hamming_u1x8sve_one_pass vl p q la lb d fuel :
  In vl sve_lengths -> holds p la -> holds q lb ->
  0 <= d <= 8 * svcntb vl ->
  Z.min d (svcntb vl) <= Z.of_nat (length la) ->
  Z.min d (svcntb vl) <= Z.of_nat (length lb) ->
  simsimd_hamming_u1x8sve vl (S fuel) p q d
  = Done (every_fourth_diff la lb (Z.to_nat (Z.min d (svcntb vl)))).
Proof.
  intros Hin Hp Hq Hd Hla Hlb. unfold svcntb in *.
  destruct (sve_lengths_quads vl Hin) as (Hvl & _ & _ & _ & Hmax).
  destruct (hamming_sve_first_step p q la lb d Hp Hq vl 0) as (u & v & Hu & Hv & E).
  { intros k Hk Hkd. lia. }
  change (Z.of_nat 0) with 0 in Hu, Hv, E.
  unfold simsimd_hamming_u1x8sve, svcntb. erewrite do_while_once; cycle 1.
  - unfold svld1_u8, svadd_u8_m, svcnt_u8_x, sveor_u8_m.
    rewrite lane_mask_whilelt_b8, Hu, Hv. cbn [bind2].
    rewrite zeros_u8 by exact Hin. rewrite E. reflexivity.
  - rewrite ptest_whilelt_b32 by lia. rewrite wrap64_small by lia.
    apply Z.ltb_ge. lia.
  - cbn [outcome_map]. f_equal. unfold svaddv_u8, svptrue_b32.
    rewrite lane_mask_bytes, sum_m_map.
    set (n := Z.to_nat (Z.min d (Z.of_nat vl))).
    assert (Hn : (n <= vl)%nat) by lia.
    replace vl with (n + (vl - n))%nat at 1 by lia.
    rewrite seq_app, map_app, sum_app. simpl Nat.add.
    rewrite (sum_zero_map _ (seq n (vl - n))).
    + rewrite Z.add_0_r.
      pose proof (every_fourth_diff_bounds la lb n).
      unfold every_fourth_diff in *.
      erewrite map_ext_in.
      * apply wrap64_small. lia.
      * intros k Hk. apply in_seq in Hk. simpl.
        destruct (Z.ltb_spec (Z.of_nat k) d); [reflexivity|lia].
    + intros k Hk. apply in_seq in Hk.
      destruct (Z.ltb_spec (Z.of_nat k) d); [lia|].
      destruct (Nat.eqb (k mod 4) 0); reflexivity.
Qed.

Lemma hamming_u1x8sve_short vl (p q : buffer Z) d j fuel :
  0 <= j < Z.min d (svcntb vl) -> p j = None \/ q j = None ->
  simsimd_hamming_u1x8sve vl (S fuel) p q d = Fault.
Proof.
  intros Hj Hnone. unfold svcntb in *. unfold simsimd_hamming_u1x8sve.
  cbn [do_while]. unfold svld1_u8. rewrite lane_mask_whilelt_b8.
  rewrite (loads_m_while_none 0 p q d j vl 0); [reflexivity|assumption|lia|lia].
Qed.

(** ** Buffers given by lists *)

Lemma ends_at_of_list {A} (l : list A) : ends_at (of_list l) (Z.of_nat (length l)).
Proof.
  intros j Hj. unfold of_list. destruct (Z.ltb_spec j 0); [reflexivity|].
  apply nth_error_None. lia.
Qed.

Lemma agree_below_of_list {A} (l l' : list A) n :
  firstn n l = firstn n l' -> agree_below (of_list l) (of_list l') (Z.of_nat n).
Proof.
  intros E i Hi. unfold of_list. destruct (Z.ltb_spec i 0); [reflexivity|].
  pose proof (nth_error_firstn n l (Z.to_nat i)) as H1.
  pose proof (nth_error_firstn n l' (Z.to_nat i)) as H2.
  destruct (Nat.ltb_spec (Z.to_nat i) n); [|lia].
  rewrite <- H1, <- H2, E. reflexivity.
Qed.

(** Below 128 the word count of the 512-bit kernel is zero. *)
Lemma hamming_u1x128avx512_below_128 fuel a b d :
  0 <= d < 128 -> simsimd_hamming_u1x128avx512 fuel a b d = Done 0.
Proof.
  intros Hd. unfold simsimd_hamming_u1x128avx512.
  rewrite Z.div_small by lia. destruct fuel; reflexivity.
Qed.

(** Through a pointer that is not aligned the first load of the 512-bit
    kernel is refused. *)
Lemma hamming_u1x128avx512_unaligned fuel a b d :
  ~ aligned a \/ ~ aligned b -> d / 128 <> 0 ->
  simsimd_hamming_u1x128avx512 (S fuel) a b d = Fault.
Proof.
  intros Hab Hd. unfold simsimd_hamming_u1x128avx512. cbn [for_ne].
  destruct (Z.eqb_spec 0 (d / 128)) as [E|_]; [congruence|].
  assert (H0 : (2 | 0)) by apply Z.divide_0_r.
  destruct Hab as [Ha|Hb].
  - rewrite (load_si128_unaligned a 0 Ha H0). reflexivity.
  - rewrite (load_si128_unaligned b 0 Hb H0).
    destruct (_mm_load_si128 a 0); reflexivity.
Qed.

(** ** The dot product with a zero vector *)

Section DotWithZero.
Variables prec emax : Z.
Let ar : arith := ieee prec emax.
Let pzeroP (x : num ar) : Prop := x = S754_zero false.
Let finiteP (x : num ar) : Prop := is_finite x = true.
Let zeroP (x : num ar) : Prop := is_zero x = true.

(** A finite number times a zero of either sign, added to [+0.0]. *)
Lemma fma_finite_zero x y c :
  finiteP x -> zeroP y -> pzeroP c -> pzeroP (fma ar x y c).
Proof.
  unfold finiteP, zeroP, pzeroP. intros Hx Hy ->.
  destruct x as [sx|sx| |sx mx ex], y as [sy|sy| |sy my ey]; simpl in *;
    try discriminate; destruct (Bool.eqb _ _); reflexivity.
Qed.

Lemma mla_finite_zero x y c :
  finiteP x -> zeroP y -> pzeroP c -> pzeroP (add ar c (mul ar x y)).
Proof.
  unfold finiteP, zeroP, pzeroP. intros Hx Hy ->.
  destruct x as [sx|sx| |sx mx ex], y as [sy|sy| |sy my ey]; simpl in *;
    try discriminate; destruct (xorb _ _); reflexivity.
Qed.

Variables (a b : buffer (num ar)) (d : Z).
Hypothesis Ha : covers a d.
Hypothesis Hb : covers b d.
Hypothesis Hfin : all_in a d finiteP.
Hypothesis Hzero : all_in b d zeroP.

Lemma dot_f32sve_zero vl f_mla fuel :
  (4 <= vl)%nat -> 0 <= d -> d + svcntw vl < 2 ^ 64 ->
  d / svcntw vl < Z.of_nat fuel ->
  simsimd_dot_f32sve vl ar f_mla fuel a b d = Done (S754_zero false).
Proof.
  intros Hvl Hd Hfit Hfuel. pose proof (svcntw_pos vl Hvl) as Hpos.
  unfold simsimd_dot_f32sve, svaddv_f32.
  match goal with
  | |- outcome_map ?f (do_while ?fl ?inc ?next ?test ?body ?i ?pg ?s0) = _ =>
      destruct (do_while_rule inc d next test body (fun _ => Forall pzeroP)
                  Hpos Hd Hfit)
        with (pg0 := pg) (fuel := fl) (s := s0) as (s' & n & Hs' & HP & Hn)
  end.
  - intros i _. apply ptest_whilelt_b32. lia.
  - intros s HP.
    apply (dot_b32_step_Forall ar vl pzeroP finiteP zeroP); try assumption;
      try reflexivity; try lia.
    intros c x y Hc Hx Hy. apply fma_finite_zero; assumption.
  - intros i s Hi HP.
    apply (dot_b32_step_Forall ar vl pzeroP finiteP zeroP); try assumption;
      try reflexivity; try lia.
    intros c x y Hc Hx Hy. apply fma_finite_zero; assumption.
  - apply Forall_dupq. repeat constructor.
  - exact Hfuel.
  - rewrite Hs'. simpl outcome_map.
    rewrite (svaddv_closed ar pzeroP eq_refl) with (v := s'); try assumption.
    + reflexivity.
    + intros x y -> ->. reflexivity.
Qed.

Lemma dot_f16sve_zero vl f_mla fuel :
  (2 <= vl)%nat -> 0 <= d -> d + svcnth vl < 2 ^ 64 ->
  d / svcnth vl < Z.of_nat fuel ->
  simsimd_dot_f16sve vl ar f_mla fuel a b d = Done (S754_zero false).
Proof.
  intros Hvl Hd Hfit Hfuel. pose proof (svcnth_pos vl Hvl) as Hpos.
  unfold simsimd_dot_f16sve, svaddv_f16.
  match goal with
  | |- outcome_map ?f (do_while ?fl ?inc ?next ?test ?body ?i ?pg ?s0) = _ =>
      destruct (do_while_rule inc d next test body (fun _ => Forall pzeroP)
                  Hpos Hd Hfit)
        with (pg0 := pg) (fuel := fl) (s := s0) as (s' & n & Hs' & HP & Hn)
  end.
  - intros i _. apply ptest_whilelt_b16. lia.
  - intros s HP.
    apply (dot_b16_step_Forall ar vl pzeroP finiteP zeroP); try assumption;
      try reflexivity; try lia.
    intros c x y Hc Hx Hy. apply fma_finite_zero; assumption.
  - intros i s Hi HP.
    apply (dot_b16_step_Forall ar vl pzeroP finiteP zeroP); try assumption;
      try reflexivity; try lia.
    intros c x y Hc Hx Hy. apply fma_finite_zero; assumption.
  - apply Forall_dupq. repeat constructor.
  - exact Hfuel.
  - rewrite Hs'. simpl outcome_map.
    rewrite (svaddv_closed ar pzeroP eq_refl) with (v := s'); try assumption.
    + reflexivity.
    + intros x y -> ->. reflexivity.
Qed.

Lemma load4_finite_zero i :
  0 <= i -> i + 4 <= d ->
  exists u v, load a i 4 = Some u /\ load b i 4 = Some v
              /\ Forall finiteP u /\ Forall zeroP v.
Proof.
  intros Hi Hd.
  destruct (loads_total a b d i 4 Ha Hb) as (u & v & Hu & Hv & _); try lia.
  exists u, v. repeat split; try assumption.
  - eapply load_Forall; [|exact Hu]. intros k x Hk. apply Hfin. lia.
  - eapply load_Forall; [|exact Hv]. intros k x Hk. apply Hzero. lia.
Qed.

Lemma dot_f32x4neon_zero fuel :
  0 <= d < 2 ^ 64 -> (4 | d) -> d / 4 <= Z.of_nat fuel ->
  simsimd_dot_f32x4neon ar fuel a b d = Done (S754_zero false).
Proof.
  intros Hd Hdiv Hfuel. unfold simsimd_dot_f32x4neon.
  match goal with
  | |- outcome_map ?f (for_ne ?fl ?step ?n ?body ?i ?s0) = _ =>
      destruct (for_ne_run (fun _ => Forall pzeroP) step n body fl s0)
        as (s' & Hs' & HP); try lia; try assumption
  end.
  - intros i s Hi Hg HP.
    pose proof (grid_room 4 d i ltac:(lia) Hdiv Hg ltac:(lia)).
    destruct (load4_finite_zero i) as (u & v & Hu & Hv & Fu & Fv); try lia.
    unfold vld1q_f32. rewrite Hu, Hv. eexists. split; [reflexivity|].
    unfold vmlaq_f32. apply (zip3_Forall _ pzeroP finiteP zeroP); try assumption.
    intros c x y Hc Hx Hy. apply mla_finite_zero; assumption.
  - repeat constructor.
  - rewrite Hs'. simpl outcome_map.
    rewrite (vaddvq_f32_closed ar pzeroP eq_refl) with (v := s'); try assumption.
    + reflexivity.
    + intros x y -> ->. reflexivity.
Qed.

Lemma dot_f32x4avx2_zero fuel :
  0 <= d < 2 ^ 64 -> (4 | d) -> d / 4 <= Z.of_nat fuel ->
  simsimd_dot_f32x4avx2 ar fuel a b d = Done (S754_zero false).
Proof.
  intros Hd Hdiv Hfuel. unfold simsimd_dot_f32x4avx2.
  match goal with
  | |- outcome_map ?f (for_ne ?fl ?step ?n ?body ?i ?s0) = _ =>
      destruct (for_ne_run (fun _ => Forall pzeroP) step n body fl s0)
        as (s' & Hs' & HP); try lia; try assumption
  end.
  - intros i s Hi Hg HP.
    pose proof (grid_room 4 d i ltac:(lia) Hdiv Hg ltac:(lia)).
    destruct (load4_finite_zero i) as (u & v & Hu & Hv & Fu & Fv); try lia.
    unfold _mm_loadu_ps. rewrite Hu, Hv. eexists. split; [reflexivity|].
    unfold _mm_fmadd_ps. apply (zip3_Forall _ finiteP zeroP pzeroP); try assumption.
    intros x y c Hx Hy Hc. apply fma_finite_zero; assumption.
  - repeat constructor.
  - rewrite Hs'. simpl outcome_map.
    rewrite (hadd_low_closed ar pzeroP eq_refl) with (v := s'); try assumption.
    + reflexivity.
    + intros x y -> ->. reflexivity.
Qed.
End DotWithZero.

(** ** A NaN among the elements *)

Lemma nth_zip3_m {A} (f : A -> A -> A -> A) (z : A) : forall m acc u v k,
  (k < length m)%nat -> length acc = length m -> length u = length m ->
  length v = length m ->
  nth k (zip3_m f m acc u v) z
  = if nth k m false then f (nth k acc z) (nth k u z) (nth k v z) else nth k acc z.
Proof.
  induction m as [|p m IH]; intros [|c acc] [|x u] [|y v] k Hk L1 L2 L3;
    simpl in *; try lia.
  destruct k as [|k]; [reflexivity|]. apply IH; lia.
Qed.

Lemma length_zip3_m {A} (f : A -> A -> A -> A) : forall m acc u v,
  length acc = length m -> length u = length m -> length v = length m ->
  length (zip3_m f m acc u v) = length m.
Proof.
  induction m as [|p m IH]; intros [|c acc] [|x u] [|y v] L1 L2 L3;
    simpl in *; try lia.
  rewrite IH; lia.
Qed.

Lemma nth_zip3 {A} (f : A -> A -> A -> A) (z : A) : forall l1 l2 l3 k,
  (k < length l1)%nat -> length l2 = length l1 -> length l3 = length l1 ->
  nth k (zip3 f l1 l2 l3) z = f (nth k l1 z) (nth k l2 z) (nth k l3 z).
Proof.
  induction l1 as [|x l1 IH]; intros [|y l2] [|w l3] k Hk L1 L2;
    simpl in *; try lia.
  destruct k as [|k]; [reflexivity|]. apply IH; lia.
Qed.

Lemma nth_wipe {A} (z : A) : forall m v k,
  length v = length m ->
  nth k (wipe z m v) z = if nth k m false then nth k v z else z.
Proof.
  unfold wipe. induction m as [|p m IH]; intros [|x v] k L; simpl in *; try lia.
  - destruct k; reflexivity.
  - destruct k as [|k]; [destruct p; reflexivity|]. apply IH. lia.
Qed.

Lemma nth_while_mask n : forall i d k,
  (k < n)%nat -> nth k (while_mask n i d) false = (i + Z.of_nat k <? d).
Proof.
  intros i d k Hk. rewrite while_mask_map.
  apply (nth_map_seq (fun p => i + Z.of_nat p <? d) n k false Hk).
Qed.

(** What a predicated load leaves in an active lane. *)
Lemma load_m_while_nth {A} (z : A) (a : buffer A) d n : forall i u k,
  load_m z (while_mask n i d) a i = Some u ->
  (k < n)%nat -> i + Z.of_nat k < d ->
  a (i + Z.of_nat k) = Some (nth k u z).
Proof.
  induction n as [|n IH]; intros i u k E Hk Hd; [lia|].
  cbn [while_mask load_m] in E.
  destruct (load_m z (while_mask n (i + 1) d) a (i + 1)) as [xs|] eqn:Exs;
    [|destruct (if i <? d then a i else Some z); discriminate].
  destruct k as [|k].
  - destruct (Z.ltb_spec i d); [|lia].
    destruct (a i) as [x|] eqn:Ex; [|discriminate].
    inversion E. subst. simpl. rewrite Z.add_0_r. exact Ex.
  - destruct (if i <? d then a i else Some z) as [x|]; [|discriminate].
    inversion E. subst. cbn [nth].
    replace (i + Z.of_nat (S k)) with (i + 1 + Z.of_nat k) by lia.
    apply (IH (i + 1) xs k Exs); lia.
Qed.

Lemma load_nth {A} (z : A) (a : buffer A) n : forall i u k,
  load a i n = Some u -> (k < n)%nat -> a (i + Z.of_nat k) = Some (nth k u z).
Proof.
  induction n as [|n IH]; intros i u k E Hk; [lia|].
  cbn [load] in E.
  destruct (a i) as [x|] eqn:Ex; [|discriminate].
  destruct (load a (i + 1) n) as [xs|] eqn:Exs; [|discriminate].
  inversion E. subst. destruct k as [|k].
  - simpl. rewrite Z.add_0_r. exact Ex.
  - cbn [nth]. replace (i + Z.of_nat (S k)) with (i + 1 + Z.of_nat k) by lia.
    apply (IH (i + 1) xs k Exs). lia.
Qed.

Section NaNLanes.
Variables prec emax : Z.
Let ar : arith := ieee prec emax.

Lemma add_nan_l y : add ar S754_nan y = S754_nan.
Proof. reflexivity. Qed.

Lemma add_nan_r x : add ar x S754_nan = S754_nan.
Proof. destruct x; reflexivity. Qed.

Lemma fma_nan_acc x y : fma ar x y S754_nan = S754_nan.
Proof. destruct x as [sx|sx| |sx mx ex], y as [sy|sy| |sy my ey]; reflexivity. Qed.

Lemma fma_nan_r x c : fma ar x S754_nan c = S754_nan.
Proof. destruct x; reflexivity. Qed.

Lemma mul_nan_r x : mul ar x S754_nan = S754_nan.
Proof. destruct x; reflexivity. Qed.

Lemma sub_nan_r x : sub ar x S754_nan = S754_nan.
Proof. destruct x; reflexivity. Qed.

(** A NaN among the first [2 ^ depth] lanes makes the reduction a NaN. *)
Lemma reduce_tree_nan depth : forall (v : list (num ar)) k,
  (k < 2 ^ depth)%nat -> (k < length v)%nat -> nth k v (zero ar) = S754_nan ->
  reduce_tree ar depth v = S754_nan.
Proof.
  induction depth as [|depth IH]; intros v k Hk Hl E.
  - simpl in Hk. assert (k = 0%nat) by lia. subst k.
    destruct v as [|x v]; simpl in *; [lia|exact E].
  - cbn [reduce_tree]. destruct (Nat.lt_ge_cases k (2 ^ depth)) as [Hlt|Hge].
    + rewrite (IH (firstn (2 ^ depth) v) k Hlt).
      * apply add_nan_l.
      * rewrite length_firstn. lia.
      * rewrite nth_firstn. destruct (Nat.ltb_spec k (2 ^ depth)); [exact E|lia].
    + rewrite (IH (skipn (2 ^ depth) v) (k - 2 ^ depth)%nat).
      * apply add_nan_r.
      * simpl in Hk. lia.
      * rewrite length_skipn. lia.
      * rewrite nth_skipn. replace (2 ^ depth + (k - 2 ^ depth))%nat with k by lia.
        exact E.
Qed.

Lemma svaddv_nan vl esz pg (v : list (num ar)) k :
  lane_mask vl esz pg = repeat true (vl / esz) ->
  length v = (vl / esz)%nat -> (k < vl / esz)%nat ->
  nth k v (zero ar) = S754_nan ->
  svaddv vl ar esz pg v = S754_nan.
Proof.
  intros Hpg Hlen Hk E. unfold svaddv. rewrite Hpg, (map_m_none _ _ _ Hlen).
  apply (reduce_tree_nan _ v k); try lia; try assumption.
  pose proof (lanes_le_pow2 (vl / esz) ltac:(lia)). lia.
Qed.
End NaNLanes.

Section NaNLoops.
Variables prec emax : Z.
Let ar : arith := ieee prec emax.
Variables (a b : buffer (num ar)) (d j : Z).
Hypothesis Ha : covers a d.
Hypothesis Hb : covers b d.
Hypothesis Hj : 0 <= j < d.
Hypothesis Hnan : a j = Some S754_nan \/ b j = Some S754_nan.

(** The lane of the NaN is active at every counter the loop reaches when
    the last group is full or reaches that lane. *)
Lemma lane_always_active L i :
  0 < L -> d mod L = 0 \/ j mod L < d mod L ->
  (L | i) -> 0 <= i < d -> i + j mod L < d.
Proof.
  intros HL Hc [q ->] Hi.
  pose proof (Z.div_mod d L ltac:(lia)) as Ed.
  pose proof (Z.mod_pos_bound d L HL) as Hr.
  pose proof (Z.mod_pos_bound j L HL) as Hk.
  assert (Hq : q <= d / L) by nia.
  destruct (Z.eq_dec q (d / L)) as [->|Hne]; [|nia].
  destruct Hc as [Hc|Hc]; nia.
Qed.

(** A predicated multiply-accumulate loop puts a NaN in the lane that
    loads one and keeps it there: always when the accumulator is the
    operand that is overwritten, and otherwise as long as the lane is
    active. *)
Lemma nan_sve_loop vl esz form (whilelt : Z -> Z -> svbool_t) (ptrue : svbool_t)
      fuel (s0 : list (num ar)) (k0 : nat) :
  (forall i, lane_mask vl esz (whilelt i d) = while_mask (vl / esz) i d) ->
  (forall i, 0 <= i -> svptest_any ptrue (whilelt i d) = (i <? d)) ->
  (0 < vl / esz)%nat ->
  d + Z.of_nat (vl / esz) < 2 ^ 64 ->
  d / Z.of_nat (vl / esz) < Z.of_nat fuel ->
  (k0 < vl / esz)%nat -> (Z.of_nat (vl / esz) | j - Z.of_nat k0) ->
  form = FMLA
  \/ (forall i, (Z.of_nat (vl / esz) | i) -> 0 <= i < d -> i + Z.of_nat k0 < d) ->
  length s0 = (vl / esz)%nat ->
  exists s',
    do_while fuel (Z.of_nat (vl / esz)) (fun i => whilelt i d) (svptest_any ptrue)
      (fun pg i s =>
         bind2 (svld1 vl ar esz pg a i) (svld1 vl ar esz pg b i)
           (fun u v => svmla_x vl ar esz form pg s u v))
      0 (whilelt 0 d) s0 = Done s'
    /\ length s' = (vl / esz)%nat /\ nth k0 s' (zero ar) = S754_nan.
Proof.
  intros Hmask Htest Hlanes Hfit Hfuel Hk0 Hgrid Hact Hlen0.
  set (n := (vl / esz)%nat) in *.
  assert (Hpos : 0 < Z.of_nat n) by lia.
  assert (Hd : 0 <= d) by lia.
  set (P := fun (i : Z) (s : list (num ar)) =>
              0 <= i /\ (Z.of_nat n | i) /\ length s = n
              /\ (j < i -> nth k0 s (zero ar) = S754_nan)).
  assert (Hstep : forall i s, 0 <= i < d -> P i s ->
            exists s', bind2 (svld1 vl ar esz (whilelt i d) a i)
                             (svld1 vl ar esz (whilelt i d) b i)
                             (fun u v => svmla_x vl ar esz form (whilelt i d) s u v)
                       = Some s' /\ P (i + Z.of_nat n) s').
  { intros i s Hi (_ & Hg & Hlen & Hinv).
    assert (Eu : exists u, svld1 vl ar esz (whilelt i d) a i = Some u
                           /\ length u = n
                           /\ load_m (zero ar) (while_mask n i d) a i = Some u).
    { unfold svld1. rewrite Hmask. fold n.
      destruct (load_while_total (zero ar) a d n i ltac:(lia) Ha) as (u & Hu & Lu).
      eauto. }
    assert (Ev : exists v, svld1 vl ar esz (whilelt i d) b i = Some v
                           /\ length v = n
                           /\ load_m (zero ar) (while_mask n i d) b i = Some v).
    { unfold svld1. rewrite Hmask. fold n.
      destruct (load_while_total (zero ar) b d n i ltac:(lia) Hb) as (v & Hv & Lv).
      eauto. }
    destruct Eu as (u & Hu & Lu & Hu'), Ev as (v & Hv & Lv & Hv').
    rewrite Hu, Hv. eexists. split; [reflexivity|].
    apply svld1_wipe in Hu, Hv.
    rewrite (svmla_x_settle vl ar esz form _ s u v Hu Hv).
    unfold svmla_x. rewrite Hmask. fold n.
    pose proof (length_while_mask n i d) as Lm.
    assert (Ls : length (settle ar form (while_mask n i d) s)
                 = length (while_mask n i d))
      by (apply length_settle; lia).
    split; [lia|]. split; [apply Z.divide_add_r; [exact Hg|apply Z.divide_refl]|].
    split; [rewrite length_zip3_m; lia|]. intros Hji.
    rewrite nth_zip3_m by lia. rewrite nth_while_mask by lia.
    destruct (Z_lt_le_dec j i) as [Hlt|Hge].
    - specialize (Hinv Hlt).
      destruct Hact as [->|Hact].
      + simpl settle. rewrite Hinv.
        destruct (i + Z.of_nat k0 <? d); [apply (fma_nan_acc prec emax)|reflexivity].
      + pose proof (Hact i Hg Hi) as Hlane.
        destruct (Z.ltb_spec (i + Z.of_nat k0) d) as [_|]; [|lia].
        replace (nth k0 (settle ar form (while_mask n i d) s) (zero ar))
          with S754_nan; [apply (fma_nan_acc prec emax)|].
        destruct form; simpl settle; try (symmetry; exact Hinv);
          rewrite nth_wipe, nth_while_mask by lia;
          destruct (Z.ltb_spec (i + Z.of_nat k0) d); try lia;
          symmetry; exact Hinv.
    - assert (Ej : j = i + Z.of_nat k0).
      { destruct Hg as [q ->]. destruct Hgrid as [r Hr].
        assert (Hrq : (r - q) * Z.of_nat n = j - Z.of_nat k0 - q * Z.of_nat n)
          by lia.
        assert (r - q < 1) by nia. assert (-1 < r - q) by nia.
        replace r with q in Hr by lia. lia. }
      destruct (Z.ltb_spec (i + Z.of_nat k0) d) as [Hlane|]; [|lia].
      pose proof (load_m_while_nth (zero ar) a d n i u k0 Hu' Hk0 Hlane) as Ea.
      pose proof (load_m_while_nth (zero ar) b d n i v k0 Hv' Hk0 Hlane) as Eb.
      rewrite <- Ej in Ea, Eb.
      destruct Hnan as [E|E].
      + assert (En : nth k0 u (zero ar) = S754_nan) by congruence.
        rewrite En. reflexivity.
      + assert (En : nth k0 v (zero ar) = S754_nan) by congruence.
        rewrite En. apply (fma_nan_r prec emax). }
  match goal with
  | |- exists _, do_while ?fl ?inc ?next ?test ?body ?i ?pg ?s1 = _ /\ _ =>
      destruct (do_while_rule inc d next test body P Hpos Hd Hfit) with
        (pg0 := pg) (fuel := fl) (s := s1) as (s' & m & Hs' & HP & Hm)
  end.
  - intros i Hi. apply Htest. exact Hi.
  - intros s HP. apply (Hstep 0 s); [lia|exact HP].
  - intros i s Hi HP. apply (Hstep i s); [lia|exact HP].
  - unfold P. split; [lia|]. split; [apply Z.divide_0_r|].
    split; [exact Hlen0|]. intros H. lia.
  - exact Hfuel.
  - destruct HP as (_ & _ & Hlen & Hinv). exists s'.
    split; [exact Hs'|]. split; [exact Hlen|]. apply Hinv. lia.
Qed.

Variable St : Type.
Variable lanes : St -> list (num ar).

(** The same for the counted loop of a fixed-width kernel of four lanes. *)
Lemma nan_x4_loop (upd : St -> list (num ar) -> list (num ar) -> St) fuel s0 :
  d < 2 ^ 64 -> (4 | d) -> d / 4 <= Z.of_nat fuel ->
  (forall s u v,
      length (lanes s) = 4%nat -> length u = 4%nat -> length v = 4%nat ->
      length (lanes (upd s u v)) = 4%nat
      /\ forall k, (k < 4)%nat ->
           nth k (lanes s) (zero ar) = S754_nan
           \/ nth k u (zero ar) = S754_nan \/ nth k v (zero ar) = S754_nan ->
           nth k (lanes (upd s u v)) (zero ar) = S754_nan) ->
  length (lanes s0) = 4%nat ->
  exists s' k,
    for_ne fuel 4 d
      (fun i s => bind2 (load a i 4) (load b i 4) (fun u v => upd s u v)) 0 s0
    = Done s'
    /\ length (lanes s') = 4%nat /\ (k < 4)%nat
    /\ nth k (lanes s') (zero ar) = S754_nan.
Proof.
  intros Hd Hdiv Hfuel Hupd Hlen0.
  set (P := fun (i : Z) (s : St) =>
              length (lanes s) = 4%nat
              /\ (j < i -> exists k, (k < 4)%nat
                                     /\ nth k (lanes s) (zero ar) = S754_nan)).
  destruct (for_ne_run P 4 d
              (fun i s => bind2 (load a i 4) (load b i 4) (fun u v => upd s u v))
              fuel s0) as (s' & Hs' & Hlen & Hinv); try lia; try assumption.
  - intros i s Hi Hg (Hlen & Hinv).
    pose proof (grid_room 4 d i ltac:(lia) Hdiv Hg ltac:(lia)).
    destruct (loads_total a b d i 4 Ha Hb) as (u & v & Hu & Hv & Lu & Lv); try lia.
    rewrite Hu, Hv. eexists. split; [reflexivity|].
    destruct (Hupd s u v Hlen Lu Lv) as (Hlen' & Hk).
    split; [exact Hlen'|]. intros Hji.
    destruct (Z_lt_le_dec j i) as [Hlt|Hge].
    + destruct (Hinv Hlt) as (k & Hkn & E). exists k. split; [exact Hkn|].
      apply Hk; [exact Hkn|left; exact E].
    + exists (Z.to_nat (j - i)). split; [lia|].
      apply Hk; [lia|]. right.
      pose proof (load_nth (zero ar) a 4 i u (Z.to_nat (j - i)) Hu ltac:(lia)) as Ea.
      pose proof (load_nth (zero ar) b 4 i v (Z.to_nat (j - i)) Hv ltac:(lia)) as Eb.
      replace (i + Z.of_nat (Z.to_nat (j - i))) with j in Ea, Eb by lia.
      destruct Hnan as [E|E]; [left; congruence|right; congruence].
  - split; [exact Hlen0|]. intros H. lia.
  - destruct (Hinv ltac:(lia)) as (k & Hk & E). exists s', k. auto.
Qed.
End NaNLoops.

Section NaNKernels.
Variables prec emax : Z.
Let ar : arith := ieee prec emax.

Variables (a b : buffer (num ar)) (d j : Z).
Hypothesis Ha : covers a d.
Hypothesis Hb : covers b d.
Hypothesis Hj : 0 <= j < d.
Hypothesis Hnan : a j = Some S754_nan \/ b j = Some S754_nan.

Lemma dot_f32sve_nan vl f_mla fuel :
  In vl sve_lengths -> d + svcntw vl < 2 ^ 64 -> d / svcntw vl < Z.of_nat fuel ->
  f_mla = FMLA \/ d mod svcntw vl = 0 \/ j mod svcntw vl < d mod svcntw vl ->
  simsimd_dot_f32sve vl ar f_mla fuel a b d = Done S754_nan.
Proof.
  intros Hin Hfit Hfuel Hform.
  destruct (sve_lengths_quads vl Hin) as (Hvl & Hq4 & _).
  pose proof (svcntw_pos vl Hvl) as Hpos. unfold svcntw in *.
  pose proof (Z.mod_pos_bound j (Z.of_nat (vl / 4)) Hpos) as Hk.
  destruct (nan_sve_loop prec emax a b d j Ha Hb Hj Hnan
              vl 4 f_mla (svwhilelt_b32 vl) (svptrue_b32 vl) fuel
              (svdupq_n_f32 vl ar (zero ar) (zero ar) (zero ar) (zero ar))
              (Z.to_nat (j mod Z.of_nat (vl / 4))))
    as (s' & Hs' & Hlen & E); try assumption.
  - intros i. apply lane_mask_whilelt_b32.
  - intros i Hi. apply ptest_whilelt_b32. lia.
  - lia.
  - lia.
  - rewrite Z2Nat.id by lia. exists (j / Z.of_nat (vl / 4)).
    pose proof (Z.div_mod j (Z.of_nat (vl / 4)) ltac:(lia)). lia.
  - destruct Hform as [Hf|Hf]; [left; exact Hf|right].
    intros i Hg Hi. rewrite Z2Nat.id by lia.
    apply (lane_always_active d j); assumption.
  - unfold svdupq_n_f32. rewrite length_dupq. simpl length. lia.
  - unfold simsimd_dot_f32sve, svld1_f32, svmla_f32_x, svcntw. cbv zeta.
    match goal with |- outcome_map _ ?x = _ =>
      replace x with (Done s') by (symmetry; exact Hs') end.
    simpl outcome_map. f_equal. unfold svaddv_f32.
    apply (svaddv_nan prec emax vl 4 _ s' (Z.to_nat (j mod Z.of_nat (vl / 4))));
      try assumption; [apply lane_mask_ptrue_b32|lia].
Qed.

Lemma dot_f16sve_nan vl f_mla fuel :
  In vl sve_lengths -> d + svcnth vl < 2 ^ 64 -> d / svcnth vl < Z.of_nat fuel ->
  f_mla = FMLA \/ d mod svcnth vl = 0 \/ j mod svcnth vl < d mod svcnth vl ->
  simsimd_dot_f16sve vl ar f_mla fuel a b d = Done S754_nan.
Proof.
  intros Hin Hfit Hfuel Hform.
  destruct (sve_lengths_quads vl Hin) as (Hvl & _ & Hq2 & _).
  pose proof (svcnth_pos vl ltac:(lia)) as Hpos. unfold svcnth in *.
  pose proof (Z.mod_pos_bound j (Z.of_nat (vl / 2)) Hpos) as Hk.
  destruct (nan_sve_loop prec emax a b d j Ha Hb Hj Hnan
              vl 2 f_mla (svwhilelt_b16 vl) (svptrue_b16 vl) fuel
              (svdupq_n_f16 vl ar (zero ar) (zero ar) (zero ar) (zero ar)
                 (zero ar) (zero ar) (zero ar) (zero ar))
              (Z.to_nat (j mod Z.of_nat (vl / 2))))
    as (s' & Hs' & Hlen & E); try assumption.
  - intros i. apply lane_mask_whilelt_b16.
  - intros i Hi. apply ptest_whilelt_b16. lia.
  - lia.
  - lia.
  - rewrite Z2Nat.id by lia. exists (j / Z.of_nat (vl / 2)).
    pose proof (Z.div_mod j (Z.of_nat (vl / 2)) ltac:(lia)). lia.
  - destruct Hform as [Hf|Hf]; [left; exact Hf|right].
    intros i Hg Hi. rewrite Z2Nat.id by lia.
    apply (lane_always_active d j); assumption.
  - unfold svdupq_n_f16. rewrite length_dupq. simpl length. lia.
  - unfold simsimd_dot_f16sve, svld1_f16, svmla_f16_x, svcnth. cbv zeta.
    match goal with |- outcome_map _ ?x = _ =>
      replace x with (Done s') by (symmetry; exact Hs') end.
    simpl outcome_map. f_equal. unfold svaddv_f16.
    apply (svaddv_nan prec emax vl 2 _ s' (Z.to_nat (j mod Z.of_nat (vl / 2))));
      try assumption; [apply lane_mask_ptrue_b16|lia].
Qed.

Lemma dot_f32x4neon_nan fuel :
  d < 2 ^ 64 -> (4 | d) -> d / 4 <= Z.of_nat fuel ->
  simsimd_dot_f32x4neon ar fuel a b d = Done S754_nan.
Proof.
  intros Hd Hdiv Hfuel.
  destruct (nan_x4_loop prec emax a b d j Ha Hb Hj Hnan (list (num ar)) (fun s => s)
              (fun s u v => vmlaq_f32 ar s u v) fuel (vdupq_n_f32 ar (zero ar)))
    as (s' & k & Hs' & Hlen & Hk & E); try assumption.
  - intros s u v Ls Lu Lv. unfold vmlaq_f32. split.
    + rewrite length_zip3; lia.
    + intros k Hk H. rewrite nth_zip3 by lia.
      destruct H as [E|[E|E]]; rewrite E.
      * reflexivity.
      * apply (add_nan_r prec emax).
      * rewrite (mul_nan_r prec emax). apply (add_nan_r prec emax).
  - reflexivity.
  - unfold simsimd_dot_f32x4neon, vld1q_f32. cbv zeta.
    match goal with |- outcome_map _ ?x = _ =>
      replace x with (Done s') by (symmetry; exact Hs') end.
    simpl outcome_map. f_equal. unfold vaddvq_f32.
    apply (reduce_tree_nan prec emax 2 s' k); [simpl; lia | lia | exact E].
Qed.

Lemma dot_f32x4avx2_nan fuel :
  d < 2 ^ 64 -> (4 | d) -> d / 4 <= Z.of_nat fuel ->
  simsimd_dot_f32x4avx2 ar fuel a b d = Done S754_nan.
Proof.
  intros Hd Hdiv Hfuel.
  destruct (nan_x4_loop prec emax a b d j Ha Hb Hj Hnan (list (num ar)) (fun s => s)
              (fun s u v => _mm_fmadd_ps ar u v s) fuel (_mm_set1_ps ar (zero ar)))
    as (s' & k & Hs' & Hlen & Hk & E); try assumption.
  - intros s u v Ls Lu Lv. unfold _mm_fmadd_ps. split.
    + rewrite length_zip3; lia.
    + intros k Hk H. rewrite nth_zip3 by lia.
      destruct H as [E|[E|E]]; rewrite E.
      * apply (fma_nan_acc prec emax).
      * reflexivity.
      * apply (fma_nan_r prec emax).
  - reflexivity.
  - unfold simsimd_dot_f32x4avx2, _mm_loadu_ps. cbv zeta.
    match goal with |- outcome_map _ ?x = _ =>
      replace x with (Done s') by (symmetry; exact Hs') end.
    simpl outcome_map. f_equal.
    destruct s' as [|x0 [|x1 [|x2 [|x3 [|x4 s']]]]]; simpl in Hlen; try discriminate.
    unfold _mm_hadd_ps, low_lane. cbn [pairs app hd].
    destruct k as [|[|[|[|k]]]]; simpl in E; try lia; subst.
    + reflexivity.
    + rewrite (add_nan_r prec emax). reflexivity.
    + rewrite (add_nan_l prec emax). apply (add_nan_r prec emax).
    + rewrite (add_nan_r prec emax). apply (add_nan_r prec emax).
Qed.
End NaNKernels.

Section NaNCosineEuclidean.
Variables prec emax : Z.
Let ar : arith := ieee prec emax.
Variables (a b : buffer (num ar)) (d j : Z).
Hypothesis Ha : covers a d.
Hypothesis Hb : covers b d.
Hypothesis Hj : 0 <= j < d.
Hypothesis Hnan : a j = Some S754_nan \/ b j = Some S754_nan.

Lemma cos_f32sve_nan vl f_ab f_a2 f_b2 fuel :
  In vl sve_lengths -> d + svcntw vl < 2 ^ 64 -> d / svcntw vl < Z.of_nat fuel ->
  f_ab = FMLA \/ d mod svcntw vl = 0 \/ j mod svcntw vl < d mod svcntw vl ->
  simsimd_cos_f32sve vl ar f_ab f_a2 f_b2 fuel a b d = Done S754_nan.
Proof.
  intros Hin Hfit Hfuel Hform.
  destruct (cos_f32sve_compose vl ar f_ab f_a2 f_b2 fuel a b d S754_nan)
    as (a2 & b2 & _ & _ & E).
  - apply (dot_f32sve_nan prec emax a b d j); assumption.
  - rewrite E. reflexivity.
Qed.

Lemma cos_f32x4neon_nan fuel :
  d < 2 ^ 64 -> (4 | d) -> d / 4 <= Z.of_nat fuel ->
  simsimd_cos_f32x4neon ar fuel a b d = Done S754_nan.
Proof.
  intros Hd Hdiv Hfuel.
  destruct (cos_f32x4neon_compose ar fuel a b d S754_nan) as (a2 & b2 & _ & _ & E).
  - apply (dot_f32x4neon_nan prec emax a b d j); assumption.
  - rewrite E. reflexivity.
Qed.

Lemma cos_f32x4avx2_nan fuel :
  d < 2 ^ 64 -> (4 | d) -> d / 4 <= Z.of_nat fuel ->
  simsimd_cos_f32x4avx2 ar fuel a b d = Done S754_nan.
Proof.
  intros Hd Hdiv Hfuel.
  destruct (cos_f32x4avx2_compose ar fuel a b d S754_nan) as (a2 & b2 & _ & _ & E).
  - apply (dot_f32x4avx2_nan prec emax a b d j); assumption.
  - rewrite E. reflexivity.
Qed.

Lemma covers_differences : covers (pointwise (sub ar) a b) d.
Proof.
  intros i Hi. unfold pointwise.
  pose proof (Ha i Hi) as Ex. pose proof (Hb i Hi) as Ey.
  destruct (a i) as [x|], (b i) as [y|]; try congruence. simpl. discriminate.
Qed.

Lemma nan_difference : pointwise (sub ar) a b j = Some S754_nan.
Proof.
  unfold pointwise.
  pose proof (Ha j Hj) as Ex. pose proof (Hb j Hj) as Ey.
  pose proof Hnan as Hn.
  destruct (a j) as [x|], (b j) as [y|]; try congruence. simpl. f_equal.
  destruct Hn as [E|E]; injection E as ->.
  - reflexivity.
  - apply (sub_nan_r prec emax).
Qed.

Lemma euclidean_f32sve_nan vl f_sub f_mla fuel :
  In vl sve_lengths -> d + svcntw vl < 2 ^ 64 -> d / svcntw vl < Z.of_nat fuel ->
  f_mla = FMLA \/ d mod svcntw vl = 0 \/ j mod svcntw vl < d mod svcntw vl ->
  simsimd_euclidean_f32sve vl ar f_sub f_mla fuel a b d = Done S754_nan.
Proof.
  intros Hin Hfit Hfuel Hform. rewrite euclidean_f32sve_compose.
  pose proof (dot_f32sve_nan prec emax _ _ d j covers_differences covers_differences
                Hj (or_introl nan_difference) vl f_mla fuel Hin Hfit Hfuel Hform)
    as E.
  fold ar in E. rewrite E. reflexivity.
Qed.

Lemma euclidean_f16sve_nan vl f_sub f_mla fuel :
  In vl sve_lengths -> d + svcnth vl < 2 ^ 64 -> d / svcnth vl < Z.of_nat fuel ->
  f_mla = FMLA \/ d mod svcnth vl = 0 \/ j mod svcnth vl < d mod svcnth vl ->
  simsimd_euclidean_f16sve vl ar f_sub f_mla fuel a b d = Done S754_nan.
Proof.
  intros Hin Hfit Hfuel Hform. rewrite euclidean_f16sve_compose.
  pose proof (dot_f16sve_nan prec emax _ _ d j covers_differences covers_differences
                Hj (or_introl nan_difference) vl f_mla fuel Hin Hfit Hfuel Hform)
    as E.
  fold ar in E. rewrite E. reflexivity.
Qed.
End NaNCosineEuclidean.

(** ** Properties of the specification *)

(** C1.  The 512-bit Hamming kernel does not count the differing bits of
    all [d] bits.  It takes [d / 128] for the number of 64-bit words and
    walks them two at a time, so it covers [d / 2] bits: on 256 bits that
    differ in their upper half only, read through aligned pointers, it
    returns 0 where [popcount(a XOR b)] is 128; and on [d = 128] the word
    count is odd, the exit test is never met and no call returns. *)
Theorem hamming_u1x128avx512_covers_half :
  hamming_ref (repeat 0 16 ++ repeat 255 16) (repeat 0 32) 256 = 128
  /\ (forall k l fuel,
        simsimd_hamming_u1x128avx512 (S fuel)
          (Pointer (16 * k) (of_list (repeat 0 16 ++ repeat 255 16)))
          (Pointer (16 * l) (of_list (repeat 0 32))) 256
        = Done 0)
  /\ (forall fuel a b v, simsimd_hamming_u1x128avx512 fuel a b 128 <> Done v).
Proof.
  split; [vm_compute; reflexivity|]. split.
  - apply hamming_u1x128avx512_upper_half.
  - intros fuel a b v. apply hamming_u1x128avx512_off_grid.
    change (128 / 128) with 1. intros [q Hq]. lia.
Qed.

(** C2, as the code has it.  The scalable float32 dot product returns the
    sum of [a[i] * b[i]] over [i < d] as the arithmetic of the lanes forms
    it: lane [k] of the [svcntw()] lanes takes in, by fused multiply-add
    from [+0.0], the products of index [k], [k + svcntw()], ..., and the
    lanes are added pairwise.  This holds in any arithmetic, for [d = 0],
    for every [d] up to the lane count and for every multiple of it,
    whichever instruction implements [svmla_f32_x]; and for every other
    [d] when that instruction keeps the accumulator in its inactive lanes.
    Only the first [d] elements of either buffer are constrained: whatever
    lies behind them, readable or not, has no part in the result. *)
Theorem dot_f32sve_sum (ar : arith) (vl : nat) (f_mla : mla_form)
        (a b : buffer (num ar)) (la lb : list (num ar)) (d : Z) (fuel : nat) :
  In vl sve_lengths ->
  holds a la -> holds b lb ->
  Z.of_nat (length la) = d -> Z.of_nat (length lb) = d ->
  d + svcntw vl < 2 ^ 64 ->
  d / svcntw vl < Z.of_nat fuel ->
  f_mla = FMLA \/ d <= svcntw vl \/ (svcntw vl | d) ->
  simsimd_dot_f32sve vl ar f_mla fuel a b d
  = Done (lanes_sum ar (fused ar) la lb (vl / 4)).
Proof.
  intros Hin Ha Hb Hla Hlb Hfit Hfuel Hform.
  apply dot_f32sve_lanes; assumption.
Qed.

Lemma dot_f32sve_sum_witness :
  simsimd_dot_f32sve 16 binary32 FMAD 3
    (of_list (map (SFofZ 24 128) [1; 2; 3; 4; 5; 6; 7; 8]))
    (of_list (map (SFofZ 24 128) [8; 7; 6; 5; 4; 3; 2; 1])) 8
  = Done (SFofZ 24 128 120).
Proof.
  transitivity
    (Done (lanes_sum binary32 (fused binary32)
             (map (SFofZ 24 128) [1; 2; 3; 4; 5; 6; 7; 8])
             (map (SFofZ 24 128) [8; 7; 6; 5; 4; 3; 2; 1]) (16 / 4))).
  - apply dot_f32sve_sum.
    + left. reflexivity.
    + apply holds_of_list.
    + apply holds_of_list.
    + reflexivity.
    + reflexivity.
    + vm_compute. reflexivity.
    + vm_compute. reflexivity.
    + right. right. exists 2. reflexivity.
  - vm_compute. reflexivity.
Defined.

(** C2, as stated, fails.  The sum is formed in float32: on
    [a = [2^25; 1; -2^25; 1]] and [b = [1; 1; 1; 1]] the kernel returns
    [+0.0], whichever instruction implements [svmla_f32_x], where the sum
    of the products is 2.  And the final partial group rests on an
    operation whose inactive lanes are not specified: when [svmla_f32_x]
    is the instruction that writes over a multiplicand, [d = 5] on four
    lanes gives 50 for the vectors [1..5] and [5..9], where the sum is
    115. *)
Lemma dot_f32sve_sum_is_rounded :
  (forall f_mla,
     simsimd_dot_f32sve 16 binary32 f_mla 2
       (of_list (map (SFofZ 24 128) [33554432; 1; -33554432; 1]))
       (of_list (map (SFofZ 24 128) [1; 1; 1; 1])) 4
     = Done (S754_zero false))
  /\ dot_ref exactZ [33554432; 1; -33554432; 1] [1; 1; 1; 1] = 2
  /\ simsimd_dot_f32sve 16 binary32 FMAD 3
       (of_list (map (SFofZ 24 128) [1; 2; 3; 4; 5]))
       (of_list (map (SFofZ 24 128) [5; 6; 7; 8; 9])) 5
     = Done (SFofZ 24 128 50)
  /\ simsimd_dot_f32sve 16 binary32 FMLA 3
       (of_list (map (SFofZ 24 128) [1; 2; 3; 4; 5]))
       (of_list (map (SFofZ 24 128) [5; 6; 7; 8; 9])) 5
     = Done (SFofZ 24 128 115)
  /\ dot_ref exactZ [1; 2; 3; 4; 5] [5; 6; 7; 8; 9] = 115.
Proof.
  split; [intros []; vm_compute; reflexivity|].
  repeat split; vm_compute; reflexivity.
Qed.

(** C3.  The byte-granular predicated Hamming kernel does not take [d] for
    a count of bits.  Its first predicate enables [d] byte lanes: with
    [d = 8] it reads 8 bytes from each buffer, so on the one-byte buffers
    [0xFF] and [0x00] it reads past their ends, at every vector length; it
    returns 8 when seven zero bytes follow either byte.  Where all reads
    are in bounds the count is wrong too: with 16-byte vectors, 128 bits
    that all differ give 32, because the final reduction adds every fourth
    byte lane only. *)
Theorem hamming_u1x8sve_counts_bytes :
  Forall (fun vl => forall fuel,
            simsimd_hamming_u1x8sve vl (S fuel) (of_list [255]) (of_list [0]) 8
            = Fault) sve_lengths
  /\ (forall fuel,
        simsimd_hamming_u1x8sve 16 (S fuel)
          (of_list (255 :: repeat 0 7)) (of_list (repeat 0 8)) 8
        = Done 8)
  /\ hamming_ref (repeat 255 16) (repeat 0 16) 128 = 128
  /\ (forall fuel,
        simsimd_hamming_u1x8sve 16 (S fuel)
          (of_list (repeat 255 16)) (of_list (repeat 0 16)) 128
        = Done 32).
Proof.
  split; [|split; [more_fuel|split; [vm_compute; reflexivity|more_fuel]]].
  unfold sve_lengths. simpl map. repeat constructor; more_fuel.
Qed.

(** C4.  The 8-bit dot product widens to 16 bits, accumulates in 16-bit
    lanes, reduces by horizontal adds and returns the low byte, but on
    [a = b = [1,1,1,1]], [d = 4] it does not return 4: each step loads 16
    bytes while the counter advances by 4, so the call reads 12 bytes past
    the end of either buffer.  When the four elements are the start of a
    longer array of ones the call returns 8, the sum of the first eight
    products; it returns 4 when twelve zero bytes follow. *)
Theorem dot_i8x16avx2_reads_sixteen :
  (forall fuel,
     simsimd_dot_i8x16avx2 (S fuel) (of_list [1; 1; 1; 1]) (of_list [1; 1; 1; 1]) 4
     = Fault)
  /\ (forall fuel,
        simsimd_dot_i8x16avx2 (S fuel)
          (of_list (repeat 1 16)) (of_list (repeat 1 16)) 4
        = Done 8)
  /\ (forall fuel,
        simsimd_dot_i8x16avx2 (S fuel)
          (of_list ([1; 1; 1; 1] ++ repeat 0 12))
          (of_list ([1; 1; 1; 1] ++ repeat 0 12)) 4
        = Done 4).
Proof.
  split; [|split]; more_fuel.
Qed.


(** C5.  The Hamming variants do not agree with the scalar reference
    [popcount(a XOR b)] over [d] bits.  On 256 bits that differ in their
    upper half (reference 128) the 512-bit kernel returns 0, the 128-bit
    kernel runs off the 32-byte buffers because it counts [d] in bytes,
    and so does the scalable kernel with 16-byte vectors.  With every read
    in bounds the values differ as well: on 128 bits that all differ the
    scalable kernel returns 32, and the 128-bit kernel handed 128 bytes
    returns 0. *)
Theorem hamming_variants_against_reference :
  hamming_ref (repeat 0 16 ++ repeat 255 16) (repeat 0 32) 256 = 128
  /\ (forall k l fuel,
        simsimd_hamming_u1x128avx512 (S fuel)
          (Pointer (16 * k) (of_list (repeat 0 16 ++ repeat 255 16)))
          (Pointer (16 * l) (of_list (repeat 0 32))) 256
        = Done 0)
  /\ (forall fuel,
        simsimd_hamming_u1x128sve (S (S (S fuel)))
          (of_list (repeat 0 16 ++ repeat 255 16)) (of_list (repeat 0 32)) 256
        = Fault)
  /\ (forall fuel,
        simsimd_hamming_u1x8sve 16 (S (S fuel))
          (of_list (repeat 0 16 ++ repeat 255 16)) (of_list (repeat 0 32)) 256
        = Fault)
  /\ hamming_ref (repeat 255 128) (repeat 0 128) 128 = 128
  /\ (forall fuel,
        simsimd_hamming_u1x8sve 16 (S fuel)
          (of_list (repeat 255 16)) (of_list (repeat 0 16)) 128
        = Done 32)
  /\ (forall fuel,
        simsimd_hamming_u1x128sve (8 + fuel)
          (of_list (repeat 255 128)) (of_list (repeat 0 128)) 128
        = Done 0).
Proof.
  split; [vm_compute; reflexivity|].
  split; [apply hamming_u1x128avx512_upper_half|].
  split; [more_fuel|]. split; [more_fuel|].
  split; [vm_compute; reflexivity|]. split; [more_fuel|].
  intros fuel. unfold simsimd_hamming_u1x128sve.
  apply for_ne_map_more_fuel; [vm_compute; reflexivity|discriminate].
Qed.

(** C6.  When either operand of a cosine kernel is the zero vector the
    call returns, and what it returns is an IEEE special value, the NaN of
    the final division of a zero by a zero: the scalable kernel on every
    length and whichever instructions implement its three [svmla_f32_x],
    the two fixed-width kernels on the multiples of 4.  The kernels have
    no branch for the case. *)
Theorem cosine_of_zero_vector_is_special (prec emax : Z)
        (a b : buffer spec_float) (d : Z) :
  covers a d -> covers b d -> 0 <= d ->
  all_in a d (fun x => is_zero x = true) \/ all_in b d (fun x => is_zero x = true) ->
  (forall vl f_ab f_a2 f_b2 fuel,
      In vl sve_lengths -> d + svcntw vl < 2 ^ 64 ->
      d / svcntw vl < Z.of_nat fuel ->
      exists v, simsimd_cos_f32sve vl (ieee prec emax) f_ab f_a2 f_b2 fuel a b d
                = Done v
                /\ is_special v = true)
  /\ (forall fuel,
        d < 2 ^ 64 -> (4 | d) -> d / 4 <= Z.of_nat fuel ->
        (exists v, simsimd_cos_f32x4neon (ieee prec emax) fuel a b d = Done v
                   /\ is_special v = true)
        /\ (exists v, simsimd_cos_f32x4avx2 (ieee prec emax) fuel a b d = Done v
                      /\ is_special v = true)).
Proof.
  intros Ha Hb Hd Hz. split.
  - intros vl f_ab f_a2 f_b2 fuel Hin Hfit Hfuel.
    exists S754_nan. split; [|reflexivity].
    destruct (sve_lengths_quads vl Hin) as (Hvl & _).
    destruct Hz as [Hz|Hz].
    + apply cos_f32sve_zero_l; assumption.
    + apply cos_f32sve_zero_r; assumption.
  - intros fuel Hlt Hdiv Hfuel. split; exists S754_nan; (split; [|reflexivity]).
    + destruct Hz as [Hz|Hz].
      * apply cos_f32x4neon_zero_l; try assumption. lia.
      * apply cos_f32x4neon_zero_r; try assumption. lia.
    + destruct Hz as [Hz|Hz].
      * apply cos_f32x4avx2_zero_l; try assumption. lia.
      * apply cos_f32x4avx2_zero_r; try assumption. lia.
Qed.

Lemma cosine_of_zero_vector_is_special_witness :
  exists v,
    simsimd_cos_f32sve 16 binary32 FMLA FMAD FMAD_swapped 2
      (of_list (repeat (S754_zero false) 5))
      (of_list (map (SFofZ 24 128) [1; 2; 3; 4; 5])) 5 = Done v
    /\ is_special v = true.
Proof.
  apply (cosine_of_zero_vector_is_special 24 128
           (of_list (repeat (S754_zero false) 5))
           (of_list (map (SFofZ 24 128) [1; 2; 3; 4; 5])) 5).
  - apply covers_of_list. simpl. lia.
  - apply covers_of_list. simpl. lia.
  - lia.
  - left. apply all_in_of_list. repeat constructor.
  - left. reflexivity.
  - vm_compute. reflexivity.
  - vm_compute. reflexivity.
Defined.

(** C7, as the code has it.  A call ends on every length its loop is
    written for, within [d + 1] iterations and whatever the buffers: the
    scalable kernels on every [d], the fixed-width float and 8-bit kernels
    when [d] is a multiple of 4, the 128-bit Hamming kernel when [d] is a
    multiple of 16.  On two buffers of [d] readable elements a float
    kernel then returns a value. *)
Theorem kernels_end_on_their_lengths (ar : arith) (vl : nat)
        (f_sub : sub_form) (f_ab f_a2 f_b2 f_mla : mla_form)
        (a b : buffer (num ar)) (p q : buffer Z) (d : Z) (fuel : nat) :
  0 <= d -> d < Z.of_nat fuel -> d + 8 * svcntb vl < 2 ^ 64 ->
  In vl sve_lengths ->
  (simsimd_dot_f32sve vl ar f_mla fuel a b d <> Timeout
   /\ simsimd_dot_f16sve vl ar f_mla fuel a b d <> Timeout
   /\ simsimd_cos_f32sve vl ar f_ab f_a2 f_b2 fuel a b d <> Timeout
   /\ simsimd_euclidean_f32sve vl ar f_sub f_mla fuel a b d <> Timeout
   /\ simsimd_euclidean_f16sve vl ar f_sub f_mla fuel a b d <> Timeout
   /\ simsimd_hamming_u1x8sve vl fuel p q d <> Timeout)
  /\ ((4 | d) ->
      simsimd_dot_f32x4neon ar fuel a b d <> Timeout
      /\ simsimd_cos_f32x4neon ar fuel a b d <> Timeout
      /\ simsimd_dot_f32x4avx2 ar fuel a b d <> Timeout
      /\ simsimd_cos_f32x4avx2 ar fuel a b d <> Timeout
      /\ simsimd_dot_i8x16avx2 fuel p q d <> Timeout)
  /\ ((16 | d) -> simsimd_hamming_u1x128sve fuel p q d <> Timeout)
  /\ (covers a d -> covers b d ->
      (exists v, simsimd_dot_f32sve vl ar f_mla fuel a b d = Done v)
      /\ (exists v, simsimd_dot_f16sve vl ar f_mla fuel a b d = Done v)
      /\ (exists v, simsimd_cos_f32sve vl ar f_ab f_a2 f_b2 fuel a b d = Done v)
      /\ (exists v, simsimd_euclidean_f32sve vl ar f_sub f_mla fuel a b d = Done v)
      /\ (exists v, simsimd_euclidean_f16sve vl ar f_sub f_mla fuel a b d = Done v)
      /\ ((4 | d) ->
          (exists v, simsimd_dot_f32x4neon ar fuel a b d = Done v)
          /\ (exists v, simsimd_cos_f32x4neon ar fuel a b d = Done v)
          /\ (exists v, simsimd_dot_f32x4avx2 ar fuel a b d = Done v)
          /\ (exists v, simsimd_cos_f32x4avx2 ar fuel a b d = Done v))).
Proof.
  intros Hd Hfuel Hfit Hin.
  destruct (sve_lengths_quads vl Hin) as (Hvl & _).
  destruct (length_bounds vl d fuel Hd Hfuel Hfit Hvl)
    as ((? & ?) & (? & ?) & (? & ?) & ? & ? & ? & ?).
  split; [|split; [|split]].
  - repeat split.
    + apply dot_f32sve_ends; assumption.
    + apply dot_f16sve_ends; assumption.
    + apply cos_f32sve_ends; assumption.
    + apply euclidean_f32sve_ends; assumption.
    + apply euclidean_f16sve_ends; assumption.
    + apply hamming_u1x8sve_ends; assumption.
  - intros Hdiv. repeat split.
    + apply dot_f32x4neon_ends; try assumption; lia.
    + apply cos_f32x4neon_ends; try assumption; lia.
    + apply dot_f32x4avx2_ends; try assumption; lia.
    + apply cos_f32x4avx2_ends; try assumption; lia.
    + apply dot_i8x16avx2_ends; try assumption; lia.
  - intros Hdiv. apply hamming_u1x128sve_ends; try assumption; lia.
  - intros Ha Hb. repeat split.
    + apply dot_f32sve_returns; try assumption; lia.
    + apply dot_f16sve_returns; try assumption; lia.
    + apply cos_f32sve_returns; try assumption; lia.
    + apply euclidean_f32sve_returns; try assumption; lia.
    + apply euclidean_f16sve_returns; try assumption; lia.
    + apply dot_f32x4neon_returns; try assumption; lia.
    + apply cos_f32x4neon_returns; try assumption; lia.
    + apply dot_f32x4avx2_returns; try assumption; lia.
    + apply cos_f32x4avx2_returns; try assumption; lia.
Qed.

Lemma kernels_end_on_their_lengths_witness :
  simsimd_dot_i8x16avx2 5 (of_list (repeat 1 4)) (of_list (repeat 1 4)) 4
  <> Timeout
  /\ exists v,
       simsimd_dot_f32x4neon binary32 5
         (of_list (map (SFofZ 24 128) [1; 2; 3; 4]))
         (of_list (map (SFofZ 24 128) [5; 6; 7; 8])) 4 = Done v.
Proof.
  destruct (kernels_end_on_their_lengths binary32 16 FSUB FMLA FMLA FMLA FMLA
              (of_list (map (SFofZ 24 128) [1; 2; 3; 4]))
              (of_list (map (SFofZ 24 128) [5; 6; 7; 8]))
              (of_list (repeat 1 4)) (of_list (repeat 1 4)) 4 5)
    as (_ & Hfixed & _ & Hreturn).
  - lia.
  - lia.
  - vm_compute. reflexivity.
  - left. reflexivity.
  - split.
    + apply Hfixed. exists 1. reflexivity.
    + apply Hreturn.
      * apply covers_of_list. simpl. lia.
      * apply covers_of_list. simpl. lia.
      * exists 1. reflexivity.
Defined.

(** C7, as stated, fails: with [d = 1] no call of the 128-bit or of the
    256-bit float32 dot product returns, whatever the buffers and however
    long it runs, and where every address is readable the loop runs for as
    long as it is given fuel. *)
Lemma fixed_width_loop_never_exits :
  ~ (exists fuel a b v, simsimd_dot_f32x4neon binary32 fuel a b 1 = Done v)
  /\ ~ (exists fuel a b v, simsimd_dot_f32x4avx2 binary32 fuel a b 1 = Done v)
  /\ ~ (exists fuel,
          simsimd_dot_f32x4neon binary32 fuel
            (flat (S754_zero false)) (flat (S754_zero false)) 1 <> Timeout)
  /\ ~ (exists fuel,
          simsimd_dot_f32x4avx2 binary32 fuel
            (flat (S754_zero false)) (flat (S754_zero false)) 1 <> Timeout).
Proof.
  assert (H : ~ (4 | 1)) by (intros [q Hq]; lia).
  repeat split.
  - intros (fuel & a & b & v & E). revert E. apply dot_f32x4neon_off_grid, H.
  - intros (fuel & a & b & v & E). revert E. apply dot_f32x4avx2_off_grid, H.
  - intros (fuel & E). apply E. apply dot_f32x4neon_diverges, H.
  - intros (fuel & E). apply E. apply dot_f32x4avx2_diverges, H.
Qed.

(** C8.  Every variant of the dot product and of the Hamming distance
    ends in the same way when its operands are exchanged, on every input:
    with the same value, or with a read out of bounds in both calls.  On
    two buffers of [d] readable elements the four float dot products
    return, on the lengths they are written for, and so return the same
    value for [(a, b)] and [(b, a)].  The float kernels are taken in any
    IEEE binary format, where the product and the fused product-sum
    commute exactly, and the scalable ones with whichever instruction
    implements [svmla_x]. *)
Theorem dot_and_hamming_commute (prec emax : Z) (vl : nat) (f_mla : mla_form)
        (a b : buffer spec_float) (p q : buffer Z) (r s : pointer) (d : Z)
        (fuel : nat) :
  (simsimd_dot_f32sve vl (ieee prec emax) f_mla fuel a b d
   = simsimd_dot_f32sve vl (ieee prec emax) f_mla fuel b a d
   /\ simsimd_dot_f16sve vl (ieee prec emax) f_mla fuel a b d
      = simsimd_dot_f16sve vl (ieee prec emax) f_mla fuel b a d
   /\ simsimd_dot_f32x4neon (ieee prec emax) fuel a b d
      = simsimd_dot_f32x4neon (ieee prec emax) fuel b a d
   /\ simsimd_dot_f32x4avx2 (ieee prec emax) fuel a b d
      = simsimd_dot_f32x4avx2 (ieee prec emax) fuel b a d
   /\ simsimd_dot_i8x16avx2 fuel p q d = simsimd_dot_i8x16avx2 fuel q p d
   /\ simsimd_hamming_u1x8sve vl fuel p q d = simsimd_hamming_u1x8sve vl fuel q p d
   /\ simsimd_hamming_u1x128sve fuel p q d = simsimd_hamming_u1x128sve fuel q p d
   /\ simsimd_hamming_u1x128avx512 fuel r s d
      = simsimd_hamming_u1x128avx512 fuel s r d)
  /\ (0 <= d -> d < Z.of_nat fuel -> d + 8 * svcntb vl < 2 ^ 64 ->
      In vl sve_lengths -> covers a d -> covers b d ->
      (exists v, simsimd_dot_f32sve vl (ieee prec emax) f_mla fuel a b d = Done v
                 /\ simsimd_dot_f32sve vl (ieee prec emax) f_mla fuel b a d = Done v)
      /\ (exists v, simsimd_dot_f16sve vl (ieee prec emax) f_mla fuel a b d = Done v
                    /\ simsimd_dot_f16sve vl (ieee prec emax) f_mla fuel b a d
                       = Done v)
      /\ ((4 | d) ->
          (exists v, simsimd_dot_f32x4neon (ieee prec emax) fuel a b d = Done v
                     /\ simsimd_dot_f32x4neon (ieee prec emax) fuel b a d = Done v)
          /\ (exists v, simsimd_dot_f32x4avx2 (ieee prec emax) fuel a b d = Done v
                        /\ simsimd_dot_f32x4avx2 (ieee prec emax) fuel b a d
                           = Done v))).
Proof.
  pose proof (ieee_commutative prec emax) as Hc.
  split.
  - repeat split.
    + apply dot_f32sve_sym. exact Hc.
    + apply dot_f16sve_sym. exact Hc.
    + apply dot_f32x4neon_sym. exact Hc.
    + apply dot_f32x4avx2_sym. exact Hc.
    + apply dot_i8x16avx2_sym.
    + apply hamming_u1x8sve_sym.
    + apply hamming_u1x128sve_sym.
    + apply hamming_u1x128avx512_sym.
  - intros Hd Hfuel Hfit Hin Ha Hb.
    destruct (sve_lengths_quads vl Hin) as (Hvl & _).
    destruct (length_bounds vl d fuel Hd Hfuel Hfit Hvl)
      as ((? & ?) & (? & ?) & (? & ?) & ? & ? & ? & ?).
    split; [|split; [|intros Hdiv; split]].
    + destruct (dot_f32sve_returns vl (ieee prec emax) f_mla a b d fuel)
        as (v & E); try assumption; try lia.
      exists v. split; [exact E|]. rewrite <- dot_f32sve_sym by exact Hc. exact E.
    + destruct (dot_f16sve_returns vl (ieee prec emax) f_mla a b d fuel)
        as (v & E); try assumption; try lia.
      exists v. split; [exact E|]. rewrite <- dot_f16sve_sym by exact Hc. exact E.
    + destruct (dot_f32x4neon_returns (ieee prec emax) a b d fuel) as (v & E);
        try assumption; try lia.
      exists v. split; [exact E|].
      rewrite <- dot_f32x4neon_sym by exact Hc. exact E.
    + destruct (dot_f32x4avx2_returns (ieee prec emax) a b d fuel) as (v & E);
        try assumption; try lia.
      exists v. split; [exact E|].
      rewrite <- dot_f32x4avx2_sym by exact Hc. exact E.
Qed.

Lemma dot_and_hamming_commute_witness :
  exists v,
    simsimd_dot_f32sve 16 binary32 FMAD 6
      (of_list (map (SFofZ 24 128) [1; 2; 3; 4; 5]))
      (of_list (map (SFofZ 24 128) [5; 6; 7; 8; 9])) 5 = Done v
    /\ simsimd_dot_f32sve 16 binary32 FMAD 6
      (of_list (map (SFofZ 24 128) [5; 6; 7; 8; 9]))
      (of_list (map (SFofZ 24 128) [1; 2; 3; 4; 5])) 5 = Done v.
Proof.
  apply (dot_and_hamming_commute 24 128 16 FMAD
           (of_list (map (SFofZ 24 128) [1; 2; 3; 4; 5]))
           (of_list (map (SFofZ 24 128) [5; 6; 7; 8; 9]))
           (of_list (repeat 0 16)) (of_list (repeat 0 16))
           (Pointer 0 (of_list (repeat 0 16))) (Pointer 0 (of_list (repeat 0 16)))
           5 6).
  - lia.
  - lia.
  - vm_compute. reflexivity.
  - left. reflexivity.
  - apply covers_of_list. simpl. lia.
  - apply covers_of_list. simpl. lia.
Defined.




(** C10.  The 128-bit Hamming kernel returns a value between 0 and 255: on
    every length it is written for the call returns, and what it returns
    is the 8-bit sum of 8-bit lanes. *)
Theorem hamming_u1x128sve_in_byte_range (a b : buffer Z) (d : Z) (fuel : nat) :
  0 <= d < 2 ^ 64 -> (16 | d) -> covers a d -> covers b d ->
  d / 16 <= Z.of_nat fuel ->
  exists v, simsimd_hamming_u1x128sve fuel a b d = Done v /\ 0 <= v <= 255.
Proof.
  intros Hd Hdiv Ha Hb Hfuel.
  destruct (hamming_u1x128sve_returns a b d fuel Hd Hdiv Ha Hb Hfuel) as (v & E).
  exists v. split; [exact E|]. eapply hamming_u1x128sve_range. exact E.
Qed.

Lemma hamming_u1x128sve_in_byte_range_witness :
  exists v,
    simsimd_hamming_u1x128sve 2 (of_list (repeat 255 32)) (of_list (repeat 0 32)) 32
    = Done v /\ 0 <= v <= 255.
Proof.
  apply hamming_u1x128sve_in_byte_range.
  - lia.
  - exists 2. reflexivity.
  - apply covers_of_list. simpl. lia.
  - apply covers_of_list. simpl. lia.
  - vm_compute. discriminate.
Defined.

(** The count wraps: 256 differing bits in 32 bytes are reported as 0. *)
Example hamming_u1x128sve_wraps :
  simsimd_hamming_u1x128sve 2 (of_list (repeat 255 32)) (of_list (repeat 0 32)) 32
  = Done 0
  /\ hamming_ref (repeat 255 32) (repeat 0 32) 256 = 256.
Proof. split; vm_compute; reflexivity. Qed.

(** ** Further properties of the kernels *)





(** X3.  In any arithmetic the two Euclidean kernels return the square
    root of the sum in lane order of the squares of the differences
    [a[i] - b[i]] over [i < d], whichever instruction implements
    [svsub_x]: for [d] up to the lane count and for the multiples of it,
    and for every [d] when [svmla_x] keeps the accumulator in the inactive
    lanes. *)
Theorem euclidean_kernels_lane_sums (ar : arith) (vl : nat)
        (f_sub : sub_form) (f_mla : mla_form) (a b : buffer (num ar))
        (la lb : list (num ar)) (d : Z) (fuel : nat) :
  In vl sve_lengths -> holds a la -> holds b lb ->
  Z.of_nat (length la) = d -> Z.of_nat (length lb) = d ->
  (d + svcntw vl < 2 ^ 64 -> d / svcntw vl < Z.of_nat fuel ->
   f_mla = FMLA \/ d <= svcntw vl \/ (svcntw vl | d) ->
   simsimd_euclidean_f32sve vl ar f_sub f_mla fuel a b d
   = Done (sqrt ar (lanes_sum ar (fused ar) (zip (sub ar) la lb)
                      (zip (sub ar) la lb) (vl / 4))))
  /\ (d + svcnth vl < 2 ^ 64 -> d / svcnth vl < Z.of_nat fuel ->
      f_mla = FMLA \/ d <= svcnth vl \/ (svcnth vl | d) ->
      simsimd_euclidean_f16sve vl ar f_sub f_mla fuel a b d
      = Done (sqrt ar (lanes_sum ar (fused ar) (zip (sub ar) la lb)
                         (zip (sub ar) la lb) (vl / 2)))).
Proof.
  intros Hin Ha Hb Hla Hlb.
  pose proof (holds_pointwise (sub ar) a b la lb Ha Hb) as Hd.
  assert (Hlen : Z.of_nat (length (zip (sub ar) la lb)) = d)
    by (rewrite length_zip; lia).
  split; intros Hfit Hfuel Hform.
  - rewrite euclidean_f32sve_compose.
    rewrite (dot_f32sve_lanes ar vl f_mla _ _ _ _ d fuel Hin Hd Hd Hlen Hlen
               Hfit Hfuel Hform).
    reflexivity.
  - rewrite euclidean_f16sve_compose.
    rewrite (dot_f16sve_lanes ar vl f_mla _ _ _ _ d fuel Hin Hd Hd Hlen Hlen
               Hfit Hfuel Hform).
    reflexivity.
Qed.

Lemma euclidean_kernels_lane_sums_witness :
  simsimd_euclidean_f32sve 16 binary32 FSUBR FMAD 3
    (of_list (map (SFofZ 24 128) [1; 2; 3; 4; 5; 6; 7; 8]))
    (of_list (map (SFofZ 24 128) [4; 6; 3; 4; 5; 6; 7; 8])) 8
  = Done (SFofZ 24 128 5).
Proof.
  transitivity
    (Done (sqrt binary32
             (lanes_sum binary32 (fused binary32)
                (zip (sub binary32)
                   (map (SFofZ 24 128) [1; 2; 3; 4; 5; 6; 7; 8])
                   (map (SFofZ 24 128) [4; 6; 3; 4; 5; 6; 7; 8]))
                (zip (sub binary32)
                   (map (SFofZ 24 128) [1; 2; 3; 4; 5; 6; 7; 8])
                   (map (SFofZ 24 128) [4; 6; 3; 4; 5; 6; 7; 8])) (16 / 4)))).
  - pose proof (euclidean_kernels_lane_sums binary32 16 FSUBR FMAD
                  (of_list (map (SFofZ 24 128) [1; 2; 3; 4; 5; 6; 7; 8]))
                  (of_list (map (SFofZ 24 128) [4; 6; 3; 4; 5; 6; 7; 8]))
                  (map (SFofZ 24 128) [1; 2; 3; 4; 5; 6; 7; 8])
                  (map (SFofZ 24 128) [4; 6; 3; 4; 5; 6; 7; 8]) 8 3
                  (or_introl eq_refl) (holds_of_list _) (holds_of_list _)
                  eq_refl eq_refl)
      as (H32 & _).
    apply H32.
    + vm_compute. reflexivity.
    + vm_compute. reflexivity.
    + right. right. exists 2. reflexivity.
  - vm_compute. reflexivity.
Defined.

(** X4.  A cosine kernel is the dot-product kernel of the same instruction
    set applied three times: whenever the dot product of [a] and [b]
    returns [ab], so do those of [a] with itself and of [b] with itself,
    say [a2] and [b2], and the cosine kernel returns
    [ab / (sqrt(a2) * sqrt(b2))].  This holds in any arithmetic, rounding
    included, since the three accumulators never mix; each of the three
    scalable dot products is taken with the instruction that implements
    the [svmla_f32_x] of its accumulator. *)
Theorem cosine_is_dot_over_norms (ar : arith) (vl : nat)
        (f_ab f_a2 f_b2 : mla_form) (a b : buffer (num ar))
        (d : Z) (fuel : nat) :
  (forall ab,
      simsimd_dot_f32sve vl ar f_ab fuel a b d = Done ab ->
      exists a2 b2,
        simsimd_dot_f32sve vl ar f_a2 fuel a a d = Done a2
        /\ simsimd_dot_f32sve vl ar f_b2 fuel b b d = Done b2
        /\ simsimd_cos_f32sve vl ar f_ab f_a2 f_b2 fuel a b d
           = Done (cos_tail ar ab a2 b2))
  /\ (forall ab,
         simsimd_dot_f32x4neon ar fuel a b d = Done ab ->
         exists a2 b2,
           simsimd_dot_f32x4neon ar fuel a a d = Done a2
           /\ simsimd_dot_f32x4neon ar fuel b b d = Done b2
           /\ simsimd_cos_f32x4neon ar fuel a b d = Done (cos_tail ar ab a2 b2))
  /\ (forall ab,
         simsimd_dot_f32x4avx2 ar fuel a b d = Done ab ->
         exists a2 b2,
           simsimd_dot_f32x4avx2 ar fuel a a d = Done a2
           /\ simsimd_dot_f32x4avx2 ar fuel b b d = Done b2
           /\ simsimd_cos_f32x4avx2 ar fuel a b d = Done (cos_tail ar ab a2 b2)).
Proof.
  split; [|split]; intros ab E.
  - apply cos_f32sve_compose. exact E.
  - apply cos_f32x4neon_compose. exact E.
  - apply cos_f32x4avx2_compose. exact E.
Qed.

Lemma cosine_is_dot_over_norms_witness :
  exists a2 b2,
    simsimd_dot_f32sve 16 binary32 FMAD 2
      (of_list (map (SFofZ 24 128) [1; 2; 3; 4; 5]))
      (of_list (map (SFofZ 24 128) [1; 2; 3; 4; 5])) 5 = Done a2
    /\ simsimd_dot_f32sve 16 binary32 FMAD_swapped 2
      (of_list (map (SFofZ 24 128) [5; 6; 7; 8; 9]))
      (of_list (map (SFofZ 24 128) [5; 6; 7; 8; 9])) 5 = Done b2
    /\ simsimd_cos_f32sve 16 binary32 FMLA FMAD FMAD_swapped 2
      (of_list (map (SFofZ 24 128) [1; 2; 3; 4; 5]))
      (of_list (map (SFofZ 24 128) [5; 6; 7; 8; 9])) 5
       = Done (cos_tail binary32 (SFofZ 24 128 115) a2 b2).
Proof.
  apply (cosine_is_dot_over_norms binary32 16 FMLA FMAD FMAD_swapped
           (of_list (map (SFofZ 24 128) [1; 2; 3; 4; 5]))
           (of_list (map (SFofZ 24 128) [5; 6; 7; 8; 9])) 5 2).
  vm_compute. reflexivity.
Defined.

(** X5.  A Euclidean kernel is the square root of the dot-product kernel of
    the same lane width, applied to the element-wise difference with
    itself: the two calls end alike on every input, in any arithmetic and
    whichever instructions implement [svsub_x] and [svmla_x]. *)
Theorem euclidean_is_dot_of_differences (ar : arith) (vl : nat)
        (f_sub : sub_form) (f_mla : mla_form)
        (a b : buffer (num ar)) (d : Z) (fuel : nat) :
  simsimd_euclidean_f32sve vl ar f_sub f_mla fuel a b d
  = outcome_map (sqrt ar)
      (simsimd_dot_f32sve vl ar f_mla fuel
         (pointwise (sub ar) a b) (pointwise (sub ar) a b) d)
  /\ simsimd_euclidean_f16sve vl ar f_sub f_mla fuel a b d
     = outcome_map (sqrt ar)
         (simsimd_dot_f16sve vl ar f_mla fuel
            (pointwise (sub ar) a b) (pointwise (sub ar) a b) d).
Proof.
  split; [apply euclidean_f32sve_compose|apply euclidean_f16sve_compose].
Qed.

(** X6.  The cosine kernels give the same outcome when their operands are
    exchanged, in every IEEE binary format: the products commute exactly,
    alone and fused, and so does the product of the two norms.  In the
    scalable kernel the instruction that implements the [svmla_f32_x] of a
    squared norm goes with its operand. *)
Theorem cosine_commutes (prec emax : Z) (vl : nat) (f_ab f_a2 f_b2 : mla_form)
        (a b : buffer spec_float) (d : Z) (fuel : nat) :
  simsimd_cos_f32sve vl (ieee prec emax) f_ab f_a2 f_b2 fuel a b d
  = simsimd_cos_f32sve vl (ieee prec emax) f_ab f_b2 f_a2 fuel b a d
  /\ simsimd_cos_f32x4neon (ieee prec emax) fuel a b d
     = simsimd_cos_f32x4neon (ieee prec emax) fuel b a d
  /\ simsimd_cos_f32x4avx2 (ieee prec emax) fuel a b d
     = simsimd_cos_f32x4avx2 (ieee prec emax) fuel b a d.
Proof.
  pose proof (ieee_commutative prec emax) as Hc.
  split; [|split].
  - apply cos_f32sve_sym. exact Hc.
  - apply cos_f32x4neon_sym. exact Hc.
  - apply cos_f32x4avx2_sym. exact Hc.
Qed.

(** X7.  The Euclidean kernels give the same outcome when their operands
    are exchanged, in every IEEE binary format: [a - b] and [b - a] differ
    in their sign only, which their square does not see.  This holds
    whichever instructions implement [svsub_x] and [svmla_x]. *)
Theorem euclidean_commutes (prec emax : Z) (vl : nat)
        (f_sub : sub_form) (f_mla : mla_form) (a b : buffer spec_float)
        (d : Z) (fuel : nat) :
  simsimd_euclidean_f32sve vl (ieee prec emax) f_sub f_mla fuel a b d
  = simsimd_euclidean_f32sve vl (ieee prec emax) f_sub f_mla fuel b a d
  /\ simsimd_euclidean_f16sve vl (ieee prec emax) f_sub f_mla fuel a b d
     = simsimd_euclidean_f16sve vl (ieee prec emax) f_sub f_mla fuel b a d.
Proof.
  split; [apply euclidean_f32sve_sym|apply euclidean_f16sve_sym].
Qed.

(** X8.  In every IEEE binary format the Euclidean kernels return, on every
    length, a value that is not negative: a zero, a finite number or an
    infinity with a clear sign bit, or a NaN; never [-0.0].  The inputs may
    hold negative numbers, infinities and NaNs. *)
Theorem euclidean_is_not_negative (prec emax : Z) (vl : nat)
        (f_sub : sub_form) (f_mla : mla_form)
        (a b : buffer spec_float) (d : Z) (fuel : nat) :
  0 <= d -> d < Z.of_nat fuel -> d + 8 * svcntb vl < 2 ^ 64 ->
  In vl sve_lengths -> covers a d -> covers b d ->
  (exists v, simsimd_euclidean_f32sve vl (ieee prec emax) f_sub f_mla fuel a b d = Done v
             /\ not_negative v = true)
  /\ (exists v, simsimd_euclidean_f16sve vl (ieee prec emax) f_sub f_mla fuel a b d = Done v
                /\ not_negative v = true).
Proof.
  intros Hd Hfuel Hfit Hin Ha Hb.
  destruct (sve_lengths_quads vl Hin) as (Hvl & _).
  destruct (length_bounds vl d fuel Hd Hfuel Hfit Hvl)
    as ((? & ?) & (? & ?) & _).
  split.
  - destruct (euclidean_f32sve_returns vl (ieee prec emax) f_sub f_mla a b d fuel) as (v & E);
      try assumption.
    exists v. split; [exact E|]. eapply euclidean_f32sve_nn. exact E.
  - destruct (euclidean_f16sve_returns vl (ieee prec emax) f_sub f_mla a b d fuel) as (v & E);
      try assumption; try lia.
    exists v. split; [exact E|]. eapply euclidean_f16sve_nn. exact E.
Qed.

Lemma euclidean_is_not_negative_witness :
  exists v,
    simsimd_euclidean_f32sve 16 binary32 FSUBR FMAD 6
      (of_list (map (SFofZ 24 128) [1; -2; 3; -4; 5]))
      (of_list (map (SFofZ 24 128) [5; 6; -7; 8; 9])) 5 = Done v
    /\ not_negative v = true.
Proof.
  apply (euclidean_is_not_negative 24 128 16 FSUBR FMAD
           (of_list (map (SFofZ 24 128) [1; -2; 3; -4; 5]))
           (of_list (map (SFofZ 24 128) [5; 6; -7; 8; 9])) 5 6).
  - lia.
  - lia.
  - vm_compute. reflexivity.
  - left. reflexivity.
  - apply covers_of_list. simpl. lia.
  - apply covers_of_list. simpl. lia.
Defined.

(** X9.  In every IEEE binary format the dot product of a vector with
    itself, the squared norm, is not negative either, for all four float
    dot products on the lengths they are written for. *)
Theorem self_dot_product_is_not_negative (prec emax : Z) (vl : nat)
        (f_mla : mla_form) (a : buffer spec_float) (d : Z) (fuel : nat) :
  0 <= d -> d < Z.of_nat fuel -> d + 8 * svcntb vl < 2 ^ 64 ->
  In vl sve_lengths -> covers a d ->
  (exists v, simsimd_dot_f32sve vl (ieee prec emax) f_mla fuel a a d = Done v
             /\ not_negative v = true)
  /\ (exists v, simsimd_dot_f16sve vl (ieee prec emax) f_mla fuel a a d = Done v
                /\ not_negative v = true)
  /\ ((4 | d) ->
      (exists v, simsimd_dot_f32x4neon (ieee prec emax) fuel a a d = Done v
                 /\ not_negative v = true)
      /\ (exists v, simsimd_dot_f32x4avx2 (ieee prec emax) fuel a a d = Done v
                    /\ not_negative v = true)).
Proof.
  intros Hd Hfuel Hfit Hin Ha.
  destruct (sve_lengths_quads vl Hin) as (Hvl & _).
  destruct (length_bounds vl d fuel Hd Hfuel Hfit Hvl)
    as ((? & ?) & (? & ?) & _ & ? & ? & _).
  split; [|split; [|intros Hdiv; split]].
  - destruct (dot_f32sve_returns vl (ieee prec emax) f_mla a a d fuel) as (v & E);
      try assumption.
    exists v. split; [exact E|]. eapply dot_f32sve_self_nn. exact E.
  - destruct (dot_f16sve_returns vl (ieee prec emax) f_mla a a d fuel) as (v & E);
      try assumption; try lia.
    exists v. split; [exact E|]. eapply dot_f16sve_self_nn. exact E.
  - destruct (dot_f32x4neon_returns (ieee prec emax) a a d fuel) as (v & E);
      try assumption; try lia.
    exists v. split; [exact E|]. eapply dot_f32x4neon_self_nn. exact E.
  - destruct (dot_f32x4avx2_returns (ieee prec emax) a a d fuel) as (v & E);
      try assumption; try lia.
    exists v. split; [exact E|]. eapply dot_f32x4avx2_self_nn. exact E.
Qed.

Lemma self_dot_product_is_not_negative_witness :
  exists v,
    simsimd_dot_f32sve 16 binary32 FMAD 6
      (of_list (map (SFofZ 24 128) [1; -2; 3; -4; 5]))
      (of_list (map (SFofZ 24 128) [1; -2; 3; -4; 5])) 5 = Done v
    /\ not_negative v = true.
Proof.
  apply (self_dot_product_is_not_negative 24 128 16 FMAD
           (of_list (map (SFofZ 24 128) [1; -2; 3; -4; 5])) 5 6).
  - lia.
  - lia.
  - vm_compute. reflexivity.
  - left. reflexivity.
  - apply covers_of_list. simpl. lia.
Defined.

(** X10.  With [d = 0] a float dot product reads nothing, whatever the two
    pointers are, and returns [+0.0] in every IEEE binary format: the loop
    of a scalable kernel runs once under an empty predicate, which leaves
    [+0.0] in every lane whichever instruction implements [svmla_x], the
    loop of a fixed-width kernel not at all. *)
Theorem float_dot_on_empty_input (prec emax : Z) (vl : nat)
        (f_mla : mla_form)
        (a b : buffer spec_float) (fuel : nat) :
  In vl sve_lengths ->
  simsimd_dot_f32sve vl (ieee prec emax) f_mla (S fuel) a b 0 = Done (S754_zero false)
  /\ simsimd_dot_f16sve vl (ieee prec emax) f_mla (S fuel) a b 0 = Done (S754_zero false)
  /\ simsimd_dot_f32x4neon (ieee prec emax) fuel a b 0 = Done (S754_zero false)
  /\ simsimd_dot_f32x4avx2 (ieee prec emax) fuel a b 0 = Done (S754_zero false).
Proof.
  intros Hin.
  destruct (fixed_width_float_empty prec emax a b fuel) as (F1 & _ & F3 & _).
  repeat split; try assumption.
  - apply dot_f32sve_empty. exact Hin.
  - apply dot_f16sve_empty. exact Hin.
Qed.

Lemma float_dot_on_empty_input_witness :
  simsimd_dot_f32sve 32 binary32 FMAD 1 (fun _ => None) (fun _ => None) 0
  = Done (S754_zero false).
Proof.
  apply (float_dot_on_empty_input 24 128 32 FMAD (fun _ => None) (fun _ => None) 0).
  right. left. reflexivity.
Defined.

(** X11.  With [d = 0] a cosine kernel reads nothing and returns a NaN in
    every IEEE binary format: its three sums are [+0.0] and its last step
    divides [0] by [0]. *)
Theorem cosine_on_empty_input (prec emax : Z) (vl : nat)
        (f_ab f_a2 f_b2 : mla_form)
        (a b : buffer spec_float) (fuel : nat) :
  In vl sve_lengths ->
  simsimd_cos_f32sve vl (ieee prec emax) f_ab f_a2 f_b2 (S fuel) a b 0 = Done S754_nan
  /\ simsimd_cos_f32x4neon (ieee prec emax) fuel a b 0 = Done S754_nan
  /\ simsimd_cos_f32x4avx2 (ieee prec emax) fuel a b 0 = Done S754_nan.
Proof.
  intros Hin.
  destruct (fixed_width_float_empty prec emax a b fuel) as (_ & F2 & _ & F4).
  repeat split; try assumption.
  apply cos_f32sve_empty. exact Hin.
Qed.

Lemma cosine_on_empty_input_witness :
  simsimd_cos_f32sve 32 binary32 FMLA FMAD FMAD_swapped 1 (fun _ => None) (fun _ => None) 0 = Done S754_nan.
Proof.
  apply (cosine_on_empty_input 24 128 32 FMLA FMAD FMAD_swapped (fun _ => None) (fun _ => None) 0).
  right. left. reflexivity.
Defined.

(** X12.  With [d = 0] a Euclidean kernel reads nothing and returns
    [+0.0] in every IEEE binary format, whichever instructions implement
    [svsub_x] and [svmla_x]. *)
Theorem euclidean_on_empty_input (prec emax : Z) (vl : nat)
        (f_sub : sub_form) (f_mla : mla_form)
        (a b : buffer spec_float) (fuel : nat) :
  In vl sve_lengths ->
  simsimd_euclidean_f32sve vl (ieee prec emax) f_sub f_mla (S fuel) a b 0 = Done (S754_zero false)
  /\ simsimd_euclidean_f16sve vl (ieee prec emax) f_sub f_mla (S fuel) a b 0
     = Done (S754_zero false).
Proof.
  intros Hin. split.
  - apply euclidean_f32sve_empty. exact Hin.
  - apply euclidean_f16sve_empty. exact Hin.
Qed.

Lemma euclidean_on_empty_input_witness :
  simsimd_euclidean_f16sve 64 binary16 FSUBR FMAD 1 (fun _ => None) (fun _ => None) 0
  = Done (S754_zero false).
Proof.
  apply (euclidean_on_empty_input 11 16 64 FSUBR FMAD (fun _ => None) (fun _ => None) 0).
  right. right. right. left. reflexivity.
Defined.

(** X13.  With [d = 0] the integer kernels read nothing and return 0, the
    byte-granular Hamming kernel on every vector length and the 512-bit
    kernel whatever the addresses of its pointers. *)
Theorem integer_kernels_on_empty_input (vl : nat) (p q : buffer Z)
        (r s : pointer) (fuel : nat) :
  In vl sve_lengths ->
  simsimd_hamming_u1x8sve vl (S fuel) p q 0 = Done 0
  /\ simsimd_hamming_u1x128sve fuel p q 0 = Done 0
  /\ simsimd_dot_i8x16avx2 fuel p q 0 = Done 0
  /\ simsimd_hamming_u1x128avx512 fuel r s 0 = Done 0.
Proof.
  intros Hin.
  destruct (fixed_width_integer_empty p q r s fuel) as (I1 & I2 & I3).
  repeat split; try assumption.
  apply hamming_u1x8sve_empty. exact Hin.
Qed.

Lemma integer_kernels_on_empty_input_witness :
  simsimd_hamming_u1x8sve 256 1 (fun _ => None) (fun _ => None) 0 = Done 0.
Proof.
  apply (integer_kernels_on_empty_input 256 (fun _ => None) (fun _ => None)
           (Pointer 1 (fun _ => None)) (Pointer 2 (fun _ => None)) 0).
  do 15 right. left. reflexivity.
Defined.

(** X14.  The scalable dot products and the scalable cosine read exactly
    the elements below [d].  Two calls whose buffers hold the same elements
    below [d] end alike, whatever lies behind them, readable or not; and
    when an element below [d] cannot be read through [a] or through [b]
    the call is a read out of bounds. *)
Theorem scalable_dot_and_cosine_read_extent (ar : arith) (vl : nat)
        (f_ab f_a2 f_b2 f_mla : mla_form)
        (a a' b b' : buffer (num ar)) (d : Z) (fuel : nat) :
  (agree_below a a' d -> agree_below b b' d ->
   simsimd_dot_f32sve vl ar f_mla fuel a b d = simsimd_dot_f32sve vl ar f_mla fuel a' b' d
   /\ simsimd_dot_f16sve vl ar f_mla fuel a b d = simsimd_dot_f16sve vl ar f_mla fuel a' b' d
   /\ simsimd_cos_f32sve vl ar f_ab f_a2 f_b2 fuel a b d = simsimd_cos_f32sve vl ar f_ab f_a2 f_b2 fuel a' b' d)
  /\ (forall j,
         In vl sve_lengths -> 0 <= j < d -> a j = None \/ b j = None ->
         d < Z.of_nat fuel -> d + 8 * svcntb vl < 2 ^ 64 ->
         simsimd_dot_f32sve vl ar f_mla fuel a b d = Fault
         /\ simsimd_dot_f16sve vl ar f_mla fuel a b d = Fault
         /\ simsimd_cos_f32sve vl ar f_ab f_a2 f_b2 fuel a b d = Fault).
Proof.
  split.
  - intros Ha Hb. repeat split.
    + apply dot_f32sve_frame; assumption.
    + apply dot_f16sve_frame; assumption.
    + apply cos_f32sve_frame; assumption.
  - intros j Hin Hj Hnone Hfuel Hfit.
    destruct (sve_lengths_quads vl Hin) as (Hvl & _).
    destruct (length_bounds vl d fuel ltac:(lia) Hfuel Hfit Hvl)
      as ((? & ?) & (? & ?) & _).
    repeat split.
    + apply (dot_f32sve_short vl ar a b d j); assumption.
    + apply (dot_f16sve_short vl ar a b d j); assumption.
    + apply (cos_f32sve_short vl ar a b d j); assumption.
Qed.

Lemma scalable_dot_and_cosine_read_extent_witness :
  simsimd_dot_f32sve 16 binary32 FMAD 6
    (of_list (map (SFofZ 24 128) [1; 2; 3; 4; 5]))
    (of_list (map (SFofZ 24 128) [5; 6; 7; 8; 9])) 5
  = simsimd_dot_f32sve 16 binary32 FMAD 6
      (of_list (map (SFofZ 24 128) [1; 2; 3; 4; 5; 77; 78]))
      (of_list (map (SFofZ 24 128) [5; 6; 7; 8; 9; 99])) 5
  /\ simsimd_cos_f32sve 16 binary32 FMLA FMAD FMAD_swapped 6
       (of_list (map (SFofZ 24 128) [1; 2; 3; 4; 5]))
       (of_list (map (SFofZ 24 128) [5; 6; 7; 8])) 5 = Fault.
Proof.
  split.
  - apply (scalable_dot_and_cosine_read_extent binary32 16 FMLA FMAD FMAD_swapped FMAD
             (of_list (map (SFofZ 24 128) [1; 2; 3; 4; 5]))
             (of_list (map (SFofZ 24 128) [1; 2; 3; 4; 5; 77; 78]))
             (of_list (map (SFofZ 24 128) [5; 6; 7; 8; 9]))
             (of_list (map (SFofZ 24 128) [5; 6; 7; 8; 9; 99])) 5 6).
    + apply (agree_below_of_list _ _ 5). reflexivity.
    + apply (agree_below_of_list _ _ 5). reflexivity.
  - apply (proj2 (scalable_dot_and_cosine_read_extent binary32 16 FMLA FMAD FMAD_swapped FMAD
                    (of_list (map (SFofZ 24 128) [1; 2; 3; 4; 5]))
                    (of_list (map (SFofZ 24 128) [1; 2; 3; 4; 5]))
                    (of_list (map (SFofZ 24 128) [5; 6; 7; 8]))
                    (of_list (map (SFofZ 24 128) [5; 6; 7; 8])) 5 6) 4).
    + left. reflexivity.
    + lia.
    + right. reflexivity.
    + lia.
    + vm_compute. reflexivity.
Defined.

(** X15.  The scalable Euclidean kernels read exactly the elements below
    [d]: two calls whose buffers agree below [d] end alike, and an element
    below [d] that cannot be read makes the call a read out of bounds. *)
Theorem scalable_euclidean_read_extent (ar : arith) (vl : nat)
        (f_sub : sub_form) (f_mla : mla_form)
        (a a' b b' : buffer (num ar)) (d : Z) (fuel : nat) :
  (agree_below a a' d -> agree_below b b' d ->
   simsimd_euclidean_f32sve vl ar f_sub f_mla fuel a b d
   = simsimd_euclidean_f32sve vl ar f_sub f_mla fuel a' b' d
   /\ simsimd_euclidean_f16sve vl ar f_sub f_mla fuel a b d
      = simsimd_euclidean_f16sve vl ar f_sub f_mla fuel a' b' d)
  /\ (forall j,
         In vl sve_lengths -> 0 <= j < d -> a j = None \/ b j = None ->
         d < Z.of_nat fuel -> d + 8 * svcntb vl < 2 ^ 64 ->
         simsimd_euclidean_f32sve vl ar f_sub f_mla fuel a b d = Fault
         /\ simsimd_euclidean_f16sve vl ar f_sub f_mla fuel a b d = Fault).
Proof.
  split.
  - intros Ha Hb. split.
    + apply euclidean_f32sve_frame; assumption.
    + apply euclidean_f16sve_frame; assumption.
  - intros j Hin Hj Hnone Hfuel Hfit.
    destruct (sve_lengths_quads vl Hin) as (Hvl & _).
    destruct (length_bounds vl d fuel ltac:(lia) Hfuel Hfit Hvl)
      as ((? & ?) & (? & ?) & _).
    split.
    + apply (euclidean_f32sve_short vl ar a b d j); assumption.
    + apply (euclidean_f16sve_short vl ar a b d j); assumption.
Qed.

Lemma scalable_euclidean_read_extent_witness :
  simsimd_euclidean_f32sve 16 binary32 FSUBR FMAD 6
    (of_list (map (SFofZ 24 128) [1; 2; 3; 4; 5]))
    (of_list (map (SFofZ 24 128) [5; 6; 7; 8; 9])) 5
  = simsimd_euclidean_f32sve 16 binary32 FSUBR FMAD 6
      (of_list (map (SFofZ 24 128) [1; 2; 3; 4; 5; 77; 78]))
      (of_list (map (SFofZ 24 128) [5; 6; 7; 8; 9; 99])) 5
  /\ simsimd_euclidean_f16sve 16 binary32 FSUBR FMAD 6
       (of_list (map (SFofZ 24 128) [1; 2; 3; 4; 5]))
       (of_list (map (SFofZ 24 128) [5; 6; 7; 8])) 5 = Fault.
Proof.
  split.
  - apply (scalable_euclidean_read_extent binary32 16 FSUBR FMAD
             (of_list (map (SFofZ 24 128) [1; 2; 3; 4; 5]))
             (of_list (map (SFofZ 24 128) [1; 2; 3; 4; 5; 77; 78]))
             (of_list (map (SFofZ 24 128) [5; 6; 7; 8; 9]))
             (of_list (map (SFofZ 24 128) [5; 6; 7; 8; 9; 99])) 5 6).
    + apply (agree_below_of_list _ _ 5). reflexivity.
    + apply (agree_below_of_list _ _ 5). reflexivity.
  - apply (proj2 (scalable_euclidean_read_extent binary32 16 FSUBR FMAD
                    (of_list (map (SFofZ 24 128) [1; 2; 3; 4; 5]))
                    (of_list (map (SFofZ 24 128) [1; 2; 3; 4; 5]))
                    (of_list (map (SFofZ 24 128) [5; 6; 7; 8]))
                    (of_list (map (SFofZ 24 128) [5; 6; 7; 8])) 5 6) 4).
    + left. reflexivity.
    + lia.
    + right. reflexivity.
    + lia.
    + vm_compute. reflexivity.
Defined.

(** X16.  On the multiples of 4 the fixed-width float kernels read exactly
    the elements below [d]: two calls whose buffers agree below [d] end
    alike.  They run off the end of a buffer that stops before: with
    nothing readable through [a] or through [b] from index [len] on, the
    call is a read out of bounds when [len < d], and also whenever [d] is
    not a multiple of 4, where the loop would not stop by itself. *)
Theorem fixed_width_float_read_extent (ar : arith)
        (a a' b b' : buffer (num ar)) (d : Z) (fuel : nat) :
  (0 <= d < 2 ^ 64 -> (4 | d) -> agree_below a a' d -> agree_below b b' d ->
   simsimd_dot_f32x4neon ar fuel a b d = simsimd_dot_f32x4neon ar fuel a' b' d
   /\ simsimd_cos_f32x4neon ar fuel a b d = simsimd_cos_f32x4neon ar fuel a' b' d
   /\ simsimd_dot_f32x4avx2 ar fuel a b d = simsimd_dot_f32x4avx2 ar fuel a' b' d
   /\ simsimd_cos_f32x4avx2 ar fuel a b d = simsimd_cos_f32x4avx2 ar fuel a' b' d)
  /\ (forall len,
         0 <= len < 2 ^ 64 -> len < Z.of_nat fuel ->
         ends_at a len \/ ends_at b len -> len < d \/ ~ (4 | d) ->
         simsimd_dot_f32x4neon ar fuel a b d = Fault
         /\ simsimd_cos_f32x4neon ar fuel a b d = Fault
         /\ simsimd_dot_f32x4avx2 ar fuel a b d = Fault
         /\ simsimd_cos_f32x4avx2 ar fuel a b d = Fault).
Proof.
  split.
  - intros Hd Hdiv Ha Hb. repeat split.
    + apply dot_f32x4neon_frame; assumption.
    + apply cos_f32x4neon_frame; assumption.
    + apply dot_f32x4avx2_frame; assumption.
    + apply cos_f32x4avx2_frame; assumption.
  - intros len Hlen Hfuel Hend Hd. repeat split.
    + apply (dot_f32x4neon_short ar fuel a b d len); try assumption; lia.
    + apply (cos_f32x4neon_short ar fuel a b d len); try assumption; lia.
    + apply (dot_f32x4avx2_short ar fuel a b d len); try assumption; lia.
    + apply (cos_f32x4avx2_short ar fuel a b d len); try assumption; lia.
Qed.

Lemma fixed_width_float_read_extent_witness :
  simsimd_dot_f32x4avx2 binary32 7
    (of_list (map (SFofZ 24 128) [1; 2; 3; 4]))
    (of_list (map (SFofZ 24 128) [5; 6; 7; 8])) 4
  = simsimd_dot_f32x4avx2 binary32 7
      (of_list (map (SFofZ 24 128) [1; 2; 3; 4; 77; 78]))
      (of_list (map (SFofZ 24 128) [5; 6; 7; 8; 99])) 4
  /\ simsimd_cos_f32x4neon binary32 7
       (of_list (map (SFofZ 24 128) [1; 2; 3; 4; 5; 6]))
       (of_list (map (SFofZ 24 128) [5; 6; 7; 8; 9; 10])) 6 = Fault.
Proof.
  split.
  - apply (fixed_width_float_read_extent binary32
             (of_list (map (SFofZ 24 128) [1; 2; 3; 4]))
             (of_list (map (SFofZ 24 128) [1; 2; 3; 4; 77; 78]))
             (of_list (map (SFofZ 24 128) [5; 6; 7; 8]))
             (of_list (map (SFofZ 24 128) [5; 6; 7; 8; 99])) 4 7).
    + lia.
    + exists 1. reflexivity.
    + apply (agree_below_of_list _ _ 4). reflexivity.
    + apply (agree_below_of_list _ _ 4). reflexivity.
  - apply (proj2 (fixed_width_float_read_extent binary32
                    (of_list (map (SFofZ 24 128) [1; 2; 3; 4; 5; 6]))
                    (of_list (map (SFofZ 24 128) [1; 2; 3; 4; 5; 6]))
                    (of_list (map (SFofZ 24 128) [5; 6; 7; 8; 9; 10]))
                    (of_list (map (SFofZ 24 128) [5; 6; 7; 8; 9; 10])) 6 7) 6).
    + lia.
    + lia.
    + left. apply (ends_at_of_list (map (SFofZ 24 128) [1; 2; 3; 4; 5; 6])).
    + right. intros [k Hk]. lia.
Defined.

(** X17.  On a length its loop is written for, a fixed-width integer kernel
    reads nothing outside the extent of its loop: the 128-bit Hamming
    kernel the [d] bytes below [d], the 8-bit dot product twelve elements
    more than [d], the 512-bit Hamming kernel, through pointers of the same
    alignment, the bytes of the first [d / 128] 64-bit words.  It runs off
    the end of a buffer that stops before that extent, and of any buffer
    that stops when [d] is off the grid of the counter.  In particular the
    8-bit dot product reads out of bounds on every pair of buffers of
    exactly [d > 0] elements. *)
Theorem fixed_width_integer_read_extent (p p' q q' : buffer Z)
        (r r' s s' : pointer) (d : Z) (fuel : nat) :
  (0 <= d < 2 ^ 64 ->
   ((16 | d) -> agree_below p p' d -> agree_below q q' d ->
    simsimd_hamming_u1x128sve fuel p q d = simsimd_hamming_u1x128sve fuel p' q' d)
   /\ ((4 | d) -> agree_below p p' (d + 12) -> agree_below q q' (d + 12) ->
       simsimd_dot_i8x16avx2 fuel p q d = simsimd_dot_i8x16avx2 fuel p' q' d)
   /\ ((2 | d / 128) ->
       address r mod 16 = address r' mod 16 ->
       address s mod 16 = address s' mod 16 ->
       agree_below (target r) (target r') (8 * (d / 128)) ->
       agree_below (target s) (target s') (8 * (d / 128)) ->
       simsimd_hamming_u1x128avx512 fuel r s d
       = simsimd_hamming_u1x128avx512 fuel r' s' d))
  /\ (forall len,
         0 <= len < 2 ^ 64 -> len < Z.of_nat fuel ->
         (ends_at p len \/ ends_at q len ->
          (len < d \/ ~ (16 | d) -> simsimd_hamming_u1x128sve fuel p q d = Fault)
          /\ ((0 < d /\ len < d + 12) \/ ~ (4 | d) ->
              simsimd_dot_i8x16avx2 fuel p q d = Fault))
         /\ (ends_at (target r) len \/ ends_at (target s) len ->
             len < 8 * (d / 128) \/ ~ (2 | d / 128) ->
             simsimd_hamming_u1x128avx512 fuel r s d = Fault)).
Proof.
  split.
  - intros Hd. split; [|split].
    + intros Hdiv Hp Hq. apply hamming_u1x128sve_frame; assumption.
    + intros Hdiv Hp Hq. apply dot_i8x16avx2_frame; assumption.
    + intros Hdiv Ar As Hr Hs. apply hamming_u1x128avx512_frame; assumption.
  - intros len Hlen Hfuel. split.
    + intros Hend. split; intros Hd.
      * apply (hamming_u1x128sve_short fuel p q d len); try assumption; lia.
      * apply (dot_i8x16avx2_short fuel p q d len); try assumption; lia.
    + intros Hend Hd.
      apply (hamming_u1x128avx512_short fuel r s d len); try assumption; lia.
Qed.

Lemma fixed_width_integer_read_extent_witness :
  simsimd_hamming_u1x128avx512 9
    (Pointer 4096 (of_list (repeat 255 16))) (Pointer 8192 (of_list (repeat 0 16))) 256
  = simsimd_hamming_u1x128avx512 9
      (Pointer 64 (of_list (repeat 255 16 ++ [1; 2])))
      (Pointer 32 (of_list (repeat 0 16 ++ [3]))) 256
  /\ simsimd_dot_i8x16avx2 9 (of_list [1; 2; 3; 4; 5; 6; 7; 8])
       (of_list [1; 1; 1; 1; 1; 1; 1; 1]) 8 = Fault.
Proof.
  split.
  - apply (fixed_width_integer_read_extent
             (of_list (repeat 255 16)) (of_list (repeat 255 16 ++ [1; 2]))
             (of_list (repeat 0 16)) (of_list (repeat 0 16 ++ [3]))
             (Pointer 4096 (of_list (repeat 255 16)))
             (Pointer 64 (of_list (repeat 255 16 ++ [1; 2])))
             (Pointer 8192 (of_list (repeat 0 16)))
             (Pointer 32 (of_list (repeat 0 16 ++ [3]))) 256 9).
    + lia.
    + exists 1. reflexivity.
    + reflexivity.
    + reflexivity.
    + apply (agree_below_of_list _ _ 16). reflexivity.
    + apply (agree_below_of_list _ _ 16). reflexivity.
  - apply (proj2 (fixed_width_integer_read_extent
                    (of_list [1; 2; 3; 4; 5; 6; 7; 8]) (of_list [1; 2; 3; 4; 5; 6; 7; 8])
                    (of_list [1; 1; 1; 1; 1; 1; 1; 1]) (of_list [1; 1; 1; 1; 1; 1; 1; 1])
                    (Pointer 0 (of_list [])) (Pointer 0 (of_list []))
                    (Pointer 0 (of_list [])) (Pointer 0 (of_list []))
                    8 9) 8).
    + lia.
    + lia.
    + left. apply (ends_at_of_list [1; 2; 3; 4; 5; 6; 7; 8]).
    + left. lia.
Defined.

(** X18.  No call of a fixed-width float kernel returns on a length that
    is not a multiple of 4, whatever the buffers and however long it runs:
    the exit test is an inequality and the counter steps over [d], also
    across the wrap-around at [2^64]. *)
Theorem fixed_width_float_never_return_off_grid (ar : arith) (d : Z) :
  ~ (4 | d) ->
  forall fuel (a b : buffer (num ar)) v,
    simsimd_dot_f32x4neon ar fuel a b d <> Done v
    /\ simsimd_cos_f32x4neon ar fuel a b d <> Done v
    /\ simsimd_dot_f32x4avx2 ar fuel a b d <> Done v
    /\ simsimd_cos_f32x4avx2 ar fuel a b d <> Done v.
Proof.
  intros Hd fuel a b v. repeat split.
  - apply dot_f32x4neon_off_grid. exact Hd.
  - apply cos_f32x4neon_off_grid. exact Hd.
  - apply dot_f32x4avx2_off_grid. exact Hd.
  - apply cos_f32x4avx2_off_grid. exact Hd.
Qed.

Lemma fixed_width_float_never_return_off_grid_witness :
  simsimd_dot_f32x4neon binary32 3
    (flat (S754_zero false)) (flat (S754_zero false)) 6 <> Done (S754_zero false)
  /\ simsimd_cos_f32x4neon binary32 3
       (flat (S754_zero false)) (flat (S754_zero false)) 6 <> Done (S754_zero false)
  /\ simsimd_dot_f32x4avx2 binary32 3
       (flat (S754_zero false)) (flat (S754_zero false)) 6 <> Done (S754_zero false)
  /\ simsimd_cos_f32x4avx2 binary32 3
       (flat (S754_zero false)) (flat (S754_zero false)) 6 <> Done (S754_zero false).
Proof.
  apply (fixed_width_float_never_return_off_grid binary32 6).
  intros [k Hk]. lia.
Defined.

(** X19.  No call of a fixed-width integer kernel returns on a length that
    is off the grid of its counter: the 8-bit dot product when [d] is not a
    multiple of 4, the 128-bit Hamming kernel when it is not a multiple of
    16, the 512-bit Hamming kernel when [d / 128] is odd. *)
Theorem fixed_width_integer_never_return_off_grid (d : Z) :
  (~ (4 | d) ->
   forall fuel p q v, simsimd_dot_i8x16avx2 fuel p q d <> Done v)
  /\ (~ (16 | d) ->
      forall fuel p q v, simsimd_hamming_u1x128sve fuel p q d <> Done v)
  /\ (~ (2 | d / 128) ->
      forall fuel p q v, simsimd_hamming_u1x128avx512 fuel p q d <> Done v).
Proof.
  split; [|split]; intros Hd fuel p q v.
  - apply dot_i8x16avx2_off_grid. exact Hd.
  - apply hamming_u1x128sve_off_grid. exact Hd.
  - apply hamming_u1x128avx512_off_grid. exact Hd.
Qed.

Lemma fixed_width_integer_never_return_off_grid_witness :
  simsimd_hamming_u1x128sve 3 (flat 255) (flat 0) 8 <> Done 8.
Proof.
  apply (fixed_width_integer_never_return_off_grid 8).
  intros [k Hk]. lia.
Defined.

(** X20.  The 128-bit Hamming kernel takes [d] for a count of bytes: on
    the multiples of 16 it returns the number of differing bits of the [d]
    bytes, [8 * d] bits, reduced modulo 256 by its 8-bit lanes; the count
    is exact when [d] is 16, the one vector the name of the kernel speaks
    of. *)
Theorem hamming_u1x128sve_counts_bytes_mod_256 (p q : buffer Z) (la lb : list Z)
        (d : Z) (fuel : nat) :
  holds p la -> holds q lb ->
  Z.of_nat (length la) = d -> Z.of_nat (length lb) = d ->
  d < 2 ^ 64 -> (16 | d) -> d / 16 <= Z.of_nat fuel ->
  simsimd_hamming_u1x128sve fuel p q d
  = Done (hamming_ref la lb (8 * length la) mod 2 ^ 8)
  /\ (d < 32 ->
      simsimd_hamming_u1x128sve fuel p q d = Done (hamming_ref la lb (8 * length la))).
Proof.
  intros Hp Hq Hla Hlb Hd Hdiv Hfuel.
  pose proof (hamming_u1x128sve_counts p q la lb d fuel Hp Hq Hla Hlb Hd Hdiv Hfuel)
    as E.
  split; [exact E|]. intros Hsmall. rewrite E. f_equal.
  apply Z.mod_small.
  pose proof (hamming_ref_bounds la lb (8 * length la)). lia.
Qed.

Lemma hamming_u1x128sve_counts_bytes_mod_256_witness :
  simsimd_hamming_u1x128sve 1 (of_list (repeat 255 16)) (of_list (repeat 15 16)) 16
  = Done (hamming_ref (repeat 255 16) (repeat 15 16) (8 * length (repeat 255 16))).
Proof.
  apply (hamming_u1x128sve_counts_bytes_mod_256
           (of_list (repeat 255 16)) (of_list (repeat 15 16))
           (repeat 255 16) (repeat 15 16) 16 1).
  - apply holds_of_list.
  - apply holds_of_list.
  - reflexivity.
  - reflexivity.
  - lia.
  - exists 1. reflexivity.
  - vm_compute. discriminate.
  - lia.
Defined.

(** X21.  The 512-bit Hamming kernel, through aligned pointers and when
    [d / 128] is even, returns the number of differing bits of the first
    [d / 128] 64-bit words of the two buffers, without wrap-around, and so
    at most [d / 2].  Below 128 the word count is zero and the kernel
    returns 0 without reading.  From 128 on a pointer whose address is not
    a multiple of 16 makes the first load fail. *)
Theorem hamming_u1x128avx512_counts_words (p q : pointer) (la lb : list Z)
        (d : Z) (fuel : nat) :
  (aligned p -> aligned q ->
   holds (target p) la -> holds (target q) lb ->
   Forall (fun x => 0 <= x < 256) la -> Forall (fun x => 0 <= x < 256) lb ->
   0 <= d < 2 ^ 64 -> (2 | d / 128) ->
   8 * (d / 128) <= Z.of_nat (length la) -> 8 * (d / 128) <= Z.of_nat (length lb) ->
   d / 128 / 2 <= Z.of_nat fuel ->
   simsimd_hamming_u1x128avx512 fuel p q d
   = Done (hamming_ref la lb (64 * Z.to_nat (d / 128)))
   /\ 0 <= hamming_ref la lb (64 * Z.to_nat (d / 128)) <= d / 2)
  /\ (0 <= d < 128 -> simsimd_hamming_u1x128avx512 fuel p q d = Done 0)
  /\ (~ aligned p \/ ~ aligned q -> 128 <= d ->
      simsimd_hamming_u1x128avx512 (S fuel) p q d = Fault).
Proof.
  split; [|split].
  - intros Ap Aq Hp Hq Bla Blb Hd Hdiv Hla Hlb Hfuel. split.
    + apply hamming_u1x128avx512_counts; assumption.
    + pose proof (hamming_ref_bounds la lb (64 * Z.to_nat (d / 128))) as Hb.
      assert (0 <= d / 128) by (apply Z.div_pos; lia).
      assert (64 * (d / 128) <= d / 2).
      { apply Z.div_le_lower_bound; [lia|].
        pose proof (Z.mul_div_le d 128 ltac:(lia)). lia. }
      lia.
  - apply hamming_u1x128avx512_below_128.
  - intros Hab Hd. apply hamming_u1x128avx512_unaligned; [exact Hab|].
    assert (1 <= d / 128) by (apply Z.div_le_lower_bound; lia). lia.
Qed.

Lemma hamming_u1x128avx512_counts_words_witness :
  (simsimd_hamming_u1x128avx512 1
     (Pointer 4096 (of_list (repeat 255 16 ++ repeat 255 16)))
     (Pointer 8192 (of_list (repeat 0 32))) 256
   = Done (hamming_ref (repeat 255 16 ++ repeat 255 16) (repeat 0 32)
             (64 * Z.to_nat (256 / 128)))
   /\ 0 <= hamming_ref (repeat 255 16 ++ repeat 255 16) (repeat 0 32)
             (64 * Z.to_nat (256 / 128)) <= 256 / 2)
  /\ simsimd_hamming_u1x128avx512 1
       (Pointer 4104 (of_list (repeat 255 16 ++ repeat 255 16)))
       (Pointer 8192 (of_list (repeat 0 32))) 256
     = Fault.
Proof.
  split.
  - apply (hamming_u1x128avx512_counts_words
             (Pointer 4096 (of_list (repeat 255 16 ++ repeat 255 16)))
             (Pointer 8192 (of_list (repeat 0 32)))
             (repeat 255 16 ++ repeat 255 16) (repeat 0 32) 256 1).
    + reflexivity.
    + reflexivity.
    + apply holds_of_list.
    + apply holds_of_list.
    + repeat constructor; lia.
    + repeat constructor; lia.
    + lia.
    + exists 1. reflexivity.
    + vm_compute. discriminate.
    + vm_compute. discriminate.
    + vm_compute. discriminate.
  - apply (hamming_u1x128avx512_counts_words
             (Pointer 4104 (of_list (repeat 255 16 ++ repeat 255 16)))
             (Pointer 8192 (of_list (repeat 0 32)))
             (repeat 255 16 ++ repeat 255 16) (repeat 0 32) 256 0).
    + left. vm_compute. discriminate.
    + lia.
Defined.

(** X22.  On the bits it covers the 512-bit Hamming kernel is a distance:
    for three buffers read through aligned pointers the value for [p] and
    [r] is at most the sum of the values for [p] and [q] and for [q] and
    [r], and the value for [p] and [q] is 0 exactly when the first
    [d / 128] words of [p] and [q] hold the same bits. *)
Theorem hamming_u1x128avx512_is_a_distance (p q r : pointer) (la lb lc : list Z)
        (d : Z) (fuel : nat) :
  aligned p -> aligned q -> aligned r ->
  holds (target p) la -> holds (target q) lb -> holds (target r) lc ->
  Forall (fun x => 0 <= x < 256) la -> Forall (fun x => 0 <= x < 256) lb ->
  Forall (fun x => 0 <= x < 256) lc ->
  0 <= d < 2 ^ 64 -> (2 | d / 128) ->
  8 * (d / 128) <= Z.of_nat (length la) -> 8 * (d / 128) <= Z.of_nat (length lb) ->
  8 * (d / 128) <= Z.of_nat (length lc) ->
  d / 128 / 2 <= Z.of_nat fuel ->
  exists x y z,
    simsimd_hamming_u1x128avx512 fuel p r d = Done x
    /\ simsimd_hamming_u1x128avx512 fuel p q d = Done y
    /\ simsimd_hamming_u1x128avx512 fuel q r d = Done z
    /\ x <= y + z
    /\ (y = 0 <->
        forall k, (k < 64 * Z.to_nat (d / 128))%nat -> bit_of la k = bit_of lb k).
Proof.
  intros Ap Aq Ar Hp Hq Hr Ba Bb Bc Hd Hdiv La Lb Lc Hfuel.
  exists (hamming_ref la lc (64 * Z.to_nat (d / 128))),
         (hamming_ref la lb (64 * Z.to_nat (d / 128))),
         (hamming_ref lb lc (64 * Z.to_nat (d / 128))).
  split; [apply hamming_u1x128avx512_counts; assumption|].
  split; [apply hamming_u1x128avx512_counts; assumption|].
  split; [apply hamming_u1x128avx512_counts; assumption|].
  split; [apply hamming_ref_triangle|apply hamming_ref_zero].
Qed.

Lemma hamming_u1x128avx512_is_a_distance_witness :
  exists x y z,
    simsimd_hamming_u1x128avx512 1
      (Pointer 4096 (of_list (repeat 255 16)))
      (Pointer 4128 (of_list (repeat 0 16))) 256 = Done x
    /\ simsimd_hamming_u1x128avx512 1
      (Pointer 4096 (of_list (repeat 255 16)))
      (Pointer 4112 (of_list (repeat 15 16))) 256 = Done y
    /\ simsimd_hamming_u1x128avx512 1
      (Pointer 4112 (of_list (repeat 15 16)))
      (Pointer 4128 (of_list (repeat 0 16))) 256 = Done z
    /\ x <= y + z
    /\ (y = 0 <->
        forall k, (k < 64 * Z.to_nat (256 / 128))%nat ->
                  bit_of (repeat 255 16) k = bit_of (repeat 15 16) k).
Proof.
  apply (hamming_u1x128avx512_is_a_distance
           (Pointer 4096 (of_list (repeat 255 16)))
           (Pointer 4112 (of_list (repeat 15 16)))
           (Pointer 4128 (of_list (repeat 0 16)))
           (repeat 255 16) (repeat 15 16) (repeat 0 16) 256 1).
  - reflexivity.
  - reflexivity.
  - reflexivity.
  - apply holds_of_list.
  - apply holds_of_list.
  - apply holds_of_list.
  - repeat constructor; lia.
  - repeat constructor; lia.
  - repeat constructor; lia.
  - lia.
  - exists 1. reflexivity.
  - vm_compute. discriminate.
  - vm_compute. discriminate.
  - vm_compute. discriminate.
  - vm_compute. discriminate.
Defined.

(** X23.  On the multiples of 4 the 8-bit dot product returns, reduced to
    its low byte, the sum over the counter values [i = 0, 4, ..., d - 4] of
    the products of the eight elements [i .. i + 7]: each load reads
    sixteen elements where the counter advances by four, and the
    horizontal additions keep the low eight lanes.  The value lies between
    0 and 255 whatever the signs of the elements. *)
Theorem dot_i8x16avx2_adds_windows (p q : buffer Z) (la lb : list Z)
        (d : Z) (fuel : nat) :
  holds p la -> holds q lb ->
  0 <= d < 2 ^ 64 -> (4 | d) ->
  d + 12 <= Z.of_nat (length la) -> d + 12 <= Z.of_nat (length lb) ->
  d / 4 <= Z.of_nat fuel ->
  simsimd_dot_i8x16avx2 fuel p q d
  = Done (windows_dot la lb (Z.to_nat (d / 4)) mod 2 ^ 8)
  /\ 0 <= windows_dot la lb (Z.to_nat (d / 4)) mod 2 ^ 8 <= 255.
Proof.
  intros Hp Hq Hd Hdiv Hla Hlb Hfuel. split.
  - apply dot_i8x16avx2_windows; assumption.
  - pose proof (Z.mod_pos_bound (windows_dot la lb (Z.to_nat (d / 4))) (2 ^ 8)
                  ltac:(lia)). lia.
Qed.

Lemma dot_i8x16avx2_adds_windows_witness :
  simsimd_dot_i8x16avx2 2
    (of_list [1; -2; 3; -4; 5; -6; 7; -8; 9; 10; 11; 12; 13; 14; 15; 16; 17; 18; 19; 20])
    (of_list [1; 1; 1; 1; 1; 1; 1; 1; 1; 1; 1; 1; 1; 1; 1; 1; 1; 1; 1; 1]) 8
  = Done (windows_dot
            [1; -2; 3; -4; 5; -6; 7; -8; 9; 10; 11; 12; 13; 14; 15; 16; 17; 18; 19; 20]
            [1; 1; 1; 1; 1; 1; 1; 1; 1; 1; 1; 1; 1; 1; 1; 1; 1; 1; 1; 1]
            (Z.to_nat (8 / 4)) mod 2 ^ 8)
  /\ 0 <= windows_dot
            [1; -2; 3; -4; 5; -6; 7; -8; 9; 10; 11; 12; 13; 14; 15; 16; 17; 18; 19; 20]
            [1; 1; 1; 1; 1; 1; 1; 1; 1; 1; 1; 1; 1; 1; 1; 1; 1; 1; 1; 1]
            (Z.to_nat (8 / 4)) mod 2 ^ 8 <= 255.
Proof.
  apply (dot_i8x16avx2_adds_windows
           (of_list [1; -2; 3; -4; 5; -6; 7; -8; 9; 10; 11; 12; 13; 14; 15; 16; 17; 18;
                     19; 20])
           (of_list [1; 1; 1; 1; 1; 1; 1; 1; 1; 1; 1; 1; 1; 1; 1; 1; 1; 1; 1; 1])
           [1; -2; 3; -4; 5; -6; 7; -8; 9; 10; 11; 12; 13; 14; 15; 16; 17; 18; 19; 20]
           [1; 1; 1; 1; 1; 1; 1; 1; 1; 1; 1; 1; 1; 1; 1; 1; 1; 1; 1; 1] 8 2).
  - apply holds_of_list.
  - apply holds_of_list.
  - lia.
  - exists 2. reflexivity.
  - vm_compute. discriminate.
  - vm_compute. discriminate.
  - vm_compute. discriminate.
Defined.

(** X24.  With [d <= 8 * svcntb()] the loop of the byte-granular Hamming
    kernel runs once.  It reads the first [min(d, svcntb())] bytes of
    either buffer, so the call is a read out of bounds when one of them
    cannot be read, and otherwise it returns the number of differing bits
    of the bytes of index 0, 4, 8, ... among them: the first predicate
    counts [d] in bytes and the final reduction adds every fourth lane. *)
Theorem hamming_u1x8sve_single_pass (vl : nat) (p q : buffer Z) (la lb : list Z)
        (d : Z) (fuel : nat) :
  In vl sve_lengths -> 0 <= d <= 8 * svcntb vl ->
  (holds p la -> holds q lb ->
   Z.min d (svcntb vl) <= Z.of_nat (length la) ->
   Z.min d (svcntb vl) <= Z.of_nat (length lb) ->
   simsimd_hamming_u1x8sve vl (S fuel) p q d
   = Done (every_fourth_diff la lb (Z.to_nat (Z.min d (svcntb vl)))))
  /\ (forall j, 0 <= j < Z.min d (svcntb vl) -> p j = None \/ q j = None ->
                simsimd_hamming_u1x8sve vl (S fuel) p q d = Fault).
Proof.
  intros Hin Hd. split.
  - intros Hp Hq Hla Hlb. apply hamming_u1x8sve_one_pass; assumption.
  - intros j Hj Hnone. apply (hamming_u1x8sve_short vl p q d j); assumption.
Qed.

Lemma hamming_u1x8sve_single_pass_witness :
  simsimd_hamming_u1x8sve 16 1
    (of_list [255; 255; 255; 255; 1; 0; 0; 0]) (of_list [0; 0; 0; 0; 0; 0; 0; 0]) 8
  = Done (every_fourth_diff [255; 255; 255; 255; 1; 0; 0; 0] [0; 0; 0; 0; 0; 0; 0; 0]
            (Z.to_nat (Z.min 8 (svcntb 16)))).
Proof.
  apply (hamming_u1x8sve_single_pass 16
           (of_list [255; 255; 255; 255; 1; 0; 0; 0]) (of_list [0; 0; 0; 0; 0; 0; 0; 0])
           [255; 255; 255; 255; 1; 0; 0; 0] [0; 0; 0; 0; 0; 0; 0; 0] 8 0).
  - left. reflexivity.
  - vm_compute. split; discriminate.
  - apply holds_of_list.
  - apply holds_of_list.
  - vm_compute. discriminate.
  - vm_compute. discriminate.
Defined.

(** X25.  In every IEEE binary format the dot product of a vector of
    finite numbers with a vector of zeros is [+0.0] exactly, whatever the
    signs of the numbers and of the zeros and whichever operand holds the
    zeros, for all four float dot products on the lengths they are written
    for. *)
Theorem dot_with_zero_vector_is_zero (prec emax : Z) (vl : nat)
        (f_mla : mla_form)
        (a b : buffer spec_float) (d : Z) (fuel : nat) :
  0 <= d -> d < Z.of_nat fuel -> d + 8 * svcntb vl < 2 ^ 64 ->
  In vl sve_lengths -> covers a d -> covers b d ->
  all_in a d (fun x => is_finite x = true) ->
  all_in b d (fun x => is_zero x = true) ->
  (simsimd_dot_f32sve vl (ieee prec emax) f_mla fuel a b d = Done (S754_zero false)
   /\ simsimd_dot_f32sve vl (ieee prec emax) f_mla fuel b a d = Done (S754_zero false)
   /\ simsimd_dot_f16sve vl (ieee prec emax) f_mla fuel a b d = Done (S754_zero false)
   /\ simsimd_dot_f16sve vl (ieee prec emax) f_mla fuel b a d = Done (S754_zero false))
  /\ ((4 | d) ->
      simsimd_dot_f32x4neon (ieee prec emax) fuel a b d = Done (S754_zero false)
      /\ simsimd_dot_f32x4neon (ieee prec emax) fuel b a d = Done (S754_zero false)
      /\ simsimd_dot_f32x4avx2 (ieee prec emax) fuel a b d = Done (S754_zero false)
      /\ simsimd_dot_f32x4avx2 (ieee prec emax) fuel b a d = Done (S754_zero false)).
Proof.
  intros Hd Hfuel Hfit Hin Ha Hb Hfin Hzero.
  destruct (sve_lengths_quads vl Hin) as (Hvl & _).
  destruct (length_bounds vl d fuel Hd Hfuel Hfit Hvl)
    as ((? & ?) & (? & ?) & _ & ? & ? & _).
  pose proof (ieee_commutative prec emax) as Hc.
  assert (E1 : simsimd_dot_f32sve vl (ieee prec emax) f_mla fuel a b d
               = Done (S754_zero false))
    by (apply dot_f32sve_zero; assumption).
  assert (E2 : simsimd_dot_f16sve vl (ieee prec emax) f_mla fuel a b d
               = Done (S754_zero false))
    by (apply dot_f16sve_zero; try assumption; lia).
  split.
  - repeat split; try assumption.
    + rewrite <- dot_f32sve_sym by exact Hc. exact E1.
    + rewrite <- dot_f16sve_sym by exact Hc. exact E2.
  - intros Hdiv.
    assert (E3 : simsimd_dot_f32x4neon (ieee prec emax) fuel a b d
                 = Done (S754_zero false))
      by (apply dot_f32x4neon_zero; try assumption; lia).
    assert (E4 : simsimd_dot_f32x4avx2 (ieee prec emax) fuel a b d
                 = Done (S754_zero false))
      by (apply dot_f32x4avx2_zero; try assumption; lia).
    repeat split; try assumption.
    + rewrite <- dot_f32x4neon_sym by exact Hc. exact E3.
    + rewrite <- dot_f32x4avx2_sym by exact Hc. exact E4.
Qed.

Lemma dot_with_zero_vector_is_zero_witness :
  simsimd_dot_f32sve 16 binary32 FMAD 6
    (of_list (map (SFofZ 24 128) [1; -2; 3; -4; 5]))
    (of_list [S754_zero false; S754_zero true; S754_zero false; S754_zero true;
              S754_zero true]) 5
  = Done (S754_zero false).
Proof.
  apply (dot_with_zero_vector_is_zero 24 128 16 FMAD
           (of_list (map (SFofZ 24 128) [1; -2; 3; -4; 5]))
           (of_list [S754_zero false; S754_zero true; S754_zero false;
                     S754_zero true; S754_zero true]) 5 6).
  - lia.
  - lia.
  - vm_compute. reflexivity.
  - left. reflexivity.
  - apply covers_of_list. simpl. lia.
  - apply covers_of_list. simpl. lia.
  - apply all_in_of_list. repeat constructor.
  - apply all_in_of_list. repeat constructor.
Defined.

(** X26.  A NaN among the first [d] elements of either vector makes a
    float dot product return a NaN, in every IEEE binary format and
    whatever the other elements are (infinities and further NaNs
    included): the fixed-width kernels on the multiples of 4, and a
    scalable kernel when the lane of the NaN is not written over in a final
    partial group, that is when [svmla_x] keeps the accumulator in its
    inactive lanes, or [d] is a multiple of the lane count, or the lane of
    the NaN is active in the final group. *)
Theorem float_dot_kernels_propagate_nan (prec emax : Z) (vl : nat)
        (f_mla : mla_form)
        (a b : buffer spec_float) (d j : Z) (fuel : nat) :
  0 <= d -> d < Z.of_nat fuel -> d + 8 * svcntb vl < 2 ^ 64 ->
  In vl sve_lengths -> covers a d -> covers b d ->
  0 <= j < d -> a j = Some S754_nan \/ b j = Some S754_nan ->
  (f_mla = FMLA \/ d mod svcntw vl = 0 \/ j mod svcntw vl < d mod svcntw vl ->
   simsimd_dot_f32sve vl (ieee prec emax) f_mla fuel a b d = Done S754_nan)
  /\ (f_mla = FMLA \/ d mod svcnth vl = 0 \/ j mod svcnth vl < d mod svcnth vl ->
      simsimd_dot_f16sve vl (ieee prec emax) f_mla fuel a b d = Done S754_nan)
  /\ ((4 | d) ->
      simsimd_dot_f32x4neon (ieee prec emax) fuel a b d = Done S754_nan
      /\ simsimd_dot_f32x4avx2 (ieee prec emax) fuel a b d = Done S754_nan).
Proof.
  intros Hd Hfuel Hfit Hin Ha Hb Hj Hnan.
  destruct (sve_lengths_quads vl Hin) as (Hvl & _).
  destruct (length_bounds vl d fuel Hd Hfuel Hfit Hvl)
    as ((? & ?) & (? & ?) & _ & ? & ? & _).
  split; [|split; [|intros Hdiv; split]].
  - intros Hform. apply (dot_f32sve_nan prec emax a b d j); assumption.
  - intros Hform. apply (dot_f16sve_nan prec emax a b d j); assumption.
  - apply (dot_f32x4neon_nan prec emax a b d j); assumption.
  - apply (dot_f32x4avx2_nan prec emax a b d j); assumption.
Qed.

Lemma float_dot_kernels_propagate_nan_witness :
  simsimd_dot_f32sve 16 binary32 FMAD 6
    (of_list (map (SFofZ 24 128) [1; -2; 3; -4; 5]))
    (of_list [S754_zero false; S754_infinity true; S754_zero false;
              S754_zero true; S754_nan]) 5
  = Done S754_nan.
Proof.
  pose proof (float_dot_kernels_propagate_nan 24 128 16 FMAD
                (of_list (map (SFofZ 24 128) [1; -2; 3; -4; 5]))
                (of_list [S754_zero false; S754_infinity true; S754_zero false;
                          S754_zero true; S754_nan]) 5 4 6) as H.
  destruct H as (H32 & _).
  - lia.
  - lia.
  - vm_compute. reflexivity.
  - left. reflexivity.
  - apply covers_of_list. simpl. lia.
  - apply covers_of_list. simpl. lia.
  - lia.
  - right. reflexivity.
  - apply H32. right. right. vm_compute. reflexivity.
Defined.

(** In a final partial group the instruction that writes over a
    multiplicand loses the NaN of a lane that is no longer active: the
    call returns 50, the sum of the products of index 0 and 4. *)
Example nan_lost_in_partial_group :
  simsimd_dot_f32sve 16 binary32 FMAD 6
    (of_list [SFofZ 24 128 1; S754_nan; SFofZ 24 128 3; SFofZ 24 128 4;
              SFofZ 24 128 5])
    (of_list (map (SFofZ 24 128) [5; 6; 7; 8; 9])) 5
  = Done (SFofZ 24 128 50).
Proof. vm_compute. reflexivity. Qed.

(** X27.  A NaN among the first [d] elements of either vector makes a
    cosine kernel return a NaN, in every IEEE binary format: the
    fixed-width kernels on the multiples of 4, and the scalable kernel when
    the lane of the NaN in the accumulator of [a[i] * b[i]] is not written
    over in a final partial group, that is when the [svmla_f32_x] of that
    accumulator keeps it in its inactive lanes, or [d] is a multiple of the
    lane count, or the lane of the NaN is active in the final group. *)
Theorem cosine_kernels_propagate_nan (prec emax : Z) (vl : nat)
        (f_ab f_a2 f_b2 : mla_form)
        (a b : buffer spec_float) (d j : Z) (fuel : nat) :
  0 <= d -> d < Z.of_nat fuel -> d + 8 * svcntb vl < 2 ^ 64 ->
  In vl sve_lengths -> covers a d -> covers b d ->
  0 <= j < d -> a j = Some S754_nan \/ b j = Some S754_nan ->
  (f_ab = FMLA \/ d mod svcntw vl = 0 \/ j mod svcntw vl < d mod svcntw vl ->
   simsimd_cos_f32sve vl (ieee prec emax) f_ab f_a2 f_b2 fuel a b d
   = Done S754_nan)
  /\ ((4 | d) ->
      simsimd_cos_f32x4neon (ieee prec emax) fuel a b d = Done S754_nan
      /\ simsimd_cos_f32x4avx2 (ieee prec emax) fuel a b d = Done S754_nan).
Proof.
  intros Hd Hfuel Hfit Hin Ha Hb Hj Hnan.
  destruct (sve_lengths_quads vl Hin) as (Hvl & _).
  destruct (length_bounds vl d fuel Hd Hfuel Hfit Hvl)
    as ((? & ?) & _ & _ & ? & ? & _).
  split; [|intros Hdiv; split].
  - intros Hform. apply (cos_f32sve_nan prec emax a b d j); assumption.
  - apply (cos_f32x4neon_nan prec emax a b d j); assumption.
  - apply (cos_f32x4avx2_nan prec emax a b d j); assumption.
Qed.

Lemma cosine_kernels_propagate_nan_witness :
  simsimd_cos_f32sve 16 binary32 FMAD FMLA FMAD_swapped 6
    (of_list [SFofZ 24 128 1; SFofZ 24 128 2; SFofZ 24 128 3; SFofZ 24 128 4;
              S754_nan])
    (of_list (map (SFofZ 24 128) [5; 4; 3; 2; 1])) 5
  = Done S754_nan.
Proof.
  pose proof (cosine_kernels_propagate_nan 24 128 16 FMAD FMLA FMAD_swapped
                (of_list [SFofZ 24 128 1; SFofZ 24 128 2; SFofZ 24 128 3;
                          SFofZ 24 128 4; S754_nan])
                (of_list (map (SFofZ 24 128) [5; 4; 3; 2; 1])) 5 4 6) as H.
  destruct H as (Hsve & _).
  - lia.
  - lia.
  - vm_compute. reflexivity.
  - left. reflexivity.
  - apply covers_of_list. simpl. lia.
  - apply covers_of_list. simpl. lia.
  - lia.
  - left. reflexivity.
  - apply Hsve. right. right. vm_compute. reflexivity.
Defined.

(** X28.  A NaN among the first [d] elements of either vector makes a
    Euclidean kernel return a NaN, in every IEEE binary format and
    whichever instruction implements [svsub_x], when the lane of the NaN
    is not written over in a final partial group: when [svmla_x] keeps the
    accumulator in its inactive lanes, or [d] is a multiple of the lane
    count, or the lane of the NaN is active in the final group. *)
Theorem euclidean_kernels_propagate_nan (prec emax : Z) (vl : nat)
        (f_sub : sub_form) (f_mla : mla_form)
        (a b : buffer spec_float) (d j : Z) (fuel : nat) :
  0 <= d -> d < Z.of_nat fuel -> d + 8 * svcntb vl < 2 ^ 64 ->
  In vl sve_lengths -> covers a d -> covers b d ->
  0 <= j < d -> a j = Some S754_nan \/ b j = Some S754_nan ->
  (f_mla = FMLA \/ d mod svcntw vl = 0 \/ j mod svcntw vl < d mod svcntw vl ->
   simsimd_euclidean_f32sve vl (ieee prec emax) f_sub f_mla fuel a b d
   = Done S754_nan)
  /\ (f_mla = FMLA \/ d mod svcnth vl = 0 \/ j mod svcnth vl < d mod svcnth vl ->
      simsimd_euclidean_f16sve vl (ieee prec emax) f_sub f_mla fuel a b d
      = Done S754_nan).
Proof.
  intros Hd Hfuel Hfit Hin Ha Hb Hj Hnan.
  destruct (sve_lengths_quads vl Hin) as (Hvl & _).
  destruct (length_bounds vl d fuel Hd Hfuel Hfit Hvl)
    as ((? & ?) & (? & ?) & _).
  split; intros Hform.
  - apply (euclidean_f32sve_nan prec emax a b d j); assumption.
  - apply (euclidean_f16sve_nan prec emax a b d j); assumption.
Qed.

Lemma euclidean_kernels_propagate_nan_witness :
  simsimd_euclidean_f16sve 32 binary16 FSUBR FMAD 6
    (of_list (map (SFofZ 11 16) [1; -2; 3; -4; 5]))
    (of_list [SFofZ 11 16 1; SFofZ 11 16 2; SFofZ 11 16 3; SFofZ 11 16 4;
              S754_nan]) 5
  = Done S754_nan.
Proof.
  pose proof (euclidean_kernels_propagate_nan 11 16 32 FSUBR FMAD
                (of_list (map (SFofZ 11 16) [1; -2; 3; -4; 5]))
                (of_list [SFofZ 11 16 1; SFofZ 11 16 2; SFofZ 11 16 3;
                          SFofZ 11 16 4; S754_nan]) 5 4 6) as H.
  destruct H as (_ & H16).
  - lia.
  - lia.
  - vm_compute. reflexivity.
  - right. left. reflexivity.
  - apply covers_of_list. simpl. lia.
  - apply covers_of_list. simpl. lia.
  - lia.
  - right. reflexivity.
  - apply H16. right. right. vm_compute. reflexivity.
Defined.
